(** * BeeORM: schema registry, engine pools and lazy flush consumer

    A shallow embedding of [table_schema.go], of the engine's pool
    accessors and of the lazy flush consumer, together with the
    properties of the specification that concern them.

    Go strings are modelled as [string] (a sequence of bytes), Go maps as
    stdpp's [gmap], slices as lists, [int] values that count or index as
    [nat] or [Z].  A Go panic is an explicit outcome. *)

From Stdlib Require Import ZArith Ascii String List Lia Bool DecimalString DecimalN DecimalPos.
From stdpp Require Import base option list gmap strings fin_maps sorting.

Local Open Scope string_scope.
Local Open Scope list_scope.
Local Open Scope nat_scope.

(** String concatenation computes under [simpl], as list append does. *)
#[local] Arguments String.append !_ _.

(** ** Outcomes of Go code that may panic *)

Inductive result (A : Type) : Type :=
| Ok (a : A)
| Panic (msg : string).
Arguments Ok {A} a.
Arguments Panic {A} msg.

(** * Enumerations ([initEnum], [enum]) *)

Module Enum.

(** [type enum struct { fields []string; mapping map[string]int;
    defaultValue string }] *)
Record enum : Type := mkEnum {
  fields : list string;
  mapping : gmap string nat;
  defaultValue : string;
}.

Definition GetFields (e : enum) : list string := fields e.

Definition GetDefault (e : enum) : string := defaultValue e.

(** [_, has := enum.mapping[value]] *)
Definition Has (e : enum) (value : string) : bool :=
  match mapping e !! value with
  | Some _ => true
  | None => false
  end.

(** [enum.mapping[value]]: a missing key reads as the zero value. *)
Definition Index (e : enum) (value : string) : nat :=
  default 0 (mapping e !! value).

(** The loop of [initEnum]: [names] are the values [e.Field(i).String()]
    still to be visited, [i] the loop counter. *)
Fixpoint initEnum_loop (names : list string) (i : nat) (e : enum) : enum :=
  match names with
  | [] => e
  | name :: rest =>
      initEnum_loop rest (S i)
        {| fields := fields e ++ [name];
           mapping := <[name := i + 1]> (mapping e);
           defaultValue := defaultValue e |}
  end.

(** [initEnum(ref, defaultValue...)]: [ref] is given by the values of its
    string fields in declaration order.  [enum.fields[0]] on an empty
    slice is a run-time panic. *)
Definition initEnum (ref : list string) (defaultValue : list string)
  : result enum :=
  let e := initEnum_loop ref 0 {| fields := []; mapping := ∅; defaultValue := "" |} in
  match defaultValue with
  | d :: _ => Ok {| fields := fields e; mapping := mapping e; defaultValue := d |}
  | [] =>
      match fields e with
      | f0 :: _ => Ok {| fields := fields e; mapping := mapping e; defaultValue := f0 |}
      | [] => Panic "index out of range [0] with length 0"
      end
  end.

(** ** Properties of enumerations *)

Lemma initEnum_loop_fields names i e :
  fields (initEnum_loop names i e) = fields e ++ names.
Proof.
  revert i e. induction names as [|name rest IH]; intros i e; simpl.
  - by rewrite app_nil_r.
  - rewrite IH. simpl. by rewrite <- app_assoc.
Qed.

Lemma initEnum_loop_default names i e :
  defaultValue (initEnum_loop names i e) = defaultValue e.
Proof.
  revert i e. induction names as [|name rest IH]; intros i e; simpl; [done|].
  by rewrite IH.
Qed.

(** After the loop, a name that was visited is mapped to the 1-based
    position of its last visit; other keys are untouched. *)
Lemma initEnum_loop_mapping (names : list string) i e v :
  (v ∉ names → mapping (initEnum_loop names i e) !! v = mapping e !! v) ∧
  (v ∈ names → ∃ p, mapping (initEnum_loop names i e) !! v = Some (i + p + 1)
                    ∧ names !! p = Some v
                    ∧ ∀ q, names !! q = Some v → q ≤ p).
Proof.
  revert i e. induction names as [|name rest IH]; intros i e; simpl.
  - split; [done|]. intros H. by apply elem_of_nil in H.
  - destruct (IH (S i) {| fields := fields e ++ [name];
                          mapping := <[name := i + 1]> (mapping e);
                          defaultValue := defaultValue e |}) as [Hout Hin].
    split.
    + intros Hn. apply not_elem_of_cons in Hn as [Hne Hn].
      rewrite (Hout Hn). simpl. by rewrite lookup_insert_ne.
    + intros Hv. destruct (decide (v ∈ rest)) as [Hr|Hr].
      * destruct (Hin Hr) as (p & Hp & Hl & Hmax).
        exists (S p). split; [rewrite Hp; f_equal; lia|]. split; [done|].
        intros [|q] Hq; [lia|]. simpl in Hq. specialize (Hmax q Hq). lia.
      * apply elem_of_cons in Hv as [->|Hv]; [|done].
        exists 0. rewrite (Hout Hr). simpl. rewrite lookup_insert_eq.
        split; [f_equal; lia|]. split; [done|].
        intros [|q] Hq; [lia|]. simpl in Hq.
        exfalso. apply Hr. by eapply list_elem_of_lookup_2.
Qed.

(** [initEnum] panics exactly when the struct has no field and no default
    value is supplied. *)
Lemma initEnum_panics ref dv :
  (∃ msg, initEnum ref dv = Panic msg) ↔ ref = [] ∧ dv = [].
Proof.
  unfold initEnum. rewrite initEnum_loop_fields. simpl.
  destruct dv as [|d dv'], ref as [|r ref']; simpl; split;
    try (intros [msg H]; discriminate); try (intros [H1 H2]; discriminate); eauto.
Qed.

(** C10: for an enum built from the string fields [ref] (with an optional
    default), [GetFields] is [ref] in declaration order; [Has v] holds
    exactly for the members of [ref]; [Index v] is a 1-based position at
    which [v] stands in [ref] (the last one, should a value be repeated) and
    0 for a value that is not a field; [GetDefault] is the supplied default,
    or else the first field.  The enum is built whenever the struct has a
    field or a default is given. *)
Theorem initEnum_accessors (ref dv : list string) :
  ref ≠ [] ∨ dv ≠ [] →
  ∃ e, initEnum ref dv = Ok e
    ∧ GetFields e = ref
    ∧ (∀ v, v ∈ ref →
         Has e v = true
         ∧ ∃ p, Index e v = S p ∧ ref !! p = Some v
                ∧ ∀ q, ref !! q = Some v → q ≤ p)
    ∧ (∀ v, v ∉ ref → Has e v = false ∧ Index e v = 0)
    ∧ GetDefault e = match dv with
                     | d :: _ => d
                     | [] => default "" (head ref)
                     end.
Proof.
  intros Hne.
  set (e0 := {| fields := []; mapping := ∅; defaultValue := "" |}).
  assert (Hf : fields (initEnum_loop ref 0 e0) = ref)
    by (rewrite initEnum_loop_fields; done).
  assert (Hm : ∀ v,
    (v ∉ ref → mapping (initEnum_loop ref 0 e0) !! v = None) ∧
    (v ∈ ref → ∃ p, mapping (initEnum_loop ref 0 e0) !! v = Some (S p)
                    ∧ ref !! p = Some v ∧ ∀ q, ref !! q = Some v → q ≤ p)).
  { intros v. destruct (initEnum_loop_mapping ref 0 e0 v) as [Hout Hin]. split.
    - intros Hn. rewrite (Hout Hn). apply lookup_empty.
    - intros Hv. destruct (Hin Hv) as (p & Hp & Hl & Hmax).
      exists p. split; [rewrite Hp; f_equal; lia|done]. }
  assert (Hacc : ∀ d, let e := {| fields := fields (initEnum_loop ref 0 e0);
                                  mapping := mapping (initEnum_loop ref 0 e0);
                                  defaultValue := d |} in
    GetFields e = ref
    ∧ (∀ v, v ∈ ref → Has e v = true
         ∧ ∃ p, Index e v = S p ∧ ref !! p = Some v
                ∧ ∀ q, ref !! q = Some v → q ≤ p)
    ∧ (∀ v, v ∉ ref → Has e v = false ∧ Index e v = 0)).
  { intros d e. split; [exact Hf|]. split.
    - intros v Hv. destruct (Hm v) as [_ Hin].
      destruct (Hin Hv) as (p & Hp & Hl & Hmax).
      unfold Has, Index. simpl. rewrite Hp. simpl. eauto.
    - intros v Hv. destruct (Hm v) as [Hout _].
      unfold Has, Index. simpl. by rewrite (Hout Hv). }
  unfold initEnum. fold e0. destruct dv as [|d dv'].
  - destruct ref as [|r ref']; [by destruct Hne|].
    rewrite Hf. eexists. split; [reflexivity|].
    destruct (Hacc r) as (H1 & H2 & H3). repeat split; try done.
    + by apply H2.
    + by apply H2.
    + by apply H3.
    + by apply H3.
  - eexists. split; [reflexivity|].
    destruct (Hacc d) as (H1 & H2 & H3). repeat split; try done.
    + by apply H2.
    + by apply H2.
    + by apply H3.
    + by apply H3.
Qed.

Lemma initEnum_accessors_witness :
  ∃ e, initEnum ["red"; "green"; "red"] [] = Ok e
    ∧ GetFields e = ["red"; "green"; "red"]
    ∧ (∀ v, v ∈ ["red"; "green"; "red"] →
         Has e v = true
         ∧ ∃ p, Index e v = S p ∧ ["red"; "green"; "red"] !! p = Some v
                ∧ ∀ q, ["red"; "green"; "red"] !! q = Some v → q ≤ p)
    ∧ (∀ v, v ∉ ["red"; "green"; "red"] → Has e v = false ∧ Index e v = 0)
    ∧ GetDefault e = "red".
Proof.
  apply (initEnum_accessors ["red"; "green"; "red"] []). left. discriminate.
Defined.

(** A repeated value is indexed by its last position. *)
Example initEnum_repeated_value :
  (match initEnum ["red"; "green"; "red"] [] with
   | Ok e => Some (Index e "red", Index e "green", Index e "blue", GetDefault e)
   | Panic _ => None
   end) = Some (3, 2, 0, "red").
Proof. vm_compute. reflexivity. Qed.

End Enum.

(** * The engine's pool accessors ([GetMysql], [GetLocalCache], [GetRedis]) *)

Module Engine.

(** The pool configurations held by the validated registry.  Only what the
    accessors read is kept: the pool code and, for a local cache, its
    limit. *)
Record MySQLPoolConfig : Type := { mysql_code : string }.

Record localCachePoolConfig : Type := { code : string; limit : Z }.

Record RedisPoolConfig : Type := { redis_code : string }.

Record validatedRegistry : Type := {
  mySQLServers : gmap string MySQLPoolConfig;
  localCacheServers : gmap string localCachePoolConfig;
  redisServers : gmap string RedisPoolConfig;
}.

(** The accessors hand out pointers ([*DB], [*LocalCache], [*RedisCache]).
    A pointer is modelled by the address of the object, taken from the
    allocation counter [next_addr] kept with the engine; two handles are
    the same instance when they are equal, address included.
    [lru_max] is the bound given to [lru.New]. *)
Record DB : Type := { db_addr : nat; db_config : MySQLPoolConfig }.

Record LocalCache : Type := {
  lc_addr : nat;
  lc_config : localCachePoolConfig;
  lru_max : Z;
}.

Record RedisCache : Type := { rc_addr : nat; rc_config : RedisPoolConfig }.

(** [type Engine struct]: the registry and the three memo maps.  A [nil]
    map reads as the empty map, and the accessors replace a [nil] map by a
    singleton, so both are the empty [gmap] here. *)
Record Engine : Type := {
  registry : validatedRegistry;
  dbs : gmap string DB;
  localCache : gmap string LocalCache;
  redis : gmap string RedisCache;
  next_addr : nat;
}.

(** [Clone] keeps the registry (and the context) and starts with no
    memoised handle. *)
Definition Clone (e : Engine) : Engine :=
  {| registry := registry e; dbs := ∅; localCache := ∅; redis := ∅;
     next_addr := next_addr e |}.

(** [dbCode := "default"; if len(code) > 0 { dbCode = code[0] }] *)
Definition dbCodeOf (code : list string) : string :=
  match code with
  | c :: _ => c
  | [] => "default"
  end.

Definition GetMysql (code : list string) (e : Engine) : result (DB * Engine) :=
  let dbCode := dbCodeOf code in
  match dbs e !! dbCode with
  | Some db => Ok (db, e)
  | None =>
      match mySQLServers (registry e) !! dbCode with
      | None => Panic ("unregistered mysql pool '" ++ dbCode ++ "'")
      | Some config =>
          let db := {| db_addr := next_addr e; db_config := config |} in
          Ok (db, {| registry := registry e;
                     dbs := <[dbCode := db]> (dbs e);
                     localCache := localCache e;
                     redis := redis e;
                     next_addr := S (next_addr e) |})
      end
  end.

Definition GetRedis (code : list string) (e : Engine) : result (RedisCache * Engine) :=
  let dbCode := dbCodeOf code in
  match redis e !! dbCode with
  | Some cache => Ok (cache, e)
  | None =>
      match redisServers (registry e) !! dbCode with
      | None => Panic ("unregistered redis cache pool '" ++ dbCode ++ "'")
      | Some config =>
          let cache := {| rc_addr := next_addr e; rc_config := config |} in
          Ok (cache, {| registry := registry e;
                        dbs := dbs e;
                        localCache := localCache e;
                        redis := <[dbCode := cache]> (redis e);
                        next_addr := S (next_addr e) |})
      end
  end.

Section RequestCache.

(** The reserved pool code of the request cache, a constant of the package
    declared outside the files at hand. *)
Variable requestCacheKey : string.

Definition memoLocalCache (dbCode : string) (cache : LocalCache) (e : Engine) : Engine :=
  {| registry := registry e;
     dbs := dbs e;
     localCache := <[dbCode := cache]> (localCache e);
     redis := redis e;
     next_addr := S (next_addr e) |}.

Definition GetLocalCache (code : list string) (e : Engine)
  : result (LocalCache * Engine) :=
  let dbCode := dbCodeOf code in
  match localCache e !! dbCode with
  | Some cache => Ok (cache, e)
  | None =>
      match localCacheServers (registry e) !! dbCode with
      | None =>
          if decide (dbCode = requestCacheKey) then
            let cache := {| lc_addr := next_addr e;
                            lc_config := {| code := dbCode; limit := 5000%Z |};
                            lru_max := 5000%Z |} in
            Ok (cache, memoLocalCache dbCode cache e)
          else Panic ("unregistered local cache pool '" ++ dbCode ++ "'")
      | Some config =>
          let cache := {| lc_addr := next_addr e;
                          lc_config := config;
                          lru_max := limit config |} in
          Ok (cache, memoLocalCache dbCode cache e)
      end
  end.

(** One successful call of an accessor takes the engine from [e] to [e']. *)
Inductive call : Engine → Engine → Prop :=
| call_mysql code e db e' : GetMysql code e = Ok (db, e') → call e e'
| call_local code e c e' : GetLocalCache code e = Ok (c, e') → call e e'
| call_redis code e c e' : GetRedis code e = Ok (c, e') → call e e'.

(** Any number of later calls. *)
Inductive calls : Engine → Engine → Prop :=
| calls_none e : calls e e
| calls_more e e' e'' : call e e' → calls e' e'' → calls e e''.

(** What holds of every engine made by [Clone] (or created with empty memo
    maps) and then used through the accessors: a memoised handle belongs to
    a registered pool, the request cache apart. *)
Record engine_wf (e : Engine) : Prop := {
  wf_dbs : ∀ k, is_Some (dbs e !! k) → is_Some (mySQLServers (registry e) !! k);
  wf_local : ∀ k, is_Some (localCache e !! k) →
                  is_Some (localCacheServers (registry e) !! k) ∨ k = requestCacheKey;
  wf_redis : ∀ k, is_Some (redis e !! k) → is_Some (redisServers (registry e) !! k);
}.

(** ** Properties of the accessors *)

Lemma Clone_wf e : engine_wf (Clone e).
Proof.
  split; simpl; intros k [x Hx]; by rewrite lookup_empty in Hx.
Qed.

Lemma GetLocalCache_memoised code e c :
  localCache e !! dbCodeOf code = Some c → GetLocalCache code e = Ok (c, e).
Proof. intros H. unfold GetLocalCache. by rewrite H. Qed.

Lemma GetLocalCache_memoises code e c e' :
  GetLocalCache code e = Ok (c, e') → localCache e' !! dbCodeOf code = Some c.
Proof.
  unfold GetLocalCache. intros H.
  destruct (localCache e !! dbCodeOf code) as [c0|] eqn:Hm.
  - by simplify_eq.
  - destruct (localCacheServers (registry e) !! dbCodeOf code) as [cfg|].
    + simplify_eq. simpl. apply lookup_insert_eq.
    + case_decide; [|done]. simplify_eq. simpl. apply lookup_insert_eq.
Qed.

Lemma call_registry e e' : call e e' → registry e' = registry e.
Proof.
  intros [code e0 db e1 H|code e0 c e1 H|code e0 c e1 H].
  - unfold GetMysql in H. repeat case_match; by simplify_eq.
  - unfold GetLocalCache in H. repeat case_match; by simplify_eq.
  - unfold GetRedis in H. repeat case_match; by simplify_eq.
Qed.

(** A memoised local cache is never replaced. *)
Lemma call_keeps_local e e' k c :
  call e e' → localCache e !! k = Some c → localCache e' !! k = Some c.
Proof.
  intros [code e0 db e1 H|code e0 c0 e1 H|code e0 c0 e1 H] Hk.
  - unfold GetMysql in H. repeat case_match; by simplify_eq.
  - unfold GetLocalCache in H.
    destruct (localCache e0 !! dbCodeOf code) as [c1|] eqn:Hm; [by simplify_eq|].
    assert (dbCodeOf code ≠ k) by congruence.
    repeat case_match; simplify_eq; simpl; by rewrite lookup_insert_ne.
  - unfold GetRedis in H. repeat case_match; by simplify_eq.
Qed.

Lemma calls_keeps_local e e' k c :
  calls e e' → localCache e !! k = Some c → localCache e' !! k = Some c.
Proof.
  induction 1 as [|e0 e1 e2 Hc _ IH]; [done|].
  intros Hk. apply IH. by eapply call_keeps_local.
Qed.

Lemma call_wf e e' : engine_wf e → call e e' → engine_wf e'.
Proof.
  intros [Hd Hl Hr] Hc.
  destruct Hc as [code e0 db e1 H|code e0 c0 e1 H|code e0 c0 e1 H].
  - unfold GetMysql in H.
    destruct (dbs e0 !! dbCodeOf code) eqn:Hm; [by simplify_eq|].
    destruct (mySQLServers (registry e0) !! dbCodeOf code) eqn:Hreg; [|done].
    simplify_eq. split; simpl; [|done..].
    intros k Hk. destruct (decide (dbCodeOf code = k)) as [<-|Hne]; [by eexists|].
    rewrite lookup_insert_ne in Hk by done. by apply Hd.
  - unfold GetLocalCache in H.
    destruct (localCache e0 !! dbCodeOf code) eqn:Hm; [by simplify_eq|].
    destruct (localCacheServers (registry e0) !! dbCodeOf code) eqn:Hreg.
    + simplify_eq. split; simpl; [done| |done].
      intros k Hk. destruct (decide (dbCodeOf code = k)) as [<-|Hne]; [left; by eexists|].
      rewrite lookup_insert_ne in Hk by done. by apply Hl.
    + case_decide as Hreq; [|done]. simplify_eq. split; simpl; [done| |done].
      intros k Hk. destruct (decide (dbCodeOf code = k)) as [<-|Hne]; [by right|].
      rewrite lookup_insert_ne in Hk by done. by apply Hl.
  - unfold GetRedis in H.
    destruct (redis e0 !! dbCodeOf code) eqn:Hm; [by simplify_eq|].
    destruct (redisServers (registry e0) !! dbCodeOf code) eqn:Hreg; [|done].
    simplify_eq. split; simpl; [done..|].
    intros k Hk. destruct (decide (dbCodeOf code = k)) as [<-|Hne]; [by eexists|].
    rewrite lookup_insert_ne in Hk by done. by apply Hr.
Qed.

Lemma calls_wf e e' : engine_wf e → calls e e' → engine_wf e'.
Proof.
  intros Hwf Hcs. induction Hcs as [|e0 e1 e2 Hc _ IH]; [done|].
  apply IH. by eapply call_wf.
Qed.

(** Once handed out, a local cache is the one every later call returns. *)
Lemma GetLocalCache_stable code e c e' e'' :
  GetLocalCache code e = Ok (c, e') → calls e' e'' →
  GetLocalCache code e'' = Ok (c, e'').
Proof.
  intros H Hcs. apply GetLocalCache_memoised.
  eapply calls_keeps_local; [done|]. by eapply GetLocalCache_memoises.
Qed.

Lemma GetLocalCache_request_ok e :
  ∃ c e', GetLocalCache [requestCacheKey] e = Ok (c, e')
    ∧ (localCache e !! requestCacheKey = None →
       localCacheServers (registry e) !! requestCacheKey = None →
       code (lc_config c) = requestCacheKey ∧ limit (lc_config c) = 5000%Z
       ∧ lru_max c = 5000%Z ∧ localCache e' !! requestCacheKey = Some c).
Proof.
  unfold GetLocalCache. simpl.
  destruct (localCache e !! requestCacheKey) as [c|] eqn:Hm.
  { exists c, e. split; [done|]. intros; done. }
  destruct (localCacheServers (registry e) !! requestCacheKey) as [cfg|] eqn:Hreg.
  { eexists _, _. split; [done|]. intros; done. }
  rewrite decide_True by done.
  eexists _, _. split; [done|]. intros _ _. simpl.
  by rewrite lookup_insert_eq.
Qed.

Lemma GetLocalCache_unregistered e code :
  engine_wf e → dbCodeOf code ≠ requestCacheKey →
  localCacheServers (registry e) !! dbCodeOf code = None →
  GetLocalCache code e
  = Panic ("unregistered local cache pool '" ++ dbCodeOf code ++ "'").
Proof.
  intros [_ Hl _] Hne Hreg. unfold GetLocalCache.
  destruct (localCache e !! dbCodeOf code) as [c|] eqn:Hm.
  - destruct (Hl (dbCodeOf code)) as [[x Hx]|?]; [by eexists|congruence|done].
  - rewrite Hreg. by rewrite decide_False.
Qed.

Lemma GetMysql_unregistered e code :
  engine_wf e → mySQLServers (registry e) !! dbCodeOf code = None →
  GetMysql code e = Panic ("unregistered mysql pool '" ++ dbCodeOf code ++ "'").
Proof.
  intros [Hd _ _] Hreg. unfold GetMysql.
  destruct (dbs e !! dbCodeOf code) as [c|] eqn:Hm.
  - destruct (Hd (dbCodeOf code)) as [x Hx]; [by eexists|congruence].
  - by rewrite Hreg.
Qed.

Lemma GetRedis_unregistered e code :
  engine_wf e → redisServers (registry e) !! dbCodeOf code = None →
  GetRedis code e = Panic ("unregistered redis cache pool '" ++ dbCodeOf code ++ "'").
Proof.
  intros [_ _ Hr] Hreg. unfold GetRedis.
  destruct (redis e !! dbCodeOf code) as [c|] eqn:Hm.
  - destruct (Hr (dbCodeOf code)) as [x Hx]; [by eexists|congruence].
  - by rewrite Hreg.
Qed.

Lemma GetLocalCache_registered e code :
  is_Some (localCacheServers (registry e) !! dbCodeOf code) →
  ∃ c e', GetLocalCache code e = Ok (c, e').
Proof.
  intros [cfg Hreg]. unfold GetLocalCache.
  destruct (localCache e !! dbCodeOf code) as [c|]; [by eexists _, _|].
  rewrite Hreg. by eexists _, _.
Qed.

(** C9: [GetLocalCache] with the reserved request-cache code never fails:
    when the pool is neither memoised nor registered it creates a cache of
    limit 5000 and memoises it.  On an engine used only through its
    accessors, [GetLocalCache] with any other unregistered code, and
    [GetMysql] and [GetRedis] with any unregistered code, panic with the
    "unregistered ... pool" error.  For a registered code (and for the
    request cache) the instance first returned is returned by every later
    call. *)
Theorem pool_accessors :
  (∀ e, ∃ c e',
      GetLocalCache [requestCacheKey] e = Ok (c, e')
      ∧ (localCache e !! requestCacheKey = None →
         localCacheServers (registry e) !! requestCacheKey = None →
         code (lc_config c) = requestCacheKey ∧ limit (lc_config c) = 5000%Z
         ∧ lru_max c = 5000%Z ∧ localCache e' !! requestCacheKey = Some c)
      ∧ ∀ e'', calls e' e'' → GetLocalCache [requestCacheKey] e'' = Ok (c, e''))
  ∧ (∀ e code, engine_wf e → dbCodeOf code ≠ requestCacheKey →
       localCacheServers (registry e) !! dbCodeOf code = None →
       GetLocalCache code e
       = Panic ("unregistered local cache pool '" ++ dbCodeOf code ++ "'"))
  ∧ (∀ e code, engine_wf e →
       mySQLServers (registry e) !! dbCodeOf code = None →
       GetMysql code e
       = Panic ("unregistered mysql pool '" ++ dbCodeOf code ++ "'"))
  ∧ (∀ e code, engine_wf e →
       redisServers (registry e) !! dbCodeOf code = None →
       GetRedis code e
       = Panic ("unregistered redis cache pool '" ++ dbCodeOf code ++ "'"))
  ∧ (∀ e code, is_Some (localCacheServers (registry e) !! dbCodeOf code) →
       ∃ c e', GetLocalCache code e = Ok (c, e')
         ∧ ∀ e'', calls e' e'' → GetLocalCache code e'' = Ok (c, e'')).
Proof.
  split; [|split; [|split; [|split]]].
  - intros e. destruct (GetLocalCache_request_ok e) as (c & e' & Hok & Hnew).
    exists c, e'. split; [done|]. split; [done|].
    intros e'' Hcs. by eapply GetLocalCache_stable.
  - apply GetLocalCache_unregistered.
  - apply GetMysql_unregistered.
  - apply GetRedis_unregistered.
  - intros e code Hreg.
    destruct (GetLocalCache_registered e code Hreg) as (c & e' & Hok).
    exists c, e'. split; [done|]. intros e'' Hcs. by eapply GetLocalCache_stable.
Qed.

End RequestCache.

(** A registry with one local cache pool, and an engine fresh from [Clone]. *)
Definition sampleRegistry : validatedRegistry :=
  {| mySQLServers := {[ "default" := {| mysql_code := "default" |} ]};
     localCacheServers := {[ "default" := {| code := "default"; limit := 100%Z |} ]};
     redisServers := ∅ |}.

Definition sampleEngine : Engine :=
  {| registry := sampleRegistry; dbs := ∅; localCache := ∅; redis := ∅;
     next_addr := 0 |}.

Example request_cache_created :
  GetLocalCache "_request" ["_request"] sampleEngine
  = Ok ({| lc_addr := 0;
           lc_config := {| code := "_request"; limit := 5000%Z |};
           lru_max := 5000%Z |},
        memoLocalCache "_request"
          {| lc_addr := 0;
             lc_config := {| code := "_request"; limit := 5000%Z |};
             lru_max := 5000%Z |} sampleEngine).
Proof. reflexivity. Qed.

Example other_local_cache_panics :
  GetLocalCache "_request" ["sessions"] sampleEngine
  = Panic "unregistered local cache pool 'sessions'".
Proof. reflexivity. Qed.

Example redis_panics :
  GetRedis [] sampleEngine = Panic "unregistered redis cache pool 'default'".
Proof. reflexivity. Qed.

Example default_local_cache_limit :
  (match GetLocalCache "_request" [] sampleEngine with
   | Ok (c, _) => Some (limit (lc_config c))
   | Panic _ => None
   end) = Some 100%Z.
Proof. reflexivity. Qed.

End Engine.

(** * The lazy flush consumer ([Digest], [handleEvents]) *)

Module LazyFlush.

(** [mysql.MySQLError] *)
Record MySQLError : Type := { Number : nat; Message : string }.

(** What a [recover()] may return: a [*mysql.MySQLError], or any other
    value (a run-time error included). *)
Inductive panic_value : Type :=
| MySQLPanic (err : MySQLError)
| OtherPanic (msg : string).

(** How a call ends: it returns, or it panics. *)
Inductive outcome : Type :=
| Returned
| Panicked (p : panic_value).

Section Consumer.

(** The flush records carried by the stream ([entitySQLFlush]) and the
    state of the stores behind the engine are left abstract, as are the
    flusher's [execute(false, true)] and [flushCacheSetters()], which run
    against those stores and either return or panic. *)
Variable entitySQLFlush : Type.
Variable World : Type.
Variable execute : list entitySQLFlush → World → World * outcome.
Variable flushCacheSetters : World → World * outcome.

(** An event of the broker: its delivery id and the flush records that
    [Unserialize] yields. *)
Record Event : Type := { ID : string; data : list entitySQLFlush }.

(** [type LazyFlushQueryErrorResolver func(engine, event, queryError) error];
    [true] stands for a [nil] error. *)
Definition LazyFlushQueryErrorResolver : Type :=
  entitySQLFlush → MySQLError → World → World * bool.

Record LazyFlushConsumer : Type := {
  lazyFlushQueryErrorResolvers : list LazyFlushQueryErrorResolver;
}.

Definition RegisterLazyFlushQueryErrorResolver
    (r : LazyFlushConsumer) (resolver : LazyFlushQueryErrorResolver)
  : LazyFlushConsumer :=
  {| lazyFlushQueryErrorResolvers := lazyFlushQueryErrorResolvers r ++ [resolver] |}.

(** The stores, and the ids of the events acknowledged so far, oldest
    first. *)
Record state : Type := { world : World; acked : list string }.

Definition Ack (ev : Event) (st : state) : state :=
  {| world := world st; acked := acked st ++ [ID ev] |}.

(** [for _, errorResolver := range r.lazyFlushQueryErrorResolvers]: the
    resolvers are tried in order until one returns [nil]. *)
Fixpoint runResolvers (resolvers : list LazyFlushQueryErrorResolver)
    (e : entitySQLFlush) (mySQLError : MySQLError) (w : World) : World * bool :=
  match resolvers with
  | [] => (w, false)
  | errorResolver :: rest =>
      match errorResolver e mySQLError w with
      | (w', true) => (w', true)
      | (w', false) => runResolvers rest e mySQLError w'
      end
  end.

(** [events[i].Ack()]: an index past the end of [events] is a run-time
    panic. *)
Definition ackAt (events : list Event) (i : nat) (st : state) : state * outcome :=
  match events !! i with
  | Some ev => (Ack ev st, Returned)
  | None => (st, Panicked (OtherPanic "index out of range"))
  end.

(** The loop [for i, e := range lazyEvents] of the deferred function of
    [handleEvents], entered with [rec] a MySQL error.  [i] is the index of
    the first record of [rest] in [lazyEvents].  The inner deferred
    function reads [rec], the error of the batch, where it tests and
    converts the recovered value, and hands that error to the
    resolvers. *)
Fixpoint replay (r : LazyFlushConsumer) (events : list Event) (rec : MySQLError)
    (i : nat) (rest : list entitySQLFlush) (st : state) : state * outcome :=
  match rest with
  | [] => (st, Returned)
  | e :: rest' =>
      match execute [e] (world st) with
      | (w, Returned) =>
          match ackAt events i {| world := w; acked := acked st |} with
          | (st', Returned) => replay r events rec (S i) rest' st'
          | (st', Panicked p) => (st', Panicked p)
          end
      | (w, Panicked rec2) =>
          match runResolvers (lazyFlushQueryErrorResolvers r) e rec w with
          | (w', true) =>
              match ackAt events i {| world := w'; acked := acked st |} with
              | (st', Returned) => replay r events rec (S i) rest' st'
              | (st', Panicked p) => (st', Panicked p)
              end
          | (w', false) => ({| world := w'; acked := acked st |}, Panicked rec2)
          end
      end
  end.

(** The body of [handleEvents]: execute the whole batch, then flush the
    cache setters. *)
Definition handleEvents_body (lazyEvents : list entitySQLFlush) (w : World)
  : World * outcome :=
  match execute lazyEvents w with
  | (w', Returned) => flushCacheSetters w'
  | (w', Panicked p) => (w', Panicked p)
  end.

(** [handleEvents]: the body under its deferred [recover()]. *)
Definition handleEvents (r : LazyFlushConsumer) (events : list Event)
    (lazyEvents : list entitySQLFlush) (st : state) : state * outcome :=
  match handleEvents_body lazyEvents (world st) with
  | (w, Returned) => ({| world := w; acked := acked st |}, Returned)
  | (w, Panicked (OtherPanic msg)) =>
      ({| world := w; acked := acked st |}, Panicked (OtherPanic msg))
  | (w, Panicked (MySQLPanic rec)) =>
      replay r events rec 0 lazyEvents {| world := w; acked := acked st |}
  end.

(** The handler that [Digest] passes to [Consume]: the records of all the
    events of the batch, concatenated, go to [handleEvents]. *)
Definition digestHandler (r : LazyFlushConsumer) (events : list Event) (st : state)
  : state * outcome :=
  handleEvents r events (concat (map data events)) st.

(** ** What the specification says of the replay *)

(** The events replayed one at a time: an event is acknowledged when the
    execution of its records succeeds or a resolver takes the failure, and
    the first failure that no resolver takes propagates. *)
Fixpoint replayEvents (r : LazyFlushConsumer) (rec : MySQLError)
    (events : list Event) (st : state) : state * outcome :=
  match events with
  | [] => (st, Returned)
  | ev :: rest =>
      match execute (data ev) (world st) with
      | (w, Returned) =>
          replayEvents r rec rest (Ack ev {| world := w; acked := acked st |})
      | (w, Panicked rec2) =>
          match data ev with
          | [] => ({| world := w; acked := acked st |}, Panicked rec2)
          | e :: _ =>
              match runResolvers (lazyFlushQueryErrorResolvers r) e rec w with
              | (w', true) =>
                  replayEvents r rec rest (Ack ev {| world := w'; acked := acked st |})
              | (w', false) => ({| world := w'; acked := acked st |}, Panicked rec2)
              end
          end
      end
  end.

(** ** Properties of the consumer *)

(** The resolvers are consulted in the order of registration, and a later
    one only when all the earlier ones have returned an error. *)
Lemma runResolvers_app (l1 l2 : list LazyFlushQueryErrorResolver)
    (e : entitySQLFlush) (err : MySQLError) (w : World) :
  runResolvers (l1 ++ l2) e err w
  = match runResolvers l1 e err w with
    | (w', true) => (w', true)
    | (w', false) => runResolvers l2 e err w'
    end.
Proof.
  revert w. induction l1 as [|f l1 IH]; intros w; simpl; [done|].
  destruct (f e err w) as [w' [|]]; [done|]. apply IH.
Qed.

(** A resolver registered later is asked only when those registered before
    it have all declined. *)
Lemma RegisterLazyFlushQueryErrorResolver_last (r : LazyFlushConsumer)
    (resolver : LazyFlushQueryErrorResolver)
    (e : entitySQLFlush) (err : MySQLError) (w : World) :
  runResolvers
    (lazyFlushQueryErrorResolvers (RegisterLazyFlushQueryErrorResolver r resolver))
    e err w
  = match runResolvers (lazyFlushQueryErrorResolvers r) e err w with
    | (w', true) => (w', true)
    | (w', false) => resolver e err w'
    end.
Proof.
  unfold RegisterLazyFlushQueryErrorResolver. cbn [lazyFlushQueryErrorResolvers].
  rewrite runResolvers_app. destruct (runResolvers _ e err w) as [w' [|]]; [done|].
  simpl. by destruct (resolver e err w') as [w'' [|]].
Qed.

Lemma replay_single_records (r : LazyFlushConsumer) (rec : MySQLError)
    (before events : list Event) (st : state) :
  Forall (λ ev, length (data ev) = 1) events →
  replay r (before ++ events) rec (length before) (concat (map data events)) st
  = replayEvents r rec events st.
Proof.
  revert before st. induction events as [|ev rest IH]; intros before st HF; [done|].
  apply Forall_cons in HF as [Hev HF].
  destruct (data ev) as [|e [|? ?]] eqn:Hdata; try discriminate.
  cbn [map concat replayEvents]. rewrite Hdata. cbn [app replay].
  assert (Hack : ∀ st', ackAt (before ++ ev :: rest) (length before) st'
                        = (Ack ev st', Returned)).
  { intros st'. unfold ackAt. rewrite lookup_app_r by lia.
    by rewrite Nat.sub_diag. }
  assert (Hnext : ∀ st',
            replay r (before ++ ev :: rest) rec (S (length before))
              (concat (map data rest)) st'
            = replayEvents r rec rest st').
  { intros st'. specialize (IH (before ++ [ev]) st' HF).
    rewrite <- app_assoc, length_app in IH. cbn [app length] in IH.
    rewrite Nat.add_1_r in IH. exact IH. }
  destruct (execute [e] (world st)) as [w [|rec2]].
  - rewrite Hack. apply Hnext.
  - destruct (runResolvers _ e rec w) as [w' [|]]; [|done].
    rewrite Hack. apply Hnext.
Qed.

(** With one flush record in every event, a batch that fails with a MySQL
    error is replayed event by event, and an event is acknowledged exactly
    when its own replay succeeds or is resolved. *)
Theorem digestHandler_single_records (r : LazyFlushConsumer)
    (events : list Event) (st : state) (w : World) (rec : MySQLError) :
  Forall (λ ev, length (data ev) = 1) events →
  handleEvents_body (concat (map data events)) (world st)
  = (w, Panicked (MySQLPanic rec)) →
  digestHandler r events st
  = replayEvents r rec events {| world := w; acked := acked st |}.
Proof.
  intros HF Hbody. unfold digestHandler, handleEvents. rewrite Hbody.
  by apply (replay_single_records r rec []).
Qed.

(** A batch that succeeds acknowledges nothing by itself (the broker does,
    once the handler has returned), and any other panic goes through. *)
Lemma handleEvents_no_mysql_error (r : LazyFlushConsumer) (events : list Event)
    (lazyEvents : list entitySQLFlush) (st : state) (w : World) :
  (handleEvents_body lazyEvents (world st) = (w, Returned) →
   handleEvents r events lazyEvents st = ({| world := w; acked := acked st |}, Returned))
  ∧ (∀ msg, handleEvents_body lazyEvents (world st) = (w, Panicked (OtherPanic msg)) →
     handleEvents r events lazyEvents st
     = ({| world := w; acked := acked st |}, Panicked (OtherPanic msg))).
Proof.
  unfold handleEvents. split; [intros ->; done|]. intros msg ->. done.
Qed.

End Consumer.

Arguments ID {entitySQLFlush} _.
Arguments data {entitySQLFlush} _.
Arguments Build_Event {entitySQLFlush} _ _.
Arguments world {World} _.
Arguments acked {World} _.
Arguments Build_state {World} _ _.
Arguments lazyFlushQueryErrorResolvers {entitySQLFlush World} _.
Arguments Build_LazyFlushConsumer {entitySQLFlush World} _.

(** ** A relational store to run the consumer against

    Flush records are numbered.  The store keeps the records written and,
    for the sake of observation, the calls the resolvers received.  A
    batch is executed statement by statement and panics with the error of
    its first failing statement, leaving the store as it was. *)

Record Store : Type := {
  written : list nat;
  resolverCalls : list (nat * MySQLError);
}.

Definition duplicateEntry : MySQLError :=
  {| Number := 1062; Message := "Duplicate entry" |}.

Definition dataTooLong : MySQLError :=
  {| Number := 1406; Message := "Data too long" |}.

(** Record 2 violates a unique key, record 3 holds a value that is too
    long; every other record is accepted. *)
Definition statementError (f : nat) : option MySQLError :=
  match f with
  | 2 => Some duplicateEntry
  | 3 => Some dataTooLong
  | _ => None
  end.

Fixpoint runStatements (fs : list nat) (w : Store) : Store * outcome :=
  match fs with
  | [] => (w, Returned)
  | f :: rest =>
      match statementError f with
      | Some err => (w, Panicked (MySQLPanic err))
      | None =>
          runStatements rest
            {| written := written w ++ [f]; resolverCalls := resolverCalls w |}
      end
  end.

(** The statements of a batch are written together or not at all. *)
Definition storeExecute (fs : list nat) (w : Store) : Store * outcome :=
  match runStatements fs w with
  | (w', Returned) => (w', Returned)
  | (_, Panicked p) => (w, Panicked p)
  end.

Definition storeFlushCacheSetters (w : Store) : Store * outcome := (w, Returned).

(** A resolver that lets duplicate entries go and declines everything
    else. *)
Definition skipDuplicates : LazyFlushQueryErrorResolver nat Store :=
  fun e queryError w =>
    ({| written := written w; resolverCalls := resolverCalls w ++ [(e, queryError)] |},
     Nat.eqb (Number queryError) 1062).

Definition emptyStore : state Store :=
  {| world := {| written := []; resolverCalls := [] |}; acked := [] |}.

Definition storeDigest (r : LazyFlushConsumer nat Store) (events : list (Event nat))
  : state Store * outcome :=
  digestHandler nat Store storeExecute storeFlushCacheSetters r events emptyStore.

(** ** Behaviour of the isolated replay *)

(** Two events of one record each, the first a duplicate that the resolver
    lets go. *)
Lemma digestHandler_single_records_witness :
  storeDigest {| lazyFlushQueryErrorResolvers := [skipDuplicates] |}
    [ {| ID := "1-0"; data := [2] |}; {| ID := "2-0"; data := [4] |} ]
  = replayEvents nat Store storeExecute
      {| lazyFlushQueryErrorResolvers := [skipDuplicates] |} duplicateEntry
      [ {| ID := "1-0"; data := [2] |}; {| ID := "2-0"; data := [4] |} ]
      {| world := {| written := []; resolverCalls := [] |}; acked := [] |}.
Proof.
  apply (digestHandler_single_records nat Store storeExecute storeFlushCacheSetters
           {| lazyFlushQueryErrorResolvers := [skipDuplicates] |}
           [ {| ID := "1-0"; data := [2] |}; {| ID := "2-0"; data := [4] |} ]
           emptyStore {| written := []; resolverCalls := [] |} duplicateEntry).
  - repeat constructor.
  - reflexivity.
Defined.

Example single_records_replayed :
  storeDigest {| lazyFlushQueryErrorResolvers := [skipDuplicates] |}
    [ {| ID := "1-0"; data := [2] |}; {| ID := "2-0"; data := [4] |} ]
  = ({| world := {| written := [4]; resolverCalls := [(2, duplicateEntry)] |};
        acked := ["1-0"; "2-0"] |},
     Returned).
Proof. reflexivity. Qed.

(** Without a resolver the failure of the first record goes through and
    nothing is acknowledged. *)
Example unresolved_failure_propagates :
  storeDigest {| lazyFlushQueryErrorResolvers := [] |}
    [ {| ID := "1-0"; data := [2] |}; {| ID := "2-0"; data := [4] |} ]
  = ({| world := {| written := []; resolverCalls := [] |}; acked := [] |},
     Panicked (MySQLPanic duplicateEntry)).
Proof. reflexivity. Qed.


(** C2: one event carrying the records 1 and 2.  The batch fails on
    record 2; in the replay record 1 succeeds and the event is
    acknowledged at once, then record 2 fails and the consumer panics: the
    event stays acknowledged although one of its records was never
    written. *)
Theorem replay_acks_event_before_its_last_record :
  storeDigest {| lazyFlushQueryErrorResolvers := [] |}
    [ {| ID := "1-0"; data := [1; 2] |} ]
  = ({| world := {| written := [1]; resolverCalls := [] |};
        acked := ["1-0"] |},
     Panicked (MySQLPanic duplicateEntry)).
Proof. reflexivity. Qed.

(** Two events, the first with two records: the acknowledgement drifts to
    the second event while the records of the first are still replayed,
    and the last record finds no event under its index. *)
Example replay_acks_drift :
  storeDigest {| lazyFlushQueryErrorResolvers := [skipDuplicates] |}
    [ {| ID := "1-0"; data := [1; 2] |}; {| ID := "2-0"; data := [4] |} ]
  = ({| world := {| written := [1; 4];
                    resolverCalls := [(2, duplicateEntry)] |};
        acked := ["1-0"; "2-0"] |},
     Panicked (OtherPanic "index out of range")).
Proof. reflexivity. Qed.

(** C3: two events of one record each.  The batch fails with the
    duplicate-entry error of record 2.  In the replay record 3 fails with
    a data-too-long error, yet the resolver is called with the error of the
    batch, takes it for a duplicate, and the event is acknowledged. *)
Theorem resolver_receives_batch_error :
  storeDigest {| lazyFlushQueryErrorResolvers := [skipDuplicates] |}
    [ {| ID := "1-0"; data := [2] |}; {| ID := "2-0"; data := [3] |} ]
  = ({| world := {| written := [];
                    resolverCalls := [(2, duplicateEntry); (3, duplicateEntry)] |};
        acked := ["1-0"; "2-0"] |},
     Returned).
Proof. reflexivity. Qed.

End LazyFlush.

(** * Strings as the Go code handles them

    The functions of package [strings] and the one regular expression the
    schema uses, over byte strings. *)

Module GoStrings.

(** [s[n:]] *)
Fixpoint sliceFrom (n : nat) (s : string) : string :=
  match n, s with
  | 0, _ => s
  | S n', String _ s' => sliceFrom n' s'
  | S _, EmptyString => EmptyString
  end.

(** [s[:n]] *)
Fixpoint sliceTo (n : nat) (s : string) : string :=
  match n, s with
  | 0, _ => EmptyString
  | S n', String c s' => String c (sliceTo n' s')
  | S _, EmptyString => EmptyString
  end.

(** [strings.HasPrefix(s, prefix)] *)
Fixpoint HasPrefix (s prefix : string) {struct prefix} : bool :=
  match prefix, s with
  | EmptyString, _ => true
  | String p prefix', String c s' =>
      if Ascii.eqb c p then HasPrefix s' prefix' else false
  | String _ _, EmptyString => false
  end.

(** The byte offset of the first occurrence of [substr] in [s]. *)
Fixpoint IndexNat (s substr : string) : option nat :=
  if HasPrefix s substr then Some 0
  else match s with
       | EmptyString => None
       | String _ s' => S <$> IndexNat s' substr
       end.

(** [strings.Index(s, substr)]: -1 when [substr] does not occur. *)
Definition Index (s substr : string) : Z :=
  match IndexNat s substr with
  | Some n => Z.of_nat n
  | None => (-1)%Z
  end.

(** [strings.Replace(s, old, new, 1)]: the first occurrence of [old] is
    replaced. *)
Fixpoint Replace1 (s old new : string) : string :=
  if HasPrefix s old then new +:+ sliceFrom (String.length old) s
  else match s with
       | EmptyString => EmptyString
       | String c s' => String c (Replace1 s' old new)
       end.

Definition inRange (lo hi : nat) (c : ascii) : bool :=
  (lo <=? nat_of_ascii c) && (nat_of_ascii c <=? hi).

Definition isUpper (c : ascii) : bool := inRange 65 90 c.

(** The character class [[A-Za-z\d]]. *)
Definition isAlnum (c : ascii) : bool :=
  isUpper c || inRange 97 122 c || inRange 48 57 c.

(** [strings.ToLower] as it works on ASCII text, byte by byte; bytes
    outside [A-Z] are kept.  On other text Go lowers the letters of every
    script and may change the length of the text; what is stated about the
    place of [order by] in a template is stated for ASCII templates
    ([Indexes.isASCII]). *)
Definition toLowerByte (c : ascii) : ascii :=
  if isUpper c then ascii_of_nat (nat_of_ascii c + 32) else c.

Fixpoint ToLower (s : string) : string :=
  match s with
  | EmptyString => EmptyString
  | String c s' => String (toLowerByte c) (ToLower s')
  end.

(** The longest prefix of [s] made of [[A-Za-z\d]], and what follows it. *)
Fixpoint takeAlnum (s : string) : string :=
  match s with
  | EmptyString => EmptyString
  | String c s' => if isAlnum c then String c (takeAlnum s') else EmptyString
  end.

Fixpoint dropAlnum (s : string) : string :=
  match s with
  | EmptyString => EmptyString
  | String c s' => if isAlnum c then dropAlnum s' else s
  end.

Definition isColon (c : ascii) : bool := Ascii.eqb c ":".

(** [regexp.MustCompile(":([A-Za-z\\d])+").FindAllString(s, -1)]: the
    successive leftmost matches, each a colon with the longest run of
    [[A-Za-z\d]] after it.  A match starts at every colon that such a
    character follows; the characters of a match are no colons, so passing
    over them one by one finds no further match. *)
Fixpoint FindAllString (s : string) : list string :=
  match s with
  | EmptyString => []
  | String c s' =>
      if isColon c then
        match takeAlnum s' with
        | EmptyString => FindAllString s'
        | name => String c name :: FindAllString s'
        end
      else FindAllString s'
  end.

(** [strings.Split(s, sep)] for a separator of one byte. *)
Fixpoint Split_go (sep : ascii) (s : string) (cur : string) : list string :=
  match s with
  | EmptyString => [cur]
  | String c s' =>
      if Ascii.eqb c sep then cur :: Split_go sep s' EmptyString
      else Split_go sep s' (cur +:+ String c EmptyString)
  end.

Definition Split (s : string) (sep : ascii) : list string := Split_go sep s EmptyString.

(** ** Notions used to reason about the rewriting of variables *)

(** [nextAlnum s]: [s] starts with a character of [[A-Za-z\d]]. *)
Definition nextAlnum (s : string) : bool :=
  match takeAlnum s with
  | EmptyString => false
  | String _ _ => true
  end.

(** [cleanBefore pre s]: in [pre +:+ s], no colon of [pre] is followed by a
    character of [[A-Za-z\d]]. *)
Fixpoint cleanBefore (pre s : string) : bool :=
  match pre with
  | EmptyString => true
  | String c pre' => negb (isColon c && nextAlnum (pre' +:+ s)) && cleanBefore pre' s
  end.

(** ** Facts about these functions *)

Lemma append_nil_r (s : string) : s +:+ "" = s.
Proof. induction s as [|c s IH]; simpl; [done|]. by rewrite IH. Qed.

Lemma append_assoc (s1 s2 s3 : string) : (s1 +:+ s2) +:+ s3 = s1 +:+ (s2 +:+ s3).
Proof. induction s1 as [|c s1 IH]; simpl; [done|]. by rewrite IH. Qed.

Lemma length_append (s1 s2 : string) :
  String.length (s1 +:+ s2) = String.length s1 + String.length s2.
Proof. induction s1 as [|c s1 IH]; simpl; [done|]. by rewrite IH. Qed.

Lemma HasPrefix_append (p s : string) : HasPrefix (p +:+ s) p = true.
Proof.
  induction p as [|c p IH]; simpl; [done|]. by rewrite Ascii.eqb_refl.
Qed.

Lemma sliceFrom_append (p s : string) : sliceFrom (String.length p) (p +:+ s) = s.
Proof. induction p as [|c p IH]; simpl; [by destruct s|done]. Qed.

Lemma isColon_eq c : isColon c = true → c = ":"%char.
Proof. unfold isColon. by intros ?%Ascii.eqb_eq. Qed.

Lemma isAlnum_not_colon c : isAlnum c = true → isColon c = false.
Proof.
  unfold isColon. intros H. destruct (Ascii.eqb_spec c ":") as [->|]; [|done].
  by vm_compute in H.
Qed.

Lemma takeAlnum_dropAlnum s : takeAlnum s +:+ dropAlnum s = s.
Proof.
  induction s as [|c s IH]; simpl; [done|].
  destruct (isAlnum c); simpl; [by rewrite IH|done].
Qed.

Lemma FindAllString_dropAlnum s : FindAllString (dropAlnum s) = FindAllString s.
Proof.
  induction s as [|c s IH]; simpl; [done|].
  destruct (isAlnum c) eqn:Hc; [|done].
  by rewrite (isAlnum_not_colon c Hc).
Qed.

Lemma takeAlnum_dropAlnum_nil s : takeAlnum (dropAlnum s) = "".
Proof.
  induction s as [|c s IH]; simpl; [done|].
  destruct (isAlnum c) eqn:Hc; [done|]. simpl. by rewrite Hc.
Qed.

Lemma nextAlnum_append (p s1 s2 : string) :
  nextAlnum s1 = nextAlnum s2 → nextAlnum (p +:+ s1) = nextAlnum (p +:+ s2).
Proof.
  destruct p as [|c p]; simpl; [done|]. intros _. unfold nextAlnum. simpl.
  by destruct (isAlnum c).
Qed.

Lemma cleanBefore_next (pre s1 s2 : string) :
  nextAlnum s1 = nextAlnum s2 → cleanBefore pre s1 = cleanBefore pre s2.
Proof.
  intros H. induction pre as [|c pre IH]; simpl; [done|].
  by rewrite IH, (nextAlnum_append pre s1 s2 H).
Qed.

Lemma cleanBefore_append (p1 p2 s : string) :
  cleanBefore (p1 +:+ p2) s = cleanBefore p1 (p2 +:+ s) && cleanBefore p2 s.
Proof.
  induction p1 as [|c p1 IH]; simpl; [done|].
  by rewrite IH, append_assoc, andb_assoc.
Qed.

Lemma cleanBefore_alnum (name s : string) :
  takeAlnum name = name → cleanBefore name s = true.
Proof.
  revert s. induction name as [|c name IH]; intros s; simpl; [done|].
  destruct (isAlnum c) eqn:Hc; [|done]. intros [= Hn].
  by rewrite (isAlnum_not_colon c Hc), IH.
Qed.

Lemma takeAlnum_idemp s : takeAlnum (takeAlnum s) = takeAlnum s.
Proof.
  induction s as [|c s IH]; simpl; [done|].
  destruct (isAlnum c) eqn:Hc; simpl; [|done]. by rewrite Hc, IH.
Qed.

Lemma HasPrefix_not_nextAlnum (X : string) (n0 : ascii) (name' : string) :
  isAlnum n0 = true → nextAlnum X = false → HasPrefix X (String n0 name') = false.
Proof.
  intros Hn0 HX. destruct X as [|x0 X]; simpl; [done|].
  destruct (Ascii.eqb_spec x0 n0) as [->|]; [|done].
  unfold nextAlnum in HX. simpl in HX. by rewrite Hn0 in HX.
Qed.

(** In a text whose colons before [name] start no variable, the first
    occurrence of the variable [:name] is the one written there. *)
Lemma Replace1_variable (pre name rest new : string) :
  cleanBefore pre (":" +:+ name +:+ rest) = true →
  name ≠ "" → takeAlnum name = name →
  Replace1 (pre +:+ ":" +:+ name +:+ rest) (":" +:+ name) new = pre +:+ new +:+ rest.
Proof.
  intros Hclean Hne Hal. induction pre as [|c pre IH].
  - cbn [String.append]. unfold Replace1; fold Replace1.
    change (String ":" (name +:+ rest)) with ((":" +:+ name) +:+ rest).
    rewrite HasPrefix_append, sliceFrom_append. done.
  - simpl in Hclean. apply andb_true_iff in Hclean as [Hc Hclean].
    assert (Hp : HasPrefix (String c (pre +:+ ":" +:+ name +:+ rest)) (":" +:+ name) = false).
    { cbn [String.append HasPrefix].
      destruct (Ascii.eqb_spec c ":") as [->|]; [|done].
      simpl in Hc. apply negb_true_iff in Hc.
      destruct name as [|n0 name']; [done|].
      simpl in Hal. destruct (isAlnum n0) eqn:Hn0; [|done].
      by apply HasPrefix_not_nextAlnum. }
    change (String c pre +:+ ":" +:+ name +:+ rest)
      with (String c (pre +:+ ":" +:+ name +:+ rest)).
    unfold Replace1; fold Replace1.
    rewrite Hp. cbn [String.append]. f_equal. by apply IH.
Qed.

Lemma sliceTo_length n s : n ≤ String.length s → String.length (sliceTo n s) = n.
Proof.
  revert s. induction n as [|n IH]; intros s H; [done|].
  destruct s as [|c s]; simpl in *; [lia|]. rewrite IH; lia.
Qed.

End GoStrings.

Module GoStringsExamples.
Import GoStrings.

Example FindAllString_two :
  FindAllString ":Age >= ? AND :Name = ? ORDER BY :ID, :Age" = [":Age"; ":Name"; ":ID"; ":Age"].
Proof. reflexivity. Qed.

Example FindAllString_bare_colon : FindAllString "a :: b :, c:d9_e" = [":d9"].
Proof. reflexivity. Qed.

Example Replace1_first : Replace1 "x :a :ab :a" ":a" "`a`" = "x `a` :ab :a".
Proof. reflexivity. Qed.

Example Index_found : Index "a order by b" "order by" = 2%Z.
Proof. reflexivity. Qed.

Example Index_missing : Index "abc" "order by" = (-1)%Z.
Proof. reflexivity. Qed.

Example ToLower_mixed : ToLower "Order BY :ID" = "order by :id".
Proof. reflexivity. Qed.

Example Split_commas : Split "a:1,b,,c" "," = ["a:1"; "b"; ""; "c"].
Proof. reflexivity. Qed.

End GoStringsExamples.

(** * Hashes of the Go standard library

    [crypto/sha256] (FIPS 180-4) and [hash/fnv] (FNV-1a, 32 bits), over
    32-bit words kept in [Z] with the wrap-around written out. *)

Module Hashes.
Local Open Scope Z_scope.

Definition wrap32 (x : Z) : Z := x mod 2 ^ 32.

Definition add32 (x y : Z) : Z := wrap32 (x + y).

Definition rotr (n x : Z) : Z :=
  Z.lor (Z.shiftr x n) (wrap32 (Z.shiftl x (32 - n))).

Definition not32 (x : Z) : Z := Z.lxor x 4294967295.

Definition Ch (x y z : Z) : Z := Z.lxor (Z.land x y) (Z.land (not32 x) z).

Definition Maj (x y z : Z) : Z :=
  Z.lxor (Z.lxor (Z.land x y) (Z.land x z)) (Z.land y z).

Definition bigSigma0 (x : Z) : Z := Z.lxor (Z.lxor (rotr 2 x) (rotr 13 x)) (rotr 22 x).

Definition bigSigma1 (x : Z) : Z := Z.lxor (Z.lxor (rotr 6 x) (rotr 11 x)) (rotr 25 x).

Definition smallSigma0 (x : Z) : Z := Z.lxor (Z.lxor (rotr 7 x) (rotr 18 x)) (Z.shiftr x 3).

Definition smallSigma1 (x : Z) : Z := Z.lxor (Z.lxor (rotr 17 x) (rotr 19 x)) (Z.shiftr x 10).

(** The constants of FIPS 180-4 are the first 32 bits of the fractional
    parts of the cube roots (round constants) and of the square roots
    (initial hash) of the first primes. *)
Definition isPrime (n : Z) : bool :=
  forallb (λ d, negb (n mod d =? 0)) (seqZ 2 (Z.sqrt n - 1)).

Definition firstPrimes (n : nat) : list Z := take n (filter (λ p, isPrime p = true) (seqZ 2 400)).

(** The integer cube root, found bit by bit from the highest. *)
Fixpoint cubeRootBits (bits : nat) (n acc : Z) : Z :=
  match bits with
  | O => acc
  | S b =>
      let candidate := acc + 2 ^ Z.of_nat b in
      if candidate * candidate * candidate <=? n then cubeRootBits b n candidate
      else cubeRootBits b n acc
  end.

Definition cubeRoot (n : Z) : Z := cubeRootBits 40 n 0.

Definition K256 : list Z :=
  Eval vm_compute in map (λ p, wrap32 (cubeRoot (p * 2 ^ 96))) (firstPrimes 64).

Definition initialHash : list Z :=
  Eval vm_compute in map (λ p, wrap32 (Z.sqrt (p * 2 ^ 64))) (firstPrimes 8).

Definition bytesOf (s : string) : list Z :=
  map (λ c, Z.of_nat (nat_of_ascii c)) (list_ascii_of_string s).

(** The big-endian bytes of a number, [n] of them. *)
Fixpoint bigEndian (n : nat) (x : Z) : list Z :=
  match n with
  | O => []
  | S n' => (Z.shiftr x (8 * Z.of_nat n')) mod 256 :: bigEndian n' x
  end.

(** The message, the byte 0x80, zero bytes up to 56 modulo 64, and the
    length of the message in bits on 8 bytes. *)
Definition pad (msg : list Z) : list Z :=
  let len := Z.of_nat (length msg) in
  let zeros := Z.to_nat ((55 - len) mod 64) in
  msg ++ [128] ++ repeat 0 zeros ++ bigEndian 8 (8 * len).

Fixpoint wordsOf (n : nat) (bytes : list Z) : list Z :=
  match n, bytes with
  | S n', b0 :: b1 :: b2 :: b3 :: rest =>
      (b0 * 16777216 + b1 * 65536 + b2 * 256 + b3) :: wordsOf n' rest
  | _, _ => []
  end.

(** The message schedule, latest word first: [n] more words are added to
    [w]. *)
Fixpoint schedule (n : nat) (w : list Z) : list Z :=
  match n with
  | O => w
  | S n' =>
      let next :=
        add32 (add32 (smallSigma1 (nth 1 w 0)) (nth 6 w 0))
              (add32 (smallSigma0 (nth 14 w 0)) (nth 15 w 0)) in
      schedule n' (next :: w)
  end.

Definition round (st : list Z) (kw : Z * Z) : list Z :=
  match st with
  | [a; b; c; d; e; f; g; h] =>
      let t1 := add32 (add32 (add32 h (bigSigma1 e)) (add32 (Ch e f g) kw.1)) kw.2 in
      let t2 := add32 (bigSigma0 a) (Maj a b c) in
      [add32 t1 t2; a; b; c; add32 d t1; e; f; g]
  | _ => st
  end.

Definition compress (H : list Z) (block : list Z) : list Z :=
  let w := rev (schedule 48 (rev (wordsOf 16 block))) in
  let st := fold_left round (zip K256 w) H in
  zip_with add32 H st.

Fixpoint blocks (n : nat) (H : list Z) (bytes : list Z) : list Z :=
  match n with
  | O => H
  | S n' =>
      match bytes with
      | [] => H
      | _ => blocks n' (compress H (take 64 bytes)) (drop 64 bytes)
      end
  end.

(** [sha256.Sum256(data)]: the 32 bytes of the digest. *)
Definition Sum256 (data : list Z) : list Z :=
  let padded := pad data in
  concat (map (bigEndian 4) (blocks (length padded) initialHash padded)).

Definition hexDigit (x : Z) : ascii :=
  if x <? 10 then ascii_of_nat (Z.to_nat (48 + x)) else ascii_of_nat (Z.to_nat (87 + x)).

(** [fmt.Sprintf("%x", bytes)] *)
Fixpoint hex (bytes : list Z) : string :=
  match bytes with
  | [] => EmptyString
  | b :: rest => String (hexDigit (b / 16)) (String (hexDigit (b mod 16)) (hex rest))
  end.

(** [fnv.New32a()], [Write], [Sum32]. *)
Definition fnv32a (data : list Z) : Z :=
  fold_left (λ h b, wrap32 (Z.lxor h b * 16777619)) data 2166136261.

(** ** The size of a digest *)

Local Open Scope nat_scope.

Lemma round_length st kw : length st = 8 → length (round st kw) = 8.
Proof.
  intros H. do 9 (destruct st as [|? st]; try discriminate). done.
Qed.

Lemma fold_round_length kws st :
  length st = 8 → length (fold_left round kws st) = 8.
Proof.
  revert st. induction kws as [|kw kws IH]; intros st H; [done|].
  simpl. apply IH. by apply round_length.
Qed.

Lemma compress_length H block : length H = 8 → length (compress H block) = 8.
Proof.
  intros HH. unfold compress. rewrite length_zip_with, fold_round_length by done. lia.
Qed.

Lemma blocks_length n H bytes : length H = 8 → length (blocks n H bytes) = 8.
Proof.
  revert H bytes. induction n as [|n IH]; intros H bytes HH; [done|].
  simpl. destruct bytes; [done|]. apply IH. by apply compress_length.
Qed.

Lemma bigEndian_length n x : length (bigEndian n x) = n.
Proof. induction n as [|n IH]; simpl; [done|]. by rewrite IH. Qed.

Lemma concat_bigEndian_length (words : list Z) :
  length (concat (map (bigEndian 4) words)) = 4 * length words.
Proof.
  induction words as [|w words IH]; [done|].
  cbn [map concat]. rewrite length_app, bigEndian_length, IH. simpl. lia.
Qed.

Lemma Sum256_length data : length (Sum256 data) = 32.
Proof.
  unfold Sum256. by rewrite concat_bigEndian_length, blocks_length.
Qed.

Lemma hex_length bytes : String.length (hex bytes) = 2 * length bytes.
Proof. induction bytes as [|b bytes IH]; simpl; [done|]. rewrite IH. lia. Qed.

End Hashes.

Module HashesExamples.
Import Hashes.

Example Sum256_abc :
  hex (Sum256 (bytesOf "abc"))
  = "ba7816bf8f01cfea414140de5dae2223b00361a396177a9cb410ff61f20015ad".
Proof. vm_compute. reflexivity. Qed.

Example Sum256_empty :
  hex (Sum256 (bytesOf ""))
  = "e3b0c44298fc1c149afbf4c8996fb92427ae41e4649b934ca495991b7852b855".
Proof. vm_compute. reflexivity. Qed.

Example Sum256_two_blocks :
  hex (Sum256 (bytesOf "abcdbcdecdefdefgefghfghighijhijkijkljklmklmnlmnomnopnopq"))
  = "248d6a61d20638b8e5c026930c3e6039a33ce45964ff2167f6ecedd419db06c1".
Proof. vm_compute. reflexivity. Qed.

Example K256_ends :
  head K256 = Some 0x428a2f98%Z ∧ last K256 = Some 0xc67178f2%Z ∧ length K256 = 64.
Proof. vm_compute. done. Qed.

Example initialHash_ends :
  head initialHash = Some 0x6a09e667%Z ∧ last initialHash = Some 0x5be0cd19%Z
  ∧ length initialHash = 8.
Proof. vm_compute. done. Qed.

Example fnv32a_a : fnv32a (bytesOf "a") = 0xe40c292c%Z.
Proof. vm_compute. reflexivity. Qed.

End HashesExamples.

(** * Cached query templates (the first loop of [init]) *)

Module QueryTemplate.
Import GoStrings.

(** [type cachedQueryDefinition struct] *)
Record cachedQueryDefinition : Type := {
  Max : Z;
  Query : string;
  TrackedFields : list string;
  QueryFields : list string;
  OrderFields : list string;
}.

(** [for _, v := range fields { if v == fieldName { has = true; break } }] *)
Fixpoint hasField (fields : list string) (fieldName : string) : bool :=
  match fields with
  | [] => false
  | v :: rest => if String.eqb v fieldName then true else hasField rest fieldName
  end.

(** One turn of [for _, variable := range variables]: the name is recorded
    unless it is known already, and the first occurrence of the variable in
    the query as rewritten so far becomes the quoted name. *)
Definition addVariable (st : list string * string) (variable : string)
  : list string * string :=
  let fieldName := sliceFrom 1 variable in
  let fields := if hasField (fst st) fieldName then fst st else fst st ++ [fieldName] in
  (fields, Replace1 (snd st) variable ("`" +:+ fieldName +:+ "`")).

(** The fields and the query after that loop. *)
Definition parseVariables (query : string) : list string * string :=
  fold_left addVariable (FindAllString query) ([], query).

(** One turn of [for _, f := range fields]: [f] is tracked unless it is
    [ID], and it is a query field when its variable stands before
    [order by] or there is no [order by]. *)
Definition classifyField (queryOrigin : string) (posOrderBy : Z)
    (acc : list string * list string) (f : string) : list string * list string :=
  let fieldsTracked := if String.eqb f "ID" then fst acc else fst acc ++ [f] in
  let pos := Index queryOrigin (":" +:+ f) in
  let fieldsQuery :=
    if (pos <? posOrderBy)%Z || (posOrderBy =? -1)%Z then snd acc ++ [f] else snd acc in
  (fieldsTracked, fieldsQuery).

(** The definition built from a [query] or [queryOne] tag ([isOne]) of an
    entity that has, or has not, a [FakeDelete bool] field. *)
Definition buildDefinition (hasFakeDelete isOne : bool) (queryOrigin : string)
  : cachedQueryDefinition :=
  let variables := FindAllString queryOrigin in
  let parsed := parseVariables queryOrigin in
  let fields :=
    if hasFakeDelete && (0 <? length variables)
    then fst parsed ++ ["FakeDelete"] else fst parsed in
  let query :=
    if String.eqb (snd parsed) "" then
      if hasFakeDelete then "`FakeDelete` = 0 ORDER BY `ID`" else "1 ORDER BY `ID`"
    else if hasFakeDelete then "`FakeDelete` = 0 AND " +:+ snd parsed
    else snd parsed in
  let queryLower := ToLower queryOrigin in
  let posOrderBy := Index queryLower "order by" in
  let classified := fold_left (classifyField queryOrigin posOrderBy) fields ([], []) in
  let fieldsOrder :=
    if (posOrderBy >? -1)%Z
    then map (sliceFrom 1) (FindAllString (sliceFrom (Z.to_nat posOrderBy) queryOrigin))
    else [] in
  {| Max := if isOne then 1%Z else 50000%Z;
     Query := query;
     TrackedFields := fst classified;
     QueryFields := snd classified;
     OrderFields := fieldsOrder |}.

(** ** What the specification says of the template builder *)

(** Stable de-duplication: every name is kept where it first occurs. *)
Fixpoint stableDedup (names : list string) : list string :=
  match names with
  | [] => []
  | x :: rest => x :: filter (λ y, y ≠ x) (stableDedup rest)
  end.

(** Every [:variableName] token rewritten to the quoted name, in one pass
    over the text; [inVar] tells that the characters of a token are being
    copied. *)
Fixpoint quoteVariables_from (inVar : bool) (s : string) : string :=
  match s with
  | EmptyString => if inVar then "`" else ""
  | String c s' =>
      if inVar && isAlnum c then String c (quoteVariables_from true s')
      else
        let close := if inVar then "`" else "" in
        match isColon c, takeAlnum s' with
        | true, String _ _ => close +:+ "`" +:+ quoteVariables_from true s'
        | _, _ => close +:+ String c (quoteVariables_from false s')
        end
  end.

Definition quoteVariables (s : string) : string := quoteVariables_from false s.

(** The names of the tokens of a template, in the order they are written. *)
Definition variableNames (s : string) : list string :=
  map (sliceFrom 1) (FindAllString s).

(** The test of the loop over the fields,
    [strings.Index(queryOrigin, ":"+f) < posOrderBy || posOrderBy == -1]:
    the text [:f] is first found before [order by], be it at the head of
    a longer variable, or the template has no [order by]. *)
Definition beforeOrderBy (query f : string) : bool :=
  (Index query (":" +:+ f) <? Index (ToLower query) "order by")%Z
  || (Index (ToLower query) "order by" =? -1)%Z.

(** The fields of a template: the names of its variables, each once, and
    [FakeDelete] after them when the entity has that column and the
    template has a variable. *)
Definition templateFields (hasFakeDelete : bool) (query : string) : list string :=
  stableDedup (variableNames query)
  ++ if hasFakeDelete && (0 <? length (variableNames query)) then ["FakeDelete"] else [].

(** The two components of the state of the loop over the variables, each
    with its own step. *)
Definition addName (fields : list string) (fieldName : string) : list string :=
  if hasField fields fieldName then fields else fields ++ [fieldName].

Definition quoteOne (query variable : string) : string :=
  Replace1 query variable ("`" +:+ sliceFrom 1 variable +:+ "`").

Ltac string_assoc :=
  repeat first [rewrite append_assoc | progress cbn [String.append]].

(** ** Properties of the template builder *)

Lemma hasField_elem_of fields fieldName :
  hasField fields fieldName = true ↔ fieldName ∈ fields.
Proof.
  induction fields as [|v rest IH]; simpl.
  - split; [done|]. intros H. by apply elem_of_nil in H.
  - destruct (String.eqb_spec v fieldName) as [->|Hne].
    + split; [intros _; apply elem_of_cons; by left|done].
    + rewrite IH. split; [intros H; apply elem_of_cons; by right|].
      intros [H|H]%elem_of_cons; [congruence|done].
Qed.

Lemma fold_addVariable variables fields query :
  fold_left addVariable variables (fields, query)
  = (fold_left addName (map (sliceFrom 1) variables) fields,
     fold_left quoteOne variables query).
Proof.
  revert fields query. induction variables as [|v rest IH]; intros fields query; [done|].
  simpl. unfold addVariable at 2. simpl. by rewrite IH.
Qed.

Lemma fold_addName names acc :
  fold_left addName names acc = acc ++ filter (λ y, y ∉ acc) (stableDedup names).
Proof.
  revert acc. induction names as [|x rest IH]; intros acc; simpl.
  - by rewrite app_nil_r.
  - unfold addName at 2. destruct (hasField acc x) eqn:Hx.
    + apply hasField_elem_of in Hx. rewrite IH. f_equal.
      rewrite filter_cons_False by (intros H; by apply H).
      rewrite list_filter_filter. apply list_filter_iff.
      intros y. split; [|tauto]. intros Hy. split; [done|]. congruence.
    + assert (x ∉ acc) as Hn.
      { intros H. apply hasField_elem_of in H. congruence. }
      rewrite IH. rewrite <- app_assoc. f_equal. simpl.
      rewrite filter_cons_True by done. f_equal.
      rewrite list_filter_filter. apply list_filter_iff.
      intros y. rewrite elem_of_app, list_elem_of_singleton. tauto.
Qed.

(** The names recorded by the loop are the variable names, each kept
    where it first occurs. *)
Lemma parseVariables_fields query :
  fst (parseVariables query) = stableDedup (variableNames query).
Proof.
  unfold parseVariables, variableNames. rewrite fold_addVariable.
  cbn [fst]. rewrite fold_addName, app_nil_l.
  induction (stableDedup (map (sliceFrom 1) (FindAllString query))) as [|y l IH]; [done|].
  rewrite filter_cons_True by apply not_elem_of_nil. by rewrite IH.
Qed.

Lemma quoteVariables_from_true s :
  quoteVariables_from true s
  = takeAlnum s +:+ "`" +:+ quoteVariables_from false (dropAlnum s).
Proof.
  induction s as [|c s IH]; [done|].
  cbn [quoteVariables_from takeAlnum dropAlnum andb].
  destruct (isAlnum c) eqn:Hc.
  - rewrite IH. done.
  - cbn [quoteVariables_from andb]. cbn [String.append].
    destruct (isColon c), (takeAlnum s); done.
Qed.

Lemma nextAlnum_dropAlnum s : nextAlnum (dropAlnum s) = false.
Proof. unfold nextAlnum. by rewrite takeAlnum_dropAlnum_nil. Qed.

(** The successive replacements rewrite every variable: [pre] is the text
    already rewritten, [s] the text still to be read. *)
Lemma fold_quoteOne s :
  (∀ pre, cleanBefore pre s = true →
     fold_left quoteOne (FindAllString s) (pre +:+ s)
     = pre +:+ quoteVariables_from false s)
  ∧ (∀ pre, cleanBefore pre (dropAlnum s) = true →
     fold_left quoteOne (FindAllString s) (pre +:+ dropAlnum s)
     = pre +:+ quoteVariables_from false (dropAlnum s)).
Proof.
  induction s as [|c s [IHP IHQ]]; [done|].
  assert (HP : ∀ pre, cleanBefore pre (String c s) = true →
     fold_left quoteOne (FindAllString (String c s)) (pre +:+ String c s)
     = pre +:+ quoteVariables_from false (String c s)).
  { intros pre Hclean.
    cbn [FindAllString quoteVariables_from andb].
    assert (Hskip : isColon c && nextAlnum s = false →
      fold_left quoteOne (FindAllString s) (pre +:+ String c s)
      = pre +:+ String c (quoteVariables_from false s)).
    { intros Hno.
      replace (pre +:+ String c s) with ((pre +:+ String c "") +:+ s)
        by (by rewrite append_assoc).
      rewrite IHP.
      - by rewrite append_assoc.
      - rewrite cleanBefore_append. cbn [String.append cleanBefore].
        rewrite Hclean, Hno. done. }
    destruct (isColon c) eqn:Hcolon.
    - destruct (takeAlnum s) as [|n0 name'] eqn:Hname.
      + cbn [String.append]. apply Hskip. unfold nextAlnum. by rewrite Hname.
      + apply isColon_eq in Hcolon as ->.
        rewrite <- Hname. cbn [fold_left].
        unfold quoteOne at 2. cbn [sliceFrom].
        rewrite quoteVariables_from_true.
        rewrite <- (takeAlnum_dropAlnum s) at 2.
        rewrite (Replace1_variable pre (takeAlnum s) (dropAlnum s)).
        * replace (pre +:+ ("`" +:+ takeAlnum s +:+ "`") +:+ dropAlnum s)
            with ((pre +:+ "`" +:+ takeAlnum s +:+ "`") +:+ dropAlnum s)
            by (rewrite !append_assoc; reflexivity).
          rewrite IHQ.
          -- by string_assoc.
          -- rewrite cleanBefore_append. apply andb_true_iff. split.
             ++ rewrite (cleanBefore_next _ _ (String ":" s)); [done|].
                cbn [String.append]. unfold nextAlnum. simpl.
                by destruct (isAlnum "`").
             ++ cbn [String.append cleanBefore].
                rewrite cleanBefore_append.
                rewrite (cleanBefore_alnum _ _ (takeAlnum_idemp s)).
                done.
        * by rewrite takeAlnum_dropAlnum.
        * by rewrite Hname.
        * apply takeAlnum_idemp.
    - cbn [String.append]. apply Hskip. done. }
  split; [exact HP|].
  intros pre. cbn [dropAlnum FindAllString].
  destruct (isAlnum c) eqn:Hc.
  - rewrite (isAlnum_not_colon c Hc). apply IHQ.
  - intros Hclean. specialize (HP pre Hclean). cbn [FindAllString] in HP. exact HP.
Qed.

Lemma parseVariables_query query :
  snd (parseVariables query) = quoteVariables query.
Proof.
  unfold parseVariables, quoteVariables. rewrite fold_addVariable. cbn [snd].
  destruct (fold_quoteOne query) as [HP _]. by apply (HP "").
Qed.

Lemma quoteVariables_nil query : quoteVariables query = "" ↔ query = "".
Proof.
  split; [|by intros ->].
  destruct query as [|c s]; [done|].
  unfold quoteVariables. cbn [quoteVariables_from andb String.append].
  by destruct (isColon c), (takeAlnum s).
Qed.

Lemma fold_classifyField_tracked queryOrigin posOrderBy fields tracked fieldsQuery :
  fst (fold_left (classifyField queryOrigin posOrderBy) fields (tracked, fieldsQuery))
  = tracked ++ filter (λ f, f ≠ "ID") fields.
Proof.
  revert tracked fieldsQuery.
  induction fields as [|f rest IH]; intros tracked fieldsQuery; simpl.
  - by rewrite app_nil_r.
  - unfold classifyField at 2. cbn [fst snd]. rewrite IH.
    destruct (String.eqb_spec f "ID") as [->|Hne].
    + by rewrite filter_cons_False by (intros H; by apply H).
    + rewrite filter_cons_True by done. by rewrite <- app_assoc.
Qed.

Lemma fold_classifyField_query queryOrigin fields tracked fieldsQuery :
  snd (fold_left (classifyField queryOrigin (Index (ToLower queryOrigin) "order by"))
         fields (tracked, fieldsQuery))
  = fieldsQuery ++ filter (λ f, beforeOrderBy queryOrigin f = true) fields.
Proof.
  revert tracked fieldsQuery.
  induction fields as [|f rest IH]; intros tracked fieldsQuery.
  - cbn [fold_left snd]. by rewrite filter_nil, app_nil_r.
  - cbn [fold_left]. unfold classifyField at 2. cbn [fst snd].
    fold (beforeOrderBy queryOrigin f). rewrite IH, filter_cons.
    destruct (beforeOrderBy queryOrigin f) eqn:Hb.
    + rewrite decide_True by done. by rewrite <- app_assoc.
    + by rewrite decide_False by done.
Qed.

(** The query fields of a definition are the fields of its template that
    pass the test of the loop. *)
Lemma buildDefinition_QueryFields (hasFakeDelete isOne : bool) (query : string) :
  QueryFields (buildDefinition hasFakeDelete isOne query)
  = filter (λ f, beforeOrderBy query f = true) (templateFields hasFakeDelete query).
Proof.
  unfold buildDefinition, templateFields. cbn [QueryFields].
  rewrite parseVariables_fields, fold_classifyField_query.
  unfold variableNames. rewrite length_map.
  destruct (hasFakeDelete && (0 <? length (FindAllString query))); [done|].
  by rewrite app_nil_r.
Qed.

(** C7: the builder records the [:variableName] tokens of the template in
    the order they are written, each once, where it first occurs, and
    rewrites every token to the quoted column name.  A template without
    text becomes the default one, all rows ordered by [ID], filtered by
    [FakeDelete] when the entity has that column; an explicit template of
    such an entity gets the [FakeDelete] filter in front.  The tracked
    fields are the recorded names, followed by [FakeDelete] for a
    soft-delete entity whose template has a variable, without [ID]. *)
Theorem buildDefinition_template (hasFakeDelete isOne : bool) (query : string) :
  fst (parseVariables query) = stableDedup (variableNames query)
  ∧ snd (parseVariables query) = quoteVariables query
  ∧ Query (buildDefinition hasFakeDelete isOne query)
    = (if String.eqb query "" then
         if hasFakeDelete then "`FakeDelete` = 0 ORDER BY `ID`" else "1 ORDER BY `ID`"
       else if hasFakeDelete then "`FakeDelete` = 0 AND " +:+ quoteVariables query
       else quoteVariables query)
  ∧ TrackedFields (buildDefinition hasFakeDelete isOne query)
    = filter (λ f, f ≠ "ID") (templateFields hasFakeDelete query).
Proof.
  split; [apply parseVariables_fields|].
  split; [apply parseVariables_query|].
  unfold buildDefinition. cbn [Query TrackedFields].
  rewrite parseVariables_query, parseVariables_fields. split.
  - destruct (String.eqb_spec (quoteVariables query) "") as [Hq|Hq].
    + apply quoteVariables_nil in Hq as ->. done.
    + destruct (String.eqb_spec query "") as [->|_]; [done|]. done.
  - rewrite fold_classifyField_tracked. cbn [app].
    unfold templateFields, variableNames. rewrite length_map.
    destruct (hasFakeDelete && (0 <? length (FindAllString query))); [done|].
    by rewrite app_nil_r.
Qed.

End QueryTemplate.

Module QueryTemplateExamples.
Import GoStrings QueryTemplate.

Example buildDefinition_plain :
  buildDefinition false false ":Age >= ? AND :Name = ? ORDER BY :ID, :Age"
  = {| Max := 50000%Z;
       Query := "`Age` >= ? AND `Name` = ? ORDER BY `ID`, `Age`";
       TrackedFields := ["Age"; "Name"];
       QueryFields := ["Age"; "Name"];
       OrderFields := ["ID"; "Age"] |}.
Proof. reflexivity. Qed.

Example buildDefinition_fake_delete :
  buildDefinition true true ":Email = ?"
  = {| Max := 1%Z;
       Query := "`FakeDelete` = 0 AND `Email` = ?";
       TrackedFields := ["Email"; "FakeDelete"];
       QueryFields := ["Email"; "FakeDelete"];
       OrderFields := [] |}.
Proof. reflexivity. Qed.

Example buildDefinition_empty :
  buildDefinition false false "" =
  {| Max := 50000%Z; Query := "1 ORDER BY `ID`"; TrackedFields := [];
     QueryFields := []; OrderFields := [] |}.
Proof. reflexivity. Qed.

Example buildDefinition_empty_fake_delete :
  Query (buildDefinition true false "") = "`FakeDelete` = 0 ORDER BY `ID`".
Proof. reflexivity. Qed.

Example quoteVariables_sample :
  quoteVariables ":Age >= ? AND :Name = ? ORDER BY :ID, :Age:"
  = "`Age` >= ? AND `Name` = ? ORDER BY `ID`, `Age`:".
Proof. reflexivity. Qed.

Example stableDedup_sample : stableDedup ["a"; "b"; "a"; "c"; "b"] = ["a"; "b"; "c"].
Proof. reflexivity. Qed.

End QueryTemplateExamples.

(** * Column layout and cache keys ([buildColumnNames], [getCacheKey]) *)

Module Columns.
Import GoStrings Hashes.

(** [reflect.StructField], as far as the layout reads it.  A field missing
    from [fields] reads as the zero value. *)
Record StructField : Type := { Name : string; Anonymous : bool }.

Definition zeroStructField : StructField := {| Name := ""; Anonymous := false |}.

(** [type tableFields struct]: the indexes of the fields of one struct,
    by category.  [structs] and [structsFields] are parallel slices, always
    appended to together ([buildStructField]); they are kept as one list of
    pairs. *)
#[local] Set Warnings "-register-all".
Inductive tableFields : Type := mkTableFields {
  fields : gmap nat StructField;
  uintegers : list nat;
  refs : list nat;
  integers : list nat;
  booleans : list nat;
  floats : list nat;
  times : list nat;
  dates : list nat;
  fakeDelete : nat;
  strings : list nat;
  uintegersNullable : list nat;
  integersNullable : list nat;
  stringsEnums : list nat;
  bytes : list nat;
  sliceStringsSets : list nat;
  booleansNullable : list nat;
  floatsNullable : list nat;
  timesNullable : list nat;
  datesNullable : list nat;
  jsons : list nat;
  structsFields : list (nat * tableFields);
}.

Definition fieldAt (tf : tableFields) (i : nat) : StructField :=
  default zeroStructField (fields tf !! i).

(** The ids of the columns of one struct, in layout order, each with the
    mark of the two ranges [timesStart..timesEnd) and
    [timesNullableStart..timesNullableEnd). *)
Definition layoutIds (tf : tableFields) : list nat :=
  uintegers tf ++ refs tf ++ integers tf ++ booleans tf ++ floats tf
  ++ times tf ++ dates tf
  ++ (if 0 <? fakeDelete tf then [fakeDelete tf] else [])
  ++ strings tf ++ uintegersNullable tf ++ integersNullable tf ++ stringsEnums tf
  ++ bytes tf ++ sliceStringsSets tf ++ booleansNullable tf ++ floatsNullable tf
  ++ timesNullable tf ++ datesNullable tf
  ++ jsons tf.

Definition timesStart (tf : tableFields) : nat :=
  length (uintegers tf ++ refs tf ++ integers tf ++ booleans tf ++ floats tf).

Definition timesEnd (tf : tableFields) : nat :=
  timesStart tf + length (times tf ++ dates tf).

Definition timesNullableStart (tf : tableFields) : nat :=
  timesEnd tf
  + length ((if 0 <? fakeDelete tf then [fakeDelete tf] else [])
            ++ strings tf ++ uintegersNullable tf ++ integersNullable tf
            ++ stringsEnums tf ++ bytes tf ++ sliceStringsSets tf
            ++ booleansNullable tf ++ floatsNullable tf).

Definition timesNullableEnd (tf : tableFields) : nat :=
  timesNullableStart tf + length (timesNullable tf ++ datesNullable tf).

(** What one column adds to [fieldsQuery]. *)
Definition columnQuery (temporal : bool) (name : string) : string :=
  if temporal then ",TO_SECONDS(`" +:+ name +:+ "`)" else ",`" +:+ name +:+ "`".

(** [for k, i := range ids]: [k] is the position of the first id of
    [ids]. *)
Fixpoint columnsLoop (tf : tableFields) (subFieldPrefix : string)
    (k : nat) (ids : list nat) : list string * string :=
  match ids with
  | [] => ([], "")
  | i :: rest =>
      let name := subFieldPrefix +:+ Name (fieldAt tf i) in
      let temporal :=
        ((timesStart tf <=? k) && (k <? timesEnd tf))
        || ((timesNullableStart tf <=? k) && (k <? timesNullableEnd tf)) in
      let r := columnsLoop tf subFieldPrefix (S k) rest in
      (name :: r.1, columnQuery temporal name +:+ r.2)
  end.

(** [(fields *tableFields) buildColumnNames(subFieldPrefix)]: the columns
    of the struct, then those of its nested structs. *)
Fixpoint buildColumnNames (tf : tableFields) (subFieldPrefix : string)
  : list string * string :=
  let own := columnsLoop tf subFieldPrefix 0 (layoutIds tf) in
  let subs :=
    (fix subLoop (l : list (nat * tableFields)) : list string * string :=
       match l with
       | [] => ([], "")
       | p :: rest =>
           let field := fieldAt tf p.1 in
           let prefixName :=
             if Anonymous field then subFieldPrefix
             else subFieldPrefix +:+ Name field in
           let sub := buildColumnNames p.2 prefixName in
           let r := subLoop rest in
           (sub.1 ++ r.1, sub.2 +:+ r.2)
       end) (structsFields tf) in
  (own.1 ++ subs.1, own.2 +:+ subs.2).

(** The part of [init] that names the cache keys of a schema: the pool
    (unless it is the default one) and the table, then, with the query of
    the columns, the first five hexadecimal digits of the SHA-256. *)
Definition poolPrefix (mysqlPoolName : string) : string :=
  if String.eqb mysqlPoolName "default" then "" else mysqlPoolName.

Definition fingerprintInput (mysqlPoolName tableName fieldsQuery : string) : string :=
  (poolPrefix mysqlPoolName +:+ tableName) +:+ fieldsQuery.

Definition cachePrefixOf (mysqlPoolName tableName fieldsQuery : string) : string :=
  sliceTo 5 (hex (Sum256 (bytesOf (fingerprintInput mysqlPoolName tableName fieldsQuery)))).

(** [structureHash]: the FNV-1a hash of the cache prefix. *)
Definition structureHashOf (cachePrefix : string) : Z := fnv32a (bytesOf cachePrefix).

(** ** The vocabulary of the specification *)

(** The names written between backticks in a text, in order.  [opened]
    holds the part read so far of a name that has been opened. *)
Definition isBacktick (c : ascii) : bool := Ascii.eqb c "`".

Fixpoint quotedNames (opened : option string) (s : string) : list string :=
  match s with
  | EmptyString => []
  | String c s' =>
      match opened with
      | None =>
          if isBacktick c then quotedNames (Some "") s' else quotedNames None s'
      | Some name =>
          if isBacktick c then name :: quotedNames None s'
          else quotedNames (Some (name +:+ String c "")) s'
      end
  end.

(** A name that can be quoted: no backtick in it, as in every Go
    identifier. *)
Fixpoint noBacktick (s : string) : bool :=
  match s with
  | EmptyString => true
  | String c s' => negb (isBacktick c) && noBacktick s'
  end.

(** The loop over the nested structs, as a function of its own. *)
Definition subColumns (tf : tableFields) (subFieldPrefix : string)
  : list (nat * tableFields) → list string * string :=
  fix subLoop (l : list (nat * tableFields)) : list string * string :=
    match l with
    | [] => ([], "")
    | p :: rest =>
        let field := fieldAt tf p.1 in
        let prefixName :=
          if Anonymous field then subFieldPrefix else subFieldPrefix +:+ Name field in
        let sub := buildColumnNames p.2 prefixName in
        let r := subLoop rest in
        (sub.1 ++ r.1, sub.2 +:+ r.2)
    end.

(** [type UserEntity struct { beeorm.ORM; ID uint64; <name> string }] *)
Definition idAndString (name : string) : tableFields :=
  {| fields := {[ 1 := {| Name := "ID"; Anonymous := false |};
                  2 := {| Name := name; Anonymous := false |} ]};
     uintegers := [1]; refs := []; integers := []; booleans := []; floats := [];
     times := []; dates := []; fakeDelete := 0; strings := [2];
     uintegersNullable := []; integersNullable := []; stringsEnums := [];
     bytes := []; sliceStringsSets := []; booleansNullable := []; floatsNullable := [];
     timesNullable := []; datesNullable := []; jsons := []; structsFields := [] |}.

(** ** Properties of the layout *)

Lemma buildColumnNames_unfold tf subFieldPrefix :
  buildColumnNames tf subFieldPrefix
  = ((columnsLoop tf subFieldPrefix 0 (layoutIds tf)).1
       ++ (subColumns tf subFieldPrefix (structsFields tf)).1,
     (columnsLoop tf subFieldPrefix 0 (layoutIds tf)).2
       +:+ (subColumns tf subFieldPrefix (structsFields tf)).2).
Proof. by destruct tf. Qed.

Section nested_induction.
Variable P : tableFields → Prop.
Hypothesis step : ∀ tf, Forall (λ p, P p.2) (structsFields tf) → P tf.

Fixpoint tableFields_nested_ind (tf : tableFields) : P tf :=
  step tf
    ((fix subs (l : list (nat * tableFields)) : Forall (λ p, P p.2) l :=
        match l with
        | [] => ListDef.Forall_nil _
        | p :: rest =>
            ListDef.Forall_cons _ p rest (tableFields_nested_ind p.2) (subs rest)
        end) (structsFields tf)).
End nested_induction.

Lemma quotedNames_opened (name opened rest : string) :
  noBacktick name = true →
  quotedNames (Some opened) (name +:+ String "`" rest)
  = (opened +:+ name) :: quotedNames None rest.
Proof.
  revert opened. induction name as [|c name IH]; intros opened Hn.
  - cbn. by rewrite append_nil_r.
  - cbn in Hn. apply andb_true_iff in Hn as [Hc Hn]. apply negb_true_iff in Hc.
    cbn [String.append quotedNames]. rewrite Hc, IH by done.
    by rewrite append_assoc.
Qed.

Lemma quotedNames_columnQuery (temporal : bool) (name rest : string) :
  noBacktick name = true →
  quotedNames None (columnQuery temporal name +:+ rest) = name :: quotedNames None rest.
Proof.
  intros Hn. unfold columnQuery.
  destruct temporal; rewrite !append_assoc; cbn; by rewrite quotedNames_opened.
Qed.

Lemma columnsLoop_quotedNames tf subFieldPrefix k ids rest :
  Forall (λ name, noBacktick name = true) (columnsLoop tf subFieldPrefix k ids).1 →
  quotedNames None ((columnsLoop tf subFieldPrefix k ids).2 +:+ rest)
  = (columnsLoop tf subFieldPrefix k ids).1 ++ quotedNames None rest.
Proof.
  revert k. induction ids as [|i ids IH]; intros k HF; [done|].
  cbn [columnsLoop fst snd] in *. apply Forall_cons in HF as [Hn HF].
  rewrite append_assoc, quotedNames_columnQuery by done.
  cbn [app]. f_equal. by apply IH.
Qed.

(** The names quoted in [fieldsQuery] are the columns, in order. *)
Lemma buildColumnNames_quotedNames tf :
  ∀ subFieldPrefix rest,
    Forall (λ name, noBacktick name = true) (buildColumnNames tf subFieldPrefix).1 →
    quotedNames None ((buildColumnNames tf subFieldPrefix).2 +:+ rest)
    = (buildColumnNames tf subFieldPrefix).1 ++ quotedNames None rest.
Proof.
  induction tf as [tf IH] using tableFields_nested_ind.
  intros subFieldPrefix rest. rewrite buildColumnNames_unfold. cbn [fst snd].
  intros [Hown Hsubs]%Forall_app.
  rewrite append_assoc, columnsLoop_quotedNames by done.
  rewrite <- app_assoc. f_equal.
  clear Hown. induction (structsFields tf) as [|p l IHl]; [done|].
  apply Forall_cons in IH as [IHp IH].
  cbn [subColumns fst snd] in *. fold (subColumns tf subFieldPrefix) in *.
  apply Forall_app in Hsubs as [Hp Hl].
  rewrite append_assoc, IHp by done.
  rewrite <- app_assoc. f_equal. by apply IHl.
Qed.

Lemma fieldsQuery_columns tf :
  Forall (λ name, noBacktick name = true) (buildColumnNames tf "").1 →
  quotedNames None (buildColumnNames tf "").2 = (buildColumnNames tf "").1.
Proof.
  intros HF. pose proof (buildColumnNames_quotedNames tf "" "" HF) as H.
  by rewrite append_nil_r, app_nil_r in H.
Qed.

(** C1, as the code has it: two schemas for the same pool and table whose
    column layouts differ, in the columns or in their order, hash
    different texts into the cache-key prefix.  The prefix is the first
    five hexadecimal digits of the SHA-256 of that text. *)
Theorem layouts_hash_different_texts (mysqlPool tableName : string)
    (tf1 tf2 : tableFields) :
  Forall (λ name, noBacktick name = true) (buildColumnNames tf1 "").1 →
  Forall (λ name, noBacktick name = true) (buildColumnNames tf2 "").1 →
  (buildColumnNames tf1 "").1 ≠ (buildColumnNames tf2 "").1 →
  fingerprintInput mysqlPool tableName (buildColumnNames tf1 "").2
  ≠ fingerprintInput mysqlPool tableName (buildColumnNames tf2 "").2
  ∧ ∀ tf, cachePrefixOf mysqlPool tableName (buildColumnNames tf "").2
          = sliceTo 5 (hex (Sum256 (bytesOf
              (fingerprintInput mysqlPool tableName (buildColumnNames tf "").2)))).
Proof.
  intros H1 H2 Hne. split; [|done].
  unfold fingerprintInput. intros Heq. apply Hne.
  apply (inj (String.append _)) in Heq.
  rewrite <- (fieldsQuery_columns tf1 H1), <- (fieldsQuery_columns tf2 H2).
  by rewrite Heq.
Qed.


Lemma layouts_hash_different_texts_witness :
  fingerprintInput "default" "UserEntity" (buildColumnNames (idAndString "Name") "").2
  ≠ fingerprintInput "default" "UserEntity" (buildColumnNames (idAndString "Email") "").2
  ∧ ∀ tf, cachePrefixOf "default" "UserEntity" (buildColumnNames tf "").2
          = sliceTo 5 (hex (Sum256 (bytesOf
              (fingerprintInput "default" "UserEntity" (buildColumnNames tf "").2)))).
Proof.
  apply (layouts_hash_different_texts "default" "UserEntity"
           (idAndString "Name") (idAndString "Email")).
  - vm_compute. repeat constructor.
  - vm_compute. repeat constructor.
  - vm_compute. discriminate.
Defined.

(** Two layouts that differ in the name of a column and take the same
    cache-key prefix: the SHA-256 of their texts agree on the first five
    digits. *)
Lemma cachePrefix_collision :
  (buildColumnNames (idAndString "NameLabel") "").1
  ≠ (buildColumnNames (idAndString "TitleEmail") "").1
  ∧ cachePrefixOf "default" "UserEntity" (buildColumnNames (idAndString "NameLabel") "").2
    = cachePrefixOf "default" "UserEntity" (buildColumnNames (idAndString "TitleEmail") "").2.
Proof. split; [vm_compute; discriminate|vm_compute; reflexivity]. Qed.

Example cachePrefix_collision_values :
  buildColumnNames (idAndString "NameLabel") "" = (["ID"; "NameLabel"], ",`ID`,`NameLabel`")
  ∧ buildColumnNames (idAndString "TitleEmail") "" = (["ID"; "TitleEmail"], ",`ID`,`TitleEmail`")
  ∧ cachePrefixOf "default" "UserEntity" ",`ID`,`NameLabel`" = "71125"
  ∧ cachePrefixOf "default" "UserEntity" ",`ID`,`TitleEmail`" = "71125".
Proof. vm_compute. done. Qed.

End Columns.

Module ColumnsExamples.
Import Columns.

(** [type UserEntity struct { beeorm.ORM; ID uint64; Name string; Age uint8;
    CreatedAt time.Time `orm:"time"` ; Address struct { City string } }] *)
Definition userFields : tableFields :=
  {| fields := {[ 1 := {| Name := "ID"; Anonymous := false |};
                  2 := {| Name := "Name"; Anonymous := false |};
                  3 := {| Name := "Age"; Anonymous := false |};
                  4 := {| Name := "CreatedAt"; Anonymous := false |};
                  5 := {| Name := "Address"; Anonymous := false |} ]};
     uintegers := [1; 3]; refs := []; integers := []; booleans := []; floats := [];
     times := [4]; dates := []; fakeDelete := 0; strings := [2];
     uintegersNullable := []; integersNullable := []; stringsEnums := [];
     bytes := []; sliceStringsSets := []; booleansNullable := []; floatsNullable := [];
     timesNullable := []; datesNullable := []; jsons := [];
     structsFields :=
       [ (5, {| fields := {[ 0 := {| Name := "City"; Anonymous := false |} ]};
                uintegers := []; refs := []; integers := []; booleans := []; floats := [];
                times := []; dates := []; fakeDelete := 0; strings := [0];
                uintegersNullable := []; integersNullable := []; stringsEnums := [];
                bytes := []; sliceStringsSets := []; booleansNullable := [];
                floatsNullable := []; timesNullable := []; datesNullable := [];
                jsons := []; structsFields := [] |}) ] |}.

Example buildColumnNames_user :
  buildColumnNames userFields ""
  = (["ID"; "Age"; "CreatedAt"; "Name"; "AddressCity"],
     ",`ID`,`Age`,TO_SECONDS(`CreatedAt`),`Name`,`AddressCity`").
Proof. vm_compute. reflexivity. Qed.

End ColumnsExamples.

(** * Index validation ([validateIndexes]) *)

Module Indexes.
Import GoStrings QueryTemplate.

(** The errors [init] and [validateIndexes] return, and their messages. *)
Inductive SchemaError : Type :=
| MysqlPoolNotFound (pool : string)
| LocalCachePoolNotFound (pool : string)
| RedisPoolNotFound (pool : string)
| UuidNotUint64 (entity : string)
| DuplicatedIndex (k k2 entity : string)
| MissingUniqueIndex (k entity : string)
| MissingIndex (k entity : string).

Definition errorMessage (e : SchemaError) : string :=
  match e with
  | MysqlPoolNotFound pool => "mysql pool '" +:+ pool +:+ "' not found"
  | LocalCachePoolNotFound pool => "local cache pool '" +:+ pool +:+ "' not found"
  | RedisPoolNotFound pool => "redis pool '" +:+ pool +:+ "' not found"
  | UuidNotUint64 entity => "entity " +:+ entity +:+ " with uuid enabled must be unit64"
  | DuplicatedIndex k k2 entity =>
      "duplicated index " +:+ k +:+ " with " +:+ k2 +:+ " in " +:+ entity
  | MissingUniqueIndex k entity =>
      "missing unique index for cached query '" +:+ k +:+ "' in " +:+ entity
  | MissingIndex k entity =>
      "missing index for cached query '" +:+ k +:+ "' in " +:+ entity
  end.

(** An index as [init] collects it: [map[int]string], from the ordinal of a
    column to its name.  Reading a missing ordinal gives the empty string. *)
Abbreviation index := (gmap Z string).

Definition columnAt (v : index) (i : Z) : string := default "" (v !! i).

(** The loops below range over Go maps.  The order of such a range is not
    fixed by the language; [map_to_list] stands for the order taken.  What
    is proved of the result holds for every order. *)

(** [for i := 1; i <= len(v); i++]: counts the ordinals, from 1 on, at
    which [v2] has the column of [v], up to the first at which it has not.
    [n] is the number of turns left. *)
Fixpoint sameLoop (v v2 : index) (n : nat) (i : Z) (same : nat) : nat :=
  match n with
  | 0 => same
  | S n' =>
      match v2 !! i with
      | Some col =>
          if decide (col = columnAt v i) then sameLoop v v2 n' (i + 1)%Z (S same)
          else same
      | None => same
      end
  end.

(** [same == len(v)] *)
Definition duplicates (v v2 : index) : bool :=
  Nat.eqb (sameLoop v v2 (size v) 1%Z 0) (size v).

(** The first result of [f] over a range, as a loop that returns from
    inside. *)
Fixpoint firstSome {A B : Type} (f : A → option B) (l : list A) : option B :=
  match l with
  | [] => None
  | x :: rest =>
      match f x with
      | Some y => Some y
      | None => firstSome f rest
      end
  end.

(** [for k, v := range all { for k2, v2 := range all { ... } }] *)
Definition findDuplicate (all : list (string * index)) : option (string * string) :=
  firstSome (λ kv,
    firstSome (λ kv2,
      if decide (kv.1 = kv2.1) then None
      else if duplicates kv.2 kv2.2 then Some (kv.1, kv2.1)
      else None) all) all.

(** The two nested loops that count the pairs of equal names. *)
Definition countValid (queryFields : list string) (columns : index) : nat :=
  fold_left (λ valid field1,
    fold_left (λ valid kv, if decide (field1 = kv.2) then S valid else valid)
      (map_to_list columns) valid) queryFields 0.

(** The body of [for _, columns := range uniqueIndices] for one template. *)
Definition coversOne (v : cachedQueryDefinition) (columns : index) : bool :=
  if negb (Nat.eqb (size columns) (length (QueryFields v))) then false
  else Nat.eqb (countValid (QueryFields v) columns) (size columns).

(** [for i := len(v.OrderFields); i > 0; i--]: counts the order fields
    that, read from the last, stand at the ordinals [key], [key - 1], ... of
    [columns]. *)
Fixpoint orderLoop (columns : index) (orderFields : list string)
    (i : nat) (key : Z) (valid : nat) : nat :=
  match i with
  | 0 => valid
  | S i' =>
      if decide (columnAt columns key = default "" (orderFields !! i'))
      then orderLoop columns orderFields i' (key - 1)%Z (S valid)
      else valid
  end.

(** The body of [for _, columns := range all] for one template of several
    rows. *)
Definition coversMany (v : cachedQueryDefinition) (columns : index) : bool :=
  if Nat.eqb (countValid (QueryFields v) columns) (length (QueryFields v)) then
    if Nat.eqb (length (OrderFields v)) 0 then true
    else
      let key := Z.of_nat (size columns) in
      let key := if decide (columnAt columns key = "FakeDelete") then (key - 1)%Z else key in
      Nat.eqb (orderLoop columns (OrderFields v) (length (OrderFields v)) key 0)
              (length (OrderFields v))
  else false.

(** [type tableSchema struct], without the reflection data, the scan
    adapters and the plugin options.  [cachedIndexesTrackedFields] is a
    [map[string]bool] that only ever holds [true]: a set. *)
Record tableSchema : Type := {
  tableName : string;
  mysqlPoolName : string;
  t : string;
  fieldsQuery : string;
  tags : gmap string (gmap string string);
  cachedIndexes : gmap string cachedQueryDefinition;
  cachedIndexesOne : gmap string cachedQueryDefinition;
  cachedIndexesAll : gmap string cachedQueryDefinition;
  cachedIndexesTrackedFields : gset string;
  columnNames : list string;
  columnMapping : gmap string nat;
  refOne : list string;
  localCacheName : string;
  hasLocalCache : bool;
  redisCacheName : string;
  hasRedisCache : bool;
  cachePrefix : string;
  structureHash : Z;
  hasFakeDelete : bool;
  hasUUID : bool;
}.

(** A schema of which only the type and the cached queries are set. *)
Definition schemaWithQueries (typeString : string) (fakeDelete : bool)
    (queries queriesOne : gmap string cachedQueryDefinition) : tableSchema :=
  {| tableName := ""; mysqlPoolName := ""; t := typeString; fieldsQuery := "";
     tags := ∅; cachedIndexes := queries; cachedIndexesOne := queriesOne;
     cachedIndexesAll := queries ∪ queriesOne; cachedIndexesTrackedFields := ∅;
     columnNames := []; columnMapping := ∅; refOne := [];
     localCacheName := ""; hasLocalCache := false;
     redisCacheName := ""; hasRedisCache := false;
     cachePrefix := ""; structureHash := 0%Z; hasFakeDelete := fakeDelete;
     hasUUID := false |}.

(** [all]: the unique indexes, then the others over them. *)
Definition allIndexes (uniqueIndices indices : gmap string index) : gmap string index :=
  indices ∪ uniqueIndices.

Definition validateIndexes (ts : tableSchema)
    (uniqueIndices indices : gmap string index) : option SchemaError :=
  let all := allIndexes uniqueIndices indices in
  match findDuplicate (map_to_list all) with
  | Some (k, k2) => Some (DuplicatedIndex k k2 (t ts))
  | None =>
      match firstSome (λ kv,
              if existsb (λ kc, coversOne kv.2 kc.2) (map_to_list uniqueIndices)
              then None else Some kv.1)
            (map_to_list (cachedIndexesOne ts)) with
      | Some k => Some (MissingUniqueIndex k (t ts))
      | None =>
          match firstSome (λ kv,
                  if String.eqb (Query kv.2) "1 ORDER BY `ID`" then None
                  else if existsb (λ kc, coversMany kv.2 kc.2) (map_to_list all)
                  then None else Some kv.1)
                (map_to_list (cachedIndexes ts)) with
          | Some k => Some (MissingIndex k (t ts))
          | None => None
          end
      end
  end.

(** ** The vocabulary of the specification *)

(** The columns of an index as a list, in the order of the range. *)
Definition columnsOf (v : index) : list string := (map_to_list v).*2.

(** An index whose columns stand at the ordinals 1, 2, ..., n. *)
Definition contiguous (v : index) : Prop :=
  ∀ i : Z, is_Some (v !! i) ↔ (1 ≤ i ≤ Z.of_nat (size v))%Z.

(** The columns read at the ordinals 1, 2, ..., [len(v)], as the first loop
    reads them. *)
Definition positionalColumns (v : index) : list string :=
  map (columnAt v) (seqZ 1 (Z.of_nat (size v))).

(** The ordered column list of an index: its columns by increasing
    ordinal. *)
Definition byOrdinal (a b : Z * string) : Prop := (a.1 ≤ b.1)%Z.

#[global] Instance byOrdinal_dec a b : Decision (byOrdinal a b).
Proof. unfold byOrdinal. apply _. Defined.

Definition orderedColumns (v : index) : list string :=
  (merge_sort byOrdinal (map_to_list v)).*2.

(** The index that holds [columns] at the ordinals 1, 2, ... *)
Definition indexOf (columns : list string) : index :=
  list_to_map (zip (seqZ 1 (Z.of_nat (length columns))) columns).

Definition sampleSchema : tableSchema := schemaWithQueries "app.UserEntity" false ∅ ∅.

(** The schema of an entity that declares [IndexEmail *CachedQuery
    `queryOne:":Email = ?"`], with or without a [FakeDelete bool] field. *)
Definition emailSchema (hasFakeDelete : bool) : tableSchema :=
  schemaWithQueries "app.UserEntity" hasFakeDelete ∅
    {[ "IndexEmail" := buildDefinition hasFakeDelete true ":Email = ?" ]}.

(** ** Properties of the validation *)

Lemma firstSome_Some {A B} (f : A → option B) (l : list A) y :
  firstSome f l = Some y → ∃ x, x ∈ l ∧ f x = Some y.
Proof.
  induction l as [|x rest IH]; simpl; [done|].
  destruct (f x) as [y'|] eqn:Hx.
  - intros [= ->]. exists x. split; [apply elem_of_cons; by left|done].
  - intros H. destruct (IH H) as (x' & Hin & Hx'). exists x'.
    split; [apply elem_of_cons; by right|done].
Qed.

Lemma firstSome_None {A B} (f : A → option B) (l : list A) :
  firstSome f l = None ↔ ∀ x, x ∈ l → f x = None.
Proof.
  induction l as [|x rest IH]; simpl.
  - split; [|done]. intros _ x H. by apply elem_of_nil in H.
  - destruct (f x) as [y'|] eqn:Hx.
    + split; [done|]. intros H. specialize (H x). rewrite Hx in H.
      apply H, elem_of_cons. by left.
    + rewrite IH. split.
      * intros H x' [->|Hin]%elem_of_cons; [done|by apply H].
      * intros H x' Hin. apply H, elem_of_cons. by right.
Qed.

Lemma sameLoop_le v v2 n i same : sameLoop v v2 n i same ≤ same + n.
Proof.
  revert i same. induction n as [|n IH]; intros i same; simpl; [lia|].
  destruct (v2 !! i) as [col|]; [|lia].
  case_decide; [|lia]. specialize (IH (i + 1)%Z (S same)). lia.
Qed.

Lemma sameLoop_full v v2 n i same :
  sameLoop v v2 n i same = same + n
  ↔ ∀ j : Z, (i ≤ j < i + Z.of_nat n)%Z → v2 !! j = Some (columnAt v j).
Proof.
  revert i same. induction n as [|n IH]; intros i same; simpl.
  - split; [intros _ j Hj; lia|lia].
  - destruct (v2 !! i) as [col|] eqn:Hi.
    + case_decide as Hc.
      * rewrite Nat.add_succ_r, <- Nat.add_succ_l, IH. split.
        -- intros H j Hj. destruct (decide (j = i)) as [->|]; [by rewrite Hi, Hc|].
           apply H. lia.
        -- intros H j Hj. apply H. lia.
      * split; [lia|]. intros H. specialize (H i). rewrite Hi in H.
        assert (Some col = Some (columnAt v i)) as [= ?] by (apply H; lia). done.
    + split; [lia|]. intros H. specialize (H i). rewrite Hi in H.
      assert (None = Some (columnAt v i)) by (apply H; lia). done.
Qed.

Lemma duplicates_spec v v2 :
  duplicates v v2 = true
  ↔ ∀ j : Z, (1 ≤ j ≤ Z.of_nat (size v))%Z → v2 !! j = Some (columnAt v j).
Proof.
  unfold duplicates. rewrite Nat.eqb_eq.
  rewrite (sameLoop_full v v2 (size v) 1 0). split; intros H j Hj; apply H; lia.
Qed.

Lemma contiguous_size_le (v v2 : index) :
  contiguous v2 →
  (∀ j : Z, (1 ≤ j ≤ Z.of_nat (size v))%Z → is_Some (v2 !! j)) →
  size v ≤ size v2.
Proof.
  intros Hc H. destruct (size v) as [|n] eqn:Hn; [lia|].
  assert (is_Some (v2 !! Z.of_nat (S n))) as Hs by (apply H; lia).
  apply Hc in Hs. lia.
Qed.

Lemma positionalColumns_length v : length (positionalColumns v) = size v.
Proof. unfold positionalColumns. rewrite length_map, length_seqZ. lia. Qed.

Lemma positionalColumns_lookup v (p : nat) :
  p < size v → positionalColumns v !! p = Some (columnAt v (Z.of_nat p + 1)).
Proof.
  intros Hp. unfold positionalColumns. rewrite list_lookup_fmap.
  rewrite lookup_seqZ_lt by lia. simpl. f_equal. f_equal. lia.
Qed.

(** For indexes with ordinals 1..n, the test of the first loop is the
    prefix relation on the ordered column lists. *)
Lemma duplicates_prefix v v2 :
  contiguous v2 →
  duplicates v v2 = true ↔ positionalColumns v `prefix_of` positionalColumns v2.
Proof.
  intros Hc2. rewrite duplicates_spec. split.
  - intros H.
    assert (size v ≤ size v2) as Hle.
    { apply contiguous_size_le; [done|]. intros j Hj. rewrite (H j Hj). by eexists. }
    exists (drop (size v) (positionalColumns v2)).
    rewrite <- (take_drop (size v) (positionalColumns v2)) at 1. f_equal.
    apply list_eq. intros p. destruct (decide (p < size v)) as [Hp|Hp].
    + rewrite lookup_take_lt by done.
      rewrite !positionalColumns_lookup by lia.
      f_equal. unfold columnAt at 1. rewrite H by lia. done.
    + rewrite lookup_take_ge by lia.
      symmetry. apply lookup_ge_None. rewrite positionalColumns_length. lia.
  - intros [rest Hrest] j Hj.
    assert (size v ≤ size v2) as Hle.
    { rewrite <- (positionalColumns_length v), <- (positionalColumns_length v2), Hrest.
      rewrite length_app. lia. }
    assert (is_Some (v2 !! j)) as [c Hcj] by (apply Hc2; lia).
    rewrite Hcj. f_equal.
    assert (positionalColumns v2 !! Z.to_nat (j - 1) = Some (columnAt v (Z.of_nat (Z.to_nat (j - 1)) + 1))) as Hl.
    { rewrite Hrest. rewrite lookup_app_l by (rewrite positionalColumns_length; lia).
      apply positionalColumns_lookup. lia. }
    rewrite positionalColumns_lookup in Hl by lia.
    replace (Z.of_nat (Z.to_nat (j - 1)) + 1)%Z with j in Hl by lia.
    injection Hl as Hl. rewrite <- Hl. unfold columnAt. by rewrite Hcj.
Qed.

Lemma findDuplicate_Some (all : gmap string index) k k2 :
  findDuplicate (map_to_list all) = Some (k, k2) →
  k ≠ k2 ∧ ∃ v v2, all !! k = Some v ∧ all !! k2 = Some v2 ∧ duplicates v v2 = true.
Proof.
  unfold findDuplicate. intros H.
  apply firstSome_Some in H as ([k' v] & Hin & H).
  apply firstSome_Some in H as ([k2' v2] & Hin2 & H). simpl in H.
  case_decide as Hk; [done|]. destruct (duplicates v v2) eqn:Hd; [|done].
  injection H as <- <-. split; [done|].
  exists v, v2. by rewrite <- !elem_of_map_to_list.
Qed.

Lemma findDuplicate_None (all : gmap string index) :
  findDuplicate (map_to_list all) = None
  ↔ ∀ k k2 v v2, k ≠ k2 → all !! k = Some v → all !! k2 = Some v2 →
                 duplicates v v2 = false.
Proof.
  unfold findDuplicate. rewrite firstSome_None. split.
  - intros H k k2 v v2 Hne Hk Hk2.
    specialize (H (k, v)). rewrite firstSome_None in H.
    specialize (H ltac:(by apply elem_of_map_to_list) (k2, v2)
                  ltac:(by apply elem_of_map_to_list)).
    simpl in H. rewrite decide_False in H by done.
    by destruct (duplicates v v2).
  - intros H [k v] Hin. apply firstSome_None. intros [k2 v2] Hin2. simpl.
    case_decide as Hk; [done|].
    apply elem_of_map_to_list in Hin, Hin2.
    by rewrite (H k k2 v v2 Hk Hin Hin2).
Qed.

Lemma contiguous_dom (v : index) :
  contiguous v ↔ dom v = list_to_set (seqZ 1 (Z.of_nat (size v))).
Proof.
  unfold contiguous. split.
  - intros H. apply set_eq. intros i.
    rewrite elem_of_dom, H, elem_of_list_to_set, elem_of_seqZ. lia.
  - intros H i. rewrite <- elem_of_dom, H, elem_of_list_to_set, elem_of_seqZ. lia.
Qed.

#[global] Instance contiguous_dec (v : index) : Decision (contiguous v).
Proof.
  refine (cast_if (decide (dom v = list_to_set (seqZ 1 (Z.of_nat (size v))))));
    by rewrite contiguous_dom.
Defined.


#[global] Instance byOrdinal_total : Total byOrdinal.
Proof. intros a b. unfold byOrdinal. lia. Qed.

#[global] Instance byOrdinal_trans : Transitive byOrdinal.
Proof. intros a b c. unfold byOrdinal. lia. Qed.

Lemma StronglySorted_byOrdinal_seqZ (v : index) (i : Z) (n : nat) :
  StronglySorted byOrdinal (map (λ j, (j, columnAt v j)) (seqZ i (Z.of_nat n))).
Proof.
  revert i. induction n as [|n IH]; intros i.
  - constructor.
  - rewrite Nat2Z.inj_succ, seqZ_cons by lia. simpl.
    replace (Z.pred (Z.succ (Z.of_nat n))) with (Z.of_nat n) by lia.
    constructor; [apply IH|].
    apply Forall_forall. intros [j c] Hin.
    apply list_elem_of_fmap in Hin as (j' & [= -> ->] & Hj').
    apply elem_of_seqZ in Hj'. unfold byOrdinal. simpl. lia.
Qed.

(** The columns of an index with ordinals 1..n, read by position, are its
    ordered column list. *)
Lemma orderedColumns_contiguous (v : index) :
  contiguous v → orderedColumns v = positionalColumns v.
Proof.
  intros Hc. unfold orderedColumns, positionalColumns.
  set (l2 := map (λ j, (j, columnAt v j)) (seqZ 1 (Z.of_nat (size v)))).
  assert (Hl2 : l2.*2 = map (columnAt v) (seqZ 1 (Z.of_nat (size v)))).
  { unfold l2. rewrite <- list_fmap_compose. done. }
  rewrite <- Hl2. f_equal.
  apply (StronglySorted_unique_strong byOrdinal).
  - intros [i x] [j y] Hi Hj Hij Hji.
    rewrite merge_sort_Permutation in Hi. apply elem_of_map_to_list in Hi.
    apply list_elem_of_fmap in Hj as (j' & [= -> ->] & _).
    unfold byOrdinal in *. simpl in *. assert (i = j') as -> by lia.
    unfold columnAt. by rewrite Hi.
  - apply StronglySorted_merge_sort; apply _.
  - apply StronglySorted_byOrdinal_seqZ.
  - rewrite merge_sort_Permutation. apply NoDup_Permutation.
    + apply NoDup_map_to_list.
    + unfold l2. apply NoDup_fmap_2; [|apply NoDup_seqZ].
      intros i j [= ?]. done.
    + intros [i x]. rewrite elem_of_map_to_list. unfold l2.
      rewrite list_elem_of_fmap. split.
      * intros Hi. exists i. split.
        -- unfold columnAt. by rewrite Hi.
        -- apply elem_of_seqZ. assert (is_Some (v !! i)) as Hs by (by eexists).
           apply Hc in Hs. lia.
      * intros (j & [= -> ->] & Hj). apply elem_of_seqZ in Hj.
        assert (is_Some (v !! j)) as [c Hs] by (apply Hc; lia).
        unfold columnAt. by rewrite Hs.
Qed.

(** C6, as the code has it: the indexes are taken by name, a non-unique
    index standing for a unique index of the same name, and each has its
    columns at the ordinals 1..n.  If among them two of different names are
    such that the ordered column list of one is a prefix of (or equal to)
    that of the other, validation fails with a "duplicated index" error
    naming such a pair; if no two are, no "duplicated index" error is
    returned. *)
Theorem validateIndexes_duplicated (ts : tableSchema)
    (uniqueIndices indices : gmap string index) :
  map_Forall (λ _ v, contiguous v) (allIndexes uniqueIndices indices) →
  let all := allIndexes uniqueIndices indices in
  let prefixDuplicate k k2 :=
    k ≠ k2 ∧ ∃ v v2, all !! k = Some v ∧ all !! k2 = Some v2
                     ∧ orderedColumns v `prefix_of` orderedColumns v2 in
  ((∃ k k2, prefixDuplicate k k2) →
     ∃ k k2, prefixDuplicate k k2
       ∧ validateIndexes ts uniqueIndices indices = Some (DuplicatedIndex k k2 (t ts)))
  ∧ ((¬ ∃ k k2, prefixDuplicate k k2) →
     ∀ k k2 entity,
       validateIndexes ts uniqueIndices indices ≠ Some (DuplicatedIndex k k2 entity)).
Proof.
  intros Hwf all prefixDuplicate.
  assert (Hdup : ∀ k k2 v v2, all !! k = Some v → all !! k2 = Some v2 →
            duplicates v v2 = true ↔ orderedColumns v `prefix_of` orderedColumns v2).
  { intros k k2 v v2 Hk Hk2.
    rewrite (orderedColumns_contiguous v) by (by apply (Hwf k)).
    rewrite (orderedColumns_contiguous v2) by (by apply (Hwf k2)).
    apply duplicates_prefix. by apply (Hwf k2). }
  split.
  - intros (k & k2 & Hne & v & v2 & Hk & Hk2 & Hpre).
    destruct (findDuplicate (map_to_list all)) as [[k' k2']|] eqn:Hfd.
    + exists k', k2'. split.
      * apply findDuplicate_Some in Hfd as (Hne' & v' & v2' & Hk' & Hk2' & Hd).
        split; [done|]. exists v', v2'. split; [done|]. split; [done|].
        by apply (Hdup k' k2').
      * unfold validateIndexes. fold all. by rewrite Hfd.
    + exfalso. rewrite findDuplicate_None in Hfd.
      specialize (Hfd k k2 v v2 Hne Hk Hk2).
      apply (Hdup k k2 v v2 Hk Hk2) in Hpre. congruence.
  - intros Hnone k k2 entity Hv. apply Hnone.
    unfold validateIndexes in Hv. fold all in Hv.
    destruct (findDuplicate (map_to_list all)) as [[k' k2']|] eqn:Hfd.
    + apply findDuplicate_Some in Hfd as (Hne' & v' & v2' & Hk' & Hk2' & Hd).
      exists k', k2'. split; [done|]. exists v', v2'. split; [done|]. split; [done|].
      by apply (Hdup k' k2').
    + repeat case_match; done.
Qed.

Lemma validateIndexes_duplicated_witness :
  let uniqueIndices : gmap string index := {[ "Login" := indexOf ["Email"] ]} in
  let indices : gmap string index := {[ "Search" := indexOf ["Email"; "Age"] ]} in
  let all := allIndexes uniqueIndices indices in
  let prefixDuplicate k k2 :=
    k ≠ k2 ∧ ∃ v v2, all !! k = Some v ∧ all !! k2 = Some v2
                     ∧ orderedColumns v `prefix_of` orderedColumns v2 in
  ((∃ k k2, prefixDuplicate k k2) →
     ∃ k k2, prefixDuplicate k k2
       ∧ validateIndexes sampleSchema uniqueIndices indices
         = Some (DuplicatedIndex k k2 (t sampleSchema)))
  ∧ ((¬ ∃ k k2, prefixDuplicate k k2) →
     ∀ k k2 entity,
       validateIndexes sampleSchema uniqueIndices indices
       ≠ Some (DuplicatedIndex k k2 entity)).
Proof.
  apply (validateIndexes_duplicated sampleSchema
           {[ "Login" := indexOf ["Email"] ]}
           {[ "Search" := indexOf ["Email"; "Age"] ]}).
  eapply (bool_decide_unpack _). vm_compute. reflexivity.
Defined.

Example duplicated_prefix_rejected :
  validateIndexes sampleSchema {[ "Login" := indexOf ["Email"] ]}
    {[ "Search" := indexOf ["Email"; "Age"] ]}
  = Some (DuplicatedIndex "Login" "Search" "app.UserEntity").
Proof. vm_compute. reflexivity. Qed.

(** Two indexes with the same ordered column list, one of them declared
    with the ordinals 1 and 3: the first loop reads the second by position
    and does not find the first in it, nor the second in the first. *)
Lemma gapped_ordinals_not_detected :
  let search : index := {[ 1%Z := "City"; 3%Z := "Age" ]} in
  let filter : index := {[ 1%Z := "City"; 2%Z := "Age" ]} in
  orderedColumns search = ["City"; "Age"]
  ∧ orderedColumns filter = ["City"; "Age"]
  ∧ validateIndexes sampleSchema ∅ {[ "Search" := search; "Filter" := filter ]} = None.
Proof. vm_compute. done. Qed.

(** A unique and a non-unique index of one name and the same column: only
    the non-unique one is looked at. *)
Example same_name_not_detected :
  validateIndexes sampleSchema {[ "Email" := indexOf ["Email"] ]}
    {[ "Email" := indexOf ["Email"] ]} = None.
Proof. vm_compute. reflexivity. Qed.

(** *** Single-row templates *)

Lemma countValid_inner (field1 : string) (l : list (Z * string)) valid :
  fold_left (λ valid kv, if decide (field1 = kv.2) then S valid else valid) l valid
  = valid + length (filter (λ c, field1 = c) (l.*2)).
Proof.
  revert valid. induction l as [|kv l IH]; intros valid; [simpl; lia|].
  rewrite fmap_cons, filter_cons. cbn [fold_left]. rewrite IH.
  destruct (decide (field1 = kv.2)); cbn [length]; lia.
Qed.

Lemma countValid_outer (columns : index) (queryFields : list string) acc :
  fold_left (λ valid field1,
    fold_left (λ valid kv, if decide (field1 = kv.2) then S valid else valid)
      (map_to_list columns) valid) queryFields acc
  = acc + sum_list (map (λ field1, length (filter (λ c, field1 = c) (columnsOf columns)))
                        queryFields).
Proof.
  revert acc. induction queryFields as [|f rest IH]; intros acc; simpl; [lia|].
  rewrite IH, countValid_inner. unfold columnsOf. lia.
Qed.

Lemma count_NoDup (l : list string) (x : string) :
  NoDup l → length (filter (λ c, x = c) l) = if decide (x ∈ l) then 1 else 0.
Proof.
  induction 1 as [|y l Hy Hnd IH].
  - rewrite filter_nil. by rewrite decide_False by apply not_elem_of_nil.
  - rewrite filter_cons. destruct (decide (x = y)) as [->|Hne].
    + cbn [length]. rewrite IH. rewrite decide_False by done.
      rewrite decide_True by (apply elem_of_cons; by left). done.
    + rewrite IH. destruct (decide (x ∈ l)) as [Hin|Hin].
      * rewrite decide_True by (apply elem_of_cons; by right). done.
      * rewrite decide_False; [done|]. intros [?|?]%elem_of_cons; done.
Qed.

Lemma countValid_NoDup (queryFields : list string) (columns : index) :
  NoDup (columnsOf columns) →
  countValid queryFields columns
  = length (filter (λ f, f ∈ columnsOf columns) queryFields).
Proof.
  intros Hnd. unfold countValid. rewrite countValid_outer, Nat.add_0_l.
  induction queryFields as [|f rest IH]; [done|].
  cbn [map sum_list_with sum_list]. rewrite filter_cons.
  rewrite IH, count_NoDup by done.
  destruct (decide (f ∈ columnsOf columns)); cbn [length]; unfold id; lia.
Qed.

Lemma filter_length_all {A} (P : A → Prop) `{∀ x, Decision (P x)} (l : list A) :
  length (filter P l) = length l ↔ Forall P l.
Proof.
  induction l as [|x l IH]; simpl.
  - split; [constructor|done].
  - rewrite filter_cons. destruct (decide (P x)) as [Hx|Hx]; simpl.
    + split.
      * intros Hl. constructor; [done|]. apply IH. lia.
      * intros HF. apply Forall_cons in HF as [_ HF]. apply IH in HF. lia.
    + split.
      * intros Hl. pose proof (length_filter P l). lia.
      * intros HF. apply Forall_cons in HF as [? _]. done.
Qed.

Lemma columnsOf_length (columns : index) : length (columnsOf columns) = size columns.
Proof. unfold columnsOf. by rewrite length_fmap, length_map_to_list. Qed.

(** For a template and an index without repeated columns, the test of the
    second loop says that both have the same columns. *)
Lemma coversOne_Permutation (v : cachedQueryDefinition) (columns : index) :
  NoDup (QueryFields v) → NoDup (columnsOf columns) →
  coversOne v columns = true ↔ QueryFields v ≡ₚ columnsOf columns.
Proof.
  intros Hq Hc. unfold coversOne.
  destruct (Nat.eqb_spec (size columns) (length (QueryFields v))) as [Hlen|Hlen]; simpl.
  - rewrite Nat.eqb_eq, countValid_NoDup, Hlen, filter_length_all by done. split.
    + intros HF. apply submseteq_length_Permutation.
      * apply NoDup_submseteq; [done|]. by apply Forall_forall.
      * rewrite columnsOf_length. lia.
    + intros Hp. apply Forall_forall. intros f Hf. by rewrite <- Hp.
  - split; [done|]. intros Hp. apply Permutation_length in Hp.
    rewrite columnsOf_length in Hp. lia.
Qed.

Lemma existsb_map_to_list {V} (f : V → bool) (m : gmap string V) :
  existsb (λ kc, f kc.2) (map_to_list m) = true
  ↔ ∃ k c, m !! k = Some c ∧ f c = true.
Proof.
  rewrite existsb_exists. split.
  - intros ([k c] & Hin & Hf). apply list_elem_of_In, elem_of_map_to_list in Hin. eauto.
  - intros (k & c & Hk & Hf). exists (k, c). split; [|done].
    by apply list_elem_of_In, elem_of_map_to_list.
Qed.

Lemma queryOne_loop_None (ts : tableSchema) (uniqueIndices : gmap string index) :
  firstSome (λ kv,
      if existsb (λ kc, coversOne kv.2 kc.2) (map_to_list uniqueIndices)
      then None else Some kv.1)
    (map_to_list (cachedIndexesOne ts)) = None
  ↔ ∀ k v, cachedIndexesOne ts !! k = Some v →
           ∃ name c, uniqueIndices !! name = Some c ∧ coversOne v c = true.
Proof.
  rewrite firstSome_None. split.
  - intros H k v Hk. specialize (H (k, v) ltac:(by apply elem_of_map_to_list)).
    simpl in H. apply existsb_map_to_list.
    by destruct (existsb _ _).
  - intros H [k v] Hin. apply elem_of_map_to_list in Hin. simpl.
    destruct (H k v Hin) as (name & c & Hc & Hcov).
    assert (existsb (λ kc, coversOne v kc.2) (map_to_list uniqueIndices) = true) as ->; [|done].
    apply existsb_map_to_list. eauto.
Qed.

(** ** What the specification says of the query fields *)

(** The offset of the first variable of the template [s] that is named
    [f]. *)
Fixpoint firstVariable (f s : string) : option nat :=
  match s with
  | EmptyString => None
  | String c s' =>
      if isColon c && nextAlnum s' && String.eqb (takeAlnum s') f then Some 0
      else S <$> firstVariable f s'
  end.

(** The variable [f] of the template is first written before the first
    [order by], in whatever case this is written; or the template has no
    [order by]. *)
Definition writtenBeforeOrderBy (query f : string) : bool :=
  match IndexNat (ToLower query) "order by", firstVariable f query with
  | None, _ => true
  | Some p, Some n => n <? p
  | Some _, None => false
  end.

(** The query fields of a template, as the specification has them: the
    variables written before [order by], each once, in the order they are
    first written; then [FakeDelete], when the entity has that column and
    the template has a variable. *)
Definition queryFieldsOf (hasFakeDelete : bool) (query : string) : list string :=
  filter (λ f, writtenBeforeOrderBy query f = true) (stableDedup (variableNames query))
  ++ if hasFakeDelete && (0 <? length (variableNames query)) then ["FakeDelete"] else [].

(** Every byte of the text is an ASCII character: [strings.ToLower] then
    works byte by byte, as [ToLower] does. *)
Fixpoint isASCII (s : string) : bool :=
  match s with
  | EmptyString => true
  | String c s' => (nat_of_ascii c <? 128) && isASCII s'
  end.

(** A template of ASCII text in which no variable is named by the first
    letters of the name of another one, nor, on an entity with the column
    [FakeDelete], by a name that starts with [FakeDelete]. *)
Definition plainTemplate (hasFakeDelete : bool) (query : string) : bool :=
  isASCII query
  && forallb (λ g, forallb (λ f, implb (HasPrefix g f) (String.eqb g f))
                     (variableNames query)) (variableNames query)
  && (negb hasFakeDelete
      || forallb (λ g, negb (HasPrefix g "FakeDelete")) (variableNames query)).

(** ** The variables of a template and the search of their text *)

Lemma variableNames_cons c s :
  variableNames (String c s)
  = (if isColon c && nextAlnum s then [takeAlnum s] else []) ++ variableNames s.
Proof.
  unfold variableNames, nextAlnum. cbn [FindAllString].
  destruct (isColon c); [|done]. by destruct (takeAlnum s).
Qed.

Lemma variableNames_alnum s g :
  g ∈ variableNames s → takeAlnum g = g ∧ g ≠ "".
Proof.
  induction s as [|c s IH]; [by intros ?%elem_of_nil|].
  rewrite variableNames_cons. intros [Hg|Hg]%elem_of_app; [|by apply IH].
  destruct (isColon c && nextAlnum s) eqn:Hc; [|by apply elem_of_nil in Hg].
  apply list_elem_of_singleton in Hg as ->. split; [apply takeAlnum_idemp|].
  apply andb_true_iff in Hc as [_ Hn]. unfold nextAlnum in Hn.
  by destruct (takeAlnum s).
Qed.

Lemma HasPrefix_takeAlnum f : ∀ s,
  takeAlnum f = f → HasPrefix s f = true → HasPrefix (takeAlnum s) f = true.
Proof.
  induction f as [|a f IH]; intros s Hf Hp; [done|].
  cbn [takeAlnum] in Hf. destruct (isAlnum a) eqn:Ha; [|done].
  injection Hf as Hf. destruct s as [|c s]; [done|]. cbn [HasPrefix] in Hp.
  destruct (Ascii.eqb_spec c a) as [->|]; [|done].
  cbn [takeAlnum]. rewrite Ha. cbn [HasPrefix]. rewrite Ascii.eqb_refl. by apply IH.
Qed.

Lemma HasPrefix_nextAlnum s a f :
  HasPrefix (takeAlnum s) (String a f) = true → nextAlnum s = true.
Proof. unfold nextAlnum. by destruct (takeAlnum s). Qed.

Lemma takeAlnum_HasPrefix s : HasPrefix s (takeAlnum s) = true.
Proof.
  rewrite <- (takeAlnum_dropAlnum s) at 1. apply HasPrefix_append.
Qed.

(** Where no other variable starts with the name of [f], the text [:f] is
    first found where the variable [f] is first written. *)
Lemma IndexNat_firstVariable f : ∀ s,
  takeAlnum f = f → f ≠ "" →
  (∀ g, g ∈ variableNames s → HasPrefix g f = true → g = f) →
  IndexNat s (":" +:+ f) = firstVariable f s.
Proof.
  intros s Hf Hne. induction s as [|c s IH]; intros Hfree.
  - cbn. by destruct f.
  - assert (Hrest : ∀ g, g ∈ variableNames s → HasPrefix g f = true → g = f).
    { intros g Hg. apply Hfree. rewrite variableNames_cons. apply elem_of_app. by right. }
    specialize (IH Hrest).
    change (":" +:+ f) with (String ":" f) in *.
    cbn [IndexNat firstVariable HasPrefix]. fold (isColon c).
    destruct (isColon c) eqn:Hc; cbn [andb]; [|by rewrite IH].
    destruct (HasPrefix s f) eqn:Hp.
    + pose proof (HasPrefix_takeAlnum f s Hf Hp) as Hpt.
      assert (Hn : nextAlnum s = true).
      { destruct f as [|a f']; [done|]. by eapply HasPrefix_nextAlnum. }
      rewrite Hn. cbn [andb].
      assert (takeAlnum s = f) as ->.
      { apply Hfree; [|done]. rewrite variableNames_cons, Hc, Hn. cbn. left. }
      by rewrite String.eqb_refl.
    + assert ((takeAlnum s =? f)%string = false) as ->.
      { apply String.eqb_neq. intros <-. by rewrite takeAlnum_HasPrefix in Hp. }
      rewrite andb_false_r. by rewrite IH.
Qed.

(** Where no variable starts with [f], the text [:f] is not found. *)
Lemma IndexNat_no_variable f : ∀ s,
  takeAlnum f = f → f ≠ "" →
  (∀ g, g ∈ variableNames s → HasPrefix g f = false) →
  IndexNat s (":" +:+ f) = None.
Proof.
  intros s Hf Hne. induction s as [|c s IH]; intros Hfree.
  - cbn. by destruct f.
  - assert (Hrest : ∀ g, g ∈ variableNames s → HasPrefix g f = false).
    { intros g Hg. apply Hfree. rewrite variableNames_cons. apply elem_of_app. by right. }
    specialize (IH Hrest).
    change (":" +:+ f) with (String ":" f) in *.
    cbn [IndexNat HasPrefix]. fold (isColon c).
    destruct (isColon c) eqn:Hc; [|by rewrite IH].
    destruct (HasPrefix s f) eqn:Hp; [|by rewrite IH].
    pose proof (HasPrefix_takeAlnum f s Hf Hp) as Hpt.
    assert (Hn : nextAlnum s = true).
    { destruct f as [|a f']; [done|]. by eapply HasPrefix_nextAlnum. }
    rewrite (Hfree (takeAlnum s)) in Hpt; [done|].
    rewrite variableNames_cons, Hc, Hn. cbn. left.
Qed.

Lemma firstVariable_is_Some f s : f ∈ variableNames s → is_Some (firstVariable f s).
Proof.
  induction s as [|c s IH]; [by intros ?%elem_of_nil|].
  rewrite variableNames_cons. cbn [firstVariable]. intros Hin.
  destruct (isColon c && nextAlnum s) eqn:Hc; cbn [andb].
  - destruct (String.eqb_spec (takeAlnum s) f) as [Heq|Hne]; [by eexists|].
    apply elem_of_app in Hin as [Hin|Hin].
    + apply list_elem_of_singleton in Hin. congruence.
    + destruct (IH Hin) as [n ->]. by eexists.
  - cbn [app] in Hin. destruct (IH Hin) as [n ->]. by eexists.
Qed.

Lemma filter_agree {A} (P Q : A → Prop) `{∀ x, Decision (P x)} `{∀ x, Decision (Q x)}
    (l : list A) :
  (∀ x, x ∈ l → P x ↔ Q x) → filter P l = filter Q l.
Proof.
  induction l as [|x l IH]; intros Hl; [done|].
  rewrite !filter_cons, IH by (intros y Hy; apply Hl; by right).
  destruct (decide (P x)) as [HP|HP]; destruct (decide (Q x)) as [HQ|HQ]; try done.
  - by apply (Hl x) in HP; [|left].
  - by apply (Hl x) in HQ; [|left].
Qed.

(** On a plain template the query fields that [buildDefinition] records
    are those of the specification. *)
Lemma buildDefinition_queryFieldsOf (hasFakeDelete isOne : bool) (query : string) :
  plainTemplate hasFakeDelete query = true →
  QueryFields (buildDefinition hasFakeDelete isOne query)
  = queryFieldsOf hasFakeDelete query.
Proof.
  unfold plainTemplate. intros Hplain.
  apply andb_true_iff in Hplain as [Hplain Hfake].
  apply andb_true_iff in Hplain as [_ Hfree].
  assert (Hfree' : ∀ f g, f ∈ variableNames query → g ∈ variableNames query →
                          HasPrefix g f = true → g = f).
  { intros f g Hf Hg Hp. rewrite forallb_forall in Hfree.
    specialize (Hfree g ltac:(by apply list_elem_of_In)).
    rewrite forallb_forall in Hfree.
    specialize (Hfree f ltac:(by apply list_elem_of_In)).
    rewrite Hp in Hfree. cbn in Hfree. by apply String.eqb_eq. }
  rewrite buildDefinition_QueryFields. unfold templateFields, queryFieldsOf.
  rewrite filter_app. f_equal.
  - apply filter_agree. intros f Hf.
    assert (Hin : f ∈ variableNames query).
    { clear -Hf. induction (variableNames query) as [|x l IH];
        [by apply elem_of_nil in Hf|].
      cbn [stableDedup] in Hf. apply elem_of_cons in Hf as [->|Hf]; [left|].
      apply list_elem_of_filter in Hf as [_ Hf]. right. by apply IH. }
    destruct (variableNames_alnum query f Hin) as [Hal Hne].
    unfold beforeOrderBy, writtenBeforeOrderBy, Index.
    rewrite (IndexNat_firstVariable f query Hal Hne (λ g, Hfree' f g Hin)).
    destruct (firstVariable_is_Some f query Hin) as [n ->].
    destruct (IndexNat (ToLower query) "order by") as [p|].
    + assert ((Z.of_nat p =? -1)%Z = false) as -> by (apply Z.eqb_neq; lia).
      rewrite orb_false_r.
      destruct (Nat.ltb_spec n p); destruct (Z.ltb_spec (Z.of_nat n) (Z.of_nat p));
        try done; lia.
    + by rewrite orb_true_r.
  - destruct (hasFakeDelete && (0 <? length (variableNames query))) eqn:Hc;
      [|by rewrite filter_nil].
    apply andb_true_iff in Hc as [-> _]. cbn [negb orb] in Hfake.
    rewrite filter_cons_True; [done|].
    unfold beforeOrderBy, Index.
    rewrite (IndexNat_no_variable "FakeDelete" query); [|done|done|].
    + destruct (IndexNat (ToLower query) "order by") as [p|]; [|by rewrite orb_true_r].
      apply orb_true_iff. left. apply Z.ltb_lt. lia.
    + intros g Hg. rewrite forallb_forall in Hfake.
      specialize (Hfake g ltac:(by apply list_elem_of_In)).
      by apply negb_true_iff in Hfake.
Qed.

Lemma stableDedup_elem_of (l : list string) x : x ∈ stableDedup l → x ∈ l.
Proof.
  induction l as [|y l IH]; [done|]. cbn [stableDedup].
  intros [->|Hx]%elem_of_cons; [left|].
  apply list_elem_of_filter in Hx as [_ Hx]. right. by apply IH.
Qed.

Lemma stableDedup_NoDup (l : list string) : NoDup (stableDedup l).
Proof.
  induction l as [|y l IH]; [constructor|]. cbn [stableDedup]. constructor.
  - intros Hy. apply list_elem_of_filter in Hy as [Hy _]. done.
  - by apply NoDup_filter.
Qed.

Lemma queryFieldsOf_NoDup (hasFakeDelete : bool) (query : string) :
  plainTemplate hasFakeDelete query = true → NoDup (queryFieldsOf hasFakeDelete query).
Proof.
  unfold plainTemplate, queryFieldsOf. intros [_ Hfake]%andb_true_iff.
  apply NoDup_app. split; [apply NoDup_filter, stableDedup_NoDup|]. split.
  - intros f Hf Hin.
    destruct (hasFakeDelete && (0 <? length (variableNames query))) eqn:Hc;
      [|by apply elem_of_nil in Hin].
    apply list_elem_of_singleton in Hin as ->.
    apply andb_true_iff in Hc as [-> _]. cbn [negb orb] in Hfake.
    apply list_elem_of_filter in Hf as [_ Hf]. apply stableDedup_elem_of in Hf.
    rewrite forallb_forall in Hfake.
    specialize (Hfake "FakeDelete" ltac:(by apply list_elem_of_In)). done.
  - destruct (hasFakeDelete && (0 <? length (variableNames query)));
      [apply NoDup_singleton|constructor].
Qed.

(** The validation of the single-row templates, on the definitions that
    the schema holds. *)
Lemma validateIndexes_covers (ts : tableSchema)
    (uniqueIndices indices : gmap string index) :
  findDuplicate (map_to_list (allIndexes uniqueIndices indices)) = None →
  map_Forall (λ _ v, NoDup (QueryFields v)) (cachedIndexesOne ts) →
  map_Forall (λ _ c, NoDup (columnsOf c)) uniqueIndices →
  let covered v :=
    ∃ name c, uniqueIndices !! name = Some c ∧ QueryFields v ≡ₚ columnsOf c in
  ((∀ k v, cachedIndexesOne ts !! k = Some v → covered v) →
     (∀ k entity,
        validateIndexes ts uniqueIndices indices ≠ Some (MissingUniqueIndex k entity))
     ∧ (cachedIndexes ts = ∅ → validateIndexes ts uniqueIndices indices = None))
  ∧ ((∃ k v, cachedIndexesOne ts !! k = Some v ∧ ¬ covered v) →
     ∃ k v, cachedIndexesOne ts !! k = Some v ∧ ¬ covered v
       ∧ validateIndexes ts uniqueIndices indices
         = Some (MissingUniqueIndex k (t ts))).
Proof.
  intros Hfd Hq Hc covered.
  assert (Hcov : ∀ k v, cachedIndexesOne ts !! k = Some v →
            covered v ↔ ∃ name c, uniqueIndices !! name = Some c ∧ coversOne v c = true).
  { intros k v Hk. unfold covered. split.
    - intros (name & c & Hn & Hp). exists name, c. split; [done|].
      apply coversOne_Permutation; [by apply (Hq k)|by apply (Hc name)|done].
    - intros (name & c & Hn & Hp). exists name, c. split; [done|].
      apply coversOne_Permutation; [by apply (Hq k)|by apply (Hc name)|done]. }
  unfold validateIndexes. rewrite Hfd. split.
  - intros Hall.
    assert (firstSome (λ kv,
              if existsb (λ kc, coversOne kv.2 kc.2) (map_to_list uniqueIndices)
              then None else Some kv.1)
            (map_to_list (cachedIndexesOne ts)) = None) as ->.
    { apply queryOne_loop_None. intros k v Hk. apply (Hcov k v Hk). by apply (Hall k). }
    split.
    + intros k entity. by case_match.
    + intros ->. by rewrite map_to_list_empty.
  - intros (k & v & Hk & Hn).
    destruct (firstSome _ (map_to_list (cachedIndexesOne ts))) as [k'|] eqn:Hone.
    + apply firstSome_Some in Hone as ([k'' v'] & Hin & Hf). simpl in Hf.
      apply elem_of_map_to_list in Hin.
      destruct (existsb _ _) eqn:Hex; [done|]. injection Hf as ->.
      exists k', v'. split; [done|]. split; [|done].
      intros Hcv. apply (Hcov k' v' Hin) in Hcv.
      apply existsb_map_to_list in Hcv. congruence.
    + exfalso. rewrite queryOne_loop_None in Hone.
      apply Hn. apply (Hcov k v Hk). by apply (Hone k).
Qed.

(** C4, as the code has it.  The query fields of a single-row template are
    the variables it writes before [order by], followed by [FakeDelete]
    when the entity has that column and the template has a variable.  For
    a schema whose single-row templates are plain (ASCII text, no variable
    named by the first letters of another, none whose name starts with
    [FakeDelete] when the entity has that column), where no unique index
    repeats a column, and unless a duplicated index stops the validation
    before:
    if the query fields of every single-row template are the columns of
    some unique index, no "missing unique index" error is returned, and
    validation succeeds when there is no template of several rows; if
    those of some template are not, validation fails with the "missing
    unique index" error of such a template. *)
Theorem validateIndexes_queryOne (ts : tableSchema) (templates : gmap string string)
    (uniqueIndices indices : gmap string index) :
  cachedIndexesOne ts = buildDefinition (hasFakeDelete ts) true <$> templates →
  map_Forall (λ _ query, plainTemplate (hasFakeDelete ts) query = true) templates →
  map_Forall (λ _ c, NoDup (columnsOf c)) uniqueIndices →
  findDuplicate (map_to_list (allIndexes uniqueIndices indices)) = None →
  let covered query :=
    ∃ name c, uniqueIndices !! name = Some c
              ∧ queryFieldsOf (hasFakeDelete ts) query ≡ₚ columnsOf c in
  ((∀ k query, templates !! k = Some query → covered query) →
     (∀ k entity,
        validateIndexes ts uniqueIndices indices ≠ Some (MissingUniqueIndex k entity))
     ∧ (cachedIndexes ts = ∅ → validateIndexes ts uniqueIndices indices = None))
  ∧ ((∃ k query, templates !! k = Some query ∧ ¬ covered query) →
     ∃ k query, templates !! k = Some query ∧ ¬ covered query
       ∧ validateIndexes ts uniqueIndices indices
         = Some (MissingUniqueIndex k (t ts))).
Proof.
  intros Hone Hplain Hc Hfd covered.
  assert (Hq : map_Forall (λ _ v, NoDup (QueryFields v)) (cachedIndexesOne ts)).
  { intros k v. rewrite Hone, lookup_fmap. intros Hk.
    destruct (templates !! k) as [query|] eqn:Hq; [|done]. injection Hk as <-.
    rewrite buildDefinition_queryFieldsOf by by apply (Hplain k).
    apply queryFieldsOf_NoDup. by apply (Hplain k). }
  destruct (validateIndexes_covers ts uniqueIndices indices Hfd Hq Hc) as [Hyes Hno].
  assert (Hdef : ∀ k query, templates !! k = Some query →
            cachedIndexesOne ts !! k
            = Some (buildDefinition (hasFakeDelete ts) true query)
            ∧ QueryFields (buildDefinition (hasFakeDelete ts) true query)
              = queryFieldsOf (hasFakeDelete ts) query).
  { intros k query Hk. rewrite Hone, lookup_fmap, Hk. split; [done|].
    apply buildDefinition_queryFieldsOf. by apply (Hplain k). }
  split.
  - intros Hall. apply Hyes. intros k v. rewrite Hone, lookup_fmap. intros Hk.
    destruct (templates !! k) as [query|] eqn:Hq'; [|done]. injection Hk as <-.
    destruct (Hall k query Hq') as (name & c & Hn & Hp). exists name, c.
    split; [done|]. by rewrite (proj2 (Hdef k query Hq')).
  - intros (k & query & Hk & Hn).
    destruct Hno as (k' & v' & Hk' & Hn' & Hval).
    + exists k, (buildDefinition (hasFakeDelete ts) true query).
      split; [by apply Hdef|]. intros (name & c & Hname & Hp). apply Hn.
      exists name, c. split; [done|]. by rewrite <- (proj2 (Hdef k query Hk)).
    + rewrite Hone, lookup_fmap in Hk'.
      destruct (templates !! k') as [query'|] eqn:Hq'; [|done]. injection Hk' as <-.
      exists k', query'. split; [done|]. split; [|done].
      intros (name & c & Hname & Hp). apply Hn'. exists name, c. split; [done|].
      by rewrite (proj2 (Hdef k' query' Hq')).
Qed.

Lemma validateIndexes_queryOne_witness :
  let ts := emailSchema false in
  let templates : gmap string string := {[ "IndexEmail" := ":Email = ?" ]} in
  let uniqueIndices : gmap string index := {[ "Email" := indexOf ["Email"] ]} in
  let covered query :=
    ∃ name c, uniqueIndices !! name = Some c
              ∧ queryFieldsOf (hasFakeDelete ts) query ≡ₚ columnsOf c in
  ((∀ k query, templates !! k = Some query → covered query) →
     (∀ k entity,
        validateIndexes ts uniqueIndices ∅ ≠ Some (MissingUniqueIndex k entity))
     ∧ (cachedIndexes ts = ∅ → validateIndexes ts uniqueIndices ∅ = None))
  ∧ ((∃ k query, templates !! k = Some query ∧ ¬ covered query) →
     ∃ k query, templates !! k = Some query ∧ ¬ covered query
       ∧ validateIndexes ts uniqueIndices ∅ = Some (MissingUniqueIndex k (t ts))).
Proof.
  apply (validateIndexes_queryOne (emailSchema false) {[ "IndexEmail" := ":Email = ?" ]}
           {[ "Email" := indexOf ["Email"] ]} ∅).
  - unfold emailSchema, schemaWithQueries. cbn [cachedIndexesOne hasFakeDelete].
    by rewrite map_fmap_singleton.
  - eapply (bool_decide_unpack _). vm_compute. reflexivity.
  - eapply (bool_decide_unpack _). vm_compute. reflexivity.
  - vm_compute. reflexivity.
Defined.

(** A variable written after [order by] is no query field, and the unique
    index on the column before it covers the template. *)
Example queryOne_order_by_covered :
  queryFieldsOf false ":Email = ? ORDER BY :ID" = ["Email"]
  ∧ plainTemplate false ":Email = ? ORDER BY :ID" = true
  ∧ validateIndexes
      (schemaWithQueries "app.UserEntity" false ∅
         {[ "IndexEmail" := buildDefinition false true ":Email = ? ORDER BY :ID" ]})
      {[ "Email" := indexOf ["Email"] ]} ∅ = None.
Proof. vm_compute. done. Qed.

(** The template [:AgeGroup = ? ORDER BY :Age] is not plain: the builder
    looks for the text [:Age], finds it at the head of [:AgeGroup], and
    takes [Age] for a query field although it is written after
    [order by]. *)
Example variable_named_by_the_start_of_another :
  plainTemplate false ":AgeGroup = ? ORDER BY :Age" = false
  ∧ queryFieldsOf false ":AgeGroup = ? ORDER BY :Age" = ["AgeGroup"]
  ∧ QueryFields (buildDefinition false true ":AgeGroup = ? ORDER BY :Age")
    = ["AgeGroup"; "Age"].
Proof. vm_compute. done. Qed.

(** Scenario A of the specification. *)
Example unique_index_covers_queryOne :
  validateIndexes (emailSchema false) {[ "Email" := indexOf ["Email"] ]} ∅ = None.
Proof. vm_compute. reflexivity. Qed.

Example missing_unique_index :
  validateIndexes (emailSchema false) ∅ ∅
  = Some (MissingUniqueIndex "IndexEmail" "app.UserEntity").
Proof. vm_compute. reflexivity. Qed.

(** The same declarations on an entity with a [FakeDelete bool] field: the
    template refers to [Email] alone, the unique index is on [Email] alone,
    and registration fails, because [FakeDelete] has been added to the
    query fields. *)
Lemma queryOne_soft_delete_rejected :
  variableNames ":Email = ?" = ["Email"]
  ∧ orderedColumns (indexOf ["Email"]) = ["Email"]
  ∧ validateIndexes (emailSchema true) {[ "Email" := indexOf ["Email"] ]} ∅
    = Some (MissingUniqueIndex "IndexEmail" "app.UserEntity").
Proof. vm_compute. done. Qed.

Example queryOne_soft_delete_accepted :
  validateIndexes (emailSchema true) {[ "Email" := indexOf ["Email"; "FakeDelete"] ]} ∅
  = None.
Proof. vm_compute. reflexivity. Qed.

End Indexes.

(** * Building a schema ([init], [getCacheKey]) *)

Module Schema.
Import GoStrings Hashes QueryTemplate Columns Indexes.

(** [type Registry struct]: the pools registered, by code.  [init] only
    asks whether a code is registered, so that each map of pools is kept as
    the set of its keys.  The struct is declared outside the files at hand;
    [mysqlPools] and [localCachePools] are the fields [init] reads, and
    [redisPools] stands for the map in which the Redis pools are
    registered. *)
Record Registry : Type := {
  mysqlPools : gset string;
  localCachePools : gset string;
  redisPools : gset string;
}.

(** What [init] asks of [reflect.Type]: [Name()], [String()], and the type
    of the fields [FakeDelete] and [ID], when the struct has them. *)
Record entityType : Type := {
  typeName : string;
  typeString : string;
  fakeDeleteType : option string;
  idType : option string;
}.

(** [tableSchema.tags]: field name, then key, to value. *)
Abbreviation tagMap := (gmap string (gmap string string)).

(** [GetTag(field, key, trueValue, defaultValue)] *)
Definition GetTag (tags : tagMap) (field key trueValue defaultValue : string) : string :=
  match tags !! field ≫= (λ values, values !! key) with
  | Some userValue => if String.eqb userValue "true" then trueValue else userValue
  | None => defaultValue
  end.

(** [getTag(key, trueValue, defaultValue)] *)
Definition getTag (tags : tagMap) (key trueValue defaultValue : string) : string :=
  match tags !! "ORM" ≫= (λ values, values !! key) with
  | Some userValue => if String.eqb userValue "true" then trueValue else userValue
  | None => GetTag tags "ORM" key trueValue defaultValue
  end.

(** The state of [for key, values := range tableSchema.tags]. *)
Record queryState : Type := {
  cachedQueries : gmap string cachedQueryDefinition;
  cachedQueriesOne : gmap string cachedQueryDefinition;
  cachedQueriesAll : gmap string cachedQueryDefinition;
  cachedQueriesTrackedFields : gset string;
  oneRefs : list string;
}.

(** One turn of that loop. *)
Definition queryStep (fakeDelete : bool) (st : queryState)
    (kv : string * gmap string string) : queryState :=
  let key := kv.1 in
  let values := kv.2 in
  let found :=
    match values !! "query" with
    | Some query => Some (query, false)
    | None =>
        match values !! "queryOne" with
        | Some query => Some (query, true)
        | None => None
        end
    end in
  let st :=
    match found with
    | Some (query, isOne) =>
        let def := buildDefinition fakeDelete isOne query in
        {| cachedQueries := if isOne then cachedQueries st else <[key := def]> (cachedQueries st);
           cachedQueriesOne :=
             if isOne then <[key := def]> (cachedQueriesOne st) else cachedQueriesOne st;
           cachedQueriesAll := <[key := def]> (cachedQueriesAll st);
           cachedQueriesTrackedFields :=
             list_to_set (TrackedFields def) ∪ cachedQueriesTrackedFields st;
           oneRefs := oneRefs st |}
    | None => st
    end in
  match values !! "ref" with
  | Some _ =>
      {| cachedQueries := cachedQueries st;
         cachedQueriesOne := cachedQueriesOne st;
         cachedQueriesAll := cachedQueriesAll st;
         cachedQueriesTrackedFields := cachedQueriesTrackedFields st;
         oneRefs := oneRefs st ++ [key] |}
  | None => st
  end.

(** [for _, ref := range oneRefs]: a reference that starts no index gets
    one of its own. *)
Definition startsWith (ref : string) (kv : string * index) : bool :=
  bool_decide (columnAt kv.2 1 = ref).

Definition refIndexStep (uniqueIndices : gmap string index)
    (indices : gmap string index) (ref : string) : gmap string index :=
  if existsb (startsWith ref) (map_to_list indices) then indices
  else if existsb (startsWith ref) (map_to_list uniqueIndices) then indices
  else <["_" +:+ ref := {[ 1%Z := ref ]}]> indices.

(** [for i, name := range tableSchema.columnNames] *)
Fixpoint columnMappingLoop (i : nat) (names : list string)
    (m : gmap string nat) : gmap string nat :=
  match names with
  | [] => m
  | name :: rest => columnMappingLoop (S i) rest (<[name := i]> m)
  end.

(** [(tableSchema *tableSchema) init(registry, entityType)].

    Reflection is taken as done: [tags] is what [extractTags] returns and
    [tf] what [buildTableFields] returns for the entity; [uniqueIndices]
    and [indices] are the indexes collected from the [unique] and [index]
    tags.  No plugin is registered. *)
Definition init (registry : Registry) (et : entityType) (tags : tagMap)
    (tf : tableFields) (uniqueIndices indices : gmap string index)
  : SchemaError + tableSchema :=
  let mysqlPoolName := getTag tags "mysql" "default" "default" in
  if negb (bool_decide (mysqlPoolName ∈ mysqlPools registry))
  then inl (MysqlPoolNotFound mysqlPoolName) else
  let tableName := getTag tags "table" (typeName et) (typeName et) in
  let localCache := getTag tags "localCache" "default" "" in
  let redisCache := getTag tags "redisCache" "default" "" in
  if negb (String.eqb localCache "")
     && negb (bool_decide (localCache ∈ localCachePools registry))
  then inl (LocalCachePoolNotFound localCache) else
  if negb (String.eqb redisCache "")
     && negb (bool_decide (redisCache ∈ mysqlPools registry))
  then inl (RedisPoolNotFound redisCache) else
  let fakeDelete :=
    match fakeDeleteType et with
    | Some ty => String.eqb ty "bool"
    | None => false
    end in
  let queries :=
    fold_left (queryStep fakeDelete) (map_to_list tags)
      {| cachedQueries := ∅; cachedQueriesOne := ∅; cachedQueriesAll := ∅;
         cachedQueriesTrackedFields := ∅; oneRefs := [] |} in
  let uuid := String.eqb (getTag tags "uuid" "true" "false") "true" in
  if uuid && match idType et with
             | Some ty => negb (String.eqb ty "uint64")
             | None => false
             end
  then inl (UuidNotUint64 (typeString et)) else
  let indices := fold_left (refIndexStep uniqueIndices) (oneRefs queries) indices in
  let columns := buildColumnNames tf "" in
  let prefix := cachePrefixOf mysqlPoolName tableName columns.2 in
  let ts :=
    {| tableName := tableName;
       mysqlPoolName := mysqlPoolName;
       t := typeString et;
       fieldsQuery := columns.2;
       tags := tags;
       cachedIndexes := cachedQueries queries;
       cachedIndexesOne := cachedQueriesOne queries;
       cachedIndexesAll := cachedQueriesAll queries;
       cachedIndexesTrackedFields := cachedQueriesTrackedFields queries;
       columnNames := columns.1;
       columnMapping := columnMappingLoop 0 columns.1 ∅;
       refOne := oneRefs queries;
       localCacheName := localCache;
       hasLocalCache := negb (String.eqb localCache "");
       redisCacheName := redisCache;
       hasRedisCache := negb (String.eqb redisCache "");
       cachePrefix := prefix;
       structureHash := structureHashOf prefix;
       hasFakeDelete := fakeDelete;
       hasUUID := uuid |} in
  match validateIndexes ts uniqueIndices indices with
  | Some err => inl err
  | None => inr ts
  end.

(** [strconv.FormatUint(id, 10)] *)
Definition FormatUint (id : N) : string := NilZero.string_of_uint (N.to_uint id).

(** [getCacheKey(id uint64)] *)
Definition getCacheKey (ts : tableSchema) (id : N) : string :=
  cachePrefix ts +:+ ":" +:+ FormatUint id.

(** ** The vocabulary of the specification *)

(** The pools the declarations of an entity refer to. *)
Definition mysqlPoolOf (tags : tagMap) : string := getTag tags "mysql" "default" "default".

Definition localCachePoolOf (tags : tagMap) : string := getTag tags "localCache" "default" "".

Definition redisPoolOf (tags : tagMap) : string := getTag tags "redisCache" "default" "".

(** Every pool referred to is registered. *)
Definition poolsRegistered (registry : Registry) (tags : tagMap) : Prop :=
  mysqlPoolOf tags ∈ mysqlPools registry
  ∧ (localCachePoolOf tags ≠ "" → localCachePoolOf tags ∈ localCachePools registry)
  ∧ (redisPoolOf tags ≠ "" → redisPoolOf tags ∈ redisPools registry).

Definition isPoolError (e : SchemaError) : bool :=
  match e with
  | MysqlPoolNotFound _ | LocalCachePoolNotFound _ | RedisPoolNotFound _ => true
  | _ => false
  end.

(** ** Sample registries and entities *)

Definition userType : entityType :=
  {| typeName := "UserEntity"; typeString := "app.UserEntity";
     fakeDeleteType := None; idType := Some "uint64" |}.

(** One MySQL pool, [default]; no local cache, no Redis. *)
Definition registryDefault : Registry :=
  {| mysqlPools := {[ "default" ]}; localCachePools := ∅; redisPools := ∅ |}.

(** Two MySQL pools and a Redis pool [cache]. *)
Definition registryLog : Registry :=
  {| mysqlPools := {[ "default"; "log" ]}; localCachePools := ∅;
     redisPools := {[ "cache" ]} |}.

(** The schema [init] returns, and an empty one when it fails. *)
Definition schemaOf (r : SchemaError + tableSchema) : tableSchema :=
  match r with
  | inr ts => ts
  | inl _ => schemaWithQueries "" false ∅ ∅
  end.

(** [type UserEntity struct { beeorm.ORM; ID uint64; Name string }] *)
Definition userSchema : tableSchema :=
  schemaOf (init registryDefault userType {[ "ORM" := ∅ ]} (idAndString "Name") ∅ ∅).

(** [type UserEntity struct { beeorm.ORM `orm:"mysql=log"`; ID uint64;
    <name> string }] *)
Definition logSchema (name : string) : SchemaError + tableSchema :=
  init registryLog userType {[ "ORM" := {[ "mysql" := "log" ]} ]} (idAndString name) ∅ ∅.

(** ** Properties of [init] *)

Lemma validateIndexes_not_pool_error ts uniqueIndices indices e :
  validateIndexes ts uniqueIndices indices = Some e → isPoolError e = false.
Proof.
  unfold validateIndexes. intros H. repeat case_match; by simplify_eq.
Qed.

(** An error that comes after the pool checks is no pool error. *)
Ltac later_error :=
  let e := fresh "e" in
  let He := fresh "He" in
  let Hp := fresh "Hp" in
  intros (e & He & Hp); repeat case_match; simplify_eq; try done;
  match goal with
  | H : validateIndexes _ _ _ = Some _ |- _ =>
      apply validateIndexes_not_pool_error in H; congruence
  end.

(** The pool checks that [init] makes: the pool of the Redis cache is
    looked up among the MySQL pools. *)
Lemma init_pool_error registry et tags tf uniqueIndices indices :
  (∃ e, init registry et tags tf uniqueIndices indices = inl e ∧ isPoolError e = true)
  ↔ mysqlPoolOf tags ∉ mysqlPools registry
    ∨ (localCachePoolOf tags ≠ "" ∧ localCachePoolOf tags ∉ localCachePools registry)
    ∨ (redisPoolOf tags ≠ "" ∧ redisPoolOf tags ∉ mysqlPools registry).
Proof.
  unfold init, mysqlPoolOf, localCachePoolOf, redisPoolOf.
  destruct (decide (getTag tags "mysql" "default" "default" ∈ mysqlPools registry)) as [Hm|Hm].
  2: { rewrite bool_decide_eq_false_2 by done. cbn [negb].
       split; [by left|]. intros _. by eexists. }
  rewrite bool_decide_eq_true_2 by done. cbn [negb].
  destruct (String.eqb_spec (getTag tags "localCache" "default" "") "") as [Hl|Hl];
    cbn [negb andb].
  - destruct (String.eqb_spec (getTag tags "redisCache" "default" "") "") as [Hr|Hr];
      cbn [negb andb].
    + split; [|intros [?|[[? _]|[? _]]]; done].
      later_error.
    + destruct (decide (getTag tags "redisCache" "default" "" ∈ mysqlPools registry)) as [Hrm|Hrm].
      * rewrite bool_decide_eq_true_2 by done. cbn [negb].
        split; [|intros [?|[[? _]|[_ ?]]]; done].
        later_error.
      * rewrite bool_decide_eq_false_2 by done. cbn [negb].
        split; [intros _; by right; right|]. intros _. by eexists.
  - destruct (decide (getTag tags "localCache" "default" "" ∈ localCachePools registry)) as [Hlm|Hlm].
    + rewrite bool_decide_eq_true_2 by done. cbn [negb].
      destruct (String.eqb_spec (getTag tags "redisCache" "default" "") "") as [Hr|Hr];
        cbn [negb andb].
      * split; [|intros [?|[[_ ?]|[? _]]]; done].
        later_error.
      * destruct (decide (getTag tags "redisCache" "default" "" ∈ mysqlPools registry)) as [Hrm|Hrm].
        -- rewrite bool_decide_eq_true_2 by done. cbn [negb].
           split; [|intros [?|[[_ ?]|[_ ?]]]; done].
           later_error.
        -- rewrite bool_decide_eq_false_2 by done. cbn [negb].
           split; [intros _; by right; right|]. intros _. by eexists.
    + rewrite bool_decide_eq_false_2 by done. cbn [negb].
      split; [intros _; right; by left|]. intros _. by eexists.
Qed.

(** What [init] makes of the cache prefix, for every schema it returns. *)
Lemma init_cachePrefix registry et tags tf uniqueIndices indices ts :
  init registry et tags tf uniqueIndices indices = inr ts →
  mysqlPoolName ts = mysqlPoolOf tags
  ∧ tableName ts = getTag tags "table" (typeName et) (typeName et)
  ∧ (columnNames ts, fieldsQuery ts) = buildColumnNames tf ""
  ∧ cachePrefix ts = cachePrefixOf (mysqlPoolName ts) (tableName ts) (fieldsQuery ts)
  ∧ structureHash ts = structureHashOf (cachePrefix ts).
Proof.
  unfold init. intros H.
  repeat case_match; simplify_eq; cbn; repeat split; try done;
    by destruct (buildColumnNames tf "").
Qed.

Lemma FormatUint_decimal (id : N) :
  N.of_uint <$> NilZero.uint_of_string (FormatUint id) = Some id.
Proof.
  unfold FormatUint. rewrite NilZero.usu.
  - simpl. f_equal. apply DecimalN.Unsigned.of_to.
  - destruct id as [|p]; [done|]. apply DecimalPos.Unsigned.to_uint_nonnil.
Qed.

Lemma cachePrefixOf_length mysqlPool table query :
  String.length (cachePrefixOf mysqlPool table query) = 5.
Proof.
  unfold cachePrefixOf. apply sliceTo_length.
  rewrite hex_length, Sum256_length. lia.
Qed.

(** C8, as the code has it: the cache key of an entity is the cache prefix
    of its schema, a colon, and the id in decimal.  The prefix is made of
    the first five hexadecimal digits of the SHA-256 of the pool name
    (left out for the default pool), the table name and the query of the
    columns, in this order. *)
Theorem getCacheKey_format (registry : Registry) (et : entityType) (tags : tagMap)
    (tf : tableFields) (uniqueIndices indices : gmap string index)
    (ts : tableSchema) (id : N) :
  init registry et tags tf uniqueIndices indices = inr ts →
  getCacheKey ts id = cachePrefix ts +:+ ":" +:+ FormatUint id
  ∧ N.of_uint <$> NilZero.uint_of_string (FormatUint id) = Some id
  ∧ cachePrefix ts
    = sliceTo 5 (hex (Sum256 (bytesOf
        ((poolPrefix (mysqlPoolName ts) +:+ tableName ts) +:+ fieldsQuery ts))))
  ∧ String.length (cachePrefix ts) = 5
  ∧ fieldsQuery ts = (buildColumnNames tf "").2.
Proof.
  intros Hinit. apply init_cachePrefix in Hinit as (_ & _ & Hc & Hp & _).
  split; [done|]. split; [apply FormatUint_decimal|].
  split; [by rewrite Hp|]. split; [rewrite Hp; apply cachePrefixOf_length|].
  by rewrite <- Hc.
Qed.

Lemma getCacheKey_format_witness :
  getCacheKey userSchema 42 = cachePrefix userSchema +:+ ":" +:+ FormatUint 42
  ∧ N.of_uint <$> NilZero.uint_of_string (FormatUint 42) = Some 42%N
  ∧ cachePrefix userSchema
    = sliceTo 5 (hex (Sum256 (bytesOf
        ((poolPrefix (mysqlPoolName userSchema) +:+ tableName userSchema)
         +:+ fieldsQuery userSchema))))
  ∧ String.length (cachePrefix userSchema) = 5
  ∧ fieldsQuery userSchema = (buildColumnNames (idAndString "Name") "").2.
Proof.
  apply (getCacheKey_format registryDefault userType {[ "ORM" := ∅ ]}
           (idAndString "Name") ∅ ∅ userSchema 42).
  vm_compute. reflexivity.
Defined.

Example getCacheKey_user : getCacheKey userSchema 42 = "b0aa3:42".
Proof. vm_compute. reflexivity. Qed.

(** Two entities of the pool [log] and the table [UserEntity]: their cache
    keys do not start with the name of the pool, and their prefixes differ
    with their columns, so that the prefix is not the pool name followed by
    a hash of the table name. *)
Lemma cache_key_is_not_pool_then_table_hash :
  ∃ ts1 ts2,
    logSchema "Name" = inr ts1 ∧ logSchema "Email" = inr ts2
    ∧ poolPrefix (mysqlPoolName ts1) = "log" ∧ poolPrefix (mysqlPoolName ts2) = "log"
    ∧ tableName ts1 = tableName ts2
    ∧ HasPrefix (getCacheKey ts1 7) "log" = false
    ∧ (cachePrefix ts1 ≠ cachePrefix ts2).
Proof.
  eexists _, _. split; [vm_compute; reflexivity|]. split; [vm_compute; reflexivity|].
  vm_compute. repeat split; discriminate.
Qed.

(** C5: an entity declares [redisCache] (the pool [default]) in a registry
    without any Redis pool.  [init] looks the code up among the MySQL
    pools, finds [default] there, and returns the schema with its Redis
    cache set. *)
Theorem init_accepts_unregistered_redis_pool :
  let tags : tagMap := {[ "ORM" := {[ "redisCache" := "true" ]} ]} in
  redisPoolOf tags = "default"
  ∧ ("default" ∉ redisPools registryDefault)
  ∧ ∃ ts, init registryDefault userType tags (idAndString "Name") ∅ ∅ = inr ts
          ∧ hasRedisCache ts = true ∧ redisCacheName ts = "default".
Proof.
  split; [vm_compute; reflexivity|]. split; [set_solver|].
  eexists. split; [vm_compute; reflexivity|]. done.
Qed.

(** The other way round: a Redis pool that is registered is reported as
    not found, for want of a MySQL pool of that name. *)
Example init_rejects_registered_redis_pool :
  "cache" ∈ redisPools registryLog
  ∧ init registryLog userType {[ "ORM" := {[ "redisCache" := "cache" ]} ]}
      (idAndString "Name") ∅ ∅
    = inl (RedisPoolNotFound "cache").
Proof. split; [set_solver|vm_compute; reflexivity]. Qed.

Example init_missing_mysql_pool :
  init registryDefault userType {[ "ORM" := {[ "mysql" := "log" ]} ]}
    (idAndString "Name") ∅ ∅
  = inl (MysqlPoolNotFound "log").
Proof. vm_compute. reflexivity. Qed.

Example init_missing_local_cache_pool :
  init registryDefault userType {[ "ORM" := {[ "localCache" := "true" ]} ]}
    (idAndString "Name") ∅ ∅
  = inl (LocalCachePoolNotFound "default").
Proof. vm_compute. reflexivity. Qed.

(** Scenario A through [init]: a [queryOne] on [:Email] with a unique index
    on [Email], and without it. *)
Example init_queryOne_covered :
  ∃ ts, init registryDefault userType
          {[ "ORM" := ∅; "IndexEmail" := {[ "queryOne" := ":Email = ?" ]} ]}
          (idAndString "Email") {[ "Email" := indexOf ["Email"] ]} ∅ = inr ts
        ∧ QueryFields <$> cachedIndexesOne ts !! "IndexEmail" = Some ["Email"].
Proof. eexists. split; [vm_compute; reflexivity|]. vm_compute. reflexivity. Qed.

Example init_queryOne_not_covered :
  init registryDefault userType
    {[ "ORM" := ∅; "IndexEmail" := {[ "queryOne" := ":Email = ?" ]} ]}
    (idAndString "Email") ∅ ∅
  = inl (MissingUniqueIndex "IndexEmail" "app.UserEntity").
Proof. vm_compute. reflexivity. Qed.

End Schema.

(** * More of the Go standard library: joining, parsing integers *)

Module GoText.
Import GoStrings.

(** [strings.Join(parts, sep)] for a separator of one byte. *)
Fixpoint Join (parts : list string) (sep : ascii) : string :=
  match parts with
  | [] => ""
  | [p] => p
  | p :: rest => p +:+ String sep (Join rest sep)
  end.

(** The byte [c] does not occur in [s]. *)
Fixpoint without (c : ascii) (s : string) : bool :=
  match s with
  | EmptyString => true
  | String x s' => negb (Ascii.eqb x c) && without c s'
  end.

Definition isDigit (c : ascii) : bool := inRange 48 57 c.

(** The value of a run of decimal digits after [acc]; [None] when a byte
    is no digit. *)
Fixpoint digits (s : string) (acc : N) : option N :=
  match s with
  | EmptyString => Some acc
  | String c s' =>
      if isDigit c then digits s' (acc * 10 + N.of_nat (nat_of_ascii c - 48))%N
      else None
  end.

(** [strconv.ParseInt(s, 10, 64)], the value returned, the error being
    dropped as the callers drop it: 0 on a syntax error, the nearest bound
    of [int64] out of range. *)
Definition ParseInt (s : string) : Z :=
  match s with
  | EmptyString => 0%Z
  | String c s' =>
      let neg := Ascii.eqb c "-" in
      let body := if Ascii.eqb c "+" || neg then s' else s in
      match body with
      | EmptyString => 0%Z
      | _ =>
          match digits body 0 with
          | None => 0%Z
          | Some un =>
              if neg then (if (2 ^ 63 <? Z.of_N un)%Z then (- 2 ^ 63)%Z else (- Z.of_N un)%Z)
              else (if (2 ^ 63 <=? Z.of_N un)%Z then (2 ^ 63 - 1)%Z else Z.of_N un)
          end
      end
  end.

(** ** Splitting what was joined *)

Lemma Split_go_without sep s cur :
  without sep s = true → Split_go sep s cur = [cur +:+ s].
Proof.
  revert cur. induction s as [|c s IH]; intros cur H; cbn [Split_go].
  - by rewrite append_nil_r.
  - cbn in H. apply andb_true_iff in H as [Hc H]. apply negb_true_iff in Hc.
    rewrite Hc, IH by done. by rewrite append_assoc.
Qed.

Lemma Split_go_append sep a rest cur :
  without sep a = true →
  Split_go sep (a +:+ String sep rest) cur = (cur +:+ a) :: Split_go sep rest "".
Proof.
  revert cur. induction a as [|c a IH]; intros cur H; cbn [String.append Split_go].
  - by rewrite Ascii.eqb_refl, append_nil_r.
  - cbn in H. apply andb_true_iff in H as [Hc H]. apply negb_true_iff in Hc.
    rewrite Hc, IH by done. by rewrite append_assoc.
Qed.

Lemma Split_nonempty s sep : Split s sep ≠ [].
Proof.
  unfold Split. generalize "". induction s as [|c s IH]; intros cur; cbn [Split_go]; [done|].
  destruct (Ascii.eqb c sep); [done|apply IH].
Qed.

Lemma Split_without s sep : without sep s = true → Split s sep = [s].
Proof. intros H. unfold Split. by rewrite Split_go_without. Qed.

(** [Split] gives back the parts that [Join] put together, when no part
    holds the separator. *)
Lemma Split_Join parts sep :
  parts ≠ [] → Forall (λ p, without sep p = true) parts →
  Split (Join parts sep) sep = parts.
Proof.
  induction parts as [|p rest IH]; [done|]. intros _ HF.
  apply Forall_cons in HF as [Hp HF].
  destruct rest as [|q rest]; [by apply Split_without|].
  change (Join (p :: q :: rest) sep) with (p +:+ String sep (Join (q :: rest) sep)).
  unfold Split. rewrite Split_go_append by done. cbn [String.append]. f_equal.
  by apply IH.
Qed.

Lemma without_append c a b :
  without c (a +:+ b) = without c a && without c b.
Proof.
  induction a as [|x a IH]; cbn [String.append without]; [done|].
  by rewrite IH, andb_assoc.
Qed.

Lemma without_Join c sep parts :
  Ascii.eqb sep c = false → Forall (λ p, without c p = true) parts →
  without c (Join parts sep) = true.
Proof.
  intros Hsep. induction parts as [|p rest IH]; [done|]. intros HF.
  apply Forall_cons in HF as [Hp HF]. destruct rest as [|q rest]; [done|].
  change (Join (p :: q :: rest) sep) with (p +:+ String sep (Join (q :: rest) sep)).
  rewrite without_append, Hp. cbn [without andb]. rewrite Hsep. cbn [negb andb].
  by apply IH.
Qed.

End GoText.

Module GoTextExamples.
Import GoStrings GoText.

Example ParseInt_values :
  ParseInt "2" = 2%Z ∧ ParseInt "+7" = 7%Z ∧ ParseInt "-3" = (-3)%Z
  ∧ ParseInt "" = 0%Z ∧ ParseInt "x" = 0%Z ∧ ParseInt "1_0" = 0%Z ∧ ParseInt "-" = 0%Z
  ∧ ParseInt "9223372036854775808" = 9223372036854775807%Z
  ∧ ParseInt "-9223372036854775809" = (-9223372036854775808)%Z.
Proof. vm_compute. done. Qed.

Example Join_sample : Join ["a"; "b"; ""; "c"] "," = "a,b,,c".
Proof. reflexivity. Qed.

End GoTextExamples.

(** * Reading the tags of an entity ([extractTags], [extractTag]) *)

Module Tags.
Import GoStrings GoText Schema.

(** [reflect.StructField] without its type: the name, whether the field is
    embedded, and the struct tag as [Tag.Lookup] reads it. *)
Record fieldInfo : Type := {
  fieldName : string;
  fieldAnonymous : bool;
  fieldTag : gmap string string;
}.

(** [reflect.Type], as far as the schema asks: [String()], [Kind().String()],
    [Implements(Entity)], [Elem().String()] of a pointer, and the fields of
    a struct with their types. *)
#[local] Set Warnings "-register-all".
Inductive goType : Type := mkType {
  typeString : string;
  kind : string;
  implementsEntity : bool;
  elemString : string;
  structFields : list (fieldInfo * goType);
}.

(** [arg := strings.Split(args[j], "=")]: a lone name stands for [true].
    [Split] returns at least one string. *)
Definition attribute (arg : string) : string * string :=
  match Split arg "=" with
  | [name] => (name, "true")
  | name :: value :: _ => (name, value)
  | [] => ("", "true")
  end.

(** The attributes of an [orm] tag: [strings.Split(tag, ";")], each part
    read as above; of two parts with one name the later stays. *)
Definition parseAttributes (tag : string) : gmap string string :=
  fold_left (λ attributes arg, <[(attribute arg).1 := (attribute arg).2]> attributes)
    (Split tag ";") ∅.

(** [for k, v := range extractTag(registry, field) { fields[prefix+k] = v }] *)
Definition addPrefixed (prefix : string) (found fields : tagMap) : tagMap :=
  fold_left (λ acc kv, <[prefix +:+ kv.1 := kv.2]> acc) (map_to_list found) fields.

(** [fields[name][key] = value], the inner map being made when missing. *)
Definition setTag (fields : tagMap) (name key value : string) : tagMap :=
  <[name := <[key := value]> (default ∅ (fields !! name))]> fields.

Definition setTagIf (fields : tagMap) (name key : string) (value : option string) : tagMap :=
  match value with
  | Some v => setTag fields name key v
  | None => fields
  end.

(** What the body of the loop of [extractTags] does once the tags found for
    the field are stored: nothing more for an ignored field; else the
    [query] and [queryOne] tags and the reference to a registered entity
    are recorded under the name of the field. *)
Definition recordField (entities : gset string) (field : fieldInfo) (ft : goType)
    (fields : tagMap) : tagMap :=
  if bool_decide (is_Some (fields !! fieldName field ≫= (λ values, values !! "ignore")))
  then fields
  else
    let refOne :=
      if String.eqb (kind ft) "ptr" && bool_decide (elemString ft ∈ entities)
      then Some (elemString ft) else None in
    let fields := setTagIf fields (fieldName field) "query" (fieldTag field !! "query") in
    let fields := setTagIf fields (fieldName field) "queryOne" (fieldTag field !! "queryOne") in
    setTagIf fields (fieldName field) "ref" refOne.

(** A struct field without an [orm] tag whose own fields are read in turn. *)
Definition descends (field : fieldInfo) (ft : goType) : bool :=
  String.eqb (kind ft) "struct"
  && negb (String.eqb (typeString ft) "beeorm.ORM")
  && negb (String.eqb (typeString ft) "time.Time").

(** [extractTags(registry, entityType, prefix)], with [extractTag] in
    it. *)
Fixpoint extractTags (entities : gset string) (entityType : goType) (prefix : string)
  : tagMap :=
  (fix loop (l : list (fieldInfo * goType)) (fields : tagMap) : tagMap :=
     match l with
     | [] => fields
     | p :: rest =>
         let found : tagMap :=
           match fieldTag p.1 !! "orm" with
           | Some tag => {[ fieldName p.1 := parseAttributes tag ]}
           | None =>
               if descends p.1 p.2
               then extractTags entities p.2
                      (if fieldAnonymous p.1 then "" else fieldName p.1)
               else ∅
           end in
         loop rest (recordField entities p.1 p.2 (addPrefixed prefix found fields))
     end) (structFields entityType) ∅.

(** [extractTag(registry, field)] on its own. *)
Definition extractTag (entities : gset string) (field : fieldInfo) (ft : goType) : tagMap :=
  match fieldTag field !! "orm" with
  | Some tag => {[ fieldName field := parseAttributes tag ]}
  | None =>
      if descends field ft
      then extractTags entities ft (if fieldAnonymous field then "" else fieldName field)
      else ∅
  end.

(** The loop of [extractTags] as a function of its own. *)
Definition tagsLoop (entities : gset string) (prefix : string)
  : list (fieldInfo * goType) → tagMap → tagMap :=
  fix loop (l : list (fieldInfo * goType)) (fields : tagMap) : tagMap :=
    match l with
    | [] => fields
    | p :: rest =>
        loop rest (recordField entities p.1 p.2
                     (addPrefixed prefix (extractTag entities p.1 p.2) fields))
    end.

(** ** The vocabulary of the properties *)

(** An attribute as it is written: [name] or [name=value]. *)
Definition renderAttribute (a : string * option string) : string :=
  match a.2 with
  | Some value => a.1 +:+ String "=" value
  | None => a.1
  end.

Definition plainText (s : string) : bool := without ";" s && without "=" s.

Definition wellFormed (a : string * option string) : Prop :=
  plainText a.1 = true ∧ plainText (default "" a.2) = true.

(** The attributes written in [items], the later of two with one name
    staying. *)
Definition attributesOf (items : list (string * option string)) : gmap string string :=
  fold_left (λ m a, <[a.1 := default "true" a.2]> m) items ∅.

(** A field that [extractTags] does not descend into. *)
Definition flat (p : fieldInfo * goType) : Prop :=
  is_Some (fieldTag p.1 !! "orm") ∨ descends p.1 p.2 = false.

(** [value], when there is one, set under [key] in the tags of a field. *)
Definition overlay (current : option (gmap string string)) (key : string)
    (value : option string) : option (gmap string string) :=
  match value with
  | Some v => Some (<[key := v]> (default ∅ current))
  | None => current
  end.

(** The reference of a field: the entity it points to, when registered. *)
Definition referenceOf (entities : gset string) (ft : goType) : option string :=
  if String.eqb (kind ft) "ptr" && bool_decide (elemString ft ∈ entities)
  then Some (elemString ft) else None.

(** The tags of a field, given those read from its [orm] tag: left alone
    when they hold [ignore]; else with the [query] and [queryOne] tags of
    the field and its reference set over them. *)
Definition recorded (entities : gset string) (field : fieldInfo) (ft : goType)
    (current : option (gmap string string)) : option (gmap string string) :=
  if bool_decide (is_Some (current ≫= (λ values, values !! "ignore"))) then current
  else
    overlay
      (overlay (overlay current "query" (fieldTag field !! "query"))
         "queryOne" (fieldTag field !! "queryOne"))
      "ref" (referenceOf entities ft).

Definition tagsOfField (entities : gset string) (field : fieldInfo) (ft : goType)
  : option (gmap string string) :=
  recorded entities field ft (parseAttributes <$> fieldTag field !! "orm").

(** ** Properties *)

Lemma extractTags_unfold entities entityType prefix :
  extractTags entities entityType prefix
  = tagsLoop entities prefix (structFields entityType) ∅.
Proof. by destruct entityType. Qed.

Lemma attribute_render a :
  wellFormed a → attribute (renderAttribute a) = (a.1, default "true" a.2).
Proof.
  destruct a as [name [value|]]; unfold wellFormed, plainText, renderAttribute, attribute;
    cbn [fst snd default]; intros [Hn Hv].
  - apply andb_true_iff in Hn as [_ Hn]. apply andb_true_iff in Hv as [_ Hv].
    unfold Split. rewrite Split_go_append by done. cbn [String.append].
    fold (Split value "="). by rewrite Split_without.
  - apply andb_true_iff in Hn as [_ Hn]. by rewrite Split_without.
Qed.

Lemma renderAttribute_without a :
  wellFormed a → without ";" (renderAttribute a) = true.
Proof.
  destruct a as [name [value|]]; unfold wellFormed, plainText, renderAttribute;
    cbn [fst snd default]; intros [Hn Hv].
  - apply andb_true_iff in Hn as [Hn _]. apply andb_true_iff in Hv as [Hv _].
    rewrite without_append, Hn. cbn. done.
  - by apply andb_true_iff in Hn as [Hn _].
Qed.

Lemma fold_attributes (items : list (string * option string)) (m : gmap string string) :
  Forall wellFormed items →
  fold_left (λ attributes arg, <[(attribute arg).1 := (attribute arg).2]> attributes)
    (map renderAttribute items) m
  = fold_left (λ m a, <[a.1 := default "true" a.2]> m) items m.
Proof.
  revert m. induction items as [|a rest IH]; intros m HF; [done|].
  apply Forall_cons in HF as [Ha HF]. cbn [map fold_left].
  rewrite attribute_render by done. cbn [fst snd]. by apply IH.
Qed.

(** The attributes read from an [orm] tag are the ones written in it:
    [name=value] gives the value, a lone [name] gives [true], and of two
    attributes with one name the later stays.  The names and values are
    free of [;] and [=].  An empty tag reads as the attribute of the empty
    name. *)
Theorem parseAttributes_written (items : list (string * option string)) :
  items ≠ [] → Forall wellFormed items →
  parseAttributes (Join (map renderAttribute items) ";") = attributesOf items
  ∧ parseAttributes "" = {[ "" := "true" ]}.
Proof.
  intros Hne HF. split; [|done]. unfold parseAttributes, attributesOf.
  rewrite Split_Join.
  - by apply fold_attributes.
  - by destruct items.
  - apply Forall_fmap. eapply Forall_impl; [exact HF|].
    intros a Ha. by apply renderAttribute_without.
Qed.

Lemma parseAttributes_written_witness :
  parseAttributes (Join (map renderAttribute
      [("unique", Some "Email"); ("required", None); ("length", Some "120")]) ";")
  = attributesOf [("unique", Some "Email"); ("required", None); ("length", Some "120")]
  ∧ parseAttributes "" = {[ "" := "true" ]}.
Proof.
  apply (parseAttributes_written
           [("unique", Some "Email"); ("required", None); ("length", Some "120")]).
  - discriminate.
  - repeat constructor.
Defined.

Example parseAttributes_sample :
  let attributes := parseAttributes "unique=Email;required;decimal=10,2=x;required=no" in
  attributes !! "unique" = Some "Email" ∧ attributes !! "required" = Some "no"
  ∧ attributes !! "decimal" = Some "10,2" ∧ attributes !! "x" = None.
Proof. vm_compute. done. Qed.

(** ** The tags of an entity without nested structs *)

Lemma addPrefixed_empty prefix fields : addPrefixed prefix ∅ fields = fields.
Proof. unfold addPrefixed. by rewrite map_to_list_empty. Qed.

Lemma addPrefixed_singleton name values fields :
  addPrefixed "" {[ name := values ]} fields = <[name := values]> fields.
Proof. unfold addPrefixed. by rewrite map_to_list_singleton. Qed.

Lemma setTagIf_lookup fields name key value :
  setTagIf fields name key value !! name = overlay (fields !! name) key value.
Proof.
  destruct value as [v|]; cbn [setTagIf overlay]; [|done].
  unfold setTag. by rewrite lookup_insert_eq.
Qed.

Lemma setTagIf_lookup_ne fields name key value n :
  n ≠ name → setTagIf fields name key value !! n = fields !! n.
Proof.
  intros Hne. destruct value as [v|]; cbn [setTagIf]; [|done].
  unfold setTag. by rewrite lookup_insert_ne.
Qed.

Lemma recordField_lookup entities field ft fields :
  recordField entities field ft fields !! fieldName field
  = recorded entities field ft (fields !! fieldName field).
Proof.
  unfold recordField, recorded, referenceOf.
  destruct (bool_decide _); [done|]. by rewrite !setTagIf_lookup.
Qed.

Lemma recordField_lookup_ne entities field ft fields n :
  n ≠ fieldName field → recordField entities field ft fields !! n = fields !! n.
Proof.
  intros Hne. unfold recordField. destruct (bool_decide _); [done|].
  by rewrite !setTagIf_lookup_ne.
Qed.

Lemma tagsLoop_flat entities l : ∀ fields,
  Forall flat l → NoDup (map (λ p, fieldName p.1) l) →
  (∀ p, p ∈ l → fields !! fieldName p.1 = None) →
  (∀ p, p ∈ l →
     tagsLoop entities "" l fields !! fieldName p.1 = tagsOfField entities p.1 p.2)
  ∧ (∀ n, n ∉ map (λ p, fieldName p.1) l →
       tagsLoop entities "" l fields !! n = fields !! n).
Proof.
  induction l as [|p rest IH]; intros fields Hflat Hnd Hfree.
  - split; [intros p Hp; by apply elem_of_nil in Hp|done].
  - apply Forall_cons in Hflat as [Hp Hflat]. cbn [map] in Hnd.
    apply NoDup_cons in Hnd as [Hnew Hnd]. cbn [tagsLoop].
    set (fields1 := recordField entities p.1 p.2
                      (addPrefixed "" (extractTag entities p.1 p.2) fields)).
    assert (Hown : fields1 !! fieldName p.1 = tagsOfField entities p.1 p.2).
    { unfold fields1, tagsOfField, extractTag. rewrite recordField_lookup.
      destruct (fieldTag p.1 !! "orm") as [tag|] eqn:Htag.
      - by rewrite addPrefixed_singleton, lookup_insert_eq.
      - destruct Hp as [[? ?]|Hp]; [congruence|]. rewrite Hp, addPrefixed_empty.
        rewrite Hfree by left. done. }
    assert (Hother : ∀ n, n ≠ fieldName p.1 → fields1 !! n = fields !! n).
    { intros n Hn. unfold fields1, extractTag. rewrite recordField_lookup_ne by done.
      destruct (fieldTag p.1 !! "orm") as [tag|] eqn:Htag.
      - rewrite addPrefixed_singleton. by rewrite lookup_insert_ne.
      - destruct Hp as [[? ?]|Hp]; [congruence|]. by rewrite Hp, addPrefixed_empty. }
    destruct (IH fields1 Hflat Hnd) as [IHin IHout].
    { intros q Hq. rewrite Hother.
      - apply Hfree. by right.
      - intros Heq. apply Hnew. rewrite <- Heq.
        apply list_elem_of_fmap. by exists q. }
    split.
    + intros q Hq. apply elem_of_cons in Hq as [->|Hq]; [|by apply IHin].
      by rewrite IHout.
    + intros n Hn. cbn [map] in Hn. apply not_elem_of_cons in Hn as [Hne Hn].
      rewrite IHout by done. by apply Hother.
Qed.

(** For an entity whose fields are told apart by their names and hold no
    struct to descend into, the tags of each field are read from that field
    alone: the attributes of its [orm] tag, over which, unless they hold
    [ignore], the [query] and [queryOne] tags of the field and the entity
    it refers to are set; no other name has tags. *)
Theorem extractTags_flat (entities : gset string) (entityType : goType) :
  Forall flat (structFields entityType) →
  NoDup (map (λ p, fieldName p.1) (structFields entityType)) →
  (∀ p, p ∈ structFields entityType →
     extractTags entities entityType "" !! fieldName p.1
     = tagsOfField entities p.1 p.2)
  ∧ (∀ n, n ∉ map (λ p, fieldName p.1) (structFields entityType) →
       extractTags entities entityType "" !! n = None).
Proof.
  intros Hflat Hnd. rewrite extractTags_unfold.
  destruct (tagsLoop_flat entities (structFields entityType) ∅ Hflat Hnd) as [Hin Hout];
    [done|].
  split; [done|]. intros n Hn. by rewrite Hout.
Qed.

(** Types for the examples. *)
Definition basicType (name kindName : string) : goType :=
  {| typeString := name; kind := kindName; implementsEntity := false;
     elemString := ""; structFields := [] |}.

Definition plainField (name : string) (tag : gmap string string) : fieldInfo :=
  {| fieldName := name; fieldAnonymous := false; fieldTag := tag |}.

Definition entityPointer (target : string) : goType :=
  {| typeString := "*" +:+ target; kind := "ptr"; implementsEntity := true;
     elemString := target; structFields := [] |}.

(** [type UserEntity struct { beeorm.ORM `orm:"table=users"`; ID uint64;
    Email string `orm:"unique=Email;required"`; Owner *UserEntity;
    Draft string `orm:"ignore" query:":Draft = ?"`;
    IndexEmail *beeorm.CachedQuery `queryOne:":Email = ?"` }] *)
Definition userEntity : goType :=
  {| typeString := "app.UserEntity"; kind := "struct"; implementsEntity := false;
     elemString := "";
     structFields :=
       [ ({| fieldName := "ORM"; fieldAnonymous := true;
             fieldTag := {[ "orm" := "table=users" ]} |}, basicType "beeorm.ORM" "struct");
         (plainField "ID" ∅, basicType "uint64" "uint64");
         (plainField "Email" {[ "orm" := "unique=Email;required" ]}, basicType "string" "string");
         (plainField "Owner" ∅, entityPointer "app.UserEntity");
         (plainField "Draft" {[ "orm" := "ignore"; "query" := ":Draft = ?" ]},
          basicType "string" "string");
         (plainField "IndexEmail" {[ "queryOne" := ":Email = ?" ]},
          {| typeString := "*beeorm.CachedQuery"; kind := "ptr"; implementsEntity := false;
             elemString := "beeorm.CachedQuery"; structFields := [] |}) ] |}.

Lemma extractTags_flat_witness :
  (∀ p, p ∈ structFields userEntity →
     extractTags {[ "app.UserEntity" ]} userEntity "" !! fieldName p.1
     = tagsOfField {[ "app.UserEntity" ]} p.1 p.2)
  ∧ (∀ n, n ∉ map (λ p, fieldName p.1) (structFields userEntity) →
       extractTags {[ "app.UserEntity" ]} userEntity "" !! n = None).
Proof.
  apply (extractTags_flat {[ "app.UserEntity" ]} userEntity).
  - repeat constructor; vm_compute; (by left; eexists) || by right.
  - eapply (bool_decide_unpack _). vm_compute. reflexivity.
Defined.

Example extractTags_user :
  let tags := extractTags {[ "app.UserEntity" ]} userEntity "" in
  tags !! "ORM" ≫= (λ values, values !! "table") = Some "users"
  ∧ tags !! "ID" = None
  ∧ tags !! "Owner" ≫= (λ values, values !! "ref") = Some "app.UserEntity"
  ∧ tags !! "Draft" ≫= (λ values, values !! "ignore") = Some "true"
  ∧ tags !! "Draft" ≫= (λ values, values !! "query") = None
  ∧ tags !! "IndexEmail" ≫= (λ values, values !! "queryOne") = Some ":Email = ?".
Proof. vm_compute. done. Qed.

(** A struct nested in a struct: the tags of the innermost field stand
    under the names of the fields that lead to it, put together. *)
Definition nestedEntity : goType :=
  {| typeString := "app.Order"; kind := "struct"; implementsEntity := false;
     elemString := "";
     structFields :=
       [ (plainField "Shipping" ∅,
          {| typeString := "app.Shipping"; kind := "struct"; implementsEntity := false;
             elemString := "";
             structFields :=
               [ (plainField "Address" ∅,
                  {| typeString := "app.Address"; kind := "struct";
                     implementsEntity := false; elemString := "";
                     structFields :=
                       [ (plainField "City" {[ "orm" := "required" ]},
                          basicType "string" "string") ] |}) ] |}) ] |}.

Example extractTags_nested :
  let tags := extractTags ∅ nestedEntity "" in
  tags !! "ShippingAddressCity" ≫= (λ values, values !! "required") = Some "true"
  ∧ tags !! "AddressCity" = None ∧ tags !! "City" = None.
Proof. vm_compute. done. Qed.

End Tags.

(** * The handles of an engine across calls ([GetMysql], [GetRedis]) *)

Module EnginePools.
Import Engine.

Section Pools.
Variable requestCacheKey : string.

Lemma GetMysql_memoises code e db e' :
  GetMysql code e = Ok (db, e') → dbs e' !! dbCodeOf code = Some db.
Proof.
  unfold GetMysql. intros H.
  destruct (dbs e !! dbCodeOf code) as [db0|] eqn:Hm; [by simplify_eq|].
  destruct (mySQLServers (registry e) !! dbCodeOf code) as [cfg|]; [|done].
  simplify_eq. simpl. apply lookup_insert_eq.
Qed.

Lemma GetRedis_memoises code e c e' :
  GetRedis code e = Ok (c, e') → redis e' !! dbCodeOf code = Some c.
Proof.
  unfold GetRedis. intros H.
  destruct (redis e !! dbCodeOf code) as [c0|] eqn:Hm; [by simplify_eq|].
  destruct (redisServers (registry e) !! dbCodeOf code) as [cfg|]; [|done].
  simplify_eq. simpl. apply lookup_insert_eq.
Qed.

Lemma call_keeps_handles e e' :
  call requestCacheKey e e' →
  (∀ k db, dbs e !! k = Some db → dbs e' !! k = Some db)
  ∧ (∀ k c, redis e !! k = Some c → redis e' !! k = Some c).
Proof.
  intros [code e0 db e1 H|code e0 c0 e1 H|code e0 c0 e1 H].
  - unfold GetMysql in H.
    destruct (dbs e0 !! dbCodeOf code) as [db1|] eqn:Hm; [by simplify_eq|].
    destruct (mySQLServers (registry e0) !! dbCodeOf code); [|done].
    simplify_eq. simpl. split; [|done].
    intros k db' Hk. rewrite lookup_insert_ne; [done|congruence].
  - unfold GetLocalCache in H. repeat case_match; by simplify_eq.
  - unfold GetRedis in H.
    destruct (redis e0 !! dbCodeOf code) as [c1|] eqn:Hm; [by simplify_eq|].
    destruct (redisServers (registry e0) !! dbCodeOf code); [|done].
    simplify_eq. simpl. split; [done|].
    intros k c' Hk. rewrite lookup_insert_ne; [done|congruence].
Qed.

Lemma calls_keeps_handles e e' :
  calls requestCacheKey e e' →
  (∀ k db, dbs e !! k = Some db → dbs e' !! k = Some db)
  ∧ (∀ k c, redis e !! k = Some c → redis e' !! k = Some c).
Proof.
  induction 1 as [|e0 e1 e2 Hc _ [IHd IHr]]; [done|].
  destruct (call_keeps_handles _ _ Hc) as [Hd Hr].
  split; [intros k db Hk; by apply IHd, Hd|intros k c Hk; by apply IHr, Hr].
Qed.

(** A MySQL or Redis handle, once handed out, is the instance that every
    later call for the same code returns, whatever other pools the engine
    is asked for in between. *)
Theorem pooled_handles_stable (code : list string) (e e' e'' : Engine) :
  calls requestCacheKey e' e'' →
  (∀ db, GetMysql code e = Ok (db, e') → GetMysql code e'' = Ok (db, e''))
  ∧ (∀ c, GetRedis code e = Ok (c, e') → GetRedis code e'' = Ok (c, e'')).
Proof.
  intros Hcs. destruct (calls_keeps_handles _ _ Hcs) as [Hd Hr]. split.
  - intros db H. apply GetMysql_memoises in H. apply Hd in H.
    unfold GetMysql. by rewrite H.
  - intros c H. apply GetRedis_memoises in H. apply Hr in H.
    unfold GetRedis. by rewrite H.
Qed.

End Pools.

Definition afterMysql : Engine :=
  match GetMysql [] sampleEngine with
  | Ok (_, e) => e
  | Panic _ => sampleEngine
  end.

Definition afterLocalCache : Engine :=
  match GetLocalCache "_request" ["_request"] afterMysql with
  | Ok (_, e) => e
  | Panic _ => afterMysql
  end.

Lemma pooled_handles_stable_witness :
  (∀ db, GetMysql [] sampleEngine = Ok (db, afterMysql) →
         GetMysql [] afterLocalCache = Ok (db, afterLocalCache))
  ∧ (∀ c, GetRedis [] sampleEngine = Ok (c, afterMysql) →
          GetRedis [] afterLocalCache = Ok (c, afterLocalCache)).
Proof.
  apply (pooled_handles_stable "_request" [] sampleEngine afterMysql afterLocalCache).
  eapply calls_more; [|apply calls_none].
  eapply (call_local "_request" ["_request"]). reflexivity.
Defined.

End EnginePools.

(** * The events that [handleEvents] acknowledges *)

Module LazyFlushAcks.
Import LazyFlush.

Section Acks.
Variable entitySQLFlush : Type.
Variable World : Type.
Variable execute : list entitySQLFlush → World → World * outcome.
Variable flushCacheSetters : World → World * outcome.

Abbreviation replay := (replay entitySQLFlush World execute).
Abbreviation handleEvents := (handleEvents entitySQLFlush World execute flushCacheSetters).
Abbreviation handleEvents_body := (handleEvents_body entitySQLFlush World execute flushCacheSetters).

(** ** What the replay is to do *)

(** A record gets through: executed alone it succeeds, or a resolver
    returns [nil] for the error handed to the resolvers.  The stores
    afterwards. *)
Definition getsThrough (r : LazyFlushConsumer entitySQLFlush World) (rec : MySQLError)
    (e : entitySQLFlush) (w : World) : option World :=
  match execute [e] w with
  | (w', Returned) => Some w'
  | (w', Panicked _) =>
      match runResolvers entitySQLFlush World (lazyFlushQueryErrorResolvers r) e rec w' with
      | (w'', true) => Some w''
      | (_, false) => None
      end
  end.

(** How many records get through, one after the other, before the first
    that does not. *)
Fixpoint through (r : LazyFlushConsumer entitySQLFlush World) (rec : MySQLError)
    (records : list entitySQLFlush) (w : World) : nat :=
  match records with
  | [] => 0
  | e :: rest =>
      match getsThrough r rec e w with
      | Some w' => S (through r rec rest w')
      | None => 0
      end
  end.

(** ** Properties *)

Lemma ackAt_acked (events : list (Event entitySQLFlush)) i (st : state World) :
  match events !! i with
  | Some ev => ackAt entitySQLFlush World events i st
               = ({| world := world st; acked := acked st ++ [ID ev] |}, Returned)
  | None => ∃ p, ackAt entitySQLFlush World events i st = (st, Panicked p)
  end.
Proof. unfold ackAt. destruct (events !! i); [done|by eexists]. Qed.

Lemma take_S_drop {A} (l : list A) i x k :
  l !! i = Some x → take (S k) (drop i l) = x :: take k (drop (S i) l).
Proof.
  intros H. rewrite (drop_S l x i H). done.
Qed.

(** The replay acknowledges the events that stand at the indexes of the
    records that get through, in order, as far as there are events. *)
Lemma replay_through r events rec rest : ∀ i st,
  i ≤ length events →
  acked (replay r events rec i rest st).1
  = acked st ++ map ID (take (through r rec rest (world st)) (drop i events))
  ∧ ((replay r events rec i rest st).2 = Returned
     ↔ through r rec rest (world st) = length rest ∧ i + length rest ≤ length events).
Proof.
  induction rest as [|e rest IH]; intros i st Hi.
  - cbn. rewrite app_nil_r. split; [done|]. split; [intros _; split; lia|done].
  - cbn [replay through length]. unfold getsThrough.
    assert (Hstep : ∀ w,
      acked (match ackAt entitySQLFlush World events i
                     {| world := w; acked := acked st |} with
             | (st', Returned) => replay r events rec (S i) rest st'
             | (st', Panicked p) => (st', Panicked p)
             end).1
      = acked st ++ map ID (take (S (through r rec rest w)) (drop i events))
      ∧ ((match ackAt entitySQLFlush World events i
                    {| world := w; acked := acked st |} with
          | (st', Returned) => replay r events rec (S i) rest st'
          | (st', Panicked p) => (st', Panicked p)
          end).2 = Returned
         ↔ S (through r rec rest w) = S (length rest)
           ∧ i + S (length rest) ≤ length events)).
    { intros w.
      pose proof (ackAt_acked events i {| world := w; acked := acked st |}) as Hack.
      destruct (events !! i) as [ev|] eqn:Hev.
      - cbn [world acked] in Hack. rewrite Hack. cbv beta iota.
        destruct (IH (S i) {| world := w; acked := acked st ++ [ID ev] |})
          as (Hacked & Hret); [by apply lookup_lt_Some in Hev|].
        cbn [world acked] in Hacked, Hret. split.
        + rewrite Hacked, (take_S_drop _ _ _ _ Hev). cbn [map].
          by rewrite <- app_assoc.
        + rewrite Hret. split; intros [? ?]; split; lia.
      - destruct Hack as [p ->]. cbv beta iota. cbn [fst snd acked].
        apply lookup_ge_None in Hev. rewrite drop_ge by lia. rewrite take_nil.
        cbn. rewrite app_nil_r. split; [done|]. split; [done|]. intros [_ ?]. lia. }
    destruct (execute [e] (world st)) as [w [|rec2]].
    + apply Hstep.
    + destruct (runResolvers entitySQLFlush World _ e rec w) as [w' [|]].
      * apply Hstep.
      * cbn. rewrite app_nil_r. split; [done|]. split; [done|]. intros [? _]. lia.
Qed.

(** [handleEvents] acknowledges nothing unless the batch fails with a
    MySQL error, and ends as the batch ends.  After such a failure it
    acknowledges the first [k] events of the batch, in their order and
    whichever events the records came from, [k] being the number of flush
    records that get through the replay one after the other, as far as
    there are events; it returns exactly when every record gets through
    and there are no fewer events than records. *)
Theorem handleEvents_acks_prefix (r : LazyFlushConsumer entitySQLFlush World)
    (events : list (Event entitySQLFlush)) (lazyEvents : list entitySQLFlush)
    (st : state World) :
  ((∀ w rec, handleEvents_body lazyEvents (world st) ≠ (w, Panicked (MySQLPanic rec))) →
     acked (handleEvents r events lazyEvents st).1 = acked st
     ∧ (handleEvents r events lazyEvents st).2
       = (handleEvents_body lazyEvents (world st)).2)
  ∧ (∀ w rec, handleEvents_body lazyEvents (world st) = (w, Panicked (MySQLPanic rec)) →
       acked (handleEvents r events lazyEvents st).1
       = acked st ++ map ID (take (through r rec lazyEvents w) events)
       ∧ ((handleEvents r events lazyEvents st).2 = Returned
          ↔ through r rec lazyEvents w = length lazyEvents
            ∧ length lazyEvents ≤ length events)).
Proof.
  unfold LazyFlush.handleEvents. split.
  - intros Hno.
    destruct (handleEvents_body lazyEvents (world st)) as [w [|[rec|msg]]]; [done| |done].
    by destruct (Hno w rec).
  - intros w rec ->.
    destruct (replay_through r events rec lazyEvents 0
                {| world := w; acked := acked st |}) as [Hacked Hret]; [lia|].
    rewrite drop_0 in Hacked. cbn [acked world] in Hacked, Hret. done.
Qed.

End Acks.

(** Three events of one, two and one records; record 2 is a duplicate and
    record 3 too long.  Without a resolver one record gets through and one
    event is acknowledged.  With a resolver for duplicates all four records
    get through, as the resolvers are handed the error of the batch: the
    three events are acknowledged, and the handler panics on the fourth
    record, which finds no event at its index. *)
Example through_sample :
  let events := [ {| ID := "1-0"; data := [1] |}; {| ID := "2-0"; data := [2; 3] |};
                  {| ID := "3-0"; data := [4] |} ] in
  through nat Store storeExecute {| lazyFlushQueryErrorResolvers := [] |}
    duplicateEntry [1; 2; 3; 4] (world emptyStore) = 1
  ∧ acked (handleEvents nat Store storeExecute storeFlushCacheSetters
             {| lazyFlushQueryErrorResolvers := [] |} events [1; 2; 3; 4] emptyStore).1
    = ["1-0"]
  ∧ through nat Store storeExecute {| lazyFlushQueryErrorResolvers := [skipDuplicates] |}
      duplicateEntry [1; 2; 3; 4] (world emptyStore) = 4
  ∧ handleEvents nat Store storeExecute storeFlushCacheSetters
      {| lazyFlushQueryErrorResolvers := [skipDuplicates] |} events [1; 2; 3; 4]
      emptyStore
    = ({| world := {| written := [1; 4];
                     resolverCalls := [(2, duplicateEntry); (3, duplicateEntry)] |};
          acked := ["1-0"; "2-0"; "3-0"] |},
       Panicked (OtherPanic "index out of range")).
Proof. vm_compute. done. Qed.
End LazyFlushAcks.

(** * Tags, the column mapping and the indexes of the references *)

Module SchemaQueries.
Import GoStrings QueryTemplate Columns Indexes Schema.

(** [GetTagBool(field, key)] *)
Definition GetTagBool (tags : tagMap) (field key : string) : bool :=
  String.eqb (GetTag tags field key "1" "") "1".

(** The definition that a field's tags declare: that of [query], else that
    of [queryOne]. *)
Definition definitionOf (fakeDelete : bool) (values : gmap string string)
  : option cachedQueryDefinition :=
  match values !! "query" with
  | Some query => Some (buildDefinition fakeDelete false query)
  | None => buildDefinition fakeDelete true <$> values !! "queryOne"
  end.

Definition manyOf (fakeDelete : bool) (values : gmap string string)
  : option cachedQueryDefinition :=
  buildDefinition fakeDelete false <$> values !! "query".

Definition oneOf (fakeDelete : bool) (values : gmap string string)
  : option cachedQueryDefinition :=
  match values !! "query" with
  | Some _ => None
  | None => buildDefinition fakeDelete true <$> values !! "queryOne"
  end.

(** [ref] leads an index of [m]: it is the column at the ordinal 1. *)
Definition leads (ref : string) (m : gmap string index) : Prop :=
  ∃ k v, m !! k = Some v ∧ columnAt v 1 = ref.

(** ** Tags *)

(** [GetTagBool] holds for a tag written alone ([orm:"key"], stored as
    [true]) and for the value [1]; [getTag] reads the tags of the [ORM]
    field as [GetTag] does. *)
Theorem tag_accessors (tags : tagMap) (field key trueValue defaultValue : string) :
  (GetTagBool tags field key = true
   ↔ (∃ values, tags !! field = Some values
        ∧ (values !! key = Some "true" ∨ values !! key = Some "1")))
  ∧ getTag tags key trueValue defaultValue = GetTag tags "ORM" key trueValue defaultValue.
Proof.
  split.
  - unfold GetTagBool, GetTag.
    destruct (tags !! field) as [values|] eqn:Hf; cbn [mbind option_bind].
    + destruct (values !! key) as [userValue|] eqn:Hk.
      * destruct (String.eqb_spec userValue "true") as [->|Hne].
        -- split; [|done]. intros _. exists values. split; [done|]. by left.
        -- destruct (String.eqb_spec userValue "1") as [->|Hne1].
           ++ split; [|done]. intros _. exists values. split; [done|]. by right.
           ++ split; [done|]. intros (values' & Hv & [H|H]); simplify_eq.
      * split; [done|]. intros (values' & Hv & [H|H]); simplify_eq.
    + split; [done|]. intros (values' & Hv & _). done.
  - unfold getTag, GetTag. by destruct (tags !! "ORM" ≫= (λ values, values !! key)).
Qed.

(** ** The column mapping *)

Lemma columnMappingLoop_lookup names : ∀ i m name p,
  columnMappingLoop i names m !! name = Some p
  ↔ (∃ j, p = i + j ∧ names !! j = Some name ∧ ∀ j', names !! j' = Some name → j' ≤ j)
    ∨ ((name ∉ names) ∧ m !! name = Some p).
Proof.
  induction names as [|n rest IH]; intros i m name p; cbn [columnMappingLoop].
  - split.
    + intros H. right. split; [apply not_elem_of_nil|done].
    + intros [(j & _ & Hj & _)|[_ H]]; [done|done].
  - rewrite IH. split.
    + intros [(j & -> & Hj & Hmax)|[Hnot Hm]].
      * left. exists (S j). split; [lia|]. split; [done|].
        intros [|j'] Hj'; [lia|]. specialize (Hmax j' Hj'). lia.
      * destruct (decide (n = name)) as [->|Hne].
        -- rewrite lookup_insert_eq in Hm. simplify_eq. left. exists 0.
           split; [lia|]. split; [done|]. intros [|j'] Hj'; [lia|].
           exfalso. apply Hnot. by eapply list_elem_of_lookup_2.
        -- rewrite lookup_insert_ne in Hm by done. right. split; [|done].
           by apply not_elem_of_cons.
    + intros [(j & -> & Hj & Hmax)|[Hnot Hm]].
      * destruct j as [|j].
        -- simpl in Hj. simplify_eq. right. split.
           ++ intros Hin. apply list_elem_of_lookup_1 in Hin as [j' Hj'].
              specialize (Hmax (S j') Hj'). lia.
           ++ rewrite lookup_insert_eq. f_equal. lia.
        -- left. exists j. split; [lia|]. split; [done|].
           intros j' Hj'. specialize (Hmax (S j') Hj'). lia.
      * apply not_elem_of_cons in Hnot as [Hne Hnot]. right. split; [done|].
        by rewrite lookup_insert_ne.
Qed.

(** [columnMapping] sends the name of a column to its position in
    [columnNames], the last one should the name occur more than once;
    positions of distinct names are read back exactly. *)
Theorem columnMapping_positions (names : list string) (name : string) (p : nat) :
  columnMappingLoop 0 names ∅ !! name = Some p
  ↔ names !! p = Some name ∧ ∀ j, names !! j = Some name → j ≤ p.
Proof.
  rewrite columnMappingLoop_lookup. split.
  - intros [(j & -> & Hj & Hmax)|[_ H]]; [done|by rewrite lookup_empty in H].
  - intros [Hp Hmax]. left. by exists p.
Qed.

(** ** Indexes of the references *)

Lemma existsb_startsWith ref (m : gmap string index) :
  existsb (startsWith ref) (map_to_list m) = true ↔ leads ref m.
Proof.
  rewrite existsb_exists. unfold leads, startsWith. split.
  - intros ([k v] & Hin & Hb). apply list_elem_of_In, elem_of_map_to_list in Hin.
    apply bool_decide_eq_true in Hb. by exists k, v.
  - intros (k & v & Hkv & Hc). exists (k, v). split.
    + by apply list_elem_of_In, elem_of_map_to_list.
    + by apply bool_decide_eq_true.
Qed.

Lemma underscore_inj (a b : string) : "_" +:+ a = "_" +:+ b → a = b.
Proof. cbn. congruence. Qed.

Lemma leads_singleton ref : columnAt ({[ 1%Z := ref ]} : index) 1 = ref.
Proof. unfold columnAt. by rewrite lookup_singleton_eq. Qed.

(** What the loop keeps true of [indices]: an index named after a
    reference starts with it. *)
Definition ownIndexes (refs : list string) (indices : gmap string index) : Prop :=
  ∀ r v, r ∈ refs → indices !! ("_" +:+ r) = Some v → columnAt v 1 = r.

Lemma refIndexStep_spec uniqueIndices indices refs r :
  ownIndexes refs indices → r ∈ refs →
  let indices' := refIndexStep uniqueIndices indices r in
  ownIndexes refs indices'
  ∧ (leads r indices' ∨ leads r uniqueIndices)
  ∧ (∀ k v, indices !! k = Some v → indices' !! k = Some v)
  ∧ (∀ k v, indices' !! k = Some v →
       indices !! k = Some v ∨ (k = "_" +:+ r ∧ v = {[ 1%Z := r ]})).
Proof.
  intros Hown Hr. unfold refIndexStep.
  destruct (existsb (startsWith r) (map_to_list indices)) eqn:Hi.
  { apply existsb_startsWith in Hi. cbn. repeat split; auto. }
  destruct (existsb (startsWith r) (map_to_list uniqueIndices)) eqn:Hu.
  { apply existsb_startsWith in Hu. cbn. repeat split; auto. }
  assert (Hfree : indices !! ("_" +:+ r) = None).
  { destruct (indices !! ("_" +:+ r)) as [v|] eqn:Hv; [|done].
    assert (leads r indices) as Hl by (exists ("_" +:+ r), v; split; [done|by apply Hown]).
    apply existsb_startsWith in Hl. congruence. }
  cbn zeta. split; [|split; [|split]].
  - intros r' v Hr' Hv. destruct (decide (r' = r)) as [->|Hne].
    + rewrite lookup_insert_eq in Hv. simplify_eq. apply leads_singleton.
    + rewrite lookup_insert_ne in Hv; [by eapply Hown|].
      intros Heq. apply underscore_inj in Heq. congruence.
  - left. exists ("_" +:+ r), {[ 1%Z := r ]}. split; [apply lookup_insert_eq|].
    apply leads_singleton.
  - intros k v Hk. rewrite lookup_insert_ne; [done|]. intros <-. congruence.
  - intros k v Hk. destruct (decide ("_" +:+ r = k)) as [<-|Hne].
    + rewrite lookup_insert_eq in Hk. simplify_eq. by right.
    + rewrite lookup_insert_ne in Hk by done. by left.
Qed.

Lemma refIndexes_fold uniqueIndices all : ∀ refs indices,
  ownIndexes all indices → (∀ r, r ∈ refs → r ∈ all) →
  let indices' := fold_left (refIndexStep uniqueIndices) refs indices in
  ownIndexes all indices'
  ∧ (∀ r, r ∈ refs → leads r indices' ∨ leads r uniqueIndices)
  ∧ (∀ k v, indices !! k = Some v → indices' !! k = Some v)
  ∧ (∀ k v, indices' !! k = Some v →
       indices !! k = Some v ∨ ∃ r, r ∈ refs ∧ k = "_" +:+ r ∧ v = {[ 1%Z := r ]}).
Proof.
  intros l. induction l as [|r rest IH]; intros indices Hown Hsub; cbn [fold_left].
  - split; [done|]. split; [intros r Hr; by apply elem_of_nil in Hr|].
    split; [done|]. intros k v Hk. by left.
  - assert (Hr : r ∈ all) by (apply Hsub; left).
    destruct (refIndexStep_spec uniqueIndices indices all r Hown Hr)
      as (Hown1 & Hlead1 & Hkeep1 & Hnew1).
    destruct (IH (refIndexStep uniqueIndices indices r) Hown1) as (Hown2 & Hlead2 & Hkeep2 & Hnew2).
    { intros r' Hr'. apply Hsub. by right. }
    split; [done|]. split; [|split].
    + intros r' Hr'. apply elem_of_cons in Hr' as [->|Hr']; [|by apply Hlead2].
      destruct Hlead1 as [(k & v & Hk & Hv)|Hu]; [|by right].
      left. exists k, v. split; [by apply Hkeep2|done].
    + intros k v Hk. by apply Hkeep2, Hkeep1.
    + intros k v Hk. destruct (Hnew2 k v Hk) as [H|(r' & Hr' & -> & ->)].
      * destruct (Hnew1 k v H) as [H1|[-> ->]]; [by left|].
        right. exists r. split; [left|done].
      * right. exists r'. split; [by right|done].
Qed.

(** After the loop over the references every reference is the first column
    of an index, declared or added as [_<reference>]; the declared indexes
    are kept, and nothing else is added.  The indexes that are named after
    a reference beforehand are supposed to start with it. *)
Theorem refIndexes_lead (uniqueIndices indices : gmap string index) (refs : list string) :
  (∀ r v, r ∈ refs → indices !! ("_" +:+ r) = Some v → columnAt v 1 = r) →
  (∀ r, r ∈ refs →
     leads r (fold_left (refIndexStep uniqueIndices) refs indices)
     ∨ leads r uniqueIndices)
  ∧ (∀ k v, indices !! k = Some v →
       fold_left (refIndexStep uniqueIndices) refs indices !! k = Some v)
  ∧ (∀ k v, fold_left (refIndexStep uniqueIndices) refs indices !! k = Some v →
       indices !! k = Some v ∨ ∃ r, r ∈ refs ∧ k = "_" +:+ r ∧ v = {[ 1%Z := r ]}).
Proof.
  intros Hown.
  destruct (refIndexes_fold uniqueIndices refs refs indices Hown) as (_ & H); [done|].
  exact H.
Qed.

Lemma refIndexes_lead_witness :
  (∀ r, r ∈ ["Owner"; "Parent"] →
     leads r (fold_left (refIndexStep {[ "Parent" := indexOf ["Parent"; "Name"] ]})
                ["Owner"; "Parent"] ∅)
     ∨ leads r ({[ "Parent" := indexOf ["Parent"; "Name"] ]} : gmap string index))
  ∧ (∀ k v, (∅ : gmap string index) !! k = Some v →
       fold_left (refIndexStep {[ "Parent" := indexOf ["Parent"; "Name"] ]})
         ["Owner"; "Parent"] ∅ !! k = Some v)
  ∧ (∀ k v, fold_left (refIndexStep {[ "Parent" := indexOf ["Parent"; "Name"] ]})
              ["Owner"; "Parent"] ∅ !! k = Some v →
       (∅ : gmap string index) !! k = Some v
       ∨ ∃ r, r ∈ ["Owner"; "Parent"] ∧ k = "_" +:+ r ∧ v = {[ 1%Z := r ]}).
Proof.
  apply (refIndexes_lead {[ "Parent" := indexOf ["Parent"; "Name"] ]} ∅ ["Owner"; "Parent"]).
  intros r v _ H. by rewrite lookup_empty in H.
Defined.

Example refIndexes_sample :
  fold_left (refIndexStep {[ "Parent" := indexOf ["Parent"; "Name"] ]}) ["Owner"; "Parent"] ∅
  = {[ "_Owner" := {[ 1%Z := "Owner" ]} ]}.
Proof. vm_compute. reflexivity. Qed.

(** An index that happens to be named after a reference and starts with
    another column is replaced, and the column it started with is left
    without an index. *)
Example refIndexes_named_after_reference :
  fold_left (refIndexStep ∅) ["B"; "A"] {[ "_A" := {[ 1%Z := "B" ]} ]}
  = {[ "_A" := {[ 1%Z := "A" ]} ]}.
Proof. vm_compute. reflexivity. Qed.

End SchemaQueries.

(** * What [init] registers of the cached queries *)

Module SchemaInit.
Import GoStrings QueryTemplate Indexes Schema SchemaQueries.

Definition emptyQueries : queryState :=
  {| cachedQueries := ∅; cachedQueriesOne := ∅; cachedQueriesAll := ∅;
     cachedQueriesTrackedFields := ∅; oneRefs := [] |}.

(** [type UserEntity struct { beeorm.ORM; ID uint64; Email string;
    Owner *UserEntity; IndexEmail *CachedQuery `queryOne:":Email = ?"` }]
    with a unique index on [Email]. *)
Definition ownedTags : tagMap :=
  {[ "ORM" := ∅;
     "Owner" := {[ "ref" := "app.UserEntity" ]};
     "IndexEmail" := {[ "queryOne" := ":Email = ?" ]} ]}.

Definition ownedSchema : SchemaError + tableSchema :=
  init registryDefault userType ownedTags (Columns.idAndString "Email")
    {[ "Email" := indexOf ["Email"] ]} ∅.

(** ** The loop over the tags *)

Lemma queryStep_fields fd st k values :
  let st' := queryStep fd st (k, values) in
  cachedQueriesAll st'
  = match definitionOf fd values with
    | Some def => <[k := def]> (cachedQueriesAll st)
    | None => cachedQueriesAll st
    end
  ∧ cachedQueries st'
    = match manyOf fd values with
      | Some def => <[k := def]> (cachedQueries st)
      | None => cachedQueries st
      end
  ∧ cachedQueriesOne st'
    = match oneOf fd values with
      | Some def => <[k := def]> (cachedQueriesOne st)
      | None => cachedQueriesOne st
      end
  ∧ cachedQueriesTrackedFields st'
    = match definitionOf fd values with
      | Some def => list_to_set (TrackedFields def) ∪ cachedQueriesTrackedFields st
      | None => cachedQueriesTrackedFields st
      end
  ∧ oneRefs st'
    = oneRefs st ++ (if bool_decide (is_Some (values !! "ref")) then [k] else []).
Proof.
  unfold queryStep, definitionOf, manyOf, oneOf. cbn [fst snd].
  destruct (values !! "query") as [q|]; [|destruct (values !! "queryOne") as [q|]];
    destruct (values !! "ref") as [ref|]; cbn;
    rewrite ?bool_decide_eq_true_2 by (by eexists);
    rewrite ?bool_decide_eq_false_2 by (by intros [? ?]);
    rewrite ?app_nil_r; done.
Qed.

Lemma fold_queryStep_maps fd l : ∀ st, NoDup l.*1 → ∀ key,
  let st' := fold_left (queryStep fd) l st in
  cachedQueriesAll st' !! key
  = match (list_to_map l : tagMap) !! key ≫= definitionOf fd with
    | Some def => Some def
    | None => cachedQueriesAll st !! key
    end
  ∧ cachedQueries st' !! key
    = match (list_to_map l : tagMap) !! key ≫= manyOf fd with
      | Some def => Some def
      | None => cachedQueries st !! key
      end
  ∧ cachedQueriesOne st' !! key
    = match (list_to_map l : tagMap) !! key ≫= oneOf fd with
      | Some def => Some def
      | None => cachedQueriesOne st !! key
      end.
Proof.
  induction l as [|[k values] rest IH]; intros st Hnd key; cbn [fold_left].
  - cbn. by rewrite lookup_empty.
  - cbn [fmap list_fmap fst] in Hnd. apply NoDup_cons in Hnd as [Hk Hnd].
    destruct (IH (queryStep fd st (k, values)) Hnd key) as (Ha & Hm & Ho).
    destruct (queryStep_fields fd st k values) as (Ea & Em & Eo & _ & _).
    cbn zeta in *. rewrite Ha, Hm, Ho, Ea, Em, Eo. clear Ha Hm Ho Ea Em Eo.
    cbn [list_to_map foldr]. unfold uncurry. cbn [fst snd].
    destruct (decide (k = key)) as [->|Hne].
    + rewrite lookup_insert_eq.
      assert ((list_to_map rest : tagMap) !! key = None) as ->
        by (by apply not_elem_of_list_to_map_1).
      cbn [mbind option_bind].
      destruct (definitionOf fd values), (manyOf fd values), (oneOf fd values);
        rewrite ?lookup_insert_eq; done.
    + rewrite lookup_insert_ne by done.
      destruct (definitionOf fd values), (manyOf fd values), (oneOf fd values);
        rewrite ?lookup_insert_ne by done; done.
Qed.

Lemma fold_queryStep_tracked fd l : ∀ st x,
  x ∈ cachedQueriesTrackedFields (fold_left (queryStep fd) l st)
  ↔ x ∈ cachedQueriesTrackedFields st
    ∨ ∃ k values def, (k, values) ∈ l ∧ definitionOf fd values = Some def
                      ∧ x ∈ TrackedFields def.
Proof.
  induction l as [|[k values] rest IH]; intros st x; cbn [fold_left].
  - split; [by left|]. intros [H|(k & values & def & H & _)]; [done|].
    by apply elem_of_nil in H.
  - rewrite IH.
    destruct (queryStep_fields fd st k values) as (_ & _ & _ & Et & _).
    cbn zeta in Et. rewrite Et. clear Et. split.
    + intros [H|(k' & values' & def & Hin & Hdef & Hx)].
      * destruct (definitionOf fd values) as [def|] eqn:Hdef; [|by left].
        apply elem_of_union in H as [H|H]; [|by left].
        right. exists k, values, def. split; [left|].
        split; [done|]. by apply elem_of_list_to_set in H.
      * right. exists k', values', def. split; [by right|done].
    + intros [H|(k' & values' & def & Hin & Hdef & Hx)].
      * left. destruct (definitionOf fd values); [|done].
        apply elem_of_union. by right.
      * apply elem_of_cons in Hin as [Heq|Hin].
        -- simplify_eq. left. rewrite Hdef. apply elem_of_union. left.
           by apply elem_of_list_to_set.
        -- right. by exists k', values', def.
Qed.

Lemma fold_queryStep_oneRefs fd l : ∀ st,
  oneRefs (fold_left (queryStep fd) l st)
  = oneRefs st ++ (filter (λ kv, is_Some (kv.2 !! "ref")) l).*1.
Proof.
  induction l as [|[k values] rest IH]; intros st; cbn [fold_left].
  - cbn. by rewrite app_nil_r.
  - rewrite IH.
    destruct (queryStep_fields fd st k values) as (_ & _ & _ & _ & Er).
    cbn zeta in Er. rewrite Er. clear Er.
    rewrite filter_cons. cbn [snd].
    destruct (decide (is_Some (values !! "ref"))) as [Hs|Hs].
    + rewrite bool_decide_eq_true_2 by done. cbn. by rewrite <- app_assoc.
    + rewrite bool_decide_eq_false_2 by done. by rewrite app_nil_r.
Qed.

Lemma TrackedFields_no_ID fd isOne query :
  "ID" ∉ TrackedFields (buildDefinition fd isOne query).
Proof.
  unfold buildDefinition. cbn [TrackedFields].
  rewrite fold_classifyField_tracked. cbn [app].
  intros H. apply list_elem_of_filter in H as [H _]. by apply H.
Qed.

Lemma definitionOf_no_ID fd values def :
  definitionOf fd values = Some def → "ID" ∉ TrackedFields def.
Proof.
  unfold definitionOf. destruct (values !! "query") as [q|].
  - intros [= <-]. apply TrackedFields_no_ID.
  - destruct (values !! "queryOne") as [q|]; [|done].
    intros [= <-]. apply TrackedFields_no_ID.
Qed.

Lemma init_queries registry et tags tf uniqueIndices indices ts :
  init registry et tags tf uniqueIndices indices = inr ts →
  ∃ queries,
    queries = fold_left (queryStep (hasFakeDelete ts)) (map_to_list tags) emptyQueries
    ∧ cachedIndexes ts = cachedQueries queries
    ∧ cachedIndexesOne ts = cachedQueriesOne queries
    ∧ cachedIndexesAll ts = cachedQueriesAll queries
    ∧ cachedIndexesTrackedFields ts = cachedQueriesTrackedFields queries
    ∧ refOne ts = oneRefs queries.
Proof.
  unfold init. intros H. repeat case_match; simplify_eq; cbn; eexists; done.
Qed.

(** ** What [init] registers *)

(** The cached queries of a schema, read off the tags of its fields: a
    field with a [query] tag declares a query of several rows, a field with
    a [queryOne] tag and no [query] tag a query of one row; each stands in
    [cachedIndexesAll] and in the map of its kind, under the name of the
    field. *)
Theorem init_cached_queries (registry : Registry) (et : entityType) (tags : tagMap)
    (tf : Columns.tableFields) (uniqueIndices indices : gmap string index)
    (ts : tableSchema) (key : string) :
  init registry et tags tf uniqueIndices indices = inr ts →
  cachedIndexesAll ts !! key = tags !! key ≫= definitionOf (hasFakeDelete ts)
  ∧ cachedIndexes ts !! key
    = tags !! key ≫= (λ values,
        buildDefinition (hasFakeDelete ts) false <$> values !! "query")
  ∧ cachedIndexesOne ts !! key
    = tags !! key ≫= (λ values,
        match values !! "query" with
        | Some _ => None
        | None => buildDefinition (hasFakeDelete ts) true <$> values !! "queryOne"
        end).
Proof.
  intros Hinit.
  destruct (init_queries _ _ _ _ _ _ _ Hinit) as (queries & -> & -> & -> & -> & _ & _).
  destruct (fold_queryStep_maps (hasFakeDelete ts) (map_to_list tags) emptyQueries
              (NoDup_fst_map_to_list tags) key) as (Ha & Hm & Ho).
  cbn zeta in *. rewrite Ha, Hm, Ho, list_to_map_to_list. cbn [emptyQueries
    cachedQueriesAll cachedQueries cachedQueriesOne]. rewrite !lookup_empty.
  fold (manyOf (hasFakeDelete ts)). fold (oneOf (hasFakeDelete ts)).
  by destruct (tags !! key ≫= definitionOf _), (tags !! key ≫= manyOf _),
    (tags !! key ≫= oneOf _).
Qed.

Lemma init_cached_queries_witness :
  cachedIndexesAll (schemaOf ownedSchema) !! "IndexEmail"
  = ownedTags !! "IndexEmail" ≫= definitionOf (hasFakeDelete (schemaOf ownedSchema))
  ∧ cachedIndexes (schemaOf ownedSchema) !! "IndexEmail"
    = ownedTags !! "IndexEmail" ≫= (λ values,
        buildDefinition (hasFakeDelete (schemaOf ownedSchema)) false <$> values !! "query")
  ∧ cachedIndexesOne (schemaOf ownedSchema) !! "IndexEmail"
    = ownedTags !! "IndexEmail" ≫= (λ values,
        match values !! "query" with
        | Some _ => None
        | None => buildDefinition (hasFakeDelete (schemaOf ownedSchema)) true
                    <$> values !! "queryOne"
        end).
Proof.
  apply (init_cached_queries registryDefault userType ownedTags
           (Columns.idAndString "Email") {[ "Email" := indexOf ["Email"] ]} ∅).
  vm_compute. reflexivity.
Defined.

(** The tracked fields of a schema are the tracked fields of its cached
    queries, and [ID] is never among them. *)
Theorem init_tracked_fields (registry : Registry) (et : entityType) (tags : tagMap)
    (tf : Columns.tableFields) (uniqueIndices indices : gmap string index)
    (ts : tableSchema) :
  init registry et tags tf uniqueIndices indices = inr ts →
  (∀ x, x ∈ cachedIndexesTrackedFields ts
        ↔ ∃ key def, cachedIndexesAll ts !! key = Some def ∧ x ∈ TrackedFields def)
  ∧ "ID" ∉ cachedIndexesTrackedFields ts.
Proof.
  intros Hinit.
  assert (Hall : ∀ key, cachedIndexesAll ts !! key
                        = tags !! key ≫= definitionOf (hasFakeDelete ts)).
  { intros key.
    destruct (init_queries _ _ _ _ _ _ _ Hinit) as (queries & -> & _ & _ & -> & _ & _).
    destruct (fold_queryStep_maps (hasFakeDelete ts) (map_to_list tags) emptyQueries
                (NoDup_fst_map_to_list tags) key) as (Ha & _ & _).
    cbn zeta in Ha. rewrite Ha, list_to_map_to_list. cbn. rewrite lookup_empty.
    by destruct (tags !! key ≫= definitionOf _). }
  assert (Htracked : ∀ x, x ∈ cachedIndexesTrackedFields ts
            ↔ ∃ key def, cachedIndexesAll ts !! key = Some def ∧ x ∈ TrackedFields def).
  { intros x.
    destruct (init_queries _ _ _ _ _ _ _ Hinit) as (queries & -> & _ & _ & _ & Ht & _).
    rewrite Ht, fold_queryStep_tracked. cbn [emptyQueries cachedQueriesTrackedFields].
    split.
    - intros [H|(k & values & def & Hin & Hdef & Hx)]; [by apply elem_of_empty in H|].
      apply elem_of_map_to_list in Hin. exists k, def. split; [|done].
      rewrite Hall, Hin. done.
    - intros (key & def & Hk & Hx). right. rewrite Hall in Hk.
      destruct (tags !! key) as [values|] eqn:Hv; [|done]. cbn in Hk.
      exists key, values, def. split; [by apply elem_of_map_to_list|done]. }
  split; [exact Htracked|].
  intros H. apply Htracked in H as (key & def & Hk & Hx).
  rewrite Hall in Hk. destruct (tags !! key) as [values|]; [|done]. cbn in Hk.
  by apply definitionOf_no_ID in Hk.
Qed.

Lemma init_tracked_fields_witness :
  (∀ x, x ∈ cachedIndexesTrackedFields (schemaOf ownedSchema)
        ↔ ∃ key def, cachedIndexesAll (schemaOf ownedSchema) !! key = Some def
                     ∧ x ∈ TrackedFields def)
  ∧ "ID" ∉ cachedIndexesTrackedFields (schemaOf ownedSchema).
Proof.
  apply (init_tracked_fields registryDefault userType ownedTags
           (Columns.idAndString "Email") {[ "Email" := indexOf ["Email"] ]} ∅).
  vm_compute. reflexivity.
Defined.

(** The references of a schema are the fields that carry a [ref] tag, each
    once. *)
Theorem init_references (registry : Registry) (et : entityType) (tags : tagMap)
    (tf : Columns.tableFields) (uniqueIndices indices : gmap string index)
    (ts : tableSchema) :
  init registry et tags tf uniqueIndices indices = inr ts →
  NoDup (refOne ts)
  ∧ ∀ k, k ∈ refOne ts ↔ ∃ values, tags !! k = Some values ∧ is_Some (values !! "ref").
Proof.
  intros Hinit.
  destruct (init_queries _ _ _ _ _ _ _ Hinit) as (queries & -> & _ & _ & _ & _ & ->).
  rewrite fold_queryStep_oneRefs. cbn [emptyQueries oneRefs app]. split.
  - eapply NoDup_fmap_fst.
    + intros k v1 v2 [_ H1]%list_elem_of_filter [_ H2]%list_elem_of_filter.
      apply elem_of_map_to_list in H1, H2. congruence.
    + apply NoDup_filter, NoDup_map_to_list.
  - intros k. rewrite list_elem_of_fmap. split.
    + intros ([k' values] & -> & [Hs Hin]%list_elem_of_filter).
      apply elem_of_map_to_list in Hin. by exists values.
    + intros (values & Hk & Hs). exists (k, values). split; [done|].
      apply list_elem_of_filter. split; [done|]. by apply elem_of_map_to_list.
Qed.

Lemma init_references_witness :
  NoDup (refOne (schemaOf ownedSchema))
  ∧ ∀ k, k ∈ refOne (schemaOf ownedSchema)
         ↔ ∃ values, ownedTags !! k = Some values ∧ is_Some (values !! "ref").
Proof.
  apply (init_references registryDefault userType ownedTags
           (Columns.idAndString "Email") {[ "Email" := indexOf ["Email"] ]} ∅).
  vm_compute. reflexivity.
Defined.

Example ownedSchema_references :
  refOne (schemaOf ownedSchema) = ["Owner"]
  ∧ cachedIndexesTrackedFields (schemaOf ownedSchema) = {[ "Email" ]}.
Proof. vm_compute. done. Qed.

End SchemaInit.

(** * The order fields of a cached query *)

Module QueryOrder.
Import GoStrings QueryTemplate.

Lemma FindAllString_tail c s :
  ∃ before, FindAllString (String c s) = before ++ FindAllString s.
Proof.
  cbn [FindAllString]. destruct (isColon c); [|by exists []].
  destruct (takeAlnum s) as [|n0 name]; [by exists []|].
  by exists [String c (String n0 name)].
Qed.

Lemma FindAllString_sliceFrom n : ∀ s,
  ∃ before, FindAllString s = before ++ FindAllString (sliceFrom n s).
Proof.
  induction n as [|n IH]; intros s; [by exists []|].
  destruct s as [|c s]; [by exists []|]. cbn [sliceFrom].
  destruct (FindAllString_tail c s) as [b1 H1]. destruct (IH s) as [b2 H2].
  exists (b1 ++ b2). by rewrite H1, H2, app_assoc.
Qed.

(** The order fields of a definition are the names of the last variables
    of its template, those written from [order by] on, repetitions
    included; without an [order by], in whatever case, there is none. *)
Theorem OrderFields_trailing_variables (hasFakeDelete isOne : bool) (query : string) :
  (∃ before, variableNames query
             = before ++ OrderFields (buildDefinition hasFakeDelete isOne query))
  ∧ (Index (ToLower query) "order by" = (-1)%Z →
     OrderFields (buildDefinition hasFakeDelete isOne query) = [])
  ∧ Max (buildDefinition hasFakeDelete isOne query) = (if isOne then 1 else 50000)%Z.
Proof.
  unfold buildDefinition, variableNames. cbn [OrderFields Max]. split; [|split; [|done]].
  - destruct (Index (ToLower query) "order by" >? -1)%Z.
    + destruct (FindAllString_sliceFrom
                  (Z.to_nat (Index (ToLower query) "order by")) query) as [b Hb].
      exists (map (sliceFrom 1) b). by rewrite Hb, map_app.
    + exists (map (sliceFrom 1) (FindAllString query)). by rewrite app_nil_r.
  - by intros ->.
Qed.

Example OrderFields_sample :
  OrderFields (buildDefinition true false ":Status = ? Order By :Age DESC, :ID")
  = ["Age"; "ID"].
Proof. reflexivity. Qed.

End QueryOrder.

(** * Plugin options ([GetOption], [GetOptionString], [SetOption]) *)

Module Options.

(** The values kept as [interface{}]: [nil], a string, or a value of
    another type, told apart by a number. *)
Inductive optionValue : Type :=
| NilValue
| StringValue (s : string)
| OtherValue (n : nat).

(** [tableSchema.options]: plugin, then key, to value.  A [nil] map reads
    as the empty map and [SetOption] replaces it by a map with one entry,
    so both are the empty [gmap]. *)
Abbreviation options := (gmap string (gmap string optionValue)).

Definition GetOption (o : options) (plugin key : string) : optionValue :=
  match o !! plugin with
  | None => NilValue
  | Some values => default NilValue (values !! key)
  end.

(** [val.(string)] panics on a value of another type. *)
Definition GetOptionString (o : options) (plugin key : string) : result string :=
  match GetOption o plugin key with
  | NilValue => Ok ""
  | StringValue s => Ok s
  | OtherValue _ => Panic "interface conversion: interface {} is not string"
  end.

Definition SetOption (o : options) (plugin key : string) (value : optionValue) : options :=
  match o !! plugin with
  | None => <[plugin := {[ key := value ]}]> o
  | Some before => <[plugin := <[key := value]> before]> o
  end.

(** An option reads back as it was set, the options under other plugins
    or keys are left as they were, and an option never set reads as [nil]
    and as the empty string.  [GetOptionString] returns a string that was
    set, and panics exactly on a value that is neither [nil] nor a
    string. *)
Theorem options_round_trip (o : options) (plugin key : string) (value : optionValue) :
  GetOption (SetOption o plugin key value) plugin key = value
  ∧ (∀ plugin' key', (plugin', key') ≠ (plugin, key) →
       GetOption (SetOption o plugin key value) plugin' key' = GetOption o plugin' key')
  ∧ GetOption ∅ plugin key = NilValue
  ∧ (∀ s, GetOptionString (SetOption o plugin key (StringValue s)) plugin key = Ok s)
  ∧ ((∃ msg, GetOptionString o plugin key = Panic msg)
     ↔ ∃ n, GetOption o plugin key = OtherValue n).
Proof.
  assert (Hget : ∀ v, GetOption (SetOption o plugin key v) plugin key = v).
  { intros v. unfold GetOption, SetOption.
    destruct (o !! plugin) as [before|]; rewrite lookup_insert_eq.
    - by rewrite lookup_insert_eq.
    - by rewrite lookup_singleton_eq. }
  split; [apply Hget|]. split; [|split; [|split]].
  - intros plugin' key' Hne. unfold GetOption, SetOption.
    destruct (decide (plugin = plugin')) as [<-|Hp].
    + assert (key ≠ key') by congruence.
      destruct (o !! plugin) as [before|]; rewrite lookup_insert_eq.
      * by rewrite lookup_insert_ne.
      * by rewrite lookup_singleton_ne.
    + destruct (o !! plugin) as [before|]; by rewrite lookup_insert_ne.
  - unfold GetOption. by rewrite lookup_empty.
  - intros s. unfold GetOptionString. by rewrite Hget.
  - unfold GetOptionString. destruct (GetOption o plugin key) as [|s|n].
    + split; [intros [? ?]; done|intros [? ?]; done].
    + split; [intros [? ?]; done|intros [? ?]; done].
    + split; [by exists n|by eexists].
Qed.

End Options.

(** * The pools of a schema ([tableSchema.GetMysql], [GetLocalCache],
      [GetRedisCache]) *)

Module SchemaPools.
Import Indexes Schema.

Section Accessors.

Variable requestCacheKey : string.

(** [tableSchema.GetMysql(engine)] *)
Definition GetMysql (ts : tableSchema) (e : Engine.Engine)
  : result (Engine.DB * Engine.Engine) :=
  Engine.GetMysql [mysqlPoolName ts] e.

(** [tableSchema.GetLocalCache(engine)]: the cache, [None] standing for
    [(nil, false)]. *)
Definition GetLocalCache (ts : tableSchema) (e : Engine.Engine)
  : result (option Engine.LocalCache * Engine.Engine) :=
  if negb (hasLocalCache ts) then Ok (None, e)
  else
    match Engine.GetLocalCache requestCacheKey [localCacheName ts] e with
    | Ok (cache, e') => Ok (Some cache, e')
    | Panic msg => Panic msg
    end.

(** [tableSchema.GetRedisCache(engine)] *)
Definition GetRedisCache (ts : tableSchema) (e : Engine.Engine)
  : result (option Engine.RedisCache * Engine.Engine) :=
  if negb (hasRedisCache ts) then Ok (None, e)
  else
    match Engine.GetRedis [redisCacheName ts] e with
    | Ok (cache, e') => Ok (Some cache, e')
    | Panic msg => Panic msg
    end.

Lemma init_pools registry et tags tf uniqueIndices indices ts :
  init registry et tags tf uniqueIndices indices = inr ts →
  mysqlPoolName ts ∈ mysqlPools registry
  ∧ localCacheName ts = localCachePoolOf tags
  ∧ hasLocalCache ts = negb (String.eqb (localCachePoolOf tags) "")
  ∧ (hasLocalCache ts = true → localCacheName ts ∈ localCachePools registry)
  ∧ redisCacheName ts = redisPoolOf tags
  ∧ hasRedisCache ts = negb (String.eqb (redisPoolOf tags) "").
Proof.
  unfold init, localCachePoolOf, redisPoolOf. intros H.
  destruct (negb (bool_decide (getTag tags "mysql" "default" "default"
                               ∈ mysqlPools registry))) eqn:Hm; [done|].
  apply negb_false_iff, bool_decide_eq_true in Hm.
  destruct (negb (String.eqb (getTag tags "localCache" "default" "") "")
            && negb (bool_decide (getTag tags "localCache" "default" ""
                                  ∈ localCachePools registry))) eqn:Hl; [done|].
  repeat case_match; simplify_eq; cbn; repeat split; try done;
    intros Hc; rewrite Hc in Hl; cbn in Hl;
    by apply negb_false_iff, bool_decide_eq_true in Hl.
Qed.

(** A schema that [init] has built finds its MySQL pool and its local
    cache in every engine whose registry holds the pools declared in the
    registry the schema was built with; the local cache is there exactly
    when the entity declares one.  Its Redis cache is another matter:
    [GetRedisCache] panics exactly when the entity declares a Redis cache
    whose pool the engine neither holds nor has registered. *)
Theorem built_schema_pools (registry : Registry) (et : entityType) (tags : tagMap)
    (tf : Columns.tableFields) (uniqueIndices indices : gmap string index)
    (ts : tableSchema) (e : Engine.Engine) :
  init registry et tags tf uniqueIndices indices = inr ts →
  mysqlPools registry ⊆ dom (Engine.mySQLServers (Engine.registry e)) →
  localCachePools registry ⊆ dom (Engine.localCacheServers (Engine.registry e)) →
  (∃ db e', GetMysql ts e = Ok (db, e'))
  ∧ (∃ cache e', GetLocalCache ts e = Ok (cache, e')
                 ∧ (is_Some cache ↔ localCachePoolOf tags ≠ ""))
  ∧ ((∃ msg, GetRedisCache ts e = Panic msg)
     ↔ redisPoolOf tags ≠ ""
       ∧ Engine.redis e !! redisPoolOf tags = None
       ∧ Engine.redisServers (Engine.registry e) !! redisPoolOf tags = None).
Proof.
  intros Hinit Hmysql Hlocal.
  destruct (init_pools _ _ _ _ _ _ _ Hinit) as (Hm & Hln & Hhl & Hl & Hrn & Hhr).
  split; [|split].
  - unfold GetMysql, Engine.GetMysql. cbn [Engine.dbCodeOf].
    destruct (Engine.dbs e !! mysqlPoolName ts); [by eexists _, _|].
    apply Hmysql, elem_of_dom in Hm as [config ->]. by eexists _, _.
  - unfold GetLocalCache. rewrite Hhl.
    destruct (String.eqb_spec (localCachePoolOf tags) "") as [Heq|Hne]; cbn [negb].
    + eexists _, _. split; [done|]. split; [by intros [? ?]|done].
    + rewrite Hhl in Hl. destruct (String.eqb_spec (localCachePoolOf tags) "");
        [done|]. specialize (Hl eq_refl).
      unfold Engine.GetLocalCache. cbn [Engine.dbCodeOf].
      destruct (Engine.localCache e !! localCacheName ts).
      { eexists _, _. split; [done|]. split; [done|by eexists]. }
      apply Hlocal, elem_of_dom in Hl as [config ->].
      eexists _, _. split; [done|]. split; [done|by eexists].
  - unfold GetRedisCache. rewrite Hhr, Hrn.
    destruct (String.eqb_spec (redisPoolOf tags) "") as [Heq|Hne]; cbn [negb].
    + split; [by intros [? ?]|]. by intros [? _].
    + unfold Engine.GetRedis. cbn [Engine.dbCodeOf].
      destruct (Engine.redis e !! redisPoolOf tags).
      { split; [by intros [? ?]|]. by intros (_ & ? & _). }
      destruct (Engine.redisServers (Engine.registry e) !! redisPoolOf tags).
      { split; [by intros [? ?]|]. by intros (_ & _ & ?). }
      split; [done|]. intros _. by eexists.
Qed.

End Accessors.

(** [type UserEntity struct { beeorm.ORM `orm:"localCache;redisCache"`;
    ID uint64; Name string }], in a registry with the MySQL pool and the
    local cache [default]. *)
Definition cachedTags : tagMap :=
  {[ "ORM" := {[ "localCache" := "true"; "redisCache" := "true" ]} ]}.

Definition registryCached : Registry :=
  {| mysqlPools := {[ "default" ]}; localCachePools := {[ "default" ]};
     redisPools := ∅ |}.

Definition cachedSchema : SchemaError + tableSchema :=
  init registryCached userType cachedTags (Columns.idAndString "Name") ∅ ∅.

Lemma built_schema_pools_witness :
  (∃ db e', GetMysql (schemaOf cachedSchema) Engine.sampleEngine = Ok (db, e'))
  ∧ (∃ cache e',
       GetLocalCache "_request" (schemaOf cachedSchema) Engine.sampleEngine
       = Ok (cache, e')
       ∧ (is_Some cache ↔ localCachePoolOf cachedTags ≠ ""))
  ∧ ((∃ msg, GetRedisCache (schemaOf cachedSchema) Engine.sampleEngine = Panic msg)
     ↔ redisPoolOf cachedTags ≠ ""
       ∧ Engine.redis Engine.sampleEngine !! redisPoolOf cachedTags = None
       ∧ Engine.redisServers (Engine.registry Engine.sampleEngine)
         !! redisPoolOf cachedTags = None).
Proof.
  apply (built_schema_pools "_request" registryCached userType cachedTags
           (Columns.idAndString "Name") ∅ ∅).
  - vm_compute. reflexivity.
  - eapply (bool_decide_unpack _). vm_compute. reflexivity.
  - eapply (bool_decide_unpack _). vm_compute. reflexivity.
Defined.

(** The schema is built although no Redis pool is registered, and its
    Redis cache cannot be had. *)
Example cachedSchema_redis_panics :
  hasRedisCache (schemaOf cachedSchema) = true
  ∧ GetRedisCache (schemaOf cachedSchema) Engine.sampleEngine
    = Panic "unregistered redis cache pool 'default'".
Proof. vm_compute. done. Qed.

End SchemaPools.

(** * Collecting the indexes of an entity (the [unique] and [index] tags
      in [init], [GetUniqueIndexes]) *)

Module IndexCollection.
Import GoStrings GoText Indexes Schema.

(** The four maps that [init] fills from the tags. *)
Record collected : Type := {
  uniqueIndices : gmap string index;
  uniqueIndicesSimple : gmap string (list string);
  uniqueIndicesSimpleGlobal : gmap string (list string);
  indices : gmap string index;
}.

Definition nothing : collected :=
  {| uniqueIndices := ∅; uniqueIndicesSimple := ∅; uniqueIndicesSimpleGlobal := ∅;
     indices := ∅ |}.

(** [m[name][id] = column], for a map [m[name]] that is there or is made
    first. *)
Definition setColumn (m : gmap string index) (name : string) (id : Z) (column : string)
  : gmap string index :=
  <[name := <[id := column]> (default ∅ (m !! name))]> m.

(** [m[name] = append(m[name], column)] *)
Definition appendColumn (m : gmap string (list string)) (name column : string)
  : gmap string (list string) :=
  <[name := default [] (m !! name) ++ [column]]> m.

(** [for i, field := range strings.Split(def[1], ",")] *)
Fixpoint globalColumns (name : string) (i : nat) (fields : list string) (c : collected)
  : collected :=
  match fields with
  | [] => c
  | field :: rest =>
      globalColumns name (S i) rest
        {| uniqueIndices := setColumn (uniqueIndices c) name (Z.of_nat i + 1) field;
           uniqueIndicesSimple := appendColumn (uniqueIndicesSimple c) name field;
           uniqueIndicesSimpleGlobal := appendColumn (uniqueIndicesSimpleGlobal c) name field;
           indices := indices c |}
  end.

(** One part of the [unique] tag of the entity, [name:column,column...];
    [def[1]] panics when the part holds no colon. *)
Definition globalPart (c : collected) (part : string) : result collected :=
  match Split part ":" with
  | name :: columns :: _ =>
      Ok (globalColumns name 0 (Split columns ",")
            {| uniqueIndices := <[name := ∅]> (uniqueIndices c);
               uniqueIndicesSimple := <[name := []]> (uniqueIndicesSimple c);
               uniqueIndicesSimpleGlobal := <[name := []]> (uniqueIndicesSimpleGlobal c);
               indices := indices c |})
  | _ => Panic "index out of range [1] with length 1"
  end.

Fixpoint globalLoop (parts : list string) (c : collected) : result collected :=
  match parts with
  | [] => Ok c
  | part :: rest =>
      match globalPart c part with
      | Ok c' => globalLoop rest c'
      | Panic msg => Panic msg
      end
  end.

(** [parts := strings.Split(indexName, ":")]: the name of the index and
    the ordinal of the column in it, 1 when none is written. *)
Definition indexName (item : string) : string := default "" (head (Split item ":")).

Definition ordinal (item : string) : Z :=
  match Split item ":" with
  | _ :: id :: _ => ParseInt id
  | _ => 1%Z
  end.

(** One turn of [for _, indexName := range values], for the tag [unique]
    and for the tag [index] of the field [k]. *)
Definition uniqueStep (k : string) (c : collected) (item : string) : collected :=
  {| uniqueIndices := setColumn (uniqueIndices c) (indexName item) (ordinal item) k;
     uniqueIndicesSimple := appendColumn (uniqueIndicesSimple c) (indexName item) k;
     uniqueIndicesSimpleGlobal := uniqueIndicesSimpleGlobal c;
     indices := indices c |}.

Definition indexStep (k : string) (c : collected) (item : string) : collected :=
  {| uniqueIndices := uniqueIndices c;
     uniqueIndicesSimple := uniqueIndicesSimple c;
     uniqueIndicesSimpleGlobal := uniqueIndicesSimpleGlobal c;
     indices := setColumn (indices c) (indexName item) (ordinal item) k |}.

(** One turn of [for k, v := range tableSchema.tags]. *)
Definition fieldStep (c : collected) (kv : string * gmap string string) : collected :=
  let c :=
    match kv.2 !! "unique" with
    | Some keys =>
        if negb (String.eqb kv.1 "ORM") then fold_left (uniqueStep kv.1) (Split keys ",") c
        else c
    | None => c
    end in
  match kv.2 !! "index" with
  | Some keys => fold_left (indexStep kv.1) (Split keys ",") c
  | None => c
  end.

(** The part of [init] that collects the indexes, up to the loop over the
    references. *)
Definition collectIndexes (tags : tagMap) : result collected :=
  let uniqueGlobal := getTag tags "unique" "" "" in
  match (if String.eqb uniqueGlobal "" then Ok nothing
         else globalLoop (Split uniqueGlobal "|") nothing) with
  | Ok c => Ok (fold_left fieldStep (map_to_list tags) c)
  | Panic msg => Panic msg
  end.

(** [GetUniqueIndexes]: the unique indexes by name, those of the entity's
    own tag over the others. *)
Definition GetUniqueIndexes (simple global : gmap string (list string))
  : gmap string (list string) :=
  global ∪ simple.

(** ** The vocabulary of the properties *)

(** A unique index as the tag of the entity writes it,
    [name:column,column...]. *)
Definition renderIndex (d : string * list string) : string :=
  d.1 +:+ String ":" (Join d.2 ",").

Definition plainName (s : string) : bool :=
  without "|" s && without ":" s && without "," s.

Definition wellFormed (d : string * list string) : Prop :=
  plainName d.1 = true ∧ d.2 ≠ [] ∧ Forall (λ column, plainName column = true) d.2.

(** The tag [key] of the field [k] names the index [name] at the ordinal
    [id]. *)
Definition declares (tags : tagMap) (key k name : string) (id : Z) : Prop :=
  ∃ values keys item,
    tags !! k = Some values ∧ values !! key = Some keys
    ∧ item ∈ Split keys "," ∧ indexName item = name ∧ ordinal item = id.

(** ** When the collection panics *)

Lemma Split_go_two sep s cur :
  without sep s = false → ∃ a b rest, Split_go sep s cur = a :: b :: rest.
Proof.
  revert cur. induction s as [|c s IH]; intros cur H; [done|]. cbn [Split_go].
  destruct (Ascii.eqb c sep) eqn:Hc.
  - destruct (Split_go sep s "") as [|b rest] eqn:Hs.
    + by apply (Split_nonempty s sep) in Hs.
    + by exists cur, b, rest.
  - cbn in H. rewrite Hc in H. cbn in H. by apply IH.
Qed.

Lemma globalPart_panics c part :
  (∃ msg, globalPart c part = Panic msg) ↔ without ":" part = true.
Proof.
  unfold globalPart. destruct (without ":" part) eqn:Hw.
  - rewrite Split_without by done. split; [done|]. intros _. by eexists.
  - destruct (Split_go_two ":" part "" Hw) as (a & b & rest & Hs).
    unfold Split. rewrite Hs. split; [intros [? ?]; done|done].
Qed.

Lemma globalLoop_panics parts : ∀ c,
  (∃ msg, globalLoop parts c = Panic msg)
  ↔ ∃ part, part ∈ parts ∧ without ":" part = true.
Proof.
  induction parts as [|part rest IH]; intros c; cbn [globalLoop].
  - split; [intros [? ?]; done|]. intros (part & H & _). by apply elem_of_nil in H.
  - destruct (globalPart c part) as [c'|msg] eqn:Hp.
    + rewrite IH. split.
      * intros (p & Hin & Hw). exists p. split; [by right|done].
      * intros (p & Hin & Hw). apply elem_of_cons in Hin as [->|Hin]; [|by exists p].
        assert (∃ msg, globalPart c part = Panic msg) as [msg Hmsg]
          by (by apply globalPart_panics).
        congruence.
    + split; [|intros _; by eexists]. intros _. exists part. split; [left|].
      apply (globalPart_panics c). by eexists.
Qed.

(** Collecting the indexes panics exactly when the [unique] tag of the
    entity holds a part without a colon; the tags of the fields never make
    it panic. *)
Theorem collectIndexes_panics (tags : tagMap) :
  (∃ msg, collectIndexes tags = Panic msg)
  ↔ getTag tags "unique" "" "" ≠ ""
    ∧ ∃ part, part ∈ Split (getTag tags "unique" "" "") "|" ∧ without ":" part = true.
Proof.
  unfold collectIndexes.
  destruct (String.eqb_spec (getTag tags "unique" "" "") "") as [Heq|Hne].
  - split; [intros [? ?]; done|]. intros [H _]. done.
  - destruct (globalLoop (Split (getTag tags "unique" "" "") "|") nothing)
      as [c|msg] eqn:Hloop.
    + split; [intros [? ?]; done|]. intros [_ Hpart].
      apply (globalLoop_panics _ nothing) in Hpart as [msg Hmsg]. congruence.
    + split; [|intros _; by eexists]. intros _. split; [done|].
      apply (globalLoop_panics _ nothing). by eexists.
Qed.

Example collectIndexes_no_colon :
  collectIndexes {[ "ORM" := {[ "unique" := "Name:Name,Age|Email" ]} ]}
  = Panic "index out of range [1] with length 1".
Proof. vm_compute. reflexivity. Qed.

(** ** The slots of the indexes *)

(** The field at the ordinal [id] of the index [name]. *)
Definition slot (m : gmap string index) (name : string) (id : Z) : option string :=
  m !! name ≫= (λ columns, columns !! id).

(** The assignments [m[name][id] = k] that the tag [key] of a field asks
    for, in order. *)
Definition assignments (key : string) (kv : string * gmap string string)
  : list (string * Z * string) :=
  match kv.2 !! key with
  | Some keys => map (λ item, (indexName item, ordinal item, kv.1)) (Split keys ",")
  | None => []
  end.

Definition assign (m : gmap string index) (a : string * Z * string) : gmap string index :=
  setColumn m a.1.1 a.1.2 a.2.

Lemma slot_setColumn m name id k name' id' :
  slot (setColumn m name id k) name' id'
  = if decide (name = name' ∧ id = id') then Some k else slot m name' id'.
Proof.
  unfold slot, setColumn. destruct (decide (name = name')) as [<-|Hn].
  - rewrite lookup_insert_eq. cbn. destruct (decide (id = id')) as [<-|Hi].
    + rewrite lookup_insert_eq. by rewrite decide_True.
    + rewrite lookup_insert_ne by done. rewrite decide_False by tauto.
      by destruct (m !! name).
  - rewrite lookup_insert_ne by done. by rewrite decide_False by tauto.
Qed.

Lemma fold_assign l : ∀ m name id,
  (slot (fold_left assign l m) name id = slot m name id
   ∧ ∀ k, (name, id, k) ∉ l)
  ∨ ∃ k, (name, id, k) ∈ l ∧ slot (fold_left assign l m) name id = Some k.
Proof.
  induction l as [|[[n i] k] rest IH]; intros m name id; cbn [fold_left].
  - left. split; [done|]. intros k. apply not_elem_of_nil.
  - destruct (IH (assign m (n, i, k)) name id) as [[Heq Hno]|(k' & Hin & Hs)].
    + unfold assign in Heq. cbn [fst snd] in Heq. rewrite slot_setColumn in Heq.
      destruct (decide (n = name ∧ i = id)) as [[-> ->]|Hne].
      * right. exists k. split; [left|done].
      * left. split; [done|]. intros k0 Hin.
        apply elem_of_cons in Hin as [Heq0|Hin]; [|by apply (Hno k0)].
        simplify_eq. tauto.
    + right. exists k'. split; [by right|done].
Qed.

Lemma fold_indexStep k items : ∀ c,
  fold_left (indexStep k) items c
  = {| uniqueIndices := uniqueIndices c;
       uniqueIndicesSimple := uniqueIndicesSimple c;
       uniqueIndicesSimpleGlobal := uniqueIndicesSimpleGlobal c;
       indices := fold_left assign
                    (map (λ item, (indexName item, ordinal item, k)) items) (indices c) |}.
Proof.
  induction items as [|item rest IH]; intros c; cbn [fold_left map]; [by destruct c|].
  by rewrite IH.
Qed.

Lemma fold_uniqueStep k items : ∀ c,
  uniqueIndices (fold_left (uniqueStep k) items c)
  = fold_left assign (map (λ item, (indexName item, ordinal item, k)) items)
      (uniqueIndices c)
  ∧ uniqueIndicesSimpleGlobal (fold_left (uniqueStep k) items c)
    = uniqueIndicesSimpleGlobal c
  ∧ indices (fold_left (uniqueStep k) items c) = indices c.
Proof.
  induction items as [|item rest IH]; intros c; cbn [fold_left map]; [done|].
  destruct (IH (uniqueStep k c item)) as (-> & -> & ->). done.
Qed.

Definition uniqueAssignments (kv : string * gmap string string)
  : list (string * Z * string) :=
  if String.eqb kv.1 "ORM" then [] else assignments "unique" kv.

Lemma fold_fieldStep l : ∀ c,
  indices (fold_left fieldStep l c)
  = fold_left assign (flat_map (assignments "index") l) (indices c)
  ∧ uniqueIndices (fold_left fieldStep l c)
    = fold_left assign (flat_map uniqueAssignments l) (uniqueIndices c)
  ∧ uniqueIndicesSimpleGlobal (fold_left fieldStep l c) = uniqueIndicesSimpleGlobal c.
Proof.
  induction l as [|[k v] rest IH]; intros c; cbn [fold_left flat_map]; [done|].
  destruct (IH (fieldStep c (k, v))) as (-> & -> & ->).
  rewrite !fold_left_app. unfold fieldStep, uniqueAssignments, assignments. cbn [fst snd].
  destruct (v !! "unique") as [keys|]; destruct (String.eqb k "ORM"); cbn [negb];
    destruct (v !! "index") as [keys'|]; cbn [fold_left];
    rewrite ?fold_indexStep; cbn [indices uniqueIndices uniqueIndicesSimpleGlobal];
    try done;
    destruct (fold_uniqueStep k (Split keys ",") c) as (-> & -> & ->); done.
Qed.

Lemma elem_of_flat_map {A B} (f : A → list B) (l : list A) (y : B) :
  y ∈ flat_map f l ↔ ∃ x, x ∈ l ∧ y ∈ f x.
Proof.
  rewrite list_elem_of_In, in_flat_map.
  split; intros (x & H1 & H2); exists x; split; by apply list_elem_of_In.
Qed.

Lemma assignments_field key kv name id k :
  (name, id, k) ∈ assignments key kv → k = kv.1.
Proof.
  unfold assignments. destruct (kv.2 !! key); [|by intros ?%elem_of_nil].
  intros (item & Heq & _)%list_elem_of_fmap. by simplify_eq.
Qed.

Lemma elem_of_assignments key tags name id k :
  (∃ kv, kv ∈ map_to_list tags ∧ (name, id, k) ∈ assignments key kv)
  ↔ declares tags key k name id.
Proof.
  unfold declares, assignments. split.
  - intros ([k' v] & Hin & Ha). apply elem_of_map_to_list in Hin. cbn [fst snd] in Ha.
    destruct (v !! key) as [keys|] eqn:Hkeys; [|by apply elem_of_nil in Ha].
    apply list_elem_of_fmap in Ha as (item & Heq & Hitem). simplify_eq.
    by exists v, keys, item.
  - intros (v & keys & item & Hk & Hkeys & Hitem & <- & <-).
    exists (k, v). split; [by apply elem_of_map_to_list|]. cbn [fst snd].
    rewrite Hkeys. apply list_elem_of_fmap. by exists item.
Qed.

Lemma globalColumns_indices name fields : ∀ i c,
  indices (globalColumns name i fields c) = indices c.
Proof.
  induction fields as [|f rest IH]; intros i c; cbn [globalColumns]; [done|].
  by rewrite IH.
Qed.

Lemma globalLoop_indices parts : ∀ c c',
  globalLoop parts c = Ok c' → indices c' = indices c.
Proof.
  induction parts as [|part rest IH]; intros c c'; cbn [globalLoop].
  - by intros [= <-].
  - destruct (globalPart c part) as [c1|] eqn:Hp; [|done].
    intros H. rewrite (IH _ _ H). unfold globalPart in Hp.
    destruct (Split part ":") as [|name [|columns ?]]; try done.
    simplify_eq. by rewrite globalColumns_indices.
Qed.

Lemma collectIndexes_Ok tags c :
  collectIndexes tags = Ok c →
  ∃ c0, c = fold_left fieldStep (map_to_list tags) c0 ∧ indices c0 = ∅.
Proof.
  unfold collectIndexes. destruct (String.eqb _ ""); [intros [= <-]; by exists nothing|].
  destruct (globalLoop _ nothing) as [c0|] eqn:Hg; [|done].
  intros [= <-]. exists c0. split; [done|]. by rewrite (globalLoop_indices _ _ _ Hg).
Qed.

(** Every ordinal of an index that the [index] tag of a field names holds
    a field that names it, and holds nothing else: of two fields that name
    one ordinal either may stay, none is lost to another ordinal.  The
    same holds of the ordinals named by the [unique] tags of the fields
    other than [ORM]. *)
Theorem collectIndexes_slots (tags : tagMap) (c : collected) (name : string) (id : Z) :
  collectIndexes tags = Ok c →
  ((∃ k, declares tags "index" k name id)
   ↔ ∃ k, slot (indices c) name id = Some k ∧ declares tags "index" k name id)
  ∧ (slot (indices c) name id = None ↔ ∀ k, ¬ declares tags "index" k name id)
  ∧ ((∃ k, k ≠ "ORM" ∧ declares tags "unique" k name id)
     → ∃ k, slot (uniqueIndices c) name id = Some k ∧ k ≠ "ORM"
            ∧ declares tags "unique" k name id).
Proof.
  intros Hc. apply collectIndexes_Ok in Hc as (c0 & -> & H0).
  destruct (fold_fieldStep (map_to_list tags) c0) as (Hi & Hu & _).
  rewrite Hi, Hu, H0. clear Hi Hu.
  assert (Hin : ∀ k, (name, id, k) ∈ flat_map (assignments "index") (map_to_list tags)
                     ↔ declares tags "index" k name id).
  { intros k. by rewrite <- elem_of_assignments, elem_of_flat_map. }
  assert (Hun : ∀ k, (name, id, k) ∈ flat_map uniqueAssignments (map_to_list tags)
                     ↔ k ≠ "ORM" ∧ declares tags "unique" k name id).
  { intros k. rewrite <- elem_of_assignments, elem_of_flat_map. split.
    - intros ([k' v] & H1 & H2). unfold uniqueAssignments in H2. cbn [fst] in H2.
      destruct (String.eqb_spec k' "ORM") as [->|Hne]; [by apply elem_of_nil in H2|].
      pose proof (assignments_field _ _ _ _ _ H2) as Hk. cbn [fst] in Hk. subst k'.
      split; [done|]. by exists (k, v).
    - intros (Hne & [k' v] & H1 & H2). exists (k', v). split; [done|].
      pose proof (assignments_field _ _ _ _ _ H2) as Hk. cbn [fst] in Hk. subst k'.
      unfold uniqueAssignments. cbn [fst]. by destruct (String.eqb_spec k "ORM"). }
  assert (Hempty : slot (∅ : gmap string index) name id = None)
    by (unfold slot; by rewrite lookup_empty).
  split; [|split].
  - split.
    + intros [k Hk].
      destruct (fold_assign (flat_map (assignments "index") (map_to_list tags)) ∅ name id)
        as [[_ Hno]|(k' & Hk' & Hs)].
      * apply Hin in Hk. by apply Hno in Hk.
      * exists k'. split; [done|]. by apply Hin.
    + intros (k & _ & Hk). by exists k.
  - destruct (fold_assign (flat_map (assignments "index") (map_to_list tags)) ∅ name id)
      as [[Heq Hno]|(k' & Hk' & Hs)].
    + rewrite Heq, Hempty. split; [|done]. intros _ k Hk. apply Hin in Hk.
      by apply Hno in Hk.
    + rewrite Hs. split; [done|]. intros Hno. apply Hin in Hk'. by apply Hno in Hk'.
  - intros (k & Hne & Hk).
    destruct (fold_assign (flat_map uniqueAssignments (map_to_list tags))
                (uniqueIndices c0) name id) as [[_ Hno]|(k' & Hk' & Hs)].
    + assert ((name, id, k) ∈ flat_map uniqueAssignments (map_to_list tags)) as Hk0
        by (by apply Hun).
      by apply Hno in Hk0.
    + exists k'. apply Hun in Hk' as [Hne' Hk']. done.
Qed.

Definition sampleTags : tagMap :=
  {[ "ORM" := {[ "unique" := "Login:Email" ]};
     "Name" := {[ "index" := "Search,Sorted:2"; "unique" := "Person" ]};
     "Age" := {[ "index" := "Sorted"; "unique" := "Person:2" ]} ]}.

Definition sampleCollected : collected :=
  match collectIndexes sampleTags with
  | Ok c => c
  | Panic _ => nothing
  end.

Lemma collectIndexes_slots_witness :
  ((∃ k, declares sampleTags "index" k "Sorted" 2)
   ↔ ∃ k, slot (indices sampleCollected) "Sorted" 2 = Some k
          ∧ declares sampleTags "index" k "Sorted" 2)
  ∧ (slot (indices sampleCollected) "Sorted" 2 = None
     ↔ ∀ k, ¬ declares sampleTags "index" k "Sorted" 2)
  ∧ ((∃ k, k ≠ "ORM" ∧ declares sampleTags "unique" k "Sorted" 2)
     → ∃ k, slot (uniqueIndices sampleCollected) "Sorted" 2 = Some k ∧ k ≠ "ORM"
            ∧ declares sampleTags "unique" k "Sorted" 2).
Proof.
  apply (collectIndexes_slots sampleTags sampleCollected "Sorted" 2).
  vm_compute. reflexivity.
Defined.

Example collectIndexes_sample :
  slot (indices sampleCollected) "Search" 1 = Some "Name"
  ∧ slot (indices sampleCollected) "Sorted" 1 = Some "Age"
  ∧ slot (indices sampleCollected) "Sorted" 2 = Some "Name"
  ∧ slot (uniqueIndices sampleCollected) "Person" 1 = Some "Name"
  ∧ slot (uniqueIndices sampleCollected) "Person" 2 = Some "Age"
  ∧ slot (uniqueIndices sampleCollected) "Login" 1 = Some "Email".
Proof. vm_compute. done. Qed.

(** ** The unique indexes written in the tag of the entity *)

(** The columns set at the ordinals [i + 1], [i + 2], ... over [m]. *)
Lemma globalColumns_maps name fields : ∀ i c m simple global,
  uniqueIndices c !! name = Some m →
  uniqueIndicesSimple c !! name = Some simple →
  uniqueIndicesSimpleGlobal c !! name = Some global →
  (∀ z, is_Some (m !! z) → (z ≤ Z.of_nat i)%Z) →
  globalColumns name i fields c
  = {| uniqueIndices :=
         <[name := list_to_map (zip (seqZ (Z.of_nat i + 1) (Z.of_nat (length fields))) fields)
                   ∪ m]> (uniqueIndices c);
       uniqueIndicesSimple := <[name := simple ++ fields]> (uniqueIndicesSimple c);
       uniqueIndicesSimpleGlobal := <[name := global ++ fields]> (uniqueIndicesSimpleGlobal c);
       indices := indices c |}.
Proof.
  induction fields as [|f rest IH]; intros i c m simple global Hm Hs Hg Hle.
  - cbn [globalColumns length]. change (Z.of_nat 0) with 0%Z.
    change (seqZ (Z.of_nat i + 1) 0) with (@nil Z). cbn [zip_with list_to_map foldr].
    rewrite !app_nil_r, (left_id_L ∅ (∪)), !insert_id by done. by destruct c.
  - cbn [globalColumns]. unfold setColumn, appendColumn. rewrite Hm, Hs, Hg. cbn [default].
    rewrite (IH (S i) _ (<[(Z.of_nat i + 1)%Z := f]> m) (simple ++ [f]) (global ++ [f]));
      cbn [uniqueIndices uniqueIndicesSimple uniqueIndicesSimpleGlobal indices];
      rewrite ?lookup_insert_eq; try done.
    + rewrite !insert_insert_eq, <- !app_assoc. cbn [app length].
      f_equal. f_equal.
      rewrite (Nat2Z.inj_succ (length rest)), (seqZ_cons (Z.of_nat i + 1)) by lia.
      cbn [zip zip_with list_to_map foldr].
      cbn [fst snd].
      replace (Z.succ (Z.of_nat i + 1)) with (Z.of_nat (S i) + 1)%Z by lia.
      replace (Z.pred (Z.succ (Z.of_nat (length rest)))) with (Z.of_nat (length rest)) by lia.
      rewrite <- insert_union_l. rewrite insert_union_r; [done|].
      apply not_elem_of_list_to_map_1. intros Hin.
      apply list_elem_of_fmap in Hin as ([z col] & Hz & Hin). cbn in Hz. subst z.
      apply elem_of_zip_l, elem_of_seqZ in Hin. lia.
    + intros z [col Hz]. destruct (decide (z = Z.of_nat i + 1)%Z) as [->|Hne]; [lia|].
      rewrite lookup_insert_ne in Hz by done.
      assert (z ≤ Z.of_nat i)%Z by (apply Hle; by eexists). lia.
Qed.

Lemma Split_renderIndex d :
  wellFormed d → Split (renderIndex d) ":" = [d.1; Join d.2 ","].
Proof.
  intros (Hn & _ & Hc). unfold renderIndex, plainName in *.
  apply andb_true_iff in Hn as [Hn _]. apply andb_true_iff in Hn as [_ Hn].
  unfold Split. rewrite Split_go_append by done. cbn [String.append]. f_equal.
  apply Split_go_without. apply without_Join; [done|].
  eapply Forall_impl; [exact Hc|]. intros col Hcol. cbn beta in Hcol.
  apply andb_true_iff in Hcol as [Hcol _]. by apply andb_true_iff in Hcol as [_ Hcol].
Qed.

Lemma globalPart_renderIndex c d :
  wellFormed d →
  globalPart c (renderIndex d)
  = Ok {| uniqueIndices := <[d.1 := indexOf d.2]> (uniqueIndices c);
          uniqueIndicesSimple := <[d.1 := d.2]> (uniqueIndicesSimple c);
          uniqueIndicesSimpleGlobal := <[d.1 := d.2]> (uniqueIndicesSimpleGlobal c);
          indices := indices c |}.
Proof.
  intros Hd. unfold globalPart. rewrite Split_renderIndex by done.
  destruct Hd as (_ & Hne & Hc).
  rewrite Split_Join; [|done|].
  2: { eapply Forall_impl; [exact Hc|]. intros col Hcol. cbn beta in Hcol.
       unfold plainName in Hcol. by apply andb_true_iff in Hcol as [_ Hcol]. }
  rewrite (globalColumns_maps d.1 d.2 0 _ ∅ [] []);
    cbn [uniqueIndices uniqueIndicesSimple uniqueIndicesSimpleGlobal indices];
    rewrite ?lookup_insert_eq; try done.
  - rewrite !insert_insert_eq, (right_id_L ∅ (∪)). done.
  - intros z [col Hz]. by rewrite lookup_empty in Hz.
Qed.

Lemma globalLoop_renderIndex defs : ∀ c,
  Forall wellFormed defs → NoDup defs.*1 →
  globalLoop (map renderIndex defs) c
  = Ok {| uniqueIndices :=
            list_to_map (map (λ d, (d.1, indexOf d.2)) defs) ∪ uniqueIndices c;
          uniqueIndicesSimple := list_to_map defs ∪ uniqueIndicesSimple c;
          uniqueIndicesSimpleGlobal := list_to_map defs ∪ uniqueIndicesSimpleGlobal c;
          indices := indices c |}.
Proof.
  induction defs as [|d rest IH]; intros c HF Hnd.
  - cbn. rewrite !(left_id_L ∅ (∪)). by destruct c.
  - apply Forall_cons in HF as [Hd HF]. cbn [fmap list_fmap] in Hnd.
    apply NoDup_cons in Hnd as [Hnew Hnd].
    cbn [map globalLoop]. rewrite globalPart_renderIndex by done.
    rewrite IH by done.
    cbn [uniqueIndices uniqueIndicesSimple uniqueIndicesSimpleGlobal indices
         list_to_map foldr]. unfold uncurry. cbn [fst snd].
    assert (H1 : (list_to_map (map (λ d, (d.1, indexOf d.2)) rest) : gmap string index)
                 !! d.1 = None).
    { apply not_elem_of_list_to_map_1. by rewrite <- list_fmap_compose. }
    assert (H2 : (list_to_map rest : gmap string (list string)) !! d.1 = None)
      by (by apply not_elem_of_list_to_map_1).
    destruct d as [name cols]. cbn [fst snd] in *.
    by rewrite <- !insert_union_l, !insert_union_r.
Qed.

Lemma fold_fieldStep_unique l : ∀ c,
  (∀ kv, kv ∈ l → kv.1 ≠ "ORM" → kv.2 !! "unique" = None) →
  uniqueIndices (fold_left fieldStep l c) = uniqueIndices c
  ∧ uniqueIndicesSimple (fold_left fieldStep l c) = uniqueIndicesSimple c
  ∧ uniqueIndicesSimpleGlobal (fold_left fieldStep l c) = uniqueIndicesSimpleGlobal c.
Proof.
  induction l as [|[k v] rest IH]; intros c Hno; cbn [fold_left]; [done|].
  destruct (IH (fieldStep c (k, v))) as (-> & -> & ->).
  { intros kv Hkv. apply Hno. by right. }
  unfold fieldStep. cbn [fst snd].
  assert (Hc : (match v !! "unique" with
                | Some keys =>
                    if negb (String.eqb k "ORM")
                    then fold_left (uniqueStep k) (Split keys ",") c else c
                | None => c
                end) = c).
  { destruct (String.eqb_spec k "ORM") as [->|Hne]; [by destruct (v !! "unique")|].
    assert (Hv : v !! "unique" = None) by (apply (Hno (k, v)); [left|done]).
    by rewrite Hv. }
  rewrite Hc. destruct (v !! "index") as [keys|]; [|done].
  by rewrite fold_indexStep.
Qed.

Lemma renderIndex_colon d : without ":" (renderIndex d) = false.
Proof.
  unfold renderIndex. rewrite without_append. cbn. apply andb_false_r.
Qed.

Lemma Join_colon defs :
  defs ≠ [] → without ":" (Join (map renderIndex defs) "|") = false.
Proof.
  destruct defs as [|d [|d2 rest]]; [done|..]; intros _.
  - apply renderIndex_colon.
  - change (Join (map renderIndex (d :: d2 :: rest)) "|")
      with (renderIndex d +:+ String "|" (Join (map renderIndex (d2 :: rest)) "|")).
    by rewrite without_append, renderIndex_colon.
Qed.

(** The unique indexes written in the [unique] tag of the entity, as
    [name:column,...|name:column,...], are collected with their columns at
    the ordinals 1, 2, ... in the order written, and, when no field has a
    [unique] tag of its own, [GetUniqueIndexes] returns them as written.
    The names are distinct, every index has a column, and no name holds
    [|], [:] or [,]. *)
Theorem collectIndexes_entity_unique (tags : tagMap) (defs : list (string * list string)) :
  defs ≠ [] → Forall wellFormed defs → NoDup defs.*1 →
  tags !! "ORM" ≫= (λ values, values !! "unique") = Some (Join (map renderIndex defs) "|") →
  map_Forall (λ k values, k ≠ "ORM" → values !! "unique" = None) tags →
  ∃ c, collectIndexes tags = Ok c
    ∧ uniqueIndices c = list_to_map (map (λ d, (d.1, indexOf d.2)) defs)
    ∧ GetUniqueIndexes (uniqueIndicesSimple c) (uniqueIndicesSimpleGlobal c)
      = list_to_map defs.
Proof.
  intros Hne HF Hnd Htag Hno. unfold collectIndexes.
  assert (Hget : getTag tags "unique" "" "" = Join (map renderIndex defs) "|").
  { unfold getTag. rewrite Htag.
    destruct (String.eqb_spec (Join (map renderIndex defs) "|") "true") as [Heq|]; [|done].
    pose proof (Join_colon defs Hne) as Hc. by rewrite Heq in Hc. }
  rewrite Hget.
  destruct (String.eqb_spec (Join (map renderIndex defs) "|") "") as [Heq|_].
  { pose proof (Join_colon defs Hne) as Hc. by rewrite Heq in Hc. }
  rewrite Split_Join.
  - rewrite globalLoop_renderIndex by done. eexists. split; [done|].
    destruct (fold_fieldStep_unique (map_to_list tags)
                {| uniqueIndices :=
                     list_to_map (map (λ d, (d.1, indexOf d.2)) defs) ∪ uniqueIndices nothing;
                   uniqueIndicesSimple := list_to_map defs ∪ uniqueIndicesSimple nothing;
                   uniqueIndicesSimpleGlobal :=
                     list_to_map defs ∪ uniqueIndicesSimpleGlobal nothing;
                   indices := indices nothing |}) as (-> & -> & ->).
    { intros [k v] Hin%elem_of_map_to_list Hk. by apply (Hno k v). }
    cbn. rewrite !(right_id_L ∅ (∪)). split; [done|].
    unfold GetUniqueIndexes. apply (idemp _).
  - by destruct defs.
  - apply Forall_fmap. eapply Forall_impl; [exact HF|]. intros d Hd. cbn.
    destruct Hd as (Hn & _ & Hc). unfold renderIndex. rewrite without_append.
    unfold plainName in Hn. apply andb_true_iff in Hn as [Hn _].
    apply andb_true_iff in Hn as [Hn _]. rewrite Hn. cbn.
    apply without_Join; [done|]. eapply Forall_impl; [exact Hc|].
    intros col Hcol. cbn beta in Hcol. unfold plainName in Hcol.
    apply andb_true_iff in Hcol as [Hcol _]. by apply andb_true_iff in Hcol as [Hcol _].
Qed.

Definition entityUniqueTags : tagMap :=
  {[ "ORM" := {[ "unique" := "Person:Name,Age|Login:Email" ]};
     "Name" := {[ "index" := "Search" ]} ]}.

Lemma collectIndexes_entity_unique_witness :
  ∃ c, collectIndexes entityUniqueTags = Ok c
    ∧ uniqueIndices c
      = list_to_map (map (λ d, (d.1, indexOf d.2))
                       [("Person", ["Name"; "Age"]); ("Login", ["Email"])])
    ∧ GetUniqueIndexes (uniqueIndicesSimple c) (uniqueIndicesSimpleGlobal c)
      = list_to_map [("Person", ["Name"; "Age"]); ("Login", ["Email"])].
Proof.
  apply (collectIndexes_entity_unique entityUniqueTags
           [("Person", ["Name"; "Age"]); ("Login", ["Email"])]).
  - discriminate.
  - repeat constructor; discriminate.
  - eapply (bool_decide_unpack _). vm_compute. reflexivity.
  - vm_compute. reflexivity.
  - eapply (bool_decide_unpack _). vm_compute. reflexivity.
Defined.

End IndexCollection.

(** * The fields of an entity by kind ([buildTableFields] and the
      functions it calls) *)

Module TableFields.
Import GoStrings GoText Tags.

(** The functions kept in [mapBindToScanPointer], by name; the closures
    written in place are named after what they allocate. *)
Inductive bindAdapter : Type :=
| newUint64
| newInt64
| newFloat64
| newNullString
| scanIntNullablePointer
| scanStringNullablePointer
| scanBoolPointer
| scanBoolNullablePointer
| scanFloatNullablePointer
| scanStringPointer.

(** The functions kept in [mapPointerToValue]. *)
Inductive valueAdapter : Type :=
| derefUint64
| derefInt64
| derefFloat64
| nullStringValue
| pointerUintNullableScan
| pointerIntNullableScan
| pointerStringNullableScan
| pointerBoolScan
| pointerBoolNullableScan
| pointerFloatNullableScan
| pointerStringScan.

(** The two maps of the schema that the builders fill, by column name. *)
Record adapters : Type := {
  mapBindToScanPointer : gmap string bindAdapter;
  mapPointerToValue : gmap string valueAdapter;
}.

Definition noAdapters : adapters :=
  {| mapBindToScanPointer := ∅; mapPointerToValue := ∅ |}.

Definition setAdapters (columnName : string) (bind : bindAdapter) (value : valueAdapter)
    (ad : adapters) : adapters :=
  {| mapBindToScanPointer := <[columnName := bind]> (mapBindToScanPointer ad);
     mapPointerToValue := <[columnName := value]> (mapPointerToValue ad) |}.

(** [type tableFields struct].  [structs] and [structsFields] are parallel
    slices, always appended to together; they are kept as one list of
    pairs.  [enums] and [sets] hold what [registry.enums] has under the
    code, [nil] when it has nothing. *)
#[local] Set Warnings "-register-all".
Inductive tableFields : Type := mkTableFields {
  t : goType;
  fields : gmap nat (fieldInfo * goType);
  prefix : string;
  uintegers : list nat;
  integers : list nat;
  uintegersNullable : list nat;
  uintegersNullableSize : list nat;
  integersNullable : list nat;
  integersNullableSize : list nat;
  strings : list nat;
  stringsEnums : list nat;
  enums : list (option Enum.enum);
  sliceStringsSets : list nat;
  sets : list (option Enum.enum);
  bytes : list nat;
  fakeDelete : nat;
  booleans : list nat;
  booleansNullable : list nat;
  floats : list nat;
  floatsPrecision : list Z;
  floatsNullable : list nat;
  floatsNullablePrecision : list Z;
  floatsNullableSize : list nat;
  timesNullable : list nat;
  datesNullable : list nat;
  times : list nat;
  dates : list nat;
  jsons : list nat;
  structsFields : list (nat * tableFields);
  refs : list nat;
  refsTypes : list string;
}.

(** [&tableFields{t: t, prefix: prefix, fields: make(map[int]reflect.StructField)}] *)
Definition newFields (t : goType) (prefix : string) : tableFields :=
  {| t := t; fields := ∅; prefix := prefix;
     uintegers := []; integers := []; uintegersNullable := []; uintegersNullableSize := [];
     integersNullable := []; integersNullableSize := []; strings := []; stringsEnums := [];
     enums := []; sliceStringsSets := []; sets := []; bytes := []; fakeDelete := 0;
     booleans := []; booleansNullable := []; floats := []; floatsPrecision := [];
     floatsNullable := []; floatsNullablePrecision := []; floatsNullableSize := [];
     timesNullable := []; datesNullable := []; times := []; dates := []; jsons := [];
     structsFields := []; refs := []; refsTypes := [] |}.

(** The slices of [int] of the struct, to say which one an [append] goes
    to. *)
Inductive intSlice : Type :=
| Uintegers | Integers | UintegersNullable | UintegersNullableSize
| IntegersNullable | IntegersNullableSize | Strings | StringsEnums
| SliceStringsSets | Bytes | Booleans | BooleansNullable | Floats
| FloatsNullable | FloatsNullableSize | TimesNullable | DatesNullable
| Times | Dates | Jsons | Refs.

#[global] Instance intSlice_eq_dec : EqDecision intSlice.
Proof. solve_decision. Defined.

Definition slice (s : intSlice) (f : tableFields) : list nat :=
  match s with
  | Uintegers => uintegers f | Integers => integers f
  | UintegersNullable => uintegersNullable f
  | UintegersNullableSize => uintegersNullableSize f
  | IntegersNullable => integersNullable f
  | IntegersNullableSize => integersNullableSize f
  | Strings => strings f | StringsEnums => stringsEnums f
  | SliceStringsSets => sliceStringsSets f | Bytes => bytes f
  | Booleans => booleans f | BooleansNullable => booleansNullable f
  | Floats => floats f | FloatsNullable => floatsNullable f
  | FloatsNullableSize => floatsNullableSize f
  | TimesNullable => timesNullable f | DatesNullable => datesNullable f
  | Times => times f | Dates => dates f | Jsons => jsons f | Refs => refs f
  end.

(** [fields.<s> = append(fields.<s>, v)] *)
Definition appendTo (s : intSlice) (v : nat) (f : tableFields) : tableFields :=
  let put (s' : intSlice) (l : list nat) := if decide (s = s') then l ++ [v] else l in
  {| t := t f; fields := fields f; prefix := prefix f;
     uintegers := put Uintegers (uintegers f);
     integers := put Integers (integers f);
     uintegersNullable := put UintegersNullable (uintegersNullable f);
     uintegersNullableSize := put UintegersNullableSize (uintegersNullableSize f);
     integersNullable := put IntegersNullable (integersNullable f);
     integersNullableSize := put IntegersNullableSize (integersNullableSize f);
     strings := put Strings (strings f);
     stringsEnums := put StringsEnums (stringsEnums f);
     enums := enums f;
     sliceStringsSets := put SliceStringsSets (sliceStringsSets f);
     sets := sets f;
     bytes := put Bytes (bytes f);
     fakeDelete := fakeDelete f;
     booleans := put Booleans (booleans f);
     booleansNullable := put BooleansNullable (booleansNullable f);
     floats := put Floats (floats f);
     floatsPrecision := floatsPrecision f;
     floatsNullable := put FloatsNullable (floatsNullable f);
     floatsNullablePrecision := floatsNullablePrecision f;
     floatsNullableSize := put FloatsNullableSize (floatsNullableSize f);
     timesNullable := put TimesNullable (timesNullable f);
     datesNullable := put DatesNullable (datesNullable f);
     times := put Times (times f);
     dates := put Dates (dates f);
     jsons := put Jsons (jsons f);
     structsFields := structsFields f;
     refs := put Refs (refs f);
     refsTypes := refsTypes f |}.

(** The other updates of the struct: one value replaces the record with
    the named parts changed. *)
Record otherParts : Type := {
  o_fields : gmap nat (fieldInfo * goType);
  o_enums : list (option Enum.enum);
  o_sets : list (option Enum.enum);
  o_fakeDelete : nat;
  o_floatsPrecision : list Z;
  o_floatsNullablePrecision : list Z;
  o_structsFields : list (nat * tableFields);
  o_refsTypes : list string;
}.

Definition withOthers (o : otherParts) (f : tableFields) : tableFields :=
  {| t := t f; fields := o_fields o; prefix := prefix f;
     uintegers := uintegers f; integers := integers f;
     uintegersNullable := uintegersNullable f;
     uintegersNullableSize := uintegersNullableSize f;
     integersNullable := integersNullable f;
     integersNullableSize := integersNullableSize f;
     strings := strings f; stringsEnums := stringsEnums f; enums := o_enums o;
     sliceStringsSets := sliceStringsSets f; sets := o_sets o; bytes := bytes f;
     fakeDelete := o_fakeDelete o; booleans := booleans f;
     booleansNullable := booleansNullable f; floats := floats f;
     floatsPrecision := o_floatsPrecision o; floatsNullable := floatsNullable f;
     floatsNullablePrecision := o_floatsNullablePrecision o;
     floatsNullableSize := floatsNullableSize f; timesNullable := timesNullable f;
     datesNullable := datesNullable f; times := times f; dates := dates f;
     jsons := jsons f; structsFields := o_structsFields o; refs := refs f;
     refsTypes := o_refsTypes o |}.

(** [fields.fields[i] = f] *)
Definition setField (i : nat) (p : fieldInfo * goType) (f : tableFields) : tableFields :=
  withOthers {| o_fields := <[i := p]> (fields f); o_enums := enums f; o_sets := sets f;
                o_fakeDelete := fakeDelete f; o_floatsPrecision := floatsPrecision f;
                o_floatsNullablePrecision := floatsNullablePrecision f;
                o_structsFields := structsFields f; o_refsTypes := refsTypes f |} f.

Definition appendEnum (e : option Enum.enum) (f : tableFields) : tableFields :=
  withOthers {| o_fields := fields f; o_enums := enums f ++ [e]; o_sets := sets f;
                o_fakeDelete := fakeDelete f; o_floatsPrecision := floatsPrecision f;
                o_floatsNullablePrecision := floatsNullablePrecision f;
                o_structsFields := structsFields f; o_refsTypes := refsTypes f |} f.

Definition appendSet (e : option Enum.enum) (f : tableFields) : tableFields :=
  withOthers {| o_fields := fields f; o_enums := enums f; o_sets := sets f ++ [e];
                o_fakeDelete := fakeDelete f; o_floatsPrecision := floatsPrecision f;
                o_floatsNullablePrecision := floatsNullablePrecision f;
                o_structsFields := structsFields f; o_refsTypes := refsTypes f |} f.

Definition setFakeDelete (i : nat) (f : tableFields) : tableFields :=
  withOthers {| o_fields := fields f; o_enums := enums f; o_sets := sets f;
                o_fakeDelete := i; o_floatsPrecision := floatsPrecision f;
                o_floatsNullablePrecision := floatsNullablePrecision f;
                o_structsFields := structsFields f; o_refsTypes := refsTypes f |} f.

Definition appendPrecision (precision : Z) (f : tableFields) : tableFields :=
  withOthers {| o_fields := fields f; o_enums := enums f; o_sets := sets f;
                o_fakeDelete := fakeDelete f;
                o_floatsPrecision := floatsPrecision f ++ [precision];
                o_floatsNullablePrecision := floatsNullablePrecision f;
                o_structsFields := structsFields f; o_refsTypes := refsTypes f |} f.

Definition appendNullablePrecision (precision : Z) (f : tableFields) : tableFields :=
  withOthers {| o_fields := fields f; o_enums := enums f; o_sets := sets f;
                o_fakeDelete := fakeDelete f; o_floatsPrecision := floatsPrecision f;
                o_floatsNullablePrecision := floatsNullablePrecision f ++ [precision];
                o_structsFields := structsFields f; o_refsTypes := refsTypes f |} f.

Definition appendStruct (i : nat) (sub : tableFields) (f : tableFields) : tableFields :=
  withOthers {| o_fields := fields f; o_enums := enums f; o_sets := sets f;
                o_fakeDelete := fakeDelete f; o_floatsPrecision := floatsPrecision f;
                o_floatsNullablePrecision := floatsNullablePrecision f;
                o_structsFields := structsFields f ++ [(i, sub)];
                o_refsTypes := refsTypes f |} f.

Definition appendRefType (name : string) (f : tableFields) : tableFields :=
  withOthers {| o_fields := fields f; o_enums := enums f; o_sets := sets f;
                o_fakeDelete := fakeDelete f; o_floatsPrecision := floatsPrecision f;
                o_floatsNullablePrecision := floatsNullablePrecision f;
                o_structsFields := structsFields f;
                o_refsTypes := refsTypes f ++ [name] |} f.

(** [type schemaFieldAttributes struct], without the pointer to the fields
    under construction, which are passed along. *)
Record schemaFieldAttributes : Type := {
  Field : fieldInfo;
  FieldType : goType;
  TypeName : string;
  Tags : gmap string string;
  Index : nat;
  Prefix : string;
}.

Definition GetColumnName (attributes : schemaFieldAttributes) : string :=
  Prefix attributes +:+ fieldName (Field attributes).

(** What a builder works on: the fields of the struct at hand and the maps
    of the schema. *)
Definition building : Type := tableFields * adapters.

Definition buildUintField (attributes : schemaFieldAttributes) (b : building) : building :=
  (appendTo Uintegers (Index attributes) b.1,
   setAdapters (GetColumnName attributes) newUint64 derefUint64 b.2).

Definition buildUintPointerField (attributes : schemaFieldAttributes) (b : building)
  : building :=
  let f := appendTo UintegersNullable (Index attributes) b.1 in
  let name := TypeName attributes in
  let f :=
    if String.eqb name "*uint" then appendTo UintegersNullableSize 0 f
    else if String.eqb name "*uint8" then appendTo UintegersNullableSize 8 f
    else if String.eqb name "*uint16" then appendTo UintegersNullableSize 16 f
    else if String.eqb name "*uint32" then appendTo UintegersNullableSize 32 f
    else if String.eqb name "*uint64" then appendTo UintegersNullableSize 64 f
    else f in
  (f, setAdapters (GetColumnName attributes) scanIntNullablePointer
        pointerUintNullableScan b.2).

Definition buildIntField (attributes : schemaFieldAttributes) (b : building) : building :=
  (appendTo Integers (Index attributes) b.1,
   setAdapters (GetColumnName attributes) newInt64 derefInt64 b.2).

Definition buildIntPointerField (attributes : schemaFieldAttributes) (b : building)
  : building :=
  let f := appendTo IntegersNullable (Index attributes) b.1 in
  let name := TypeName attributes in
  let f :=
    if String.eqb name "*int" then appendTo IntegersNullableSize 0 f
    else if String.eqb name "*int8" then appendTo IntegersNullableSize 8 f
    else if String.eqb name "*int16" then appendTo IntegersNullableSize 16 f
    else if String.eqb name "*int32" then appendTo IntegersNullableSize 32 f
    else if String.eqb name "*int64" then appendTo IntegersNullableSize 64 f
    else f in
  (f, setAdapters (GetColumnName attributes) scanIntNullablePointer
        pointerIntNullableScan b.2).

Definition buildStringField (enumsOf : gmap string Enum.enum)
    (attributes : schemaFieldAttributes) (b : building) : building :=
  let f :=
    match Tags attributes !! "enum" with
    | Some enumCode =>
        appendEnum (enumsOf !! enumCode) (appendTo StringsEnums (Index attributes) b.1)
    | None => appendTo Strings (Index attributes) b.1
    end in
  (f, setAdapters (GetColumnName attributes) newNullString nullStringValue b.2).

Definition buildStringSliceField (enumsOf : gmap string Enum.enum)
    (attributes : schemaFieldAttributes) (b : building) : building :=
  let f :=
    match Tags attributes !! "set" with
    | Some setCode =>
        appendSet (enumsOf !! setCode) (appendTo SliceStringsSets (Index attributes) b.1)
    | None => appendTo Jsons (Index attributes) b.1
    end in
  (f, setAdapters (GetColumnName attributes) scanStringNullablePointer
        pointerStringNullableScan b.2).

Definition buildBoolField (attributes : schemaFieldAttributes) (b : building) : building :=
  if String.eqb (GetColumnName attributes) "FakeDelete"
  then (setFakeDelete (Index attributes) b.1, b.2)
  else (appendTo Booleans (Index attributes) b.1,
        setAdapters (GetColumnName attributes) scanBoolPointer pointerBoolScan b.2).

Definition buildBoolPointerField (attributes : schemaFieldAttributes) (b : building)
  : building :=
  (appendTo BooleansNullable (Index attributes) b.1,
   setAdapters (GetColumnName attributes) scanBoolNullablePointer
     pointerBoolNullableScan b.2).

(** The precision of a float column: that of the [precision] tag, else the
    second part of the [decimal] tag, else the one given.
    [strconv.Atoi] returns what [ParseInt] returns; the second part of a
    [decimal] tag without a comma is an index out of range. *)
Definition precisionOf (tags : gmap string string) (precision : Z) : result Z :=
  match tags !! "precision" with
  | Some precisionAttribute => Ok (ParseInt precisionAttribute)
  | None =>
      match tags !! "decimal" with
      | Some decimal =>
          match Split decimal "," with
          | _ :: second :: _ => Ok (ParseInt second)
          | _ => Panic "index out of range [1] with length 1"
          end
      | None => Ok precision
      end
  end.

Definition buildFloatField (attributes : schemaFieldAttributes) (b : building)
  : result building :=
  let precision := if String.eqb (TypeName attributes) "float32" then 4%Z else 8%Z in
  match precisionOf (Tags attributes) precision with
  | Ok precision =>
      Ok (appendPrecision precision (appendTo Floats (Index attributes) b.1),
          setAdapters (GetColumnName attributes) newFloat64 derefFloat64 b.2)
  | Panic msg => Panic msg
  end.

Definition buildFloatPointerField (attributes : schemaFieldAttributes) (b : building)
  : result building :=
  let isFloat32 := String.eqb (TypeName attributes) "*float32" in
  let precision := if isFloat32 then 4%Z else 8%Z in
  let f := appendTo FloatsNullableSize (if isFloat32 then 32 else 64) b.1 in
  match precisionOf (Tags attributes) precision with
  | Ok precision =>
      Ok (appendNullablePrecision precision (appendTo FloatsNullable (Index attributes) f),
          setAdapters (GetColumnName attributes) scanFloatNullablePointer
            pointerFloatNullableScan b.2)
  | Panic msg => Panic msg
  end.

Definition buildTimePointerField (attributes : schemaFieldAttributes) (b : building)
  : building :=
  let f :=
    match Tags attributes !! "time" with
    | Some _ => appendTo TimesNullable (Index attributes) b.1
    | None => appendTo DatesNullable (Index attributes) b.1
    end in
  (f, setAdapters (GetColumnName attributes) scanStringNullablePointer
        pointerStringNullableScan b.2).

Definition buildTimeField (attributes : schemaFieldAttributes) (b : building) : building :=
  let f :=
    match Tags attributes !! "time" with
    | Some _ => appendTo Times (Index attributes) b.1
    | None => appendTo Dates (Index attributes) b.1
    end in
  (f, setAdapters (GetColumnName attributes) scanStringPointer pointerStringScan b.2).

(** [buildStructField]: [sub] stands for [buildTableFields] on the type of
    the field, from its first field on. *)
Definition buildStructField (sub : string → adapters → result building)
    (attributes : schemaFieldAttributes) (b : building) : result building :=
  let subPrefix :=
    if fieldAnonymous (Field attributes) then "" else fieldName (Field attributes) in
  match sub subPrefix b.2 with
  | Ok (subFields, ad) => Ok (appendStruct (Index attributes) subFields b.1, ad)
  | Panic msg => Panic msg
  end.

Definition buildPointerField (attributes : schemaFieldAttributes) (b : building) : building :=
  if implementsEntity (FieldType attributes)
  then (appendRefType (elemString (FieldType attributes))
          (appendTo Refs (Index attributes) b.1),
        setAdapters (GetColumnName attributes) scanIntNullablePointer
          pointerUintNullableScan b.2)
  else (appendTo Jsons (Index attributes) b.1, b.2).

Definition buildPointersSliceField (attributes : schemaFieldAttributes) (b : building)
  : building :=
  (appendTo Jsons (Index attributes) b.1, b.2).

(** [name] is one of [names]. *)
Definition oneOf (name : string) (names : list string) : bool :=
  existsb (String.eqb name) names.

Definition uintNames : list string := ["uint"; "uint8"; "uint16"; "uint32"; "uint64"].
Definition uintPointerNames : list string :=
  ["*uint"; "*uint8"; "*uint16"; "*uint32"; "*uint64"].
Definition intNames : list string := ["int"; "int8"; "int16"; "int32"; "int64"].
Definition intPointerNames : list string :=
  ["*int"; "*int8"; "*int16"; "*int32"; "*int64"].
Definition floatNames : list string := ["float32"; "float64"].
Definition floatPointerNames : list string := ["*float32"; "*float64"].

(** The [switch attributes.TypeName] of [buildTableFields]. *)
Definition buildField (enumsOf : gmap string Enum.enum)
    (sub : string → adapters → result building)
    (attributes : schemaFieldAttributes) (b : building) : result building :=
  let name := TypeName attributes in
  if oneOf name uintNames then Ok (buildUintField attributes b)
  else if oneOf name uintPointerNames then Ok (buildUintPointerField attributes b)
  else if oneOf name intNames then Ok (buildIntField attributes b)
  else if oneOf name intPointerNames then Ok (buildIntPointerField attributes b)
  else if String.eqb name "string" then Ok (buildStringField enumsOf attributes b)
  else if String.eqb name "[]string" then Ok (buildStringSliceField enumsOf attributes b)
  else if String.eqb name "[]uint8"
  then Ok (appendTo Bytes (Index attributes) b.1, b.2)
  else if String.eqb name "bool" then Ok (buildBoolField attributes b)
  else if String.eqb name "*bool" then Ok (buildBoolPointerField attributes b)
  else if oneOf name floatNames then buildFloatField attributes b
  else if oneOf name floatPointerNames then buildFloatPointerField attributes b
  else if String.eqb name "*beeorm.CachedQuery" then Ok b
  else if String.eqb name "*time.Time" then Ok (buildTimePointerField attributes b)
  else if String.eqb name "time.Time" then Ok (buildTimeField attributes b)
  else
    let k := kind (FieldType attributes) in
    if String.eqb k "struct" then buildStructField sub attributes b
    else if String.eqb k "ptr" then Ok (buildPointerField attributes b)
    else Ok (buildPointersSliceField attributes b).

(** One turn of the loop of [buildTableFields], for the field [p] at the
    index [i]. *)
Definition fieldTurn (enumsOf : gmap string Enum.enum) (schemaTags : Schema.tagMap)
    (sub : string → adapters → result building)
    (start : nat) (prefix : string) (i : nat) (p : fieldInfo * goType) (b : building)
  : result building :=
  if i <? start then Ok b
  else
    let tags := default ∅ (schemaTags !! (prefix +:+ fieldName p.1)) in
    if bool_decide (is_Some (tags !! "ignore")) then Ok b
    else
      buildField enumsOf sub
        {| Field := p.1; FieldType := p.2; TypeName := typeString p.2; Tags := tags;
           Index := i; Prefix := prefix |}
        (setField i p b.1, b.2).

(** [buildTableFields(t, registry, start, prefix, schemaTags)]; [enumsOf]
    is [registry.enums], and the maps of the schema are passed along. *)
Fixpoint buildTableFields (enumsOf : gmap string Enum.enum) (schemaTags : Schema.tagMap)
    (t : goType) (start : nat) (prefix : string) (ad : adapters) : result building :=
  (fix loop (l : list (fieldInfo * goType)) (i : nat) (b : building) : result building :=
     match l with
     | [] => Ok b
     | p :: rest =>
         match fieldTurn enumsOf schemaTags (buildTableFields enumsOf schemaTags p.2 0)
                 start prefix i p b with
         | Ok b' => loop rest (S i) b'
         | Panic msg => Panic msg
         end
     end) (structFields t) 0 (newFields t prefix, ad).

(** The loop as a function of its own. *)
Definition fieldsLoop (enumsOf : gmap string Enum.enum) (schemaTags : Schema.tagMap)
    (start : nat) (prefix : string)
  : list (fieldInfo * goType) → nat → building → result building :=
  fix loop (l : list (fieldInfo * goType)) (i : nat) (b : building) : result building :=
    match l with
    | [] => Ok b
    | p :: rest =>
        match fieldTurn enumsOf schemaTags (buildTableFields enumsOf schemaTags p.2 0)
                start prefix i p b with
        | Ok b' => loop rest (S i) b'
        | Panic msg => Panic msg
        end
    end.

Lemma buildTableFields_unfold enumsOf schemaTags t start prefix ad :
  buildTableFields enumsOf schemaTags t start prefix ad
  = fieldsLoop enumsOf schemaTags start prefix (structFields t) 0 (newFields t prefix, ad).
Proof. by destruct t. Qed.

(** What [buildColumnNames] reads of the fields. *)
Definition structField (p : fieldInfo * goType) : Columns.StructField :=
  {| Columns.Name := fieldName p.1; Columns.Anonymous := fieldAnonymous p.1 |}.

Fixpoint layoutOf (f : tableFields) : Columns.tableFields :=
  {| Columns.fields := structField <$> fields f;
     Columns.uintegers := uintegers f;
     Columns.refs := refs f;
     Columns.integers := integers f;
     Columns.booleans := booleans f;
     Columns.floats := floats f;
     Columns.times := times f;
     Columns.dates := dates f;
     Columns.fakeDelete := fakeDelete f;
     Columns.strings := strings f;
     Columns.uintegersNullable := uintegersNullable f;
     Columns.integersNullable := integersNullable f;
     Columns.stringsEnums := stringsEnums f;
     Columns.bytes := bytes f;
     Columns.sliceStringsSets := sliceStringsSets f;
     Columns.booleansNullable := booleansNullable f;
     Columns.floatsNullable := floatsNullable f;
     Columns.timesNullable := timesNullable f;
     Columns.datesNullable := datesNullable f;
     Columns.jsons := jsons f;
     Columns.structsFields :=
       (fix subs (l : list (nat * tableFields)) : list (nat * Columns.tableFields) :=
          match l with
          | [] => []
          | p :: rest => (p.1, layoutOf p.2) :: subs rest
          end) (structsFields f) |}.

(** ** The vocabulary of the properties *)

(** The slices that [buildColumnNames] reads, in the order it reads them,
    before and after [fakeDelete]. *)
Definition slicesBefore : list intSlice :=
  [Uintegers; Refs; Integers; Booleans; Floats; Times; Dates].

Definition slicesAfter : list intSlice :=
  [Strings; UintegersNullable; IntegersNullable; StringsEnums; Bytes; SliceStringsSets;
   BooleansNullable; FloatsNullable; TimesNullable; DatesNullable; Jsons].

(** The type names that have a case of their own in the switch. *)
Definition builtinNames : list string :=
  uintNames ++ uintPointerNames ++ intNames ++ intPointerNames
  ++ ["string"; "[]string"; "[]uint8"; "bool"; "*bool"]
  ++ floatNames ++ floatPointerNames
  ++ ["*beeorm.CachedQuery"; "*time.Time"; "time.Time"].

(** A struct whose fields are read in turn. *)
Definition nested (ft : goType) : bool :=
  negb (oneOf (typeString ft) builtinNames) && String.eqb (kind ft) "struct".

(** The [bool] field that marks deleted rows. *)
Definition marksDeleted (prefix : string) (p : fieldInfo * goType) : bool :=
  String.eqb (typeString p.2) "bool" && String.eqb (prefix +:+ fieldName p.1) "FakeDelete".

(** The field is passed over: it stands before [start], or the tag map
    holds [ignore] for it.  Here and below the tags of a field are what the
    builder reads for it, the entry of the tag map under [prefix] followed
    by the name of the field, [prefix] being the name of the struct that
    holds the field (empty for the entity and for an embedded struct): the
    names of the structs further out are no part of the key.
    [extractTags] stores the tags of a field under all these names, so
    that the tags written on a field two named structs deep are not the
    ones read for it ([depotEntity] below). *)
Definition skipped (schemaTags : Schema.tagMap) (start : nat) (prefix : string)
    (i : nat) (p : fieldInfo * goType) : bool :=
  (i <? start)
  || bool_decide (is_Some (default ∅ (schemaTags !! (prefix +:+ fieldName p.1)) !! "ignore")).

(** The field has a column of its own. *)
Definition hasColumn (prefix : string) (i : nat) (p : fieldInfo * goType) : bool :=
  negb (String.eqb (typeString p.2) "*beeorm.CachedQuery")
  && negb (nested p.2)
  && negb (marksDeleted prefix p && (i =? 0)).

(** The columns that the fields of a struct declare, in the order of the
    fields, those of a nested struct in the place of its field; the fields
    passed over, by the tags read for them, declare none. *)
Fixpoint declaredColumns (schemaTags : Schema.tagMap) (t : goType) (start : nat)
    (prefix subFieldPrefix : string) : list string :=
  (fix go (l : list (fieldInfo * goType)) (i : nat) : list string :=
     match l with
     | [] => []
     | p :: rest =>
         (if skipped schemaTags start prefix i p then []
          else if nested p.2
          then declaredColumns schemaTags p.2 0
                 (if fieldAnonymous p.1 then "" else fieldName p.1)
                 (if fieldAnonymous p.1 then subFieldPrefix
                  else subFieldPrefix +:+ fieldName p.1)
          else if hasColumn prefix i p then [subFieldPrefix +:+ fieldName p.1]
          else [])
         ++ go rest (S i)
     end) (structFields t) 0.

(** The names of the fields of every struct are distinct, as the language
    has it. *)
Fixpoint wellNamed (t : goType) : bool :=
  bool_decide (NoDup (map (λ p, fieldName p.1) (structFields t)))
  && (fix all (l : list (fieldInfo * goType)) : bool :=
        match l with
        | [] => true
        | p :: rest => wellNamed p.2 && all rest
        end) (structFields t).

(** The slice that takes the index of a field, when one does. *)
Definition columnSlice (attributes : schemaFieldAttributes) : option intSlice :=
  let name := TypeName attributes in
  if oneOf name uintNames then Some Uintegers
  else if oneOf name uintPointerNames then Some UintegersNullable
  else if oneOf name intNames then Some Integers
  else if oneOf name intPointerNames then Some IntegersNullable
  else if String.eqb name "string"
  then Some (match Tags attributes !! "enum" with Some _ => StringsEnums | None => Strings end)
  else if String.eqb name "[]string"
  then Some (match Tags attributes !! "set" with
             | Some _ => SliceStringsSets
             | None => Jsons
             end)
  else if String.eqb name "[]uint8" then Some Bytes
  else if String.eqb name "bool"
  then (if String.eqb (GetColumnName attributes) "FakeDelete" then None else Some Booleans)
  else if String.eqb name "*bool" then Some BooleansNullable
  else if oneOf name floatNames then Some Floats
  else if oneOf name floatPointerNames then Some FloatsNullable
  else if String.eqb name "*beeorm.CachedQuery" then None
  else if String.eqb name "*time.Time"
  then Some (match Tags attributes !! "time" with
             | Some _ => TimesNullable
             | None => DatesNullable
             end)
  else if String.eqb name "time.Time"
  then Some (match Tags attributes !! "time" with Some _ => Times | None => Dates end)
  else if String.eqb (kind (FieldType attributes)) "struct" then None
  else if String.eqb (kind (FieldType attributes)) "ptr"
  then Some (if implementsEntity (FieldType attributes) then Refs else Jsons)
  else Some Jsons.

Definition isLayout (s : intSlice) : bool :=
  bool_decide (s ∈ slicesBefore ++ slicesAfter).

(** ** What one field does to the struct *)

Lemma slice_appendTo s s' v f :
  slice s (appendTo s' v f) = if decide (s' = s) then slice s f ++ [v] else slice s f.
Proof. destruct s, s'; reflexivity. Qed.

Lemma slice_withOthers s o f : slice s (withOthers o f) = slice s f.
Proof. by destruct s. Qed.

(** What does not depend on the slices. *)
Definition rest (f : tableFields) : otherParts :=
  {| o_fields := fields f; o_enums := enums f; o_sets := sets f;
     o_fakeDelete := fakeDelete f; o_floatsPrecision := floatsPrecision f;
     o_floatsNullablePrecision := floatsNullablePrecision f;
     o_structsFields := structsFields f; o_refsTypes := refsTypes f |}.

Lemma rest_appendTo s v f : rest (appendTo s v f) = rest f.
Proof. reflexivity. Qed.

Lemma rest_withOthers o f : rest (withOthers o f) = o.
Proof. by destruct o. Qed.

Definition nestedField (attributes : schemaFieldAttributes) : bool :=
  negb (oneOf (TypeName attributes) builtinNames)
  && String.eqb (kind (FieldType attributes)) "struct".

Definition marksDeletedField (attributes : schemaFieldAttributes) : bool :=
  String.eqb (TypeName attributes) "bool"
  && String.eqb (GetColumnName attributes) "FakeDelete".

Lemma oneOf_app name l1 l2 : oneOf name (l1 ++ l2) = oneOf name l1 || oneOf name l2.
Proof. apply existsb_app. Qed.

Lemma oneOf_builtin name :
  oneOf name builtinNames
  = oneOf name uintNames || oneOf name uintPointerNames || oneOf name intNames
    || oneOf name intPointerNames || String.eqb name "string" || String.eqb name "[]string"
    || String.eqb name "[]uint8" || String.eqb name "bool" || String.eqb name "*bool"
    || oneOf name floatNames || oneOf name floatPointerNames
    || String.eqb name "*beeorm.CachedQuery" || String.eqb name "*time.Time"
    || String.eqb name "time.Time".
Proof.
  unfold builtinNames. rewrite !oneOf_app. cbn [oneOf existsb].
  rewrite !orb_false_r, !orb_assoc. reflexivity.
Qed.

(** The slices and the other parts after the builder of one field. *)
Ltac slices_done :=
  let s := fresh "s" in
  let Hs := fresh "Hs" in
  intros s Hs; cbn [fst snd];
  rewrite ?slice_withOthers, ?slice_appendTo, ?slice_withOthers;
  destruct s;
  first [ by vm_compute in Hs | (cbn; rewrite ?app_nil_r; reflexivity) ].

Ltac effect_done :=
  let H := fresh "H" in
  unfold buildUintField, buildUintPointerField, buildIntField, buildIntPointerField,
    buildStringField, buildStringSliceField, buildBoolField, buildBoolPointerField,
    buildFloatField, buildFloatPointerField, buildTimePointerField, buildTimeField,
    buildStructField, buildPointerField, buildPointersSliceField, GetColumnName,
    setFakeDelete, appendEnum, appendSet, appendPrecision, appendNullablePrecision,
    appendStruct, appendRefType in *;
  cbn [TypeName Tags Index Field FieldType Prefix fst snd] in *;
  intros H; repeat case_match; simplify_eq; cbn [fst snd];
  (split; [slices_done | repeat split; first [done | by eexists]]).

Lemma oneOf_elem_of name names : oneOf name names = true ↔ name ∈ names.
Proof.
  unfold oneOf. rewrite existsb_exists. split.
  - intros (x & Hin & Heq). apply String.eqb_eq in Heq as ->. by apply list_elem_of_In.
  - intros Hin. exists name. split; [by apply list_elem_of_In|apply String.eqb_refl].
Qed.

Lemma buildField_effect enumsOf sub attributes f ad b' :
  buildField enumsOf sub attributes (f, ad) = Ok b' →
  (∀ s, isLayout s = true →
     slice s b'.1
     = slice s f ++ (if decide (columnSlice attributes = Some s)
                     then [Index attributes] else []))
  ∧ fields b'.1 = fields f
  ∧ fakeDelete b'.1
    = (if marksDeletedField attributes then Index attributes else fakeDelete f)
  ∧ (if nestedField attributes
     then ∃ subFields,
            sub (if fieldAnonymous (Field attributes) then ""
                 else fieldName (Field attributes)) ad = Ok (subFields, b'.2)
            ∧ structsFields b'.1 = structsFields f ++ [(Index attributes, subFields)]
     else structsFields b'.1 = structsFields f).
Proof.
  destruct attributes as [field ft name tags i pre].
  destruct (oneOf name builtinNames) eqn:Hbuiltin.
  - apply oneOf_elem_of in Hbuiltin. unfold builtinNames, uintNames, uintPointerNames,
      intNames, intPointerNames, floatNames, floatPointerNames in Hbuiltin.
    cbn [app] in Hbuiltin.
    repeat (apply elem_of_cons in Hbuiltin as [->|Hbuiltin]);
      [..|by apply elem_of_nil in Hbuiltin];
      unfold buildField, columnSlice, nestedField, marksDeletedField, GetColumnName;
      cbn [TypeName Tags Index Field FieldType Prefix];
      cbn -[decide String.append slice];
      effect_done.
  - rewrite oneOf_builtin in Hbuiltin.
    do 13 (apply orb_false_elim in Hbuiltin as [Hbuiltin ?]).
    unfold buildField, columnSlice, nestedField, marksDeletedField.
    cbn [TypeName Tags Index Field FieldType Prefix].
    rewrite oneOf_builtin.
    repeat match goal with
           | H : _ = false |- _ => rewrite H; clear H
           end.
    cbn [orb negb andb]. effect_done.
Qed.

Lemma columnSlice_layout attributes s :
  columnSlice attributes = Some s → isLayout s = true.
Proof.
  unfold columnSlice. repeat case_match; intros [= <-]; reflexivity.
Qed.

Lemma columnSlice_is_Some attributes :
  bool_decide (is_Some (columnSlice attributes))
  = negb (String.eqb (TypeName attributes) "*beeorm.CachedQuery")
    && negb (nestedField attributes) && negb (marksDeletedField attributes).
Proof.
  destruct attributes as [field ft name tags i pre].
  unfold columnSlice, nestedField, marksDeletedField, GetColumnName.
  cbn [TypeName Tags Index Field FieldType Prefix].
  destruct (oneOf name builtinNames) eqn:Hbuiltin.
  - apply oneOf_elem_of in Hbuiltin. unfold builtinNames, uintNames, uintPointerNames,
      intNames, intPointerNames, floatNames, floatPointerNames in Hbuiltin.
    cbn [app] in Hbuiltin.
    repeat (apply elem_of_cons in Hbuiltin as [->|Hbuiltin]);
      [..|by apply elem_of_nil in Hbuiltin];
      cbn -[String.append]; repeat case_match; reflexivity.
  - cbn [negb andb]. rewrite oneOf_builtin in Hbuiltin.
    do 13 (apply orb_false_elim in Hbuiltin as [Hbuiltin ?]).
    repeat match goal with
           | H : _ = false |- _ => rewrite H; clear H
           end.
    cbn [negb andb]. repeat case_match; reflexivity.
Qed.

(** ** The ids of the columns *)

Definition columnIds (f : tableFields) : list nat := Columns.layoutIds (layoutOf f).

Lemma columnIds_slices f :
  columnIds f
  = flat_map (λ s, slice s f) slicesBefore
    ++ (if 0 <? fakeDelete f then [fakeDelete f] else [])
    ++ flat_map (λ s, slice s f) slicesAfter.
Proof.
  destruct f. unfold columnIds, Columns.layoutIds. cbn.
  by rewrite !app_nil_r, <- !app_assoc.
Qed.

Lemma columnIds_step f f1 (c : option intSlice) (i : nat) :
  (∀ s, isLayout s = true →
     slice s f1 = slice s f ++ (if decide (c = Some s) then [i] else [])) →
  (∀ s, c = Some s → isLayout s = true) →
  fakeDelete f = 0 ∨ fakeDelete f1 = fakeDelete f →
  columnIds f1
  ≡ₚ columnIds f
     ++ (if c is Some _ then [i] else [])
     ++ (if (fakeDelete f =? 0) && (0 <? fakeDelete f1) then [fakeDelete f1] else []).
Proof.
  intros Hs Hc Hfd. rewrite !columnIds_slices. unfold slicesBefore, slicesAfter.
  cbn [flat_map]. rewrite !Hs by reflexivity. clear Hs.
  assert (Hfake : (if 0 <? fakeDelete f1 then [fakeDelete f1] else [])
                  ≡ₚ (if 0 <? fakeDelete f then [fakeDelete f] else [])
                     ++ (if (fakeDelete f =? 0) && (0 <? fakeDelete f1)
                         then [fakeDelete f1] else [])).
  { destruct Hfd as [->| ->].
    - cbn. by destruct (0 <? fakeDelete f1).
    - destruct (fakeDelete f) as [|n]; cbn; [done|]. by rewrite ?app_nil_r. }
  rewrite Hfake. clear Hfake Hfd.
  generalize (if 0 <? fakeDelete f then [fakeDelete f] else []) as fd.
  generalize (if (fakeDelete f =? 0) && (0 <? fakeDelete f1) then [fakeDelete f1] else [])
    as extra.
  intros extra fd. destruct c as [s0|].
  - specialize (Hc s0 eq_refl).
    destruct s0; try (by vm_compute in Hc); cbn [decide]; cbn; rewrite ?app_nil_r;
      solve_Permutation.
  - cbn. rewrite ?app_nil_r. solve_Permutation.
Qed.

(** ** The names that [buildColumnNames] lists *)

Definition columns (f : tableFields) (subFieldPrefix : string) : list string :=
  (Columns.buildColumnNames (layoutOf f) subFieldPrefix).1.

Lemma columnsLoop_names tf q ids : ∀ k,
  (Columns.columnsLoop tf q k ids).1
  = map (λ j, q +:+ Columns.Name (Columns.fieldAt tf j)) ids.
Proof.
  induction ids as [|j ids IH]; intros k; [done|].
  cbn [Columns.columnsLoop fst map]. by rewrite IH.
Qed.

Lemma subColumns_names tf q l :
  (Columns.subColumns tf q l).1
  = flat_map (λ p, (Columns.buildColumnNames p.2
                      (if Columns.Anonymous (Columns.fieldAt tf p.1) then q
                       else q +:+ Columns.Name (Columns.fieldAt tf p.1))).1) l.
Proof.
  induction l as [|p l IH]; [done|].
  cbn [Columns.subColumns fst flat_map]. fold (Columns.subColumns tf q).
  by rewrite IH.
Qed.

Lemma layoutOf_structsFields f :
  Columns.structsFields (layoutOf f) = map (λ p, (p.1, layoutOf p.2)) (structsFields f).
Proof.
  destruct f as [? ? ? ? ? ? ? ? ? ? ? ? ? ? ? ? ? ? ? ? ? ? ? ? ? ? ? ? subs ? ?].
  cbn. induction subs as [|p l IH]; [done|]. cbn. by rewrite IH.
Qed.

Lemma layoutOf_fieldAt f j :
  Columns.fieldAt (layoutOf f) j
  = default Columns.zeroStructField (structField <$> fields f !! j).
Proof. destruct f. unfold Columns.fieldAt. cbn. by rewrite lookup_fmap. Qed.

Lemma columns_names f q :
  columns f q
  = map (λ j, q +:+ Columns.Name (Columns.fieldAt (layoutOf f) j)) (columnIds f)
    ++ flat_map (λ p, columns p.2
                        (if Columns.Anonymous (Columns.fieldAt (layoutOf f) p.1) then q
                         else q +:+ Columns.Name (Columns.fieldAt (layoutOf f) p.1)))
         (structsFields f).
Proof.
  unfold columns. rewrite Columns.buildColumnNames_unfold. cbn [fst].
  rewrite columnsLoop_names, subColumns_names, layoutOf_structsFields. f_equal.
  induction (structsFields f) as [|p l IH]; [done|]. cbn [map flat_map fst snd].
  by rewrite IH.
Qed.

(** ** Induction on a type and the types of its fields *)

Section nested_induction.
Variable P : goType → Prop.
Hypothesis step : ∀ t, Forall (λ p, P p.2) (structFields t) → P t.

Fixpoint goType_nested_ind (t : goType) : P t :=
  step t
    ((fix fieldsOf (l : list (fieldInfo * goType)) : Forall (λ p, P p.2) l :=
        match l with
        | [] => ListDef.Forall_nil _
        | p :: rest =>
            ListDef.Forall_cons _ p rest (goType_nested_ind p.2) (fieldsOf rest)
        end) (structFields t)).
End nested_induction.

(** ** The columns of a struct *)

Definition attributesOf (schemaTags : Schema.tagMap) (prefix : string) (i : nat)
    (p : fieldInfo * goType) : schemaFieldAttributes :=
  {| Field := p.1; FieldType := p.2; TypeName := typeString p.2;
     Tags := default ∅ (schemaTags !! (prefix +:+ fieldName p.1));
     Index := i; Prefix := prefix |}.

Lemma fieldTurn_skipped enumsOf schemaTags sub start prefix i p b :
  fieldTurn enumsOf schemaTags sub start prefix i p b
  = if skipped schemaTags start prefix i p then Ok b
    else buildField enumsOf sub (attributesOf schemaTags prefix i p)
           (setField i p b.1, b.2).
Proof.
  unfold fieldTurn, skipped, attributesOf. destruct (i <? start); [done|].
  cbn [orb]. by destruct (bool_decide _).
Qed.

(** The loop of [declaredColumns] as a function of its own. *)
Definition declaredLoop (schemaTags : Schema.tagMap) (start : nat)
    (prefix subFieldPrefix : string)
  : list (fieldInfo * goType) → nat → list string :=
  fix go (l : list (fieldInfo * goType)) (i : nat) : list string :=
    match l with
    | [] => []
    | p :: rest =>
        (if skipped schemaTags start prefix i p then []
         else if nested p.2
         then declaredColumns schemaTags p.2 0
                (if fieldAnonymous p.1 then "" else fieldName p.1)
                (if fieldAnonymous p.1 then subFieldPrefix
                 else subFieldPrefix +:+ fieldName p.1)
         else if hasColumn prefix i p then [subFieldPrefix +:+ fieldName p.1]
         else [])
        ++ go rest (S i)
    end.

Lemma declaredColumns_unfold schemaTags t start prefix q :
  declaredColumns schemaTags t start prefix q
  = declaredLoop schemaTags start prefix q (structFields t) 0.
Proof. by destruct t. Qed.

Definition allWellNamed : list (fieldInfo * goType) → bool :=
  fix all (l : list (fieldInfo * goType)) : bool :=
    match l with
    | [] => true
    | p :: rest => wellNamed p.2 && all rest
    end.

Lemma wellNamed_unfold t :
  wellNamed t
  = bool_decide (NoDup (map (λ p, fieldName p.1) (structFields t)))
    && allWellNamed (structFields t).
Proof. by destruct t. Qed.

Lemma allWellNamed_elem_of l p : allWellNamed l = true → p ∈ l → wellNamed p.2 = true.
Proof.
  induction l as [|x l IH]; [by intros _ ?%elem_of_nil|]. cbn [allWellNamed].
  intros [Hx Hl]%andb_true_iff [->|Hin]%elem_of_cons; [done|by apply IH].
Qed.

Section Loop.
Variable enumsOf : gmap string Enum.enum.
Variable schemaTags : Schema.tagMap.
Variable start : nat.
Variable prefix : string.
Variable q : string.
Variable all : list (fieldInfo * goType).

Hypothesis names_distinct : NoDup (map (λ p, fieldName p.1) all).

Hypothesis sub_columns : ∀ p, p ∈ all →
  ∀ pre ad subFields ad' q',
    buildTableFields enumsOf schemaTags p.2 0 pre ad = Ok (subFields, ad') →
    columns subFields q' ≡ₚ declaredColumns schemaTags p.2 0 pre q'.

(** The field at an index, as [buildColumnNames] reads it. *)
Definition fieldOf (j : nat) : Columns.StructField :=
  default Columns.zeroStructField (structField <$> all !! j).

Definition namesOf (f : tableFields) : list string :=
  map (λ j, q +:+ Columns.Name (fieldOf j)) (columnIds f)
  ++ flat_map (λ p, columns p.2
                      (if Columns.Anonymous (fieldOf p.1) then q
                       else q +:+ Columns.Name (fieldOf p.1)))
       (structsFields f).

(** What the loop keeps true of the fields built so far, [n] fields being
    done. *)
Record built (n : nat) (f : tableFields) : Prop := {
  built_fields : ∀ j p, fields f !! j = Some p → all !! j = Some p;
  built_ids : ∀ j, j ∈ columnIds f → is_Some (fields f !! j);
  built_structs : ∀ p, p ∈ structsFields f → is_Some (fields f !! p.1);
  built_fake : fakeDelete f ≠ 0 →
               ∃ j p, j < n ∧ all !! j = Some p
                      ∧ prefix +:+ fieldName p.1 = "FakeDelete";
}.

Lemma built_names n f : built n f → columns f q = namesOf f.
Proof.
  intros [Hf Hi Hs _]. rewrite columns_names. unfold namesOf.
  assert (Hat : ∀ j, is_Some (fields f !! j) → Columns.fieldAt (layoutOf f) j = fieldOf j).
  { intros j [p Hp]. rewrite layoutOf_fieldAt. unfold fieldOf.
    by rewrite Hp, (Hf j p Hp). }
  f_equal.
  - apply map_ext_in. intros j Hj%list_elem_of_In. by rewrite Hat by by apply Hi.
  - assert (Hl : ∀ p, p ∈ structsFields f → p ∈ structsFields f) by done.
    revert Hl. generalize (structsFields f) at 1 3 4 as l.
    induction l as [|p l IH]; intros Hl; [done|]. cbn [flat_map].
    rewrite Hat by (apply Hs, Hl; left). f_equal. apply IH.
    intros p' Hp'. apply Hl. by right.
Qed.

Lemma columnIds_setField i p f : columnIds (setField i p f) = columnIds f.
Proof. rewrite !columnIds_slices. unfold setField. by destruct f. Qed.

Lemma same_name j p p' :
  all !! j = Some p → prefix +:+ fieldName p.1 = prefix +:+ fieldName p'.1 →
  ∀ i, all !! i = Some p' → i = j.
Proof.
  intros Hj Heq i Hi. apply (inj (String.append prefix)) in Heq.
  eapply (NoDup_lookup _ i j); [exact names_distinct|..].
  - by rewrite list_lookup_fmap, Hi.
  - rewrite list_lookup_fmap, Hj. cbn. by rewrite Heq.
Qed.

Lemma turn_columns done p rest f ad f' ad' :
  all = done ++ p :: rest →
  built (length done) f →
  fieldTurn enumsOf schemaTags (buildTableFields enumsOf schemaTags p.2 0)
    start prefix (length done) p (f, ad) = Ok (f', ad') →
  built (S (length done)) f'
  ∧ namesOf f'
    ≡ₚ namesOf f
       ++ (if skipped schemaTags start prefix (length done) p then []
           else if nested p.2
           then declaredColumns schemaTags p.2 0
                  (if fieldAnonymous p.1 then "" else fieldName p.1)
                  (if fieldAnonymous p.1 then q else q +:+ fieldName p.1)
           else if hasColumn prefix (length done) p then [q +:+ fieldName p.1]
           else []).
Proof.
  intros Hall Hbuilt. rewrite fieldTurn_skipped.
  assert (Hp : all !! length done = Some p).
  { rewrite Hall, lookup_app_r by lia. by rewrite Nat.sub_diag. }
  destruct (skipped schemaTags start prefix (length done) p).
  { intros [= <- <-]. rewrite app_nil_r. split; [|done].
    destruct Hbuilt as [Hf Hi Hs Hfd]. split; try done.
    intros Hne. destruct (Hfd Hne) as (j & pj & Hj & Hpj & Hname).
    exists j, pj. split; [lia|done]. }
  cbn [fst snd]. intros Hbuild.
  apply buildField_effect in Hbuild as (Hslices & Hfields & Hfake & Hstructs).
  cbn [fst snd] in *.
  set (a := attributesOf schemaTags prefix (length done) p) in *.
  change (Index a) with (length done) in Hslices, Hfake, Hstructs.
  change (Field a) with p.1 in Hstructs.
  assert (Hnested : nestedField a = nested p.2) by done.
  assert (Hmarks : marksDeletedField a = marksDeleted prefix p) by done.
  pose proof (columnSlice_is_Some a) as Hsome. rewrite Hnested, Hmarks in Hsome.
  change (TypeName a) with (typeString p.2) in Hsome.
  rewrite Hnested in Hstructs. rewrite Hmarks in Hfake.
  change (fakeDelete (setField (length done) p f)) with (fakeDelete f) in Hfake.
  destruct Hbuilt as [Hf Hi Hs Hfd].
  assert (Hfd0 : marksDeleted prefix p = true → fakeDelete f = 0).
  { intros Hm. destruct (decide (fakeDelete f = 0)) as [|Hne]; [done|].
    destruct (Hfd Hne) as (j & pj & Hj & Hpj & Hname).
    unfold marksDeleted in Hm. apply andb_true_iff in Hm as [_ Hm].
    apply String.eqb_eq in Hm.
    assert (length done = j); [|lia].
    eapply (same_name j pj p); [done|by rewrite Hname, Hm|done]. }
  assert (Hids : columnIds f'
    ≡ₚ columnIds f
       ++ (if columnSlice a is Some _ then [length done] else [])
       ++ (if (fakeDelete f =? 0) && (0 <? fakeDelete f') then [fakeDelete f'] else [])).
  { rewrite <- (columnIds_setField (length done) p f).
    assert (fakeDelete (setField (length done) p f) = fakeDelete f) as Hsf by done.
    rewrite <- Hsf. apply columnIds_step.
    - intros s Hs'. rewrite (Hslices s Hs'). unfold setField.
      by rewrite slice_withOthers.
    - apply columnSlice_layout.
    - rewrite Hfake, Hsf. destruct (marksDeleted prefix p) eqn:Hm; [|by right].
      left. by apply Hfd0. }
  assert (Hfields' : fields f' = <[length done := p]> (fields f)).
  { rewrite Hfields. unfold setField. by destruct f. }
  assert (Hstructs0 : structsFields (setField (length done) p f) = structsFields f)
    by done.
  rewrite Hstructs0 in Hstructs. clear Hstructs0.
  assert (Hname : q +:+ Columns.Name (fieldOf (length done)) = q +:+ fieldName p.1).
  { unfold fieldOf. by rewrite Hp. }
  split.
  - split.
    + intros j pj. rewrite Hfields'. destruct (decide (length done = j)) as [<-|Hne].
      * rewrite lookup_insert_eq. by intros [= <-].
      * rewrite lookup_insert_ne by done. apply Hf.
    + intros j Hj. rewrite Hids in Hj. rewrite Hfields'.
      apply elem_of_app in Hj as [Hj|Hj].
      * destruct (decide (length done = j)) as [<-|Hne];
          [by rewrite lookup_insert_eq|].
        rewrite lookup_insert_ne by done. by apply Hi.
      * assert (j = length done) as ->; [|by rewrite lookup_insert_eq].
        apply elem_of_app in Hj as [Hj|Hj].
        -- destruct (columnSlice a); [|by apply elem_of_nil in Hj].
           by apply list_elem_of_singleton in Hj.
        -- destruct ((fakeDelete f =? 0) && (0 <? fakeDelete f')) eqn:Hc;
             [|by apply elem_of_nil in Hj].
           apply list_elem_of_singleton in Hj. subst j. rewrite Hfake.
           destruct (marksDeleted prefix p); [done|].
           apply andb_true_iff in Hc as [H0 H1]. rewrite Hfake in H1.
           apply Nat.eqb_eq in H0. apply Nat.ltb_lt in H1. lia.
    + intros ps Hps. rewrite Hfields'.
      assert (ps ∈ structsFields f ∨ ps.1 = length done) as [Hin| ->].
      { destruct (nested p.2).
        - destruct Hstructs as (subFields & _ & Heq). rewrite Heq in Hps.
          apply elem_of_app in Hps as [?|Hps]; [by left|].
          apply list_elem_of_singleton in Hps. subst ps. by right.
        - rewrite Hstructs in Hps. by left. }
      * destruct (decide (length done = ps.1)) as [<-|Hne];
          [by rewrite lookup_insert_eq|].
        rewrite lookup_insert_ne by done. by apply Hs.
      * by rewrite lookup_insert_eq.
    + intros Hne. rewrite Hfake in Hne.
      destruct (marksDeleted prefix p) eqn:Hm.
      * exists (length done), p. split; [lia|]. split; [done|].
        unfold marksDeleted in Hm. apply andb_true_iff in Hm as [_ Hm].
        by apply String.eqb_eq in Hm.
      * destruct (Hfd Hne) as (j & pj & Hj & Hpj & Hnm).
        exists j, pj. split; [lia|done].
  - unfold namesOf. rewrite Hids, !map_app.
    assert (Hcq : nested p.2 = true →
                  String.eqb (typeString p.2) "*beeorm.CachedQuery" = false).
    { unfold nested. intros [Hb _]%andb_true_iff. apply negb_true_iff in Hb.
      rewrite oneOf_builtin in Hb. do 13 (apply orb_false_elim in Hb as [Hb ?]).
      destruct (String.eqb (typeString p.2) "*beeorm.CachedQuery"); [|done].
      cbn in *. congruence. }
    assert (Hmn : marksDeleted prefix p = true → nested p.2 = false).
    { unfold marksDeleted, nested. intros [Hb _]%andb_true_iff.
      apply String.eqb_eq in Hb. by rewrite Hb. }
    destruct (nested p.2) eqn:Hn.
    + destruct Hstructs as (subFields & Hsub & Heq). rewrite Heq, flat_map_app.
      cbn [flat_map fst snd]. rewrite ?app_nil_r.
      assert (columnSlice a = None) as ->.
      { destruct (columnSlice a); [|done]. rewrite bool_decide_eq_true_2 in Hsome
          by (by eexists). symmetry in Hsome. apply andb_true_iff in Hsome as [H1 _].
        by apply andb_true_iff in H1 as [_ H1]. }
      assert (marksDeleted prefix p = false) as Hm.
      { destruct (marksDeleted prefix p) eqn:Hm; [|done]. discriminate (Hmn eq_refl). }
      rewrite Hm in Hfake. rewrite Hfake.
      assert ((fakeDelete f =? 0) && (0 <? fakeDelete f) = false) as ->.
      { destruct (fakeDelete f); [done|]. done. }
      cbn [map app]. rewrite ?app_nil_r.
      assert (Hcols : columns subFields
                        (if Columns.Anonymous (fieldOf (length done)) then q
                         else q +:+ Columns.Name (fieldOf (length done)))
                      ≡ₚ declaredColumns schemaTags p.2 0
                           (if fieldAnonymous p.1 then "" else fieldName p.1)
                           (if fieldAnonymous p.1 then q else q +:+ fieldName p.1)).
      { unfold fieldOf at 1. rewrite Hp. cbn [fmap option_fmap option_map default
          structField Columns.Anonymous]. rewrite Hname.
        eapply (sub_columns p); [|exact Hsub].
        rewrite Hall. apply elem_of_app. right. left. }
      rewrite Hcols. rewrite <- !app_assoc. done.
    + rewrite Hstructs. unfold hasColumn. rewrite Hn. cbn [negb andb].
      destruct (columnSlice a) as [s0|] eqn:Hc.
      * rewrite bool_decide_eq_true_2 in Hsome by (by eexists).
        symmetry in Hsome. apply andb_true_iff in Hsome as [Hcq' Hm'].
        apply andb_true_iff in Hcq' as [Hcq' _]. rewrite Hcq'.
        apply negb_true_iff in Hm'. rewrite Hm'. rewrite Hm' in Hfake.
        rewrite Hfake.
        assert ((fakeDelete f =? 0) && (0 <? fakeDelete f) = false) as ->.
        { destruct (fakeDelete f); [done|]. done. }
        cbn [map app andb negb]. rewrite Hname. rewrite ?app_nil_r.
        rewrite <- !app_assoc. cbn [app]. solve_Permutation.
      * rewrite bool_decide_eq_false_2 in Hsome by (by intros [? ?]).
        symmetry in Hsome. cbn [map app].
        destruct (marksDeleted prefix p) eqn:Hm.
        -- rewrite Hfake, (Hfd0 eq_refl). cbn [Nat.eqb andb].
           assert (String.eqb (typeString p.2) "*beeorm.CachedQuery" = false) as ->.
           { unfold marksDeleted in Hm. apply andb_true_iff in Hm as [Hb _].
             apply String.eqb_eq in Hb. by rewrite Hb. }
           cbn [negb andb].
           destruct (length done =? 0) eqn:H0.
           ++ assert ((0 <? length done) = false) as ->.
              { apply Nat.eqb_eq in H0. rewrite H0. done. }
              cbn [negb map]. by rewrite ?app_nil_r.
           ++ assert ((0 <? length done) = true) as ->.
              { apply Nat.eqb_neq in H0. apply Nat.ltb_lt. lia. }
              cbn [negb map]. rewrite Hname. rewrite <- !app_assoc. cbn [app].
              solve_Permutation.
        -- cbn [negb andb] in Hsome. rewrite !andb_true_r in Hsome.
           apply negb_false_iff in Hsome. rewrite Hsome. cbn [negb andb].
           rewrite Hfake.
           assert ((fakeDelete f =? 0) && (0 <? fakeDelete f) = false) as ->.
           { destruct (fakeDelete f); [done|]. done. }
           cbn [map]. by rewrite ?app_nil_r.
Qed.

Lemma loop_columns rest : ∀ done f ad f' ad',
  all = done ++ rest →
  built (length done) f →
  fieldsLoop enumsOf schemaTags start prefix rest (length done) (f, ad) = Ok (f', ad') →
  built (length all) f'
  ∧ namesOf f' ≡ₚ namesOf f ++ declaredLoop schemaTags start prefix q rest (length done).
Proof.
  induction rest as [|p rest IH]; intros done f ad f' ad' Hall Hbuilt.
  - cbn. intros [= <- <-]. rewrite app_nil_r. split; [|done].
    rewrite Hall, app_nil_r. done.
  - cbn [fieldsLoop declaredLoop].
    destruct (fieldTurn enumsOf schemaTags _ start prefix (length done) p (f, ad))
      as [[f1 ad1]|] eqn:Hturn; [|done].
    destruct (turn_columns done p rest f ad f1 ad1 Hall Hbuilt Hturn) as [Hb1 Hn1].
    intros Hloop.
    destruct (IH (done ++ [p]) f1 ad1 f' ad') as [Hb2 Hn2].
    + by rewrite <- app_assoc.
    + by rewrite length_app, Nat.add_1_r.
    + by rewrite length_app, Nat.add_1_r.
    + split; [done|]. rewrite Hn2, Hn1. rewrite length_app, Nat.add_1_r.
      by rewrite <- !app_assoc.
Qed.

End Loop.

(** The columns of an entity are those its fields declare, each once: a
    field that is not passed over has one column, named after it behind the
    names of the structs it is nested in; the fields of a nested struct
    stand for the struct; a [*beeorm.CachedQuery] has no column, and
    neither has a [bool] field named [FakeDelete] that is the first field
    of its struct.  A field is passed over when it stands before [start]
    or the tag map holds [ignore] under the key read for it, which names
    the innermost struct alone. *)
Theorem buildTableFields_columns (enumsOf : gmap string Enum.enum)
    (schemaTags : Schema.tagMap) (t : goType) :
  ∀ (start : nat) (prefix : string) (ad : adapters) (f : tableFields) (ad' : adapters)
    (subFieldPrefix : string),
    wellNamed t = true →
    buildTableFields enumsOf schemaTags t start prefix ad = Ok (f, ad') →
    columns f subFieldPrefix
    ≡ₚ declaredColumns schemaTags t start prefix subFieldPrefix.
Proof.
  induction t as [t IH] using goType_nested_ind.
  intros start prefix ad f ad' q Hwf Hbuild.
  rewrite wellNamed_unfold in Hwf. apply andb_true_iff in Hwf as [Hnd Hsub].
  apply bool_decide_eq_true in Hnd.
  rewrite buildTableFields_unfold in Hbuild. rewrite declaredColumns_unfold.
  assert (Hnew : built prefix (structFields t) 0 (newFields t prefix)).
  { split; cbn; try done; intros;
      match goal with
      | H : _ ∈ [] |- _ => by apply elem_of_nil in H
      | H : ∅ !! _ = Some _ |- _ => by rewrite lookup_empty in H
      end. }
  destruct (loop_columns enumsOf schemaTags start prefix q (structFields t) Hnd)
    with (rest := structFields t) (done := @nil (fieldInfo * goType))
         (f := newFields t prefix) (ad := ad) (f' := f) (ad' := ad') as [Hb Hn];
    try done.
  - intros p Hp pre ad0 subFields ad1 q' Hsubbuild.
    rewrite Forall_forall in IH. eapply (IH p Hp); [|exact Hsubbuild].
    by eapply allWellNamed_elem_of.
  - rewrite (built_names prefix q (structFields t) _ f Hb). rewrite Hn. done.
Qed.

(** ** When building the fields panics *)

(** The precision of a float cannot be read: the tags read for the field
    hold no [precision], and a [decimal] without a comma. *)
Definition precisionPanics (tags : gmap string string) : bool :=
  match tags !! "precision" with
  | Some _ => false
  | None =>
      match tags !! "decimal" with
      | Some decimal => without "," decimal
      | None => false
      end
  end.

Definition floatField (p : fieldInfo * goType) : bool :=
  oneOf (typeString p.2) (floatNames ++ floatPointerNames).

(** Some field that is not passed over, of the struct or of a struct
    nested in it, is a float whose precision cannot be read from the tags
    read for it (under the key of [skipped]). *)
Fixpoint panicking (schemaTags : Schema.tagMap) (t : goType) (start : nat)
    (prefix : string) : bool :=
  (fix go (l : list (fieldInfo * goType)) (i : nat) : bool :=
     match l with
     | [] => false
     | p :: rest =>
         (negb (skipped schemaTags start prefix i p)
          && ((floatField p
               && precisionPanics (default ∅ (schemaTags !! (prefix +:+ fieldName p.1))))
              || (nested p.2
                  && panicking schemaTags p.2 0
                       (if fieldAnonymous p.1 then "" else fieldName p.1))))
         || go rest (S i)
     end) (structFields t) 0.

Definition panickingLoop (schemaTags : Schema.tagMap) (start : nat) (prefix : string)
  : list (fieldInfo * goType) → nat → bool :=
  fix go (l : list (fieldInfo * goType)) (i : nat) : bool :=
    match l with
    | [] => false
    | p :: rest =>
        (negb (skipped schemaTags start prefix i p)
         && ((floatField p
              && precisionPanics (default ∅ (schemaTags !! (prefix +:+ fieldName p.1))))
             || (nested p.2
                 && panicking schemaTags p.2 0
                      (if fieldAnonymous p.1 then "" else fieldName p.1))))
        || go rest (S i)
    end.

Lemma panicking_unfold schemaTags t start prefix :
  panicking schemaTags t start prefix
  = panickingLoop schemaTags start prefix (structFields t) 0.
Proof. by destruct t. Qed.

Lemma precisionOf_panics tags precision :
  (∃ msg, precisionOf tags precision = Panic msg) ↔ precisionPanics tags = true.
Proof.
  unfold precisionOf, precisionPanics.
  destruct (tags !! "precision"); [split; [intros [? ?]; done|done]|].
  destruct (tags !! "decimal") as [decimal|]; [|split; [intros [? ?]; done|done]].
  destruct (without "," decimal) eqn:Hw.
  - rewrite Split_without by done. split; [done|]. intros _. by eexists.
  - destruct (IndexCollection.Split_go_two "," decimal "" Hw) as (x & y & l & Hs).
    unfold Split. rewrite Hs. split; [intros [? ?]; done|done].
Qed.

Definition panics {A} (r : result A) : Prop := ∃ msg, r = Panic msg.

Lemma buildField_panics enumsOf sub attributes b :
  panics (buildField enumsOf sub attributes b)
  ↔ (oneOf (TypeName attributes) (floatNames ++ floatPointerNames) = true
     ∧ precisionPanics (Tags attributes) = true)
    ∨ (nestedField attributes = true
       ∧ panics (sub (if fieldAnonymous (Field attributes) then ""
                      else fieldName (Field attributes)) b.2)).
Proof.
  destruct attributes as [field ft name tags i pre]. unfold panics.
  destruct (oneOf name builtinNames) eqn:Hbuiltin.
  - assert (Hn : nestedField {| Field := field; FieldType := ft; TypeName := name;
                                Tags := tags; Index := i; Prefix := pre |} = false).
    { unfold nestedField. cbn [TypeName]. by rewrite Hbuiltin. }
    rewrite Hn. clear Hn.
    apply oneOf_elem_of in Hbuiltin. unfold builtinNames, uintNames, uintPointerNames,
      intNames, intPointerNames, floatNames, floatPointerNames in Hbuiltin.
    cbn [app] in Hbuiltin.
    repeat (apply elem_of_cons in Hbuiltin as [->|Hbuiltin]);
      [..|by apply elem_of_nil in Hbuiltin];
      unfold buildField; cbn [TypeName Tags Index Field FieldType Prefix];
      cbn -[String.append precisionOf];
      try (split; [intros [? ?]; done|intros [[? _]|[? _]]; done]).
    + unfold buildFloatField. cbn [TypeName Tags]. cbn [String.eqb Ascii.eqb Bool.eqb].
      rewrite <- (precisionOf_panics tags 4%Z).
      destruct (precisionOf tags 4%Z) as [z|msg].
      * split; [intros [? ?]; done|]. intros [[_ [? ?]]|[? _]]; done.
      * split; [intros _; left; split; [done|by eexists]|intros _; by eexists].
    + unfold buildFloatField. cbn [TypeName Tags]. cbn [String.eqb Ascii.eqb Bool.eqb].
      rewrite <- (precisionOf_panics tags 8%Z).
      destruct (precisionOf tags 8%Z) as [z|msg].
      * split; [intros [? ?]; done|]. intros [[_ [? ?]]|[? _]]; done.
      * split; [intros _; left; split; [done|by eexists]|intros _; by eexists].
    + unfold buildFloatPointerField. cbn [TypeName Tags].
      cbn [String.eqb Ascii.eqb Bool.eqb].
      rewrite <- (precisionOf_panics tags 4%Z).
      destruct (precisionOf tags 4%Z) as [z|msg].
      * split; [intros [? ?]; done|]. intros [[_ [? ?]]|[? _]]; done.
      * split; [intros _; left; split; [done|by eexists]|intros _; by eexists].
    + unfold buildFloatPointerField. cbn [TypeName Tags].
      cbn [String.eqb Ascii.eqb Bool.eqb].
      rewrite <- (precisionOf_panics tags 8%Z).
      destruct (precisionOf tags 8%Z) as [z|msg].
      * split; [intros [? ?]; done|]. intros [[_ [? ?]]|[? _]]; done.
      * split; [intros _; left; split; [done|by eexists]|intros _; by eexists].
  - assert (Hf : oneOf name (floatNames ++ floatPointerNames) = false).
    { rewrite oneOf_builtin in Hbuiltin.
      do 13 (apply orb_false_elim in Hbuiltin as [Hbuiltin ?]).
      rewrite oneOf_app. apply orb_false_iff. done. }
    unfold buildField, nestedField. cbn [TypeName Tags Index Field FieldType Prefix].
    rewrite Hf. pose proof Hbuiltin as Hb. rewrite oneOf_builtin in Hb.
    do 13 (apply orb_false_elim in Hb as [Hb ?]).
    repeat match goal with
           | H : _ = false |- _ => rewrite H; clear H
           end.
    cbn [negb andb]. unfold buildStructField. cbn [Field Index].
    destruct (String.eqb (kind ft) "struct").
    + destruct (sub _ b.2) as [[subFields ad]|msg].
      * split; [intros [? ?]; done|]. intros [[? _]|[_ [? ?]]]; done.
      * split; [intros _; right; split; [done|by eexists]|intros _; by eexists].
    + destruct (String.eqb (kind ft) "ptr");
        (split; [intros [? ?]; done|intros [[? _]|[? _]]; done]).
Qed.

Lemma loop_panics enumsOf schemaTags start prefix l :
  Forall (λ p, ∀ start' prefix' ad,
            panics (buildTableFields enumsOf schemaTags p.2 start' prefix' ad)
            ↔ panicking schemaTags p.2 start' prefix' = true) l →
  ∀ i b,
    panics (fieldsLoop enumsOf schemaTags start prefix l i b)
    ↔ panickingLoop schemaTags start prefix l i = true.
Proof.
  induction l as [|p rest IH]; intros HF i b.
  - cbn. split; [intros [? ?]; done|done].
  - apply Forall_cons in HF as [Hp HF]. cbn [fieldsLoop panickingLoop].
    rewrite fieldTurn_skipped.
    destruct (skipped schemaTags start prefix i p).
    { cbn [negb andb orb]. by apply IH. }
    cbn [negb andb].
    pose proof (buildField_panics enumsOf (buildTableFields enumsOf schemaTags p.2 0)
                  (attributesOf schemaTags prefix i p) (setField i p b.1, b.2)) as Hturn.
    cbn [attributesOf TypeName Tags Field fst snd] in Hturn.
    change (nestedField (attributesOf schemaTags prefix i p)) with (nested p.2) in Hturn.
    rewrite Hp in Hturn. fold (floatField p) in Hturn.
    destruct (buildField enumsOf _ (attributesOf schemaTags prefix i p) _) as [b'|msg].
    + rewrite (IH HF (S i) b'). clear IH.
      assert (floatField p
              && precisionPanics (default ∅ (schemaTags !! (prefix +:+ fieldName p.1)))
              || nested p.2
                 && panicking schemaTags p.2 0
                      (if fieldAnonymous p.1 then "" else fieldName p.1) = false) as ->;
        [|done].
      apply not_true_iff_false. intros H. apply orb_true_iff in H.
      destruct Hturn as [_ Hturn]. destruct Hturn as [? ?]; [|done].
      destruct H as [H|H]; apply andb_true_iff in H; [by left|by right].
    + assert (floatField p
              && precisionPanics (default ∅ (schemaTags !! (prefix +:+ fieldName p.1)))
              || nested p.2
                 && panicking schemaTags p.2 0
                      (if fieldAnonymous p.1 then "" else fieldName p.1) = true) as ->.
      { destruct Hturn as [Hturn _]. destruct Hturn as [H|H]; [by eexists|..].
        - apply orb_true_iff. left. by apply andb_true_iff.
        - apply orb_true_iff. right. by apply andb_true_iff. }
      split; [done|]. intros _. by eexists.
Qed.

(** Building the fields of an entity panics exactly when, for a float
    field that is not passed over, of the entity or of a struct nested in
    it, the tags read for the field hold a [decimal] without a comma and no
    [precision].  The tags read are those under the name of the innermost
    struct followed by the name of the field. *)
Theorem buildTableFields_panics (enumsOf : gmap string Enum.enum)
    (schemaTags : Schema.tagMap) (t : goType) :
  ∀ (start : nat) (prefix : string) (ad : adapters),
    (∃ msg, buildTableFields enumsOf schemaTags t start prefix ad = Panic msg)
    ↔ panicking schemaTags t start prefix = true.
Proof.
  induction t as [t IH] using goType_nested_ind. intros start prefix ad.
  rewrite buildTableFields_unfold, panicking_unfold.
  by apply (loop_panics enumsOf schemaTags start prefix (structFields t)).
Qed.

(** [type Price struct { beeorm.ORM; ID uint64; Amount float64
    `orm:"decimal=10"` }] *)
Definition priceEntity : goType :=
  {| typeString := "app.Price"; kind := "struct"; implementsEntity := false;
     elemString := "";
     structFields :=
       [ ({| fieldName := "ORM"; fieldAnonymous := true; fieldTag := ∅ |},
          basicType "beeorm.ORM" "struct");
         (plainField "ID" ∅, basicType "uint64" "uint64");
         (plainField "Amount" {[ "orm" := "decimal=10" ]}, basicType "float64" "float64") ] |}.

Example priceEntity_panics :
  buildTableFields ∅ (extractTags ∅ priceEntity "") priceEntity 1 "" noAdapters
  = Panic "index out of range [1] with length 1".
Proof. vm_compute. reflexivity. Qed.

(** ** Sample entities *)

(** The fields of [Tags.userEntity], read with its tags. *)
Definition userTags : Schema.tagMap := extractTags {[ "app.UserEntity" ]} userEntity "".

Definition userFields : result building :=
  buildTableFields ∅ userTags userEntity 1 "" noAdapters.

Definition builtFields (r : result building) : tableFields :=
  match r with
  | Ok b => b.1
  | Panic _ => newFields (basicType "" "") ""
  end.

Definition builtAdapters (r : result building) : adapters :=
  match r with
  | Ok b => b.2
  | Panic _ => noAdapters
  end.

Lemma buildTableFields_columns_witness :
  columns (builtFields userFields) ""
  ≡ₚ declaredColumns userTags userEntity 1 "" "".
Proof.
  apply (buildTableFields_columns ∅ userTags userEntity 1 "" noAdapters
           (builtFields userFields) (builtAdapters userFields) "").
  - vm_compute. reflexivity.
  - vm_compute. reflexivity.
Defined.

Example userFields_columns :
  columns (builtFields userFields) "" = ["ID"; "Owner"; "Email"]
  ∧ declaredColumns userTags userEntity 1 "" "" = ["ID"; "Email"; "Owner"].
Proof. vm_compute. done. Qed.

(** [type Audit struct { FakeDelete bool; Note string }] embedded in
    [type Post struct { beeorm.ORM; ID uint64; Audit; Meta struct { Tags
    []string; Rank *int32 } }]: the mark of deletion is the first field of
    its struct and gets no column. *)
Definition auditType : goType :=
  {| typeString := "app.Audit"; kind := "struct"; implementsEntity := false;
     elemString := "";
     structFields := [ (plainField "FakeDelete" ∅, basicType "bool" "bool");
                       (plainField "Note" ∅, basicType "string" "string") ] |}.

Definition postEntity : goType :=
  {| typeString := "app.Post"; kind := "struct"; implementsEntity := false;
     elemString := "";
     structFields :=
       [ ({| fieldName := "ORM"; fieldAnonymous := true; fieldTag := ∅ |},
          basicType "beeorm.ORM" "struct");
         (plainField "ID" ∅, basicType "uint64" "uint64");
         ({| fieldName := "Audit"; fieldAnonymous := true; fieldTag := ∅ |}, auditType);
         (plainField "Meta" ∅,
          {| typeString := "struct { Tags []string; Rank *int32 }"; kind := "struct";
             implementsEntity := false; elemString := "";
             structFields := [ (plainField "Tags" ∅, basicType "[]string" "slice");
                               (plainField "Rank" ∅, basicType "*int32" "ptr") ] |}) ] |}.

Example postEntity_columns :
  columns (builtFields (buildTableFields ∅ ∅ postEntity 1 "" noAdapters)) ""
  = ["ID"; "Note"; "MetaRank"; "MetaTags"].
Proof. vm_compute. reflexivity. Qed.

(** [type Address struct { City string `orm:"ignore"`; Zone float64
    `orm:"decimal=10"`; Rate float32 `orm:"precision=2"` }] held two named
    structs deep, in [type Depot struct { beeorm.ORM; ID uint64; Shipping
    struct { Address Address } }]. *)
Definition addressType : goType :=
  {| typeString := "app.Address"; kind := "struct"; implementsEntity := false;
     elemString := "";
     structFields :=
       [ (plainField "City" {[ "orm" := "ignore" ]}, basicType "string" "string");
         (plainField "Zone" {[ "orm" := "decimal=10" ]}, basicType "float64" "float64");
         (plainField "Rate" {[ "orm" := "precision=2" ]}, basicType "float32" "float32") ] |}.

Definition depotEntity : goType :=
  {| typeString := "app.Depot"; kind := "struct"; implementsEntity := false;
     elemString := "";
     structFields :=
       [ ({| fieldName := "ORM"; fieldAnonymous := true; fieldTag := ∅ |},
          basicType "beeorm.ORM" "struct");
         (plainField "ID" ∅, basicType "uint64" "uint64");
         (plainField "Shipping" ∅,
          {| typeString := "struct { Address app.Address }"; kind := "struct";
             implementsEntity := false; elemString := "";
             structFields := [ (plainField "Address" ∅, addressType) ] |}) ] |}.

Definition depotTags : Schema.tagMap := extractTags ∅ depotEntity "".

(** [extractTags] stores the tags of [City] under [ShippingAddressCity];
    the builder reads [AddressCity] and finds nothing: the field tagged
    [ignore] keeps its column and the [decimal] without a comma does no
    harm. *)
Example depotEntity_tags_not_read :
  (depotTags !! "ShippingAddressCity" ≫= (λ values, values !! "ignore")) = Some "true"
  ∧ depotTags !! "AddressCity" = None
  ∧ columns (builtFields (buildTableFields ∅ depotTags depotEntity 1 "" noAdapters)) ""
    = ["ID"; "ShippingAddressZone"; "ShippingAddressRate"; "ShippingAddressCity"]
  ∧ panicking depotTags depotEntity 1 "" = false.
Proof. vm_compute. done. Qed.

(** One struct deep the two keys are the same, and the tags written on
    the field are the ones read. *)
Example address_tags_read :
  let depot := {| typeString := "app.Store"; kind := "struct"; implementsEntity := false;
                  elemString := "";
                  structFields :=
                    [ ({| fieldName := "ORM"; fieldAnonymous := true; fieldTag := ∅ |},
                       basicType "beeorm.ORM" "struct");
                      (plainField "ID" ∅, basicType "uint64" "uint64");
                      (plainField "Address" ∅, addressType) ] |} in
  panicking (extractTags ∅ depot "") depot 1 "" = true
  ∧ declaredColumns (extractTags ∅ depot "") depot 1 "" ""
    = ["ID"; "AddressZone"; "AddressRate"].
Proof. vm_compute. done. Qed.

End TableFields.

(** * Where an entity is referred to ([getUsage]) *)

Module Usage.
Import GoStrings GoText Tags TableFields.

(** The first loop of [getUsage]: [ids] is what is left of [fields.refs],
    [i] the index in it.  [fields.refsTypes[i]] and [fields.t.Field(id)]
    panic out of range. *)
Definition usageRefs (tName : string) (f : tableFields) (prefix : string)
  : list nat → nat → list string → result (list string) :=
  fix go (ids : list nat) (i : nat) (results : list string) : result (list string) :=
    match ids with
    | [] => Ok results
    | fieldID :: ids' =>
        match refsTypes f !! i with
        | None => Panic "index out of range"
        | Some refType =>
            if String.eqb refType tName
            then
              match structFields (t f) !! fieldID with
              | None => Panic "reflect: Field index out of bounds"
              | Some p => go ids' (S i) (results ++ [prefix +:+ fieldName p.1])
              end
            else go ids' (S i) results
        end
    end.

(** [getUsage(fields, t, prefix, results)]: [tName] is the name of the
    entity looked for, [results] the slice [results[t]] of the entity whose
    fields are read. *)
Fixpoint getUsage (tName : string) (f : tableFields) (prefix : string)
    (results : list string) : result (list string) :=
  match usageRefs tName f prefix (refs f) 0 results with
  | Panic msg => Panic msg
  | Ok results =>
      (fix structs (l : list (nat * tableFields)) (results : list string)
         : result (list string) :=
         match l with
         | [] => Ok results
         | ks :: rest =>
             match structFields (t f) !! ks.1 with
             | None => Panic "reflect: Field index out of bounds"
             | Some p =>
                 match getUsage tName ks.2
                         (if fieldAnonymous p.1 then prefix
                          else prefix +:+ fieldName p.1) results with
                 | Ok results => structs rest results
                 | Panic msg => Panic msg
                 end
             end
         end) (structsFields f) results
  end.

Definition usageStructs (tName : string) (f : tableFields) (prefix : string)
  : list (nat * tableFields) → list string → result (list string) :=
  fix structs (l : list (nat * tableFields)) (results : list string)
    : result (list string) :=
    match l with
    | [] => Ok results
    | ks :: rest =>
        match structFields (t f) !! ks.1 with
        | None => Panic "reflect: Field index out of bounds"
        | Some p =>
            match getUsage tName ks.2
                    (if fieldAnonymous p.1 then prefix
                     else prefix +:+ fieldName p.1) results with
            | Ok results => structs rest results
            | Panic msg => Panic msg
            end
        end
    end.

Lemma getUsage_unfold tName f prefix results :
  getUsage tName f prefix results
  = match usageRefs tName f prefix (refs f) 0 results with
    | Panic msg => Panic msg
    | Ok results => usageStructs tName f prefix (structsFields f) results
    end.
Proof. by destruct f. Qed.

(** ** What the declaration of the entity says *)

(** A pointer to an entity: a field of no built-in type whose kind is
    [ptr] and whose type implements [Entity]. *)
Definition reference (ft : goType) : bool :=
  negb (oneOf (typeString ft) builtinNames)
  && negb (String.eqb (kind ft) "struct")
  && String.eqb (kind ft) "ptr"
  && implementsEntity ft.

(** The fields of [l] that [chosen] keeps, with their indexes, [i] being
    the index of the first. *)
Fixpoint kept (chosen : nat → fieldInfo * goType → bool)
    (l : list (fieldInfo * goType)) (i : nat) : list (nat * (fieldInfo * goType)) :=
  match l with
  | [] => []
  | p :: rest => (if chosen i p then [(i, p)] else []) ++ kept chosen rest (S i)
  end.

(** The fields of a struct that refer to [tName], by their names behind
    [q]: first the fields of the struct itself, then those of the structs
    nested in it, each in the order of the declaration. *)
Fixpoint declaredUsage (tName : string) (schemaTags : Schema.tagMap) (t : goType)
    (start : nat) (prefix q : string) : list string :=
  map (λ ip, q +:+ fieldName ip.2.1)
    (kept (λ i p, negb (skipped schemaTags start prefix i p) && reference p.2
                  && String.eqb (elemString p.2) tName) (structFields t) 0)
  ++ (fix structs (l : list (fieldInfo * goType)) (i : nat) : list string :=
        match l with
        | [] => []
        | p :: rest =>
            (if negb (skipped schemaTags start prefix i p) && nested p.2
             then declaredUsage tName schemaTags p.2 0
                    (if fieldAnonymous p.1 then "" else fieldName p.1)
                    (if fieldAnonymous p.1 then q else q +:+ fieldName p.1)
             else [])
            ++ structs rest (S i)
        end) (structFields t) 0.

Definition declaredStructs (tName : string) (schemaTags : Schema.tagMap)
    (start : nat) (prefix q : string) : list (fieldInfo * goType) → nat → list string :=
  fix structs (l : list (fieldInfo * goType)) (i : nat) : list string :=
    match l with
    | [] => []
    | p :: rest =>
        (if negb (skipped schemaTags start prefix i p) && nested p.2
         then declaredUsage tName schemaTags p.2 0
                (if fieldAnonymous p.1 then "" else fieldName p.1)
                (if fieldAnonymous p.1 then q else q +:+ fieldName p.1)
         else [])
        ++ structs rest (S i)
    end.

Lemma declaredUsage_unfold tName schemaTags t start prefix q :
  declaredUsage tName schemaTags t start prefix q
  = map (λ ip, q +:+ fieldName ip.2.1)
      (kept (λ i p, negb (skipped schemaTags start prefix i p) && reference p.2
                    && String.eqb (elemString p.2) tName) (structFields t) 0)
    ++ declaredStructs tName schemaTags start prefix q (structFields t) 0.
Proof. by destruct t. Qed.

(** ** The fields kept *)

Lemma kept_app chosen l1 l2 : ∀ i,
  kept chosen (l1 ++ l2) i = kept chosen l1 i ++ kept chosen l2 (i + length l1).
Proof.
  induction l1 as [|p l1 IH]; intros i; cbn [app kept length].
  - by rewrite Nat.add_0_r.
  - rewrite IH, <- app_assoc. do 3 f_equal. lia.
Qed.

Lemma kept_snoc chosen done p :
  kept chosen (done ++ [p]) 0
  = kept chosen done 0 ++ (if chosen (length done) p then [(length done, p)] else []).
Proof. rewrite kept_app. cbn [kept]. by rewrite app_nil_r. Qed.

Lemma kept_lookup chosen l : ∀ i ip,
  ip ∈ kept chosen l i → i ≤ ip.1 ∧ l !! (ip.1 - i) = Some ip.2.
Proof.
  induction l as [|p l IH]; intros i ip; cbn [kept].
  - by intros ?%elem_of_nil.
  - intros [Hin|Hin]%elem_of_app.
    + destruct (chosen i p); [|by apply elem_of_nil in Hin].
      apply list_elem_of_singleton in Hin as ->. cbn. by rewrite Nat.sub_diag.
    + destruct (IH (S i) ip Hin) as [Hle Hl]. split; [lia|].
      replace (ip.1 - i) with (S (ip.1 - S i)) by lia. done.
Qed.

Lemma kept_filter chosen (P : fieldInfo * goType → bool) l : ∀ i,
  kept (λ i p, chosen i p && P p) l i
  = filter (λ ip, P ip.2 = true) (kept chosen l i).
Proof.
  induction l as [|p l IH]; intros i; [done|]. cbn [kept].
  rewrite filter_app, IH. f_equal.
  destruct (chosen i p); [|done]. cbn [andb].
  destruct (P p) eqn:HP.
  - by rewrite filter_cons_True.
  - rewrite filter_cons_False; [done|]. cbn. by rewrite HP.
Qed.

(** ** What one field does to the references *)

Lemma buildField_references enumsOf sub attributes f ad b' :
  TypeName attributes = typeString (FieldType attributes) →
  buildField enumsOf sub attributes (f, ad) = Ok b' →
  t b'.1 = t f
  ∧ refs b'.1
    = refs f ++ (if reference (FieldType attributes) then [Index attributes] else [])
  ∧ refsTypes b'.1
    = refsTypes f ++ (if reference (FieldType attributes)
                      then [elemString (FieldType attributes)] else []).
Proof.
  destruct attributes as [field ft name tags i pre]. cbn [TypeName FieldType Index].
  intros ->. unfold reference.
  destruct (oneOf (typeString ft) builtinNames) eqn:Hbuiltin.
  - cbn [negb andb]. revert Hbuiltin. generalize (typeString ft) as name.
    intros name Hbuiltin.
    apply oneOf_elem_of in Hbuiltin. unfold builtinNames, uintNames, uintPointerNames,
      intNames, intPointerNames, floatNames, floatPointerNames in Hbuiltin.
    cbn [app] in Hbuiltin.
    repeat (apply elem_of_cons in Hbuiltin as [->|Hbuiltin]);
      [..|by apply elem_of_nil in Hbuiltin];
      unfold buildField, GetColumnName;
      cbn [TypeName Tags Index Field FieldType Prefix];
      cbn -[decide String.append];
      unfold buildUintField, buildUintPointerField, buildIntField, buildIntPointerField,
        buildStringField, buildStringSliceField, buildBoolField, buildBoolPointerField,
        buildFloatField, buildFloatPointerField, buildTimePointerField, buildTimeField,
        GetColumnName, setFakeDelete, appendEnum, appendSet, appendPrecision,
        appendNullablePrecision in *;
      cbn [TypeName Tags Index Field FieldType Prefix fst snd] in *;
      intros Hb; repeat case_match; simplify_eq; cbn [fst snd];
      rewrite ?app_nil_r; by destruct f.
  - rewrite oneOf_builtin in Hbuiltin.
    do 13 (apply orb_false_elim in Hbuiltin as [Hbuiltin ?]).
    unfold buildField. cbn [TypeName Tags Index Field FieldType Prefix].
    repeat match goal with
           | H : _ = false |- _ => rewrite H; clear H
           end.
    cbn [negb andb].
    unfold buildStructField, buildPointerField, buildPointersSliceField, appendStruct,
      appendRefType.
    cbn [TypeName Tags Index Field FieldType Prefix fst snd].
    intros Hb; repeat case_match; simplify_eq; cbn [fst snd negb andb];
      rewrite ?app_nil_r; by destruct f.
Qed.

(** ** The two loops of [getUsage] *)

Lemma usageRefs_kept tName f q (pairs : list (nat * (fieldInfo * goType))) :
  ∀ i results,
    drop i (refsTypes f) = map (λ ip, elemString ip.2.2) pairs →
    (∀ ip, ip ∈ pairs → structFields (t f) !! ip.1 = Some ip.2) →
    usageRefs tName f q pairs.*1 i results
    = Ok (results
          ++ map (λ ip, q +:+ fieldName ip.2.1)
               (filter (λ ip, String.eqb (elemString ip.2.2) tName = true) pairs)).
Proof.
  induction pairs as [|ip pairs IH]; intros i results Hdrop Hat.
  - cbn. by rewrite app_nil_r.
  - cbn [fmap list_fmap usageRefs]. cbn [map] in Hdrop.
    assert (Hi : refsTypes f !! i = Some (elemString ip.2.2)).
    { pose proof (lookup_drop (refsTypes f) i 0) as Hl.
      rewrite Hdrop, Nat.add_0_r in Hl. done. }
    rewrite Hi. rewrite (drop_S _ _ _ Hi) in Hdrop. injection Hdrop as Hdrop.
    assert (Hrest : ∀ ip', ip' ∈ pairs → structFields (t f) !! ip'.1 = Some ip'.2).
    { intros ip' Hin. apply Hat. by right. }
    destruct (String.eqb (elemString ip.2.2) tName) eqn:Heq.
    + rewrite (Hat ip) by left. rewrite filter_cons_True by done.
      rewrite (IH (S i) _ Hdrop Hrest). cbn [map]. by rewrite <- app_assoc.
    + rewrite filter_cons_False by (by rewrite Heq). by apply IH.
Qed.

Lemma usageStructs_kept tName schemaTags f q :
  ∀ (l : list (nat * tableFields)) (ips : list (nat * (fieldInfo * goType))) results,
    Forall2 (λ ks ip,
               ks.1 = ip.1
               ∧ ∀ q' results',
                   getUsage tName ks.2 q' results'
                   = Ok (results'
                         ++ declaredUsage tName schemaTags ip.2.2 0
                              (if fieldAnonymous ip.2.1 then "" else fieldName ip.2.1) q'))
      l ips →
    (∀ ip, ip ∈ ips → structFields (t f) !! ip.1 = Some ip.2) →
    usageStructs tName f q l results
    = Ok (results
          ++ flat_map (λ ip, declaredUsage tName schemaTags ip.2.2 0
                               (if fieldAnonymous ip.2.1 then "" else fieldName ip.2.1)
                               (if fieldAnonymous ip.2.1 then q
                                else q +:+ fieldName ip.2.1)) ips).
Proof.
  intros l ips results HF. revert results.
  induction HF as [|ks ip l ips [Hk Hsub] HF IH]; intros results Hat.
  - cbn. by rewrite app_nil_r.
  - cbn [usageStructs flat_map]. rewrite Hk, (Hat ip) by left. rewrite Hsub.
    rewrite IH by (intros ip' Hin; apply Hat; by right). by rewrite <- app_assoc.
Qed.

Lemma declaredStructs_kept tName schemaTags start prefix q l : ∀ i,
  declaredStructs tName schemaTags start prefix q l i
  = flat_map (λ ip, declaredUsage tName schemaTags ip.2.2 0
                      (if fieldAnonymous ip.2.1 then "" else fieldName ip.2.1)
                      (if fieldAnonymous ip.2.1 then q else q +:+ fieldName ip.2.1))
      (kept (λ i p, negb (skipped schemaTags start prefix i p) && nested p.2) l i).
Proof.
  induction l as [|p l IH]; intros i; [done|].
  cbn [declaredStructs kept]. rewrite flat_map_app, IH. f_equal.
  destruct (negb (skipped schemaTags start prefix i p) && nested p.2); [|done].
  cbn. by rewrite app_nil_r.
Qed.

(** ** The fields read so far *)

Section Loop.
Variable enumsOf : gmap string Enum.enum.
Variable schemaTags : Schema.tagMap.
Variable tName : string.
Variable start : nat.
Variable prefix : string.
Variable T : goType.

Hypothesis sub_usage : ∀ p, p ∈ structFields T →
  ∀ pre ad subFields ad',
    buildTableFields enumsOf schemaTags p.2 0 pre ad = Ok (subFields, ad') →
    ∀ q results,
      getUsage tName subFields q results
      = Ok (results ++ declaredUsage tName schemaTags p.2 0 pre q).

Definition references (l : list (fieldInfo * goType)) : list (nat * (fieldInfo * goType)) :=
  kept (λ i p, negb (skipped schemaTags start prefix i p) && reference p.2) l 0.

Definition structs (l : list (fieldInfo * goType)) : list (nat * (fieldInfo * goType)) :=
  kept (λ i p, negb (skipped schemaTags start prefix i p) && nested p.2) l 0.

(** What the loop of [buildTableFields] keeps true, the fields [done]
    being read. *)
Record seen (done : list (fieldInfo * goType)) (f : tableFields) : Prop := {
  seen_t : t f = T;
  seen_refs : refs f = (references done).*1;
  seen_types : refsTypes f = map (λ ip, elemString ip.2.2) (references done);
  seen_structs :
    Forall2 (λ ks ip,
               ks.1 = ip.1
               ∧ ∀ q results,
                   getUsage tName ks.2 q results
                   = Ok (results
                         ++ declaredUsage tName schemaTags ip.2.2 0
                              (if fieldAnonymous ip.2.1 then "" else fieldName ip.2.1) q))
      (structsFields f) (structs done);
}.

Lemma turn_usage done p rest f ad f' ad' :
  structFields T = done ++ p :: rest →
  seen done f →
  fieldTurn enumsOf schemaTags (buildTableFields enumsOf schemaTags p.2 0)
    start prefix (length done) p (f, ad) = Ok (f', ad') →
  seen (done ++ [p]) f'.
Proof.
  intros Hall [Ht Hrefs Htypes Hstructs]. rewrite fieldTurn_skipped.
  unfold references, structs in *.
  destruct (skipped schemaTags start prefix (length done) p) eqn:Hskip.
  { intros [= <- <-]. split; [done|..]; unfold references, structs;
      rewrite kept_snoc, Hskip; cbn [negb andb]; by rewrite app_nil_r. }
  cbn [fst snd]. intros Hbuild.
  pose proof (buildField_references enumsOf _
                (attributesOf schemaTags prefix (length done) p) _ _ _ eq_refl Hbuild)
    as (Ht' & Hr' & Hty').
  apply buildField_effect in Hbuild as (_ & _ & _ & Hs').
  cbn [fst snd attributesOf FieldType Index Field] in *.
  change (nestedField (attributesOf schemaTags prefix (length done) p))
    with (nested p.2) in Hs'.
  change (t (setField (length done) p f)) with (t f) in Ht'.
  change (refs (setField (length done) p f)) with (refs f) in Hr'.
  change (refsTypes (setField (length done) p f)) with (refsTypes f) in Hty'.
  change (structsFields (setField (length done) p f)) with (structsFields f) in Hs'.
  split; unfold references, structs; rewrite ?kept_snoc, ?Hskip; cbn [negb andb].
  - congruence.
  - rewrite Hr', Hrefs, fmap_app. f_equal. by destruct (reference p.2).
  - rewrite Hty', Htypes, map_app. f_equal. by destruct (reference p.2).
  - destruct (nested p.2).
    + destruct Hs' as (subFields & Hsub & ->). apply Forall2_app; [done|].
      constructor; [|constructor]. cbn [fst snd]. split; [done|].
      intros q results. eapply (sub_usage p); [|exact Hsub].
      rewrite Hall. apply elem_of_app. right. left.
    + rewrite Hs', app_nil_r. done.
Qed.

Lemma loop_usage rest : ∀ done f ad f' ad',
  structFields T = done ++ rest →
  seen done f →
  fieldsLoop enumsOf schemaTags start prefix rest (length done) (f, ad) = Ok (f', ad') →
  seen (structFields T) f'.
Proof.
  induction rest as [|p rest IH]; intros done f ad f' ad' Hall Hseen.
  - cbn. intros [= <- <-]. by rewrite Hall, app_nil_r.
  - cbn [fieldsLoop].
    destruct (fieldTurn enumsOf schemaTags _ start prefix (length done) p (f, ad))
      as [[f1 ad1]|] eqn:Hturn; [|done].
    intros Hloop. apply (IH (done ++ [p]) f1 ad1 f' ad').
    + by rewrite <- app_assoc.
    + by eapply turn_usage.
    + by rewrite length_app, Nat.add_1_r.
Qed.

Lemma seen_usage f q results :
  seen (structFields T) f →
  getUsage tName f q results
  = Ok (results ++ declaredUsage tName schemaTags T start prefix q).
Proof.
  intros [Ht Hrefs Htypes Hstructs]. rewrite getUsage_unfold, declaredUsage_unfold.
  assert (Hat : ∀ chosen ip, ip ∈ kept chosen (structFields T) 0 →
                             structFields (t f) !! ip.1 = Some ip.2).
  { intros chosen ip Hin. apply kept_lookup in Hin as [_ Hin].
    by rewrite Nat.sub_0_r, <- Ht in Hin. }
  rewrite Hrefs, (usageRefs_kept tName f q (references (structFields T)) 0 results).
  - rewrite (usageStructs_kept tName schemaTags f q _ _ _ Hstructs) by apply Hat.
    rewrite declaredStructs_kept, <- app_assoc. unfold references.
    pose proof (kept_filter
                  (λ i p, negb (skipped schemaTags start prefix i p) && reference p.2)
                  (λ p, String.eqb (elemString p.2) tName) (structFields T) 0) as Hk.
    cbn beta in Hk. by rewrite Hk.
  - by rewrite drop_0.
  - apply Hat.
Qed.

End Loop.

(** The fields of an entity that [getUsage] reports for the entity
    [tName] are the pointers to [tName] that the type declares and that
    are not passed over, under the names of their columns: those of the
    entity itself, then those of its nested structs, in the order of the
    declaration.  On the fields built from a type [getUsage] does not
    panic. *)
Theorem getUsage_declared (enumsOf : gmap string Enum.enum) (schemaTags : Schema.tagMap)
    (tName : string) (t : goType) :
  ∀ (start : nat) (prefix : string) (ad : adapters) (f : tableFields) (ad' : adapters),
    buildTableFields enumsOf schemaTags t start prefix ad = Ok (f, ad') →
    ∀ (q : string) (results : list string),
      getUsage tName f q results
      = Ok (results ++ declaredUsage tName schemaTags t start prefix q).
Proof.
  induction t as [t IH] using goType_nested_ind.
  intros start prefix ad f ad' Hbuild q results.
  rewrite buildTableFields_unfold in Hbuild.
  apply (seen_usage schemaTags tName start prefix t).
  assert (Hsub : ∀ p, p ∈ structFields t →
            ∀ pre ad0 subFields ad1,
              buildTableFields enumsOf schemaTags p.2 0 pre ad0 = Ok (subFields, ad1) →
              ∀ q' results',
                getUsage tName subFields q' results'
                = Ok (results' ++ declaredUsage tName schemaTags p.2 0 pre q')).
  { intros p Hp pre ad0 subFields ad1 Hsub q' results'.
    rewrite Forall_forall in IH. by eapply (IH p Hp). }
  apply (loop_usage enumsOf schemaTags tName start prefix t Hsub (structFields t) []
           (newFields t prefix) ad f ad'); [done| |exact Hbuild].
  split; [done..|constructor].
Qed.

(** [type Team struct { beeorm.ORM; ID uint64; Lead *UserEntity;
    Billing struct { Payer *UserEntity; Plan *Plan };
    Sponsor *Plan; Deputy *UserEntity }] *)
Definition teamEntity : goType :=
  {| typeString := "app.Team"; kind := "struct"; implementsEntity := false;
     elemString := "";
     structFields :=
       [ ({| fieldName := "ORM"; fieldAnonymous := true; fieldTag := ∅ |},
          basicType "beeorm.ORM" "struct");
         (plainField "ID" ∅, basicType "uint64" "uint64");
         (plainField "Lead" ∅, entityPointer "app.UserEntity");
         (plainField "Billing" ∅,
          {| typeString := "struct { Payer *app.UserEntity; Plan *app.Plan }";
             kind := "struct"; implementsEntity := false; elemString := "";
             structFields := [ (plainField "Payer" ∅, entityPointer "app.UserEntity");
                               (plainField "Plan" ∅, entityPointer "app.Plan") ] |});
         (plainField "Sponsor" ∅, entityPointer "app.Plan");
         (plainField "Deputy" ∅, entityPointer "app.UserEntity") ] |}.

Definition teamFields : result building :=
  buildTableFields ∅ ∅ teamEntity 1 "" noAdapters.

Lemma getUsage_declared_witness :
  getUsage "app.UserEntity" (builtFields teamFields) "" []
  = Ok ([] ++ declaredUsage "app.UserEntity" ∅ teamEntity 1 "" "").
Proof.
  apply (getUsage_declared ∅ ∅ "app.UserEntity" teamEntity 1 "" noAdapters
           (builtFields teamFields) (builtAdapters teamFields)).
  vm_compute. reflexivity.
Defined.

Example teamEntity_usage :
  getUsage "app.UserEntity" (builtFields teamFields) "" []
  = Ok ["Lead"; "Deputy"; "BillingPayer"]
  ∧ getUsage "app.Plan" (builtFields teamFields) "" []
    = Ok ["Sponsor"; "BillingPlan"].
Proof. vm_compute. done. Qed.

End Usage.

(** * The slices that go side by side in [tableFields] *)

Module ParallelSlices.
Import GoStrings GoText Tags TableFields.

(** ** What is to stand beside the index of a field

    The tags of a field are, here as in [TableFields], what the builder
    reads for it: the entry of the tag map under the name of the struct
    that holds the field followed by the name of the field
    ([TableFields.attributesOf]).  Two named structs deep this is not the
    key under which [extractTags] stores the tags written on the field. *)

(** The bits that the name of a pointer type gives: [*uint8] has 8,
    [*float32] has 32, [*int] has none. *)
Definition pointerSize (name : string) : nat :=
  if oneOf name ["*uint8"; "*int8"] then 8
  else if oneOf name ["*uint16"; "*int16"] then 16
  else if oneOf name ["*uint32"; "*int32"; "*float32"] then 32
  else if oneOf name ["*uint64"; "*int64"; "*float64"] then 64
  else 0.

(** The precision of a float: the one the tags read for it give, else 4
    for 32 bits and 8 for 64. *)
Definition precisionDeclared (attributes : schemaFieldAttributes) : Z :=
  match precisionOf (Tags attributes)
          (if oneOf (TypeName attributes) ["float32"; "*float32"] then 4 else 8)%Z with
  | Ok precision => precision
  | Panic _ => 0%Z
  end.

(** The enum registered under the code that the tags read for the field
    give under [key], [nil] when there is none. *)
Definition enumDeclared (enumsOf : gmap string Enum.enum) (key : string)
    (attributes : schemaFieldAttributes) : option Enum.enum :=
  Tags attributes !! key ≫= (λ enumCode, enumsOf !! enumCode).

(** [values] holds, position by position, what [value] gives for the
    fields at [ids], from their types and the tags read for them. *)
Definition paired {A : Type} (schemaTags : Schema.tagMap) (T : goType) (prefix : string)
    (value : schemaFieldAttributes → A) (ids : list nat) (values : list A) : Prop :=
  Forall2 (λ i v, ∃ p, structFields T !! i = Some p
                       ∧ v = value (attributesOf schemaTags prefix i p)) ids values.

(** The slices of the struct that go side by side agree, in the struct and
    in the structs nested in it. *)
Fixpoint described (enumsOf : gmap string Enum.enum) (schemaTags : Schema.tagMap)
    (f : tableFields) : Prop :=
  paired schemaTags (t f) (prefix f) (λ a, pointerSize (TypeName a))
    (uintegersNullable f) (uintegersNullableSize f)
  ∧ paired schemaTags (t f) (prefix f) (λ a, pointerSize (TypeName a))
      (integersNullable f) (integersNullableSize f)
  ∧ paired schemaTags (t f) (prefix f) (enumDeclared enumsOf "enum")
      (stringsEnums f) (enums f)
  ∧ paired schemaTags (t f) (prefix f) (enumDeclared enumsOf "set")
      (sliceStringsSets f) (sets f)
  ∧ paired schemaTags (t f) (prefix f) precisionDeclared (floats f) (floatsPrecision f)
  ∧ paired schemaTags (t f) (prefix f) precisionDeclared
      (floatsNullable f) (floatsNullablePrecision f)
  ∧ paired schemaTags (t f) (prefix f) (λ a, pointerSize (TypeName a))
      (floatsNullable f) (floatsNullableSize f)
  ∧ paired schemaTags (t f) (prefix f) (λ a, elemString (FieldType a))
      (refs f) (refsTypes f)
  ∧ (fix nestedOnes (l : list (nat * tableFields)) : Prop :=
       match l with
       | [] => True
       | ks :: rest => described enumsOf schemaTags ks.2 ∧ nestedOnes rest
       end) (structsFields f).

Definition allDescribed (enumsOf : gmap string Enum.enum) (schemaTags : Schema.tagMap)
  : list (nat * tableFields) → Prop :=
  fix nestedOnes (l : list (nat * tableFields)) : Prop :=
    match l with
    | [] => True
    | ks :: rest => described enumsOf schemaTags ks.2 ∧ nestedOnes rest
    end.

(** ** What one field does to the slices *)

(** A pair of slices is left alone, or grows by one index and one value. *)
Definition grows {A : Type} (ids ids' : list nat) (values values' : list A)
    (i : nat) (v : A) : Prop :=
  (ids' = ids ∧ values' = values) ∨ (ids' = ids ++ [i] ∧ values' = values ++ [v]).

Ltac grows_done :=
  repeat match goal with
         | H : precisionOf _ _ = _ |- _ => rewrite H; clear H
         | H : _ !! _ = _ |- _ => rewrite H; clear H
         end;
  cbn [mbind option_bind];
  repeat split;
  first [ reflexivity
        | left; split; reflexivity
        | right; split; reflexivity ].

Lemma buildField_parallel enumsOf sub attributes f ad b' :
  buildField enumsOf sub attributes (f, ad) = Ok b' →
  t b'.1 = t f
  ∧ prefix b'.1 = prefix f
  ∧ grows (uintegersNullable f) (uintegersNullable b'.1)
      (uintegersNullableSize f) (uintegersNullableSize b'.1)
      (Index attributes) (pointerSize (TypeName attributes))
  ∧ grows (integersNullable f) (integersNullable b'.1)
      (integersNullableSize f) (integersNullableSize b'.1)
      (Index attributes) (pointerSize (TypeName attributes))
  ∧ grows (stringsEnums f) (stringsEnums b'.1) (enums f) (enums b'.1)
      (Index attributes) (enumDeclared enumsOf "enum" attributes)
  ∧ grows (sliceStringsSets f) (sliceStringsSets b'.1) (sets f) (sets b'.1)
      (Index attributes) (enumDeclared enumsOf "set" attributes)
  ∧ grows (floats f) (floats b'.1) (floatsPrecision f) (floatsPrecision b'.1)
      (Index attributes) (precisionDeclared attributes)
  ∧ grows (floatsNullable f) (floatsNullable b'.1)
      (floatsNullablePrecision f) (floatsNullablePrecision b'.1)
      (Index attributes) (precisionDeclared attributes)
  ∧ grows (floatsNullable f) (floatsNullable b'.1)
      (floatsNullableSize f) (floatsNullableSize b'.1)
      (Index attributes) (pointerSize (TypeName attributes))
  ∧ grows (refs f) (refs b'.1) (refsTypes f) (refsTypes b'.1)
      (Index attributes) (elemString (FieldType attributes)).
Proof.
  destruct attributes as [field ft name tags i pre].
  unfold enumDeclared, precisionDeclared. cbn [TypeName FieldType Index Tags].
  destruct (oneOf name builtinNames) eqn:Hbuiltin.
  - apply oneOf_elem_of in Hbuiltin. unfold builtinNames, uintNames, uintPointerNames,
      intNames, intPointerNames, floatNames, floatPointerNames in Hbuiltin.
    cbn [app] in Hbuiltin.
    repeat (apply elem_of_cons in Hbuiltin as [->|Hbuiltin]);
      [..|by apply elem_of_nil in Hbuiltin];
      unfold buildField, GetColumnName;
      cbn [TypeName Tags Index Field FieldType Prefix];
      cbn -[decide String.append precisionOf];
      unfold buildUintField, buildUintPointerField, buildIntField, buildIntPointerField,
        buildStringField, buildStringSliceField, buildBoolField, buildBoolPointerField,
        buildFloatField, buildFloatPointerField, buildTimePointerField, buildTimeField,
        GetColumnName, setFakeDelete, appendEnum, appendSet, appendPrecision,
        appendNullablePrecision in *;
      cbn [TypeName Tags Index Field FieldType Prefix fst snd] in *;
      cbn -[decide String.append precisionOf];
      intros Hb; repeat case_match; simplify_eq; cbn [fst snd];
      destruct f; cbn -[precisionOf]; grows_done.
  - rewrite oneOf_builtin in Hbuiltin.
    do 13 (apply orb_false_elim in Hbuiltin as [Hbuiltin ?]).
    unfold buildField. cbn [TypeName Tags Index Field FieldType Prefix].
    repeat match goal with
           | H : _ = false |- _ => rewrite H; clear H
           end.
    unfold buildStructField, buildPointerField, buildPointersSliceField, appendStruct,
      appendRefType.
    cbn [TypeName Tags Index Field FieldType Prefix fst snd].
    intros Hb; repeat case_match; simplify_eq; cbn [fst snd];
      destruct f; cbn -[precisionOf]; grows_done.
Qed.

(** ** The fields read so far *)

Lemma described_unfold enumsOf schemaTags f :
  described enumsOf schemaTags f
  = (paired schemaTags (t f) (prefix f) (λ a, pointerSize (TypeName a))
       (uintegersNullable f) (uintegersNullableSize f)
     ∧ paired schemaTags (t f) (prefix f) (λ a, pointerSize (TypeName a))
         (integersNullable f) (integersNullableSize f)
     ∧ paired schemaTags (t f) (prefix f) (enumDeclared enumsOf "enum")
         (stringsEnums f) (enums f)
     ∧ paired schemaTags (t f) (prefix f) (enumDeclared enumsOf "set")
         (sliceStringsSets f) (sets f)
     ∧ paired schemaTags (t f) (prefix f) precisionDeclared (floats f) (floatsPrecision f)
     ∧ paired schemaTags (t f) (prefix f) precisionDeclared
         (floatsNullable f) (floatsNullablePrecision f)
     ∧ paired schemaTags (t f) (prefix f) (λ a, pointerSize (TypeName a))
         (floatsNullable f) (floatsNullableSize f)
     ∧ paired schemaTags (t f) (prefix f) (λ a, elemString (FieldType a))
         (refs f) (refsTypes f)
     ∧ allDescribed enumsOf schemaTags (structsFields f)).
Proof. by destruct f. Qed.

Lemma allDescribed_app enumsOf schemaTags l1 l2 :
  allDescribed enumsOf schemaTags l1 → allDescribed enumsOf schemaTags l2 →
  allDescribed enumsOf schemaTags (l1 ++ l2).
Proof.
  induction l1 as [|ks l1 IH]; [done|]. cbn [app allDescribed].
  intros [H1 Hl1] Hl2. split; [done|by apply IH].
Qed.

Section Loop.
Variable enumsOf : gmap string Enum.enum.
Variable schemaTags : Schema.tagMap.
Variable start : nat.
Variable pre : string.
Variable T : goType.

Hypothesis sub_described : ∀ p, p ∈ structFields T →
  ∀ pre' ad subFields ad',
    buildTableFields enumsOf schemaTags p.2 0 pre' ad = Ok (subFields, ad') →
    described enumsOf schemaTags subFields.

Lemma paired_grows {A : Type} (value : schemaFieldAttributes → A)
    ids ids' values values' i p :
  structFields T !! i = Some p →
  paired schemaTags T pre value ids values →
  grows ids ids' values values' i (value (attributesOf schemaTags pre i p)) →
  paired schemaTags T pre value ids' values'.
Proof.
  intros Hp Hpaired [[-> ->]|[-> ->]]; [done|].
  apply Forall2_app; [done|]. constructor; [|constructor]. by exists p.
Qed.

(** What the loop of [buildTableFields] keeps true of the fields. *)
Record kept (f : tableFields) : Prop := {
  kept_t : t f = T;
  kept_prefix : prefix f = pre;
  kept_described : described enumsOf schemaTags f;
}.

Lemma turn_described done p rest f ad f' ad' :
  structFields T = done ++ p :: rest →
  kept f →
  fieldTurn enumsOf schemaTags (buildTableFields enumsOf schemaTags p.2 0)
    start pre (length done) p (f, ad) = Ok (f', ad') →
  kept f'.
Proof.
  intros Hall [Ht Hpre Hd]. rewrite fieldTurn_skipped.
  destruct (skipped schemaTags start pre (length done) p); [by intros [= <- <-]|].
  cbn [fst snd]. intros Hbuild.
  assert (Hp : structFields T !! length done = Some p).
  { rewrite Hall, lookup_app_r by lia. by rewrite Nat.sub_diag. }
  pose proof (buildField_parallel enumsOf _
                (attributesOf schemaTags pre (length done) p) _ _ _ Hbuild)
    as (Ht' & Hpre' & H1 & H2 & H3 & H4 & H5 & H6 & H7 & H8).
  apply buildField_effect in Hbuild as (_ & _ & _ & Hs').
  cbn [fst snd] in *.
  change (nestedField (attributesOf schemaTags pre (length done) p))
    with (nested p.2) in Hs'.
  change (Index (attributesOf schemaTags pre (length done) p))
    with (length done) in *.
  change (t (setField (length done) p f)) with (t f) in Ht'.
  change (prefix (setField (length done) p f)) with (prefix f) in Hpre'.
  change (structsFields (setField (length done) p f)) with (structsFields f) in Hs'.
  change (uintegersNullable (setField (length done) p f))
    with (uintegersNullable f) in H1.
  change (uintegersNullableSize (setField (length done) p f))
    with (uintegersNullableSize f) in H1.
  change (integersNullable (setField (length done) p f))
    with (integersNullable f) in H2.
  change (integersNullableSize (setField (length done) p f))
    with (integersNullableSize f) in H2.
  change (stringsEnums (setField (length done) p f)) with (stringsEnums f) in H3.
  change (enums (setField (length done) p f)) with (enums f) in H3.
  change (sliceStringsSets (setField (length done) p f))
    with (sliceStringsSets f) in H4.
  change (sets (setField (length done) p f)) with (sets f) in H4.
  change (floats (setField (length done) p f)) with (floats f) in H5.
  change (floatsPrecision (setField (length done) p f)) with (floatsPrecision f) in H5.
  change (floatsNullable (setField (length done) p f)) with (floatsNullable f) in H6, H7.
  change (floatsNullablePrecision (setField (length done) p f))
    with (floatsNullablePrecision f) in H6.
  change (floatsNullableSize (setField (length done) p f))
    with (floatsNullableSize f) in H7.
  change (refs (setField (length done) p f)) with (refs f) in H8.
  change (refsTypes (setField (length done) p f)) with (refsTypes f) in H8.
  rewrite described_unfold, Ht, Hpre in Hd.
  destruct Hd as (D1 & D2 & D3 & D4 & D5 & D6 & D7 & D8 & Dsub).
  split; [congruence|congruence|].
  rewrite described_unfold, Ht', Hpre', Ht, Hpre.
  repeat split;
    try (eapply paired_grows; [exact Hp| |eassumption]; eassumption).
  destruct (nested p.2).
  - destruct Hs' as (subFields & Hsub & ->). apply allDescribed_app; [done|].
    split; [|done]. cbn [snd]. eapply (sub_described p); [|exact Hsub].
    rewrite Hall. apply elem_of_app. right. left.
  - by rewrite Hs'.
Qed.

Lemma loop_described rest : ∀ done f ad f' ad',
  structFields T = done ++ rest →
  kept f →
  fieldsLoop enumsOf schemaTags start pre rest (length done) (f, ad) = Ok (f', ad') →
  kept f'.
Proof.
  induction rest as [|p rest IH]; intros done f ad f' ad' Hall Hkept.
  - cbn. by intros [= <- <-].
  - cbn [fieldsLoop].
    destruct (fieldTurn enumsOf schemaTags _ start pre (length done) p (f, ad))
      as [[f1 ad1]|] eqn:Hturn; [|done].
    intros Hloop. apply (IH (done ++ [p]) f1 ad1 f' ad').
    + by rewrite <- app_assoc.
    + by eapply turn_described.
    + by rewrite length_app, Nat.add_1_r.
Qed.

End Loop.

(** In the fields built from a type, the slices that go side by side hold
    the same fields, in the struct and in every struct nested in it: each
    size, enum, set, precision and reference type stands at the position
    of the index of its field; the sizes and the reference types are those
    of the type of the field, the enums, sets and precisions those that
    the tags read for the field give, these being the tags under the name
    of the innermost struct followed by the name of the field. *)
Theorem buildTableFields_described (enumsOf : gmap string Enum.enum)
    (schemaTags : Schema.tagMap) (t : goType) :
  ∀ (start : nat) (prefix : string) (ad : adapters) (f : tableFields) (ad' : adapters),
    buildTableFields enumsOf schemaTags t start prefix ad = Ok (f, ad') →
    described enumsOf schemaTags f.
Proof.
  induction t as [t IH] using goType_nested_ind.
  intros start prefix ad f ad' Hbuild. rewrite buildTableFields_unfold in Hbuild.
  assert (Hsub : ∀ p, p ∈ structFields t →
            ∀ pre' ad0 subFields ad1,
              buildTableFields enumsOf schemaTags p.2 0 pre' ad0 = Ok (subFields, ad1) →
              described enumsOf schemaTags subFields).
  { intros p Hp pre' ad0 subFields ad1 Hsub.
    rewrite Forall_forall in IH. by eapply (IH p Hp). }
  apply (loop_described enumsOf schemaTags start prefix t Hsub (structFields t) []
           (newFields t prefix) ad f ad'); [done| |exact Hbuild].
  split; [done..|]. rewrite described_unfold. cbn. repeat split; constructor.
Qed.

(** [type Reading struct { beeorm.ORM; ID uint64; Level *uint8;
    Unit string `orm:"enum=units"`; Value float32 `orm:"decimal=8,3"`;
    Drift *float64; Sensor *Sensor }] *)
Definition readingEntity : goType :=
  {| typeString := "app.Reading"; kind := "struct"; implementsEntity := false;
     elemString := "";
     structFields :=
       [ ({| fieldName := "ORM"; fieldAnonymous := true; fieldTag := ∅ |},
          basicType "beeorm.ORM" "struct");
         (plainField "ID" ∅, basicType "uint64" "uint64");
         (plainField "Level" ∅, basicType "*uint8" "ptr");
         (plainField "Unit" {[ "orm" := "enum=units" ]}, basicType "string" "string");
         (plainField "Value" {[ "orm" := "decimal=8,3" ]}, basicType "float32" "float32");
         (plainField "Drift" ∅, basicType "*float64" "ptr");
         (plainField "Sensor" ∅, entityPointer "app.Sensor") ] |}.

Definition readingFields : result building :=
  buildTableFields ∅ (extractTags ∅ readingEntity "") readingEntity 1 "" noAdapters.

Lemma buildTableFields_described_witness :
  described ∅ (extractTags ∅ readingEntity "") (builtFields readingFields).
Proof.
  apply (buildTableFields_described ∅ (extractTags ∅ readingEntity "") readingEntity 1 ""
           noAdapters (builtFields readingFields) (builtAdapters readingFields)).
  vm_compute. reflexivity.
Defined.

(** The enum [units] is not registered: the field gets a [nil] enum. *)
Example readingFields_slices :
  let f := builtFields readingFields in
  (uintegersNullable f, uintegersNullableSize f) = ([2], [8])
  ∧ (stringsEnums f, enums f) = ([3], [None])
  ∧ (floats f, floatsPrecision f) = ([4], [3%Z])
  ∧ (floatsNullable f, floatsNullablePrecision f, floatsNullableSize f)
    = ([5], [8%Z], [64])
  ∧ (refs f, refsTypes f) = ([6], ["app.Sensor"]).
Proof. vm_compute. done. Qed.

(** Two named structs deep the tags written on a field are not read
    ([TableFields.depotEntity]): [Rate float32 `orm:"precision=2"`] gets
    the precision 4 of its type, and [Zone float64 `orm:"decimal=10"`] the
    precision 8. *)
Example depotEntity_precisions :
  map (λ outer, map (λ inner, (floats inner.2, floatsPrecision inner.2))
                  (structsFields outer.2))
    (structsFields
       (builtFields (buildTableFields ∅ depotTags depotEntity 1 "" noAdapters)))
  = [[([1; 2], [8%Z; 4%Z])]].
Proof. vm_compute. reflexivity. Qed.

End ParallelSlices.

(** * The foreign keys plugin: the keys to drop and to add
      ([PluginInterfaceTableSQLSchemaDefinition]) *)

From Stdlib Require OrderedTypeEx.

Module ForeignKeys.

(** [type foreignIndex struct] *)
Record foreignIndex : Type := {
  Column : string;
  Table : string;
  ParentDatabase : string;
  OnDelete : string;
}.

#[global] Instance foreignIndex_eq_dec : EqDecision foreignIndex.
Proof. solve_decision. Defined.

(** [beeorm.Alter], with the pool given by its code. *)
Record Alter : Type := { SQL : string; Safe : bool; Pool : string }.

Definition newline : string := String "010" EmptyString.

Definition buildCreateForeignKeySQL (keyName : string) (definition : foreignIndex)
  : string :=
  "ADD CONSTRAINT `" +:+ keyName +:+ "` FOREIGN KEY (`" +:+ Column definition
  +:+ "`) REFERENCES `" +:+ ParentDatabase definition +:+ "`.`" +:+ Table definition
  +:+ "` (`ID`) ON DELETE " +:+ OnDelete definition.

Definition buildDropForeignKeySQL (keyName : string) : string :=
  "DROP FOREIGN KEY `" +:+ keyName +:+ "`".

(** One turn of the loop over [dbForeignKeys]; the pair holds
    [addForeignKeys] and [dropForeignKeys].  [cmp.Equal] on two
    [*foreignIndex] compares the structs. *)
Definition diffStep (maps : gmap string foreignIndex * gmap string foreignIndex)
    (entry : string * foreignIndex) : gmap string foreignIndex * gmap string foreignIndex :=
  match maps.1 !! entry.1 with
  | None => (maps.1, <[entry.1 := entry.2]> maps.2)
  | Some current =>
      if decide (current = entry.2) then (delete entry.1 maps.1, maps.2)
      else (maps.1, <[entry.1 := entry.2]> maps.2)
  end.

(** The order of [sort.Strings]. *)
Definition stringLe (a b : string) : Prop := String.leb a b = true.

#[global] Instance stringLe_dec (a b : string) : Decision (stringLe a b).
Proof. unfold stringLe. solve_decision. Defined.

(** The statements behind [alterSQL]: [,\n] after each but the last, [;]
    after the last. *)
Fixpoint joinStatements (sql : string) (values : list string) : string :=
  match values with
  | [] => sql
  | value :: rest =>
      match rest with
      | [] => sql +:+ value +:+ ";"
      | _ :: _ => joinStatements (sql +:+ value +:+ "," +:+ newline) rest
      end
  end.

(** The [beeorm.Alter] of the statements [values], listed in whatever
    order the map was ranged over and then sorted. *)
Definition alterOf (pool alterSQL : string) (values : list string) : Alter :=
  {| SQL := joinStatements alterSQL (merge_sort stringLe values);
     Safe := true; Pool := pool |}.

(** [PluginInterfaceTableSQLSchemaDefinition] from the reading of the keys
    of the database on: [addForeignKeys] holds the keys of the references,
    [dbForeignKeys] is what [getForeignKeys] returns, [database] and [pool]
    are the database and the code of the pool of the entity.  The result
    is what is appended to [PreAlters] and to [PostAlters]. *)
Definition alters (database tableName pool DBCreateSchema : string)
    (addForeignKeys dbForeignKeys : gmap string foreignIndex)
  : list Alter * list Alter :=
  let maps :=
    if String.eqb DBCreateSchema "" then (addForeignKeys, ∅)
    else fold_left diffStep (map_to_list dbForeignKeys) (addForeignKeys, ∅) in
  if (size maps.1 =? 0) && (size maps.2 =? 0) then ([], [])
  else
    let alterSQL := "ALTER TABLE `" +:+ database +:+ "`.`" +:+ tableName +:+ "`"
                    +:+ newline in
    (if 0 <? size maps.2
     then [alterOf pool alterSQL
             (map (λ entry, buildDropForeignKeySQL entry.1) (map_to_list maps.2))]
     else [],
     if 0 <? size maps.1
     then [alterOf pool alterSQL
             (map (λ entry, buildCreateForeignKeySQL entry.1 entry.2)
                (map_to_list maps.1))]
     else []).

(** ** What the specification of the plugin would say *)

(** The keys of [these] that [those] do not hold as they are. *)
Definition missingIn (those these : gmap string foreignIndex) : gmap string foreignIndex :=
  filter (λ entry, those !! entry.1 ≠ Some entry.2) these.

(** ** Properties *)

Lemma diff_fold (l : list (string * foreignIndex)) :
  NoDup l.*1 →
  ∀ (add drop : gmap string foreignIndex) (k : string),
    (fold_left diffStep l (add, drop)).1 !! k
    = match (list_to_map l : gmap string foreignIndex) !! k with
      | Some v => if decide (add !! k = Some v) then None else add !! k
      | None => add !! k
      end
    ∧ (fold_left diffStep l (add, drop)).2 !! k
      = match (list_to_map l : gmap string foreignIndex) !! k with
        | Some v => if decide (add !! k = Some v) then drop !! k else Some v
        | None => drop !! k
        end.
Proof.
  induction l as [|[k0 v0] l IH]; intros Hnd add drop k; [done|].
  cbn [fmap list_fmap fst] in Hnd. apply NoDup_cons in Hnd as [Hk0 Hnd].
  cbn [fold_left list_to_map foldr uncurry]. 
  destruct (IH Hnd (diffStep (add, drop) (k0, v0)).1 (diffStep (add, drop) (k0, v0)).2 k)
    as [H1 H2].
  rewrite <- surjective_pairing in H1, H2. rewrite H1, H2. clear H1 H2 IH.
  unfold diffStep. cbn [fst snd].
  destruct (decide (k = k0)) as [->|Hne].
  - rewrite lookup_insert_eq.
    rewrite (not_elem_of_list_to_map_1 l k0 Hk0).
    destruct (add !! k0) as [current|] eqn:Hc.
    + destruct (decide (current = v0)) as [->|Hcv]; cbn [fst snd].
      * rewrite lookup_delete_eq. by case_decide.
      * rewrite Hc, lookup_insert_eq. case_decide; [congruence|done].
    + cbn [fst snd]. rewrite Hc, lookup_insert_eq. by case_decide.
  - rewrite lookup_insert_ne by done.
    destruct (add !! k0) as [current|] eqn:Hc.
    + destruct (decide (current = v0)) as [->|Hcv]; cbn [fst snd].
      * by rewrite lookup_delete_ne by done.
      * by rewrite lookup_insert_ne by done.
    + cbn [fst snd]. by rewrite lookup_insert_ne by done.
Qed.

Lemma diff_missing (declared existing : gmap string foreignIndex) :
  fold_left diffStep (map_to_list existing) (declared, ∅)
  = (missingIn existing declared, missingIn declared existing).
Proof.
  pose proof (diff_fold (map_to_list existing) (NoDup_fst_map_to_list existing)
                declared ∅) as Hfold.
  rewrite list_to_map_to_list in Hfold.
  rewrite (surjective_pairing (fold_left _ _ _)). f_equal; apply map_eq; intros k;
    destruct (Hfold k) as [H1 H2]; clear Hfold; unfold missingIn; rewrite map_lookup_filter.
  - rewrite H1. destruct (declared !! k) as [d|] eqn:Hd; cbn.
    + destruct (existing !! k) as [v|] eqn:Hv.
      * destruct (decide (Some d = Some v)) as [[= ->]|Hne].
        -- rewrite option_guard_False; [done|]. cbn. rewrite ?Hv. naive_solver.
        -- rewrite option_guard_True; [done|]. cbn. rewrite ?Hv. naive_solver.
      * rewrite option_guard_True; [done|]. cbn. rewrite ?Hv. naive_solver.
    + by destruct (existing !! k).
  - rewrite H2, lookup_empty. destruct (existing !! k) as [v|] eqn:Hv; cbn; [|done].
    destruct (decide (declared !! k = Some v)) as [Heq|Hne].
    + rewrite option_guard_False; [done|]. cbn. naive_solver.
    + by rewrite option_guard_True.
Qed.

Lemma missingIn_same (m : gmap string foreignIndex) : missingIn m m = ∅.
Proof.
  apply map_eq. intros k. unfold missingIn.
  rewrite map_lookup_filter, lookup_empty.
  destruct (m !! k) as [v|] eqn:Hv; cbn; [|done].
  rewrite option_guard_False; [done|]. cbn. rewrite ?Hv. naive_solver.
Qed.

Lemma missingIn_empty_l (m : gmap string foreignIndex) : missingIn ∅ m = m.
Proof.
  apply map_eq. intros k. unfold missingIn. rewrite map_lookup_filter.
  destruct (m !! k) as [v|] eqn:Hv; cbn; [|done].
  rewrite option_guard_True; [done|]. cbn. by rewrite ?lookup_empty.
Qed.

Lemma missingIn_empty_r (m : gmap string foreignIndex) : missingIn m ∅ = ∅.
Proof. unfold missingIn. apply map_filter_empty. Qed.

#[local] Instance stringLe_total : Total stringLe.
Proof. intros a b. apply String.leb_total. Qed.

#[local] Instance stringLe_antisym : AntiSymm eq stringLe.
Proof. intros a b. apply String.leb_antisym. Qed.

#[local] Instance stringLe_trans : Transitive stringLe.
Proof.
  intros a b c. unfold stringLe, String.leb. intros Hab Hbc.
  destruct (String.compare a b) eqn:H1; [|clear Hab|done].
  - apply String.compare_eq_iff in H1 as ->. done.
  - destruct (String.compare b c) eqn:H2; [|clear Hbc|done].
    + apply String.compare_eq_iff in H2 as ->. by rewrite H1.
    + apply OrderedTypeEx.String_as_OT.cmp_lt in H1, H2.
      pose proof (OrderedTypeEx.String_as_OT.lt_trans _ _ _ H1 H2) as H3.
      apply OrderedTypeEx.String_as_OT.cmp_lt in H3.
      unfold OrderedTypeEx.String_as_OT.cmp in H3. by rewrite H3.
Qed.

Lemma sorted_whatever_the_order (values values' : list string) :
  values ≡ₚ values' → merge_sort stringLe values = merge_sort stringLe values'.
Proof.
  intros Hp. apply (StronglySorted_unique stringLe).
  - apply StronglySorted_merge_sort; apply _.
  - apply StronglySorted_merge_sort; apply _.
  - by rewrite !merge_sort_Permutation.
Qed.

(** The plugin drops the keys of the database that the entity does not
    declare as they are, and adds the keys the entity declares that the
    database does not hold as they are; a table that is not there yet has
    no key.  Each list goes into one safe alter, the drops before and the
    additions after, with the statements sorted, so that the text does not
    depend on the order in which the maps are ranged over.  When the
    database holds the declared keys, nothing is altered. *)
Theorem alters_difference (database tableName pool DBCreateSchema : string)
    (declared dbForeignKeys : gmap string foreignIndex) :
  let existing := if String.eqb DBCreateSchema "" then ∅ else dbForeignKeys in
  let alterSQL := "ALTER TABLE `" +:+ database +:+ "`.`" +:+ tableName +:+ "`"
                  +:+ newline in
  alters database tableName pool DBCreateSchema declared dbForeignKeys
  = (if decide (missingIn declared existing = ∅) then []
     else [alterOf pool alterSQL
             (map (λ entry, buildDropForeignKeySQL entry.1)
                (map_to_list (missingIn declared existing)))],
     if decide (missingIn existing declared = ∅) then []
     else [alterOf pool alterSQL
             (map (λ entry, buildCreateForeignKeySQL entry.1 entry.2)
                (map_to_list (missingIn existing declared)))])
  ∧ (declared = existing →
     alters database tableName pool DBCreateSchema declared dbForeignKeys = ([], []))
  ∧ (∀ values values', values ≡ₚ values' →
       alterOf pool alterSQL values = alterOf pool alterSQL values').
Proof.
  intros existing alterSQL.
  assert (Hmaps : (if String.eqb DBCreateSchema "" then (declared, ∅)
                   else fold_left diffStep (map_to_list dbForeignKeys) (declared, ∅))
                  = (missingIn existing declared, missingIn declared existing)).
  { unfold existing. destruct (String.eqb DBCreateSchema "").
    - by rewrite missingIn_empty_l, missingIn_empty_r.
    - apply diff_missing. }
  assert (Hform : alters database tableName pool DBCreateSchema declared dbForeignKeys
    = (if decide (missingIn declared existing = ∅) then []
       else [alterOf pool alterSQL
               (map (λ entry, buildDropForeignKeySQL entry.1)
                  (map_to_list (missingIn declared existing)))],
       if decide (missingIn existing declared = ∅) then []
       else [alterOf pool alterSQL
               (map (λ entry, buildCreateForeignKeySQL entry.1 entry.2)
                  (map_to_list (missingIn existing declared)))])).
  { unfold alters. rewrite Hmaps. cbn [fst snd]. fold alterSQL.
    destruct (decide (missingIn declared existing = ∅)) as [Hd|Hd];
      destruct (decide (missingIn existing declared = ∅)) as [Ha|Ha].
    - rewrite Hd, Ha. by rewrite map_size_empty.
    - rewrite Hd, map_size_empty. cbn [Nat.eqb Nat.ltb Nat.leb andb].
      apply map_size_non_empty_iff in Ha.
      destruct (size (missingIn existing declared)); [done|]. done.
    - rewrite Ha, map_size_empty. apply map_size_non_empty_iff in Hd.
      destruct (size (missingIn declared existing)); [done|]. done.
    - apply map_size_non_empty_iff in Ha, Hd.
      destruct (size (missingIn existing declared)); [done|].
      destruct (size (missingIn declared existing)); [done|]. done. }
  split; [exact Hform|]. split.
  - intros ->. rewrite Hform, missingIn_same. by rewrite !decide_True.
  - intros values values' Hp. unfold alterOf.
    by rewrite (sorted_whatever_the_order values values' Hp).
Qed.

(** The entity declares the keys of [Owner] and [Team]; the database holds
    the key of [Owner] with another rule and an old key of [Group]. *)
Definition keyOf (column table rule : string) : foreignIndex :=
  {| Column := column; Table := table; ParentDatabase := "app"; OnDelete := rule |}.

Definition declaredKeys : gmap string foreignIndex :=
  {[ "app:app.User:Owner" := keyOf "Owner" "User" "RESTRICT";
     "app:app.User:Team" := keyOf "Team" "Team" "RESTRICT" ]}.

Definition databaseKeys : gmap string foreignIndex :=
  {[ "app:app.User:Owner" := keyOf "Owner" "User" "CASCADE";
     "app:app.User:Group" := keyOf "Group" "Group" "RESTRICT" ]}.

Example alters_sample :
  map SQL (alters "app" "User" "default" "CREATE TABLE" declaredKeys databaseKeys).1
  = ["ALTER TABLE `app`.`User`" +:+ newline
     +:+ "DROP FOREIGN KEY `app:app.User:Group`," +:+ newline
     +:+ "DROP FOREIGN KEY `app:app.User:Owner`;"]
  ∧ length (alters "app" "User" "default" "CREATE TABLE" declaredKeys databaseKeys).2 = 1
  ∧ alters "app" "User" "default" "" declaredKeys databaseKeys
    = ([], (alters "app" "User" "default" "CREATE TABLE" declaredKeys ∅).2).
Proof. vm_compute. done. Qed.

End ForeignKeys.

(** * The metrics plugin: the slowest queries
      ([Handle], [insert], [findMin], [getChildren]) *)

Module SlowQueries.

Local Open Scope Z_scope.

(** An [int64] with its wrap-around. *)
Definition wrap64 (z : Z) : Z := (z + 2 ^ 63) mod 2 ^ 64 - 2 ^ 63.

(** [type MySQLSLowQuery struct]; [Duration] is a [time.Duration], an
    [int64] of nanoseconds. *)
Record MySQLSLowQuery : Type := { Query : string; Pool : string; Duration : Z }.

(** [Duration.Microseconds()] *)
Definition Microseconds (d : Z) : Z := Z.quot d 1000.

(** [type mySqlSlowQueryTreeNode struct]; [Nil] is the [nil] pointer. *)
Inductive mySqlSlowQueryTreeNode : Type :=
| Nil
| Node (value : MySQLSLowQuery) (left right : mySqlSlowQueryTreeNode).

Definition right (n : mySqlSlowQueryTreeNode) : mySqlSlowQueryTreeNode :=
  match n with
  | Nil => Nil
  | Node _ _ r => r
  end.

(** [insert] updates the nodes in place and returns its receiver, a new
    node for [nil]: the tree after the call. *)
Fixpoint insert (value : MySQLSLowQuery) (n : mySqlSlowQueryTreeNode)
  : mySqlSlowQueryTreeNode :=
  match n with
  | Nil => Node value Nil Nil
  | Node v l r =>
      if Duration value <? Duration v then Node v (insert value l) r
      else Node v l (insert value r)
  end.

(** [findMin(p)]: the leftmost node and its parent, [Nil] for none. *)
Fixpoint findMin (n p : mySqlSlowQueryTreeNode)
  : mySqlSlowQueryTreeNode * mySqlSlowQueryTreeNode :=
  match n with
  | Nil => (Nil, Nil)
  | Node _ l _ =>
      match l with
      | Nil => (n, p)
      | Node _ _ _ => findMin l n
      end
  end.

(** [parent.left = min.right], [parent] being the parent of the leftmost
    node of [n]: the tree [n] after the assignment. *)
Fixpoint detachMin (n : mySqlSlowQueryTreeNode) : mySqlSlowQueryTreeNode :=
  match n with
  | Nil => Nil
  | Node v l r =>
      match l with
      | Nil => r
      | Node _ _ _ => Node v (detachMin l) r
      end
  end.

(** [getChildren] *)
Fixpoint getChildren (n : mySqlSlowQueryTreeNode) : list MySQLSLowQuery :=
  match n with
  | Nil => []
  | Node v l r => getChildren r ++ [v] ++ getChildren l
  end.

(** What [Handle] reads of a log entry for the slow queries: the query in
    lower case, the pool, the microseconds, and whether the meta data say
    [lazy]. *)
Record logEntry : Type := {
  query : string;
  pool : string;
  microseconds : Z;
  lazy : bool;
}.

(** The part of [mySQLLogHandler] that holds the slow queries. *)
Record slowLog : Type := {
  slowQueries : mySqlSlowQueryTreeNode;
  slowQueriesCounter : Z;
}.

(** [time.Microsecond * time.Duration(t)] *)
Definition slowQueryOf (log : logEntry) : MySQLSLowQuery :=
  {| Query := query log; Pool := pool log;
     Duration := wrap64 (1000 * microseconds log) |}.

(** The first part of [Handle], with [mySQLSlowQueriesLimit]: the handler
    afterwards and the flag [slow]. *)
Definition HandleSlow (mySQLSlowQueriesLimit : Z) (ml : slowLog) (log : logEntry)
  : slowLog * bool :=
  if negb (lazy log) && (0 <? mySQLSlowQueriesLimit) then
    if slowQueriesCounter ml <? mySQLSlowQueriesLimit then
      ({| slowQueries := insert (slowQueryOf log) (slowQueries ml);
          slowQueriesCounter := slowQueriesCounter ml + 1 |}, false)
    else
      match slowQueries ml with
      | Nil => (ml, false)
      | Node _ _ _ =>
          match findMin (slowQueries ml) Nil with
          | (Node min _ _, parent) =>
              if Microseconds (Duration min) <=? microseconds log then
                let root :=
                  match parent with
                  | Nil => right (slowQueries ml)
                  | Node _ _ _ => detachMin (slowQueries ml)
                  end in
                (* [ml.slowQueries.insert(...)]: the node that a [nil]
                   receiver returns is dropped *)
                let root :=
                  match root with
                  | Nil => Nil
                  | Node _ _ _ => insert (slowQueryOf log) root
                  end in
                ({| slowQueries := root;
                    slowQueriesCounter := slowQueriesCounter ml |}, true)
              else (ml, false)
          | (Nil, _) => (ml, false)
          end
      end
  else (ml, false).

(** The handler as [Init] and [ClearMySQLSlowQueries] leave it. *)
Definition noSlowQueries : slowLog := {| slowQueries := Nil; slowQueriesCounter := 0 |}.

(** The handler after the log entries [logs]. *)
Definition handled (mySQLSlowQueriesLimit : Z) (logs : list logEntry) : slowLog :=
  fold_left (λ ml log, (HandleSlow mySQLSlowQueriesLimit ml log).1) logs noSlowQueries.

(** [GetMySQLSlowQueriesStats] *)
Definition GetMySQLSlowQueriesStats (ml : slowLog) : list MySQLSLowQuery :=
  getChildren (slowQueries ml).

(** ** The tree is a search tree *)

Fixpoint ordered (n : mySqlSlowQueryTreeNode) : Prop :=
  match n with
  | Nil => True
  | Node v l r =>
      (∀ x, x ∈ getChildren l → Duration x < Duration v)
      ∧ (∀ x, x ∈ getChildren r → Duration v ≤ Duration x)
      ∧ ordered l ∧ ordered r
  end.

Lemma getChildren_insert q n : getChildren (insert q n) ≡ₚ q :: getChildren n.
Proof.
  induction n as [|v l IHl r IHr]; [done|]. cbn [insert].
  destruct (Duration q <? Duration v); cbn [getChildren].
  - rewrite IHl. solve_Permutation.
  - rewrite IHr. solve_Permutation.
Qed.

Lemma ordered_insert q n : ordered n → ordered (insert q n).
Proof.
  induction n as [|v l IHl r IHr]; intros Hn.
  - cbn. repeat split; by intros x ?%elem_of_nil.
  - destruct Hn as (Hl & Hr & Hol & Hor). cbn [insert].
    destruct (Duration q <? Duration v) eqn:Hlt; cbn [ordered].
    + apply Z.ltb_lt in Hlt. repeat split; [|done|by apply IHl|done].
      intros x Hx. rewrite getChildren_insert in Hx.
      apply elem_of_cons in Hx as [->|Hx]; [done|by apply Hl].
    + apply Z.ltb_ge in Hlt. repeat split; [done| |done|by apply IHr].
      intros x Hx. rewrite getChildren_insert in Hx.
      apply elem_of_cons in Hx as [->|Hx]; [done|by apply Hr].
Qed.

(** The leftmost value. *)
Fixpoint leftmost (v : MySQLSLowQuery) (l : mySqlSlowQueryTreeNode) : MySQLSLowQuery :=
  match l with
  | Nil => v
  | Node v' l' _ => leftmost v' l'
  end.

Lemma findMin_leftmost v l r p :
  ∃ l' r', (findMin (Node v l r) p).1 = Node (leftmost v l) l' r'
           ∧ ((findMin (Node v l r) p).2 = Nil ↔ l = Nil ∧ p = Nil).
Proof.
  revert v r p. induction l as [|v' l' IHl r' _]; intros v r p.
  - cbn. exists Nil, r. split; [done|]. split; [by intros ->|by intros [_ ->]].
  - cbn [findMin leftmost]. destruct (IHl v' r' (Node v (Node v' l' r') r))
      as (l0 & r0 & H1 & H2).
    exists l0, r0. split; [done|]. rewrite H2. split; intros [? ?]; done.
Qed.

Lemma getChildren_detachMin v l r :
  getChildren (Node v l r) ≡ₚ leftmost v l :: getChildren (detachMin (Node v l r)).
Proof.
  revert v r. induction l as [|v' l' IHl r' _]; intros v r.
  - cbn. solve_Permutation.
  - cbn [detachMin leftmost]. change (getChildren (Node v (Node v' l' r') r))
      with (getChildren r ++ [v] ++ getChildren (Node v' l' r')).
    change (getChildren (Node v (detachMin (Node v' l' r')) r))
      with (getChildren r ++ [v] ++ getChildren (detachMin (Node v' l' r'))).
    rewrite (IHl v' r'). solve_Permutation.
Qed.

Lemma leftmost_least v l r :
  ordered (Node v l r) →
  ∀ x, x ∈ getChildren (Node v l r) → Duration (leftmost v l) ≤ Duration x.
Proof.
  revert v r. induction l as [|v' l' IHl r' _]; intros v r (Hl & Hr & Hol & Hor) x Hx.
  - cbn in Hx. rewrite ?app_nil_r in Hx. cbn [leftmost].
    apply elem_of_app in Hx as [Hx|Hx]; [by apply Hr|].
    apply list_elem_of_singleton in Hx as ->. lia.
  - cbn [leftmost].
    assert (Hv' : Duration (leftmost v' l') ≤ Duration v').
    { apply (IHl v' r' Hol). cbn [getChildren]. apply elem_of_app. right. left. }
    assert (Hvv : Duration v' < Duration v).
    { apply Hl. cbn [getChildren]. apply elem_of_app. right. left. }
    change (getChildren (Node v (Node v' l' r') r))
      with (getChildren r ++ [v] ++ getChildren (Node v' l' r')) in Hx.
    apply elem_of_app in Hx as [Hx|Hx]; [specialize (Hr x Hx); lia|].
    apply elem_of_app in Hx as [Hx|Hx].
    + apply list_elem_of_singleton in Hx as ->. lia.
    + by apply (IHl v' r' Hol).
Qed.

Lemma ordered_detachMin v l r : ordered (Node v l r) → ordered (detachMin (Node v l r)).
Proof.
  revert v r. induction l as [|v' l' IHl r' _]; intros v r (Hl & Hr & Hol & Hor).
  - done.
  - cbn [detachMin]. change (ordered (Node v (detachMin (Node v' l' r')) r)).
    cbn [ordered]. repeat split; [|done|by apply IHl|done].
    intros x Hx. apply Hl. rewrite (getChildren_detachMin v' l' r'). by right.
Qed.

Lemma getChildren_sorted n :
  ordered n → StronglySorted (λ a b, Duration b ≤ Duration a) (getChildren n).
Proof.
  induction n as [|v l IHl r IHr]; intros Hn; [constructor|].
  destruct Hn as (Hl & Hr & Hol & Hor). cbn [getChildren].
  apply StronglySorted_app_2; [|by apply IHr|].
  - intros a b Ha Hb. specialize (Hr a Ha). cbn [app] in Hb.
    apply elem_of_cons in Hb as [->|Hb]; [done|]. specialize (Hl b Hb). lia.
  - cbn [app]. constructor; [by apply IHl|].
    apply Forall_forall. intros x Hx. specialize (Hl x Hx). lia.
Qed.

(** ** What [Handle] keeps *)

Definition nonLazy (log : logEntry) : bool := negb (lazy log).

(** The slow queries of the log entries that are not lazy. *)
Definition candidates (logs : list logEntry) : list MySQLSLowQuery :=
  map slowQueryOf (filter (λ log, nonLazy log = true) logs).

(** The microseconds fit a [time.Duration]. *)
Definition inRange (log : logEntry) : Prop :=
  -9223372036854775 ≤ microseconds log ≤ 9223372036854775.

#[global] Instance inRange_dec (log : logEntry) : Decision (inRange log).
Proof. unfold inRange. apply _. Defined.

Lemma Duration_inRange log :
  inRange log →
  Duration (slowQueryOf log) = 1000 * microseconds log
  ∧ Microseconds (Duration (slowQueryOf log)) = microseconds log.
Proof.
  unfold inRange, slowQueryOf, wrap64, Microseconds. cbn [Duration]. intros Hr.
  assert (H : (1000 * microseconds log + 2 ^ 63) mod 2 ^ 64 - 2 ^ 63
              = 1000 * microseconds log).
  { rewrite Z.mod_small; lia. }
  rewrite H. split; [done|]. rewrite Z.mul_comm. apply Z.quot_mul. lia.
Qed.

Lemma HandleSlow_ordered limit ml log :
  ordered (slowQueries ml) → ordered (slowQueries (HandleSlow limit ml log).1).
Proof.
  intros Ho. unfold HandleSlow.
  destruct (negb (lazy log) && (0 <? limit)); [|done].
  destruct (slowQueriesCounter ml <? limit); [by apply ordered_insert|].
  destruct (slowQueries ml) as [|v l r] eqn:Htree; [cbn [fst]; by rewrite Htree|].
  destruct (findMin_leftmost v l r Nil) as (l' & r' & Hmin & Hparent).
  destruct (findMin (Node v l r) Nil) as [min parent]. cbn [fst snd] in Hmin, Hparent.
  subst min. destruct (Microseconds _ <=? microseconds log); [|cbn [fst]; by rewrite Htree].
  cbn [fst slowQueries].
  assert (Hroot : ordered (match parent with
                           | Nil => right (Node v l r)
                           | Node _ _ _ => detachMin (Node v l r)
                           end)).
  { destruct parent; [by destruct Ho as (_ & _ & _ & ?)|by apply ordered_detachMin]. }
  destruct (match parent with
            | Nil => right (Node v l r)
            | Node _ _ _ => detachMin (Node v l r)
            end); [done|by apply ordered_insert].
Qed.

Lemma HandleSlow_candidates limit ml log x :
  x ∈ getChildren (slowQueries (HandleSlow limit ml log).1) →
  x ∈ getChildren (slowQueries ml) ∨ (nonLazy log = true ∧ x = slowQueryOf log).
Proof.
  unfold HandleSlow, nonLazy. destruct (negb (lazy log)); [|by left]. cbn [andb].
  destruct (0 <? limit); [|by left].
  destruct (slowQueriesCounter ml <? limit).
  { cbn [fst slowQueries]. rewrite getChildren_insert.
    intros [->|Hx]%elem_of_cons; [by right|by left]. }
  destruct (slowQueries ml) as [|v l r] eqn:Htree; [cbn [fst]; rewrite Htree; by left|].
  destruct (findMin_leftmost v l r Nil) as (l' & r' & Hmin & Hparent).
  destruct (findMin (Node v l r) Nil) as [min parent]. cbn [fst snd] in Hmin, Hparent.
  subst min. destruct (Microseconds _ <=? microseconds log); [|cbn [fst]; rewrite Htree; by left].
  cbn [fst slowQueries].
  assert (Hroot : ∀ y, y ∈ getChildren (match parent with
                                        | Nil => right (Node v l r)
                                        | Node _ _ _ => detachMin (Node v l r)
                                        end) → y ∈ getChildren (Node v l r)).
  { intros y Hy. destruct parent.
    - cbn [right] in Hy. cbn [getChildren]. apply elem_of_app. by left.
    - rewrite (getChildren_detachMin v l r). by right. }
  destruct (match parent with
            | Nil => right (Node v l r)
            | Node _ _ _ => detachMin (Node v l r)
            end) as [|v0 l0 r0]; [by intros ?%elem_of_nil|].
  rewrite getChildren_insert. intros [->|Hx]%elem_of_cons; [by right|].
  left. by apply Hroot.
Qed.

(** What is reported is sorted, the slowest query first, and holds queries
    of log entries that are not lazy only; nothing is reported without a
    limit. *)
Theorem slow_queries_sorted (mySQLSlowQueriesLimit : Z) (logs : list logEntry) :
  StronglySorted (λ a b, Duration b ≤ Duration a)
    (GetMySQLSlowQueriesStats (handled mySQLSlowQueriesLimit logs))
  ∧ (∀ x, x ∈ GetMySQLSlowQueriesStats (handled mySQLSlowQueriesLimit logs) →
          x ∈ candidates logs)
  ∧ (mySQLSlowQueriesLimit ≤ 0 →
     GetMySQLSlowQueriesStats (handled mySQLSlowQueriesLimit logs) = []).
Proof.
  unfold GetMySQLSlowQueriesStats, handled.
  assert (H : ∀ ml seen,
            ordered (slowQueries ml) →
            (∀ x, x ∈ getChildren (slowQueries ml) → x ∈ seen) →
            let ml' := fold_left (λ ml log, (HandleSlow mySQLSlowQueriesLimit ml log).1)
                         logs ml in
            ordered (slowQueries ml')
            ∧ (∀ x, x ∈ getChildren (slowQueries ml') → x ∈ seen ++ candidates logs)
            ∧ (mySQLSlowQueriesLimit ≤ 0 → slowQueries ml' = slowQueries ml)).
  { induction logs as [|log logs IH]; intros ml seen Ho Hseen.
    - cbn. rewrite app_nil_r. done.
    - cbn [fold_left].
      destruct (IH (HandleSlow mySQLSlowQueriesLimit ml log).1
                  (seen ++ candidates [log])) as (H1 & H2 & H3).
      + by apply HandleSlow_ordered.
      + intros x Hx. apply HandleSlow_candidates in Hx as [Hx|[Hl ->]].
        * apply elem_of_app. left. by apply Hseen.
        * apply elem_of_app. right. unfold candidates.
          rewrite filter_cons_True by done. cbn. left.
      + split; [done|]. split.
        * intros x Hx. specialize (H2 x Hx). rewrite <- app_assoc in H2.
          unfold candidates in *. rewrite <- map_app, <- filter_app in H2. done.
        * intros Hle. rewrite (H3 Hle). unfold HandleSlow.
          assert ((0 <? mySQLSlowQueriesLimit) = false) as -> by (apply Z.ltb_ge; lia).
          by rewrite andb_false_r. }
  destruct (H noSlowQueries []) as (H1 & H2 & H3); [done|by intros x ?%elem_of_nil|].
  split; [by apply getChildren_sorted|]. split; [exact H2|].
  intros Hle. by rewrite (H3 Hle).
Qed.

(** What holds of the handler, [seen] being the queries that are not lazy
    so far. *)
Record tracked (limit : Z) (seen : list MySQLSLowQuery) (ml : slowLog) : Prop := {
  tracked_ordered : ordered (slowQueries ml);
  tracked_counter :
    slowQueriesCounter ml = Z.of_nat (length (getChildren (slowQueries ml)));
  tracked_length :
    length (getChildren (slowQueries ml)) = Nat.min (length seen) (Z.to_nat limit);
  tracked_exact :
    ∀ x, x ∈ getChildren (slowQueries ml) →
         Duration x = 1000 * Microseconds (Duration x);
  tracked_kept :
    ∃ dropped,
      seen ≡ₚ getChildren (slowQueries ml) ++ dropped
      ∧ ∀ x y, x ∈ dropped → y ∈ getChildren (slowQueries ml) →
               Duration x ≤ Duration y;
}.

Lemma HandleSlow_tracked limit seen ml log :
  2 ≤ limit → inRange log → tracked limit seen ml →
  tracked limit (seen ++ candidates [log]) (HandleSlow limit ml log).1.
Proof.
  intros Hlimit Hrange [Ho Hc Hlen Hexact (dropped & Hperm & Hleast)].
  destruct (Duration_inRange log Hrange) as [Hd Hm].
  unfold HandleSlow, candidates, nonLazy.
  destruct (negb (lazy log)) eqn:Hlazy; cbn [andb].
  2:{ rewrite filter_cons_False by (by rewrite Hlazy). cbn. rewrite app_nil_r.
      split; try done. by exists dropped. }
  rewrite filter_cons_True by done. cbn [filter list_filter map].
  assert ((0 <? limit) = true) as -> by (apply Z.ltb_lt; lia).
  destruct (slowQueriesCounter ml <? limit) eqn:Hcount; cbn [fst].
  - apply Z.ltb_lt in Hcount. cbn [slowQueries slowQueriesCounter].
    assert (Hl : length (getChildren (insert (slowQueryOf log) (slowQueries ml)))
                 = S (length (getChildren (slowQueries ml)))).
    { by rewrite getChildren_insert. }
    split; cbn [slowQueries slowQueriesCounter].
    + by apply ordered_insert.
    + rewrite Hl. lia.
    + rewrite Hl, length_app. cbn [length]. lia.
    + intros x. rewrite getChildren_insert. intros [->|Hx]%elem_of_cons.
      * by rewrite Hm.
      * by apply Hexact.
    + exists dropped. split.
      * rewrite getChildren_insert, Hperm. solve_Permutation.
      * intros x y Hx. rewrite getChildren_insert. intros [->|Hy]%elem_of_cons.
        -- apply Permutation_length in Hperm. rewrite length_app in Hperm.
           assert (length dropped = 0%nat) by lia.
           destruct dropped; [by apply elem_of_nil in Hx|done].
        -- by apply Hleast.
  - apply Z.ltb_ge in Hcount.
    assert (Hfull : length (getChildren (slowQueries ml)) = Z.to_nat limit) by lia.
    destruct (slowQueries ml) as [|v l r] eqn:Htree.
    { cbn in Hfull. lia. }
    destruct (findMin_leftmost v l r Nil) as (l' & r' & Hmin & Hparent).
    destruct (findMin (Node v l r) Nil) as [min parent]. cbn [fst snd] in Hmin, Hparent.
    subst min.
    assert (Hin : leftmost v l ∈ getChildren (Node v l r)).
    { rewrite (getChildren_detachMin v l r). left. }
    pose proof (leftmost_least v l r Ho) as Hleastmin.
    destruct (Microseconds (Duration (leftmost v l)) <=? microseconds log) eqn:Hcmp.
    + apply Z.leb_le in Hcmp.
      assert (Hle : Duration (leftmost v l) ≤ Duration (slowQueryOf log)).
      { rewrite (Hexact _ Hin), Hd. lia. }
      assert (Hroot : match parent with
                      | Nil => right (Node v l r)
                      | Node _ _ _ => detachMin (Node v l r)
                      end = detachMin (Node v l r)).
      { destruct parent; [|done]. destruct Hparent as [Hp _].
        destruct (Hp eq_refl) as [-> _]. done. }
      rewrite Hroot. clear Hroot.
      pose proof (getChildren_detachMin v l r) as Hdet.
      pose proof (ordered_detachMin v l r Ho) as Hodet.
      assert (Hldet : length (getChildren (detachMin (Node v l r)))
                      = (Z.to_nat limit - 1)%nat).
      { apply Permutation_length in Hdet. cbn [length] in Hdet. lia. }
      destruct (detachMin (Node v l r)) as [|v0 l0 r0] eqn:Hdm.
      { cbn in Hldet. lia. }
      cbn [fst slowQueries slowQueriesCounter].
      assert (Hl : length (getChildren (insert (slowQueryOf log) (Node v0 l0 r0)))
                   = Z.to_nat limit).
      { rewrite getChildren_insert. cbn [length]. rewrite Hldet. lia. }
      split; cbn [slowQueries slowQueriesCounter].
      * by apply ordered_insert.
      * rewrite Hl, Hc, Hfull. done.
      * rewrite Hl, length_app. cbn [length]. lia.
      * intros x. rewrite getChildren_insert. intros [->|Hx]%elem_of_cons.
        -- by rewrite Hm.
        -- apply Hexact. rewrite Hdet. by right.
      * exists (leftmost v l :: dropped). split.
        -- rewrite getChildren_insert, Hperm, Hdet. solve_Permutation.
        -- intros x y Hx. rewrite getChildren_insert.
           intros Hy. apply elem_of_cons in Hx as [->|Hx];
             apply elem_of_cons in Hy as [->|Hy].
           ++ done.
           ++ apply Hleastmin. rewrite Hdet. by right.
           ++ specialize (Hleast x _ Hx Hin). lia.
           ++ apply (Hleast x y Hx). rewrite Hdet. by right.
    + apply Z.leb_gt in Hcmp. cbn [fst].
      assert (Hlt : Duration (slowQueryOf log) < Duration (leftmost v l)).
      { rewrite (Hexact _ Hin), Hd. lia. }
      split; rewrite ?Htree; try done.
      * rewrite length_app. cbn [length]. lia.
      * exists (slowQueryOf log :: dropped). split.
        -- rewrite Hperm. solve_Permutation.
        -- intros x y [->|Hx]%elem_of_cons Hy.
           ++ specialize (Hleastmin y Hy). lia.
           ++ by apply Hleast.
Qed.

Lemma handled_tracked limit logs : ∀ seen ml,
  2 ≤ limit → Forall inRange logs → tracked limit seen ml →
  tracked limit (seen ++ candidates logs)
    (fold_left (λ ml log, (HandleSlow limit ml log).1) logs ml).
Proof.
  induction logs as [|log logs IH]; intros seen ml Hlimit Hrange Ht.
  - cbn. by rewrite app_nil_r.
  - apply Forall_cons in Hrange as [Hlog Hrange]. cbn [fold_left].
    pose proof (IH _ _ Hlimit Hrange (HandleSlow_tracked _ _ _ _ Hlimit Hlog Ht)) as H.
    rewrite <- app_assoc in H. unfold candidates in *.
    by rewrite <- map_app, <- filter_app in H.
Qed.

(** With a limit of two or more, the handler keeps the slowest queries
    that are not lazy, as many as the limit allows: every query it has let
    go took no longer than any query it reports.  The microseconds fit a
    [time.Duration]. *)
Theorem slowest_queries_kept (mySQLSlowQueriesLimit : Z) (logs : list logEntry) :
  2 ≤ mySQLSlowQueriesLimit → Forall inRange logs →
  let stats := GetMySQLSlowQueriesStats (handled mySQLSlowQueriesLimit logs) in
  length stats = Nat.min (length (candidates logs)) (Z.to_nat mySQLSlowQueriesLimit)
  ∧ ∃ dropped,
      candidates logs ≡ₚ stats ++ dropped
      ∧ ∀ x y, x ∈ dropped → y ∈ stats → Duration x ≤ Duration y.
Proof.
  intros Hlimit Hrange.
  destruct (handled_tracked mySQLSlowQueriesLimit logs [] noSlowQueries Hlimit Hrange)
    as [_ _ Hlen _ Hkept].
  - split; try done.
    + intros x ?%elem_of_nil. done.
    + exists []. split; [done|]. by intros x y ?%elem_of_nil.
  - split; [exact Hlen|exact Hkept].
Qed.

Definition sampleLog (name : string) (t : Z) (isLazy : bool) : logEntry :=
  {| query := name; pool := "default"; microseconds := t; lazy := isLazy |}.

Definition sampleLogs : list logEntry :=
  [ sampleLog "a" 30 false; sampleLog "b" 10 false; sampleLog "c" 99 true;
    sampleLog "d" 20 false; sampleLog "e" 30 false; sampleLog "f" 5 false ].

Lemma slowest_queries_kept_witness :
  let stats := GetMySQLSlowQueriesStats (handled 3 sampleLogs) in
  length stats = Nat.min (length (candidates sampleLogs)) (Z.to_nat 3)
  ∧ ∃ dropped,
      candidates sampleLogs ≡ₚ stats ++ dropped
      ∧ ∀ x y, x ∈ dropped → y ∈ stats → Duration x ≤ Duration y.
Proof.
  apply (slowest_queries_kept 3 sampleLogs).
  - lia.
  - eapply (bool_decide_unpack _). vm_compute. reflexivity.
Defined.

Example sampleLogs_stats :
  map Query (GetMySQLSlowQueriesStats (handled 3 sampleLogs)) = ["e"; "a"; "d"].
Proof. vm_compute. reflexivity. Qed.

(** ** A limit of one *)

Lemma HandleSlow_forgotten log ml :
  slowQueries ml = Nil → slowQueriesCounter ml = 1 →
  (HandleSlow 1 ml log).1 = ml.
Proof.
  intros Ht Hc. unfold HandleSlow. rewrite Ht, Hc.
  destruct (negb (lazy log) && (0 <? 1)); done.
Qed.

Lemma handled_forgotten logs : ∀ ml,
  slowQueries ml = Nil → slowQueriesCounter ml = 1 →
  fold_left (λ ml log, (HandleSlow 1 ml log).1) logs ml = ml.
Proof.
  induction logs as [|log logs IH]; intros ml Ht Hc; [done|].
  cbn [fold_left]. rewrite (HandleSlow_forgotten log ml Ht Hc). by apply IH.
Qed.

Definition single (q : MySQLSLowQuery) : slowLog :=
  {| slowQueries := Node q Nil Nil; slowQueriesCounter := 1 |}.

Definition forgotten : slowLog := {| slowQueries := Nil; slowQueriesCounter := 1 |}.

Lemma HandleSlow_single q log :
  (HandleSlow 1 (single q) log).1
  = if nonLazy log && (Microseconds (Duration q) <=? microseconds log)
    then forgotten else single q.
Proof.
  unfold HandleSlow, nonLazy. destruct (negb (lazy log)); [|done].
  cbn. by destruct (Microseconds (Duration q) <=? microseconds log).
Qed.

(** With a limit of one the handler reports the first query that is not
    lazy until another one that took at least as long comes by; from then
    on it reports nothing, whatever it is handed. *)
Theorem limit_one_forgets (first later : logEntry) (between after : list logEntry) :
  nonLazy first = true → nonLazy later = true → inRange first →
  microseconds first ≤ microseconds later →
  GetMySQLSlowQueriesStats (handled 1 [first]) = [slowQueryOf first]
  ∧ GetMySQLSlowQueriesStats (handled 1 (first :: between ++ later :: after)) = [].
Proof.
  intros Hfirst Hlater Hrange Hle. unfold GetMySQLSlowQueriesStats, handled.
  assert (H1 : (HandleSlow 1 noSlowQueries first).1 = single (slowQueryOf first)).
  { unfold HandleSlow. unfold nonLazy in Hfirst. rewrite Hfirst. done. }
  cbn [fold_left]. rewrite H1. split; [done|].
  rewrite fold_left_app. cbn [fold_left].
  destruct (Duration_inRange first Hrange) as [_ Hm].
  assert (H2 : ∀ logs,
            let ml := fold_left (λ ml log, (HandleSlow 1 ml log).1) logs
                        (single (slowQueryOf first)) in
            ml = single (slowQueryOf first) ∨ ml = forgotten).
  { intros logs. induction logs as [|log logs IH] using rev_ind; [by left|].
    cbn zeta in *. rewrite fold_left_app. cbn [fold_left].
    destruct IH as [-> | ->].
    - rewrite HandleSlow_single. destruct (_ && _); [by right|by left].
    - right. by apply HandleSlow_forgotten. }
  assert (H3 : (HandleSlow 1
                  (fold_left (λ ml log, (HandleSlow 1 ml log).1) between
                     (single (slowQueryOf first))) later).1 = forgotten).
  { destruct (H2 between) as [-> | ->].
    - rewrite HandleSlow_single, Hlater, Hm. cbn [andb].
      by rewrite (proj2 (Z.leb_le _ _) Hle).
    - by apply HandleSlow_forgotten. }
  rewrite H3. by rewrite handled_forgotten.
Qed.

Lemma limit_one_forgets_witness :
  GetMySQLSlowQueriesStats (handled 1 [sampleLog "a" 30 false])
  = [slowQueryOf (sampleLog "a" 30 false)]
  ∧ GetMySQLSlowQueriesStats
      (handled 1 (sampleLog "a" 30 false
                  :: [sampleLog "b" 10 false] ++ sampleLog "e" 30 false
                  :: [sampleLog "g" 80 false])) = [].
Proof.
  apply (limit_one_forgets (sampleLog "a" 30 false) (sampleLog "e" 30 false)
           [sampleLog "b" 10 false] [sampleLog "g" 80 false]).
  - reflexivity.
  - reflexivity.
  - unfold inRange. cbn. lia.
  - cbn. lia.
Defined.

End SlowQueries.
